(** * supabase-auth-seeder: a shallow embedding of the seeding utility

    The development follows the TypeScript sources:
    - [Utils], [UtilsNum] : utils.ts (record generator, ETA, percentage)
    - [Config]  : config.ts  (configuration record and [validateConfig])
    - [Seeder]  : seeder.ts  (the concurrent runner)
    - [BatchSeeder] : batch-seeder.ts (the chunked runner)
    - [ConservativeSeeder] : conservative-seeder.ts
    - [Index]   : index.ts and the [main] functions of the two other
                  entry points
    - [Stubs]   : remote services, hosts and configurations used in the
                  scenarios
    - [Inv]     : the vocabulary of the statements.

    Conventions.  JavaScript numbers that hold counts are integers here
    ([Z]; [N] and [nat] for clock readings and loop indices that are
    never negative); the two functions that divide ([calculateETA] and
    [calculatePercentage]) work on Number values, with every operation
    rounded as IEEE 754 binary64 arithmetic rounds it ([IEEE]).  Strings
    are [string], exceptions are values of [thrown], and code that
    mutates the seeder object or talks to the remote service is written
    in a small state-and-exception monad over the record [World].  Console output and the progress bar are
    not modelled, except for what [main] reports when it fails. *)

From Stdlib Require Import ZArith NArith List String Ascii Bool Lia.
From Stdlib Require Import DecimalString DecimalN.
From Stdlib Require Import QArith Qround Qabs Qpower FinFun Lqa Permutation.
Import ListNotations.

Local Open Scope string_scope.
Local Open Scope Z_scope.

(* ================================================================== *)
(** ** JavaScript string primitives used by the sources *)

Module JS.

(** [`${n}`] for a non-negative integer [n]. *)
Definition Number_toString (n : N) : string :=
  NilEmpty.string_of_uint (N.to_uint n).

(** [`${z}`] for an integer [z]. *)
Definition Int_toString (z : Z) : string :=
  match z with
  | Zneg p => "-" ++ Number_toString (Npos p)
  | _ => Number_toString (Z.to_N z)
  end.

Definition toLowerCase_ascii (c : ascii) : ascii :=
  let n := nat_of_ascii c in
  if ((65 <=? n)%nat && (n <=? 90)%nat)%bool
  then ascii_of_nat (n + 32) else c.

(** [s.toLowerCase()] on ASCII text. *)
Fixpoint toLowerCase (s : string) : string :=
  match s with
  | EmptyString => EmptyString
  | String c s' => String (toLowerCase_ascii c) (toLowerCase s')
  end.

(** [s.includes(sub)]: [sub] occurs somewhere in [s]. *)
Fixpoint includes (s sub : string) : bool :=
  String.prefix sub s ||
  match s with
  | EmptyString => false
  | String _ s' => includes s' sub
  end.

(** [c] does not occur in [s]. *)
Fixpoint lacks (c : ascii) (s : string) : Prop :=
  match s with
  | EmptyString => True
  | String d s' => d <> c /\ lacks c s'
  end.

End JS.

(* ================================================================== *)
(** ** utils.ts *)

Module Utils.

Record UserMetadata := {
  first_name : string;
  last_name : string;
  email_verified : bool
}.

Record UserData := {
  email : string;
  password : string;
  user_metadata : UserMetadata
}.

Definition firstNames : list string := [
  "John"; "Jane"; "Michael"; "Sarah"; "David"; "Emily"; "James"; "Jessica"; "Robert"; "Ashley";
  "William"; "Amanda"; "Richard"; "Jennifer"; "Charles"; "Michelle"; "Thomas"; "Kimberly"; "Christopher"; "Donna";
  "Daniel"; "Lisa"; "Matthew"; "Nancy"; "Anthony"; "Karen"; "Mark"; "Betty"; "Donald"; "Helen";
  "Steven"; "Sandra"; "Paul"; "Donna"; "Andrew"; "Carol"; "Joshua"; "Ruth"; "Kenneth"; "Sharon";
  "Kevin"; "Michelle"; "Brian"; "Laura"; "George"; "Sarah"; "Edward"; "Kimberly"; "Ronald"; "Deborah";
  "Timothy"; "Dorothy"; "Jason"; "Lisa"; "Jeffrey"; "Nancy"; "Ryan"; "Karen"; "Jacob"; "Betty";
  "Gary"; "Helen"; "Nicholas"; "Sandra"; "Eric"; "Donna"; "Jonathan"; "Carol"; "Stephen"; "Ruth";
  "Larry"; "Sharon"; "Justin"; "Michelle"; "Scott"; "Laura"; "Brandon"; "Sarah"; "Benjamin"; "Kimberly";
  "Samuel"; "Deborah"; "Gregory"; "Dorothy"; "Alexander"; "Lisa"; "Patrick"; "Nancy"; "Jack"; "Karen"
].

Definition lastNames : list string := [
  "Smith"; "Johnson"; "Williams"; "Brown"; "Jones"; "Garcia"; "Miller"; "Davis"; "Rodriguez"; "Martinez";
  "Hernandez"; "Lopez"; "Gonzalez"; "Wilson"; "Anderson"; "Thomas"; "Taylor"; "Moore"; "Jackson"; "Martin";
  "Lee"; "Perez"; "Thompson"; "White"; "Harris"; "Sanchez"; "Clark"; "Ramirez"; "Lewis"; "Robinson";
  "Walker"; "Young"; "Allen"; "King"; "Wright"; "Scott"; "Torres"; "Nguyen"; "Hill"; "Flores";
  "Green"; "Adams"; "Nelson"; "Baker"; "Hall"; "Rivera"; "Campbell"; "Mitchell"; "Carter"; "Roberts";
  "Gomez"; "Phillips"; "Evans"; "Turner"; "Diaz"; "Parker"; "Cruz"; "Edwards"; "Collins"; "Reyes";
  "Stewart"; "Morris"; "Morales"; "Murphy"; "Cook"; "Rogers"; "Gutierrez"; "Ortiz"; "Morgan"; "Cooper";
  "Peterson"; "Bailey"; "Reed"; "Kelly"; "Howard"; "Ramos"; "Kim"; "Cox"; "Ward"; "Richardson";
  "Watson"; "Brooks"; "Chavez"; "Wood"; "James"; "Bennett"; "Gray"; "Mendoza"; "Ruiz"; "Hughes"
].

(** What one call of [generateUserBatch] reads from its environment:
    the clock ([Date.now()], read once) and, for the record of index
    [i], the two table positions
    [Math.floor(Math.random() * table.length)]. *)
Record GenEnv := {
  now : N;
  first_pick : nat -> nat;
  last_pick : nat -> nat
}.

(** Body of the [for] loop of [generateUserBatch] at index [i]. *)
Definition generateUser (g : GenEnv) (emailDomain defaultPassword : string)
           (i : nat) : UserData :=
  let firstName := nth (first_pick g i) firstNames "" in
  let lastName := nth (last_pick g i) lastNames "" in
  let uniqueId :=
    JS.Number_toString (now g) ++ "-" ++ JS.Number_toString (N.of_nat i) in
  let email :=
    (JS.toLowerCase firstName ++ "." ++ JS.toLowerCase lastName ++ "."
       ++ uniqueId) ++ "@" ++ emailDomain in
  {| email := email;
     password := defaultPassword;
     user_metadata := {| first_name := firstName;
                         last_name := lastName;
                         email_verified := true |} |}.

(** [generateUserBatch(batchSize, emailDomain, defaultPassword)]:
    [i] runs over [0 <= i < batchSize]. *)
Definition generateUserBatch (g : GenEnv) (batchSize : Z)
           (emailDomain defaultPassword : string) : list UserData :=
  map (generateUser g emailDomain defaultPassword)
      (seq 0 (Z.to_nat batchSize)).

End Utils.

(* ================================================================== *)
(** ** Functions of JavaScript whose result is exact *)

Module Num.

Local Open Scope Q_scope.

(** [Math.floor]. *)
Definition Math_floor (x : Q) : Z := Qfloor x.

(** [Math.round]: the nearest integer, ties towards +infinity. *)
Definition Math_round (x : Q) : Z := Qfloor (x + (1 # 2)).

(** [Math.trunc], used by the remainder operator. *)
Definition trunc (x : Q) : Z :=
  if Qle_bool 0 x then Qfloor x else Qceiling x.

(** The remainder operator [x % m] of JavaScript: the result has the
    sign of the dividend. *)
Definition rem (x m : Q) : Q := x - m * inject_Z (trunc (x / m)).

(** [Math.ceil(a / b)] for integers [a] and [b <> 0].  (For [b = 0] the
    JavaScript quotient is an infinity or NaN; every statement below
    that uses [ceil_div] carries [1 <= b].) *)
Definition ceil_div (a b : Z) : Z := (- ((- a) / b))%Z.

End Num.

(* ================================================================== *)
(** ** JavaScript numbers: IEEE 754 binary64 *)

Module IEEE.

Local Open Scope Q_scope.

Definition pow2 (e : Z) : Q := 2 ^ e.

(** The binary exponent of [q > 0]: the [e] with
    [2 ^ e <= q < 2 ^ (e + 1)]. *)
Definition ilog2 (q : Q) : Z :=
  let e0 := (Z.log2 (Qnum q) - Z.log2 (Zpos (Qden q)))%Z in
  if Qle_bool (pow2 e0) q then e0 else (e0 - 1)%Z.

(** The nearest integer, ties to the even one. *)
Definition rne (x : Q) : Z :=
  let f := Qfloor x in
  match Qcompare (x - inject_Z f) (1 # 2) with
  | Lt => f
  | Gt => (f + 1)%Z
  | Eq => if Z.even f then f else (f + 1)%Z
  end.

(** The exponent of the unit in the last place of the doubles next to
    [q <> 0]: 53 bits of mantissa, and the fixed spacing [2 ^ -1074]
    of the subnormal numbers below [2 ^ -1022]. *)
Definition ulp_exponent (q : Q) : Z :=
  (Z.max (ilog2 (Qabs q)) (-1022) - 52)%Z.

(** Rounding to nearest, ties to even, with the exponent not bounded
    above. *)
Definition nearest (q : Q) : Q :=
  if Qeq_bool q 0 then 0
  else inject_Z (rne (q / pow2 (ulp_exponent q))) * pow2 (ulp_exponent q).

(** [q] is an integer multiple of [2 ^ g]. *)
Definition multiple_of (q : Q) (g : Z) : Prop :=
  exists m : Z, q == inject_Z m * pow2 g.

(** A Number value: a finite double (the rational it denotes, [Fin 0]
    being +0), -0, the infinities and NaN. *)
Inductive Number :=
| Fin (q : Q)
| NegZero
| PInf
| NInf
| NaN.

(** [x] is the finite Number that denotes [v]. *)
Definition is_number (x : Number) (v : Q) : Prop :=
  exists q : Q, x = Fin q /\ q == v.

Definition Qltb (a b : Q) : bool := negb (Qle_bool b a).

Definition value (x : Number) : Q :=
  match x with Fin q => q | _ => 0 end.

Definition is_zero (x : Number) : bool :=
  match x with
  | Fin q => Qeq_bool q 0
  | NegZero => true
  | _ => false
  end.

(** The sign bit. *)
Definition negative (x : Number) : bool :=
  match x with
  | Fin q => Qltb q 0
  | NegZero | NInf => true
  | PInf | NaN => false
  end.

Definition zero (neg : bool) : Number := if neg then NegZero else Fin 0.
Definition inf (neg : bool) : Number := if neg then NInf else PInf.

(** The Number for the exact result [q] of an operation: the nearest
    double, an infinity when that is [2 ^ 1024] or more in magnitude,
    and a zero of the sign of [q] when it underflows. *)
Definition fl (q : Q) : Number :=
  let r := nearest q in
  if Qle_bool (pow2 1024) (Qabs r) then inf (Qltb q 0)
  else if Qeq_bool r 0 then zero (Qltb q 0)
  else Fin r.

(** The Number for an integer. *)
Definition of_Z (z : Z) : Number := fl (inject_Z z).

(** [x / y]. *)
Definition div (x y : Number) : Number :=
  let s := xorb (negative x) (negative y) in
  match x, y with
  | NaN, _ | _, NaN => NaN
  | (PInf | NInf), (PInf | NInf) => NaN
  | (PInf | NInf), _ => inf s
  | _, (PInf | NInf) => zero s
  | _, _ =>
      if is_zero y then (if is_zero x then NaN else inf s)
      else if is_zero x then zero s
      else fl (value x / value y)
  end.

(** [x * y]. *)
Definition mul (x y : Number) : Number :=
  let s := xorb (negative x) (negative y) in
  match x, y with
  | NaN, _ | _, NaN => NaN
  | (PInf | NInf), _ => if is_zero y then NaN else inf s
  | _, (PInf | NInf) => if is_zero x then NaN else inf s
  | _, _ =>
      if is_zero x || is_zero y then zero s
      else fl (value x * value y)
  end.

(** [- x]. *)
Definition neg (x : Number) : Number :=
  match x with
  | Fin q => if Qeq_bool q 0 then NegZero else Fin (- q)
  | NegZero => Fin 0
  | PInf => NInf
  | NInf => PInf
  | NaN => NaN
  end.

(** [x + y]; an exact sum of zero is +0 unless both operands are -0. *)
Definition add (x y : Number) : Number :=
  match x, y with
  | NaN, _ | _, NaN => NaN
  | PInf, NInf | NInf, PInf => NaN
  | (PInf | NInf), _ => x
  | _, (PInf | NInf) => y
  | _, _ =>
      if is_zero x && is_zero y then zero (negative x && negative y)
      else if Qeq_bool (value x + value y) 0 then Fin 0
      else fl (value x + value y)
  end.

(** [x - y]. *)
Definition sub (x y : Number) : Number := add x (neg y).

(** [Math.floor(x)]. *)
Definition floor (x : Number) : Number :=
  match x with
  | Fin q => Fin (inject_Z (Num.Math_floor q))
  | _ => x
  end.

(** [Math.round(x)]: the nearest integer, ties towards +infinity; -0
    for [-0.5 <= x < 0]. *)
Definition round (x : Number) : Number :=
  match x with
  | Fin q =>
      if (Num.Math_round q =? 0)%Z && Qltb q 0 then NegZero
      else Fin (inject_Z (Num.Math_round q))
  | _ => x
  end.

(** [x % y]: exact, with the sign of the dividend. *)
Definition rem (x y : Number) : Number :=
  match x, y with
  | NaN, _ | _, NaN => NaN
  | (PInf | NInf), _ => NaN
  | _, (PInf | NInf) => x
  | _, _ =>
      if is_zero y then NaN
      else if is_zero x then x
      else if Qeq_bool (Num.rem (value x) (value y)) 0
           then zero (negative x)
           else Fin (Num.rem (value x) (value y))
  end.

(** [x > y]. *)
Definition gt (x y : Number) : bool :=
  match x, y with
  | NaN, _ | _, NaN => false
  | PInf, PInf => false
  | PInf, _ => true
  | _, PInf => false
  | NInf, _ => false
  | _, NInf => true
  | _, _ => Qltb (value y) (value x)
  end.

(** [`${x}`].  An integer of magnitude up to [2 ^ 53] is printed with
    its decimal digits; the digits of every other finite value are
    those of the shortest decimal numeral that reads back as the same
    double, computed by [digits], which is left open. *)
Definition Number_toString (digits : Q -> string) (x : Number) : string :=
  match x with
  | NaN => "NaN"%string
  | PInf => "Infinity"%string
  | NInf => "-Infinity"%string
  | NegZero => "0"%string
  | Fin q =>
      if Qeq_bool q (inject_Z (Qfloor q))
         && (Z.abs (Qfloor q) <=? 2 ^ 53)%Z
      then JS.Int_toString (Qfloor q)
      else digits q
  end.

End IEEE.

Module UtilsNum.
Import IEEE.

(** The three numbers of [calculateETA] that are rendered. *)
Record Eta := { hours : Number; minutes : Number; seconds : Number }.

(** [1000 * 60] and [1000 * 60 * 60]. *)
Definition msPerMinute : Number := mul (of_Z 1000) (of_Z 60).
Definition msPerHour : Number := mul (mul (of_Z 1000) (of_Z 60)) (of_Z 60).

(** [etaMs] of [calculateETA]; [nowMs] is the value of [Date.now()],
    an integer number of milliseconds. *)
Definition etaMs (nowMs : Z) (processed total startTime : Number)
  : Number :=
  let elapsed := sub (of_Z nowMs) startTime in
  let rate := div processed elapsed in
  let remaining := sub total processed in
  div remaining rate.

Definition eta_parts (ms : Number) : Eta :=
  {| hours := floor (div ms msPerHour);
     minutes := floor (div (rem ms msPerHour) msPerMinute);
     seconds := floor (div (rem ms msPerMinute) (of_Z 1000)) |}.

Definition render_eta (digits : Q -> string) (e : Eta) : string :=
  (if gt (hours e) (of_Z 0) then
     Number_toString digits (hours e) ++ "h "
       ++ Number_toString digits (minutes e) ++ "m "
       ++ Number_toString digits (seconds e) ++ "s"
   else if gt (minutes e) (of_Z 0) then
     Number_toString digits (minutes e) ++ "m "
       ++ Number_toString digits (seconds e) ++ "s"
   else Number_toString digits (seconds e) ++ "s")%string.

(** [calculateETA(processed, total, startTime)]. *)
Definition calculateETA (digits : Q -> string) (nowMs : Z)
           (processed total startTime : Number) : string :=
  if is_zero processed then "Calculating..."%string
  else render_eta digits (eta_parts (etaMs nowMs processed total startTime)).

(** [calculatePercentage(current, total)]. *)
Definition calculatePercentage (current total : Number) : Number :=
  div (round (mul (mul (div current total) (of_Z 100)) (of_Z 100)))
      (of_Z 100).

End UtilsNum.

(* ================================================================== *)
(** ** Exceptions, the remote service and the seeder's mutable state *)

Module Runtime.

(** A thrown JavaScript value: an instance of [Error] carrying its
    [message], or any other value, with what [String(value)] gives. *)
Inductive thrown :=
| ErrorObject (message : string)
| OtherValue (rendering : string).

Inductive Result (A : Type) :=
| Ok (a : A)
| Thrown (e : thrown).
Arguments Ok {A} a.
Arguments Thrown {A} e.

(** The argument of [supabase.auth.admin.createUser]. *)
Record CreateUserRequest := {
  req_email : string;
  req_password : string;
  email_confirm : bool;
  req_user_metadata : Utils.UserMetadata
}.

(** [{ email: userData.email, password: userData.password,
    email_confirm: true, user_metadata: userData.user_metadata }]. *)
Definition request_of (u : Utils.UserData) : CreateUserRequest :=
  {| req_email := Utils.email u;
     req_password := Utils.password u;
     email_confirm := true;
     req_user_metadata := Utils.user_metadata u |}.

(** The remote account creator, an injected capability: a call moves
    the service from one state to the next and answers with no error
    ([None]) or with the error that the caller then throws.  The answer
    is fixed when the call is issued. *)
Record Remote := {
  RState : Type;
  admin_createUser :
    RState -> CreateUserRequest -> RState * option thrown
}.

(** What the host gives a batch beyond its arguments: the readings of
    [generateUserBatch], and whether the generator call raises (a host
    exception such as an allocation failure). *)
Record Host := {
  gen_env : Z -> Utils.GenEnv;
  gen_fault : Z -> option thrown
}.

(** A counter snapshot [(processedUsers, errors)]. *)
Definition Snapshot := (Z * Z)%type.

(** The seeder object's fields together with the state of the remote
    service.  [sleeps], [dispatched] and [history] are traces, newest
    entry first: the arguments of the [delay] calls awaited, the
    arguments of the [processBatch] calls, and the counters after each
    assignment to one of them. *)
Record World (rm : Remote) := {
  remote : RState rm;
  processedUsers : Z;
  errors : Z;
  sleeps : list Z;
  dispatched : list (Z * Z);
  history : list Snapshot
}.
Arguments remote {rm} w.
Arguments processedUsers {rm} w.
Arguments errors {rm} w.
Arguments sleeps {rm} w.
Arguments dispatched {rm} w.
Arguments history {rm} w.

Section Monad.
Context {rm : Remote}.

(** A freshly constructed seeder: [processedUsers = 0], [errors = 0]. *)
Definition new_world (r : RState rm) : World rm :=
  {| remote := r; processedUsers := 0; errors := 0;
     sleeps := []; dispatched := []; history := [] |}.

Definition M (A : Type) : Type := World rm -> Result A * World rm.

Definition ret {A} (a : A) : M A := fun w => (Ok a, w).

Definition bind {A B} (m : M A) (k : A -> M B) : M B :=
  fun w =>
    match m w with
    | (Ok a, w') => k a w'
    | (Thrown e, w') => (Thrown e, w')
    end.

Definition throw {A} (e : thrown) : M A := fun w => (Thrown e, w).

(** [try { body } catch (error) { handler(error) }]. *)
Definition try_catch {A} (body : M A) (handler : thrown -> M A) : M A :=
  fun w =>
    match body w with
    | (Ok a, w') => (Ok a, w')
    | (Thrown e, w') => handler e w'
    end.

(** [await delay(ms)]. *)
Definition delay (ms : Z) : M unit :=
  fun w =>
    (Ok tt,
     {| remote := remote w; processedUsers := processedUsers w;
        errors := errors w; sleeps := ms :: sleeps w;
        dispatched := dispatched w; history := history w |}).

(** [this.processedUsers += n]. *)
Definition addProcessedUsers (n : Z) : M unit :=
  fun w =>
    (Ok tt,
     {| remote := remote w; processedUsers := processedUsers w + n;
        errors := errors w; sleeps := sleeps w;
        dispatched := dispatched w;
        history := (processedUsers w + n, errors w) :: history w |}).

(** [this.errors += n]. *)
Definition addErrors (n : Z) : M unit :=
  fun w =>
    (Ok tt,
     {| remote := remote w; processedUsers := processedUsers w;
        errors := errors w + n; sleeps := sleeps w;
        dispatched := dispatched w;
        history := (processedUsers w, errors w + n) :: history w |}).

(** Entry of a [processBatch] call, recorded in [dispatched]. *)
Definition enterBatch (batchIndex batchSize : Z) : M unit :=
  fun w =>
    (Ok tt,
     {| remote := remote w; processedUsers := processedUsers w;
        errors := errors w; sleeps := sleeps w;
        dispatched := (batchIndex, batchSize) :: dispatched w;
        history := history w |}).

(** [await this.supabase.auth.admin.createUser({...})] followed by
    [if (error) throw error]. *)
Definition callCreateUser (u : Utils.UserData) : M unit :=
  fun w =>
    let (r', answer) := admin_createUser rm (remote w) (request_of u) in
    let w' := {| remote := r'; processedUsers := processedUsers w;
                 errors := errors w; sleeps := sleeps w;
                 dispatched := dispatched w; history := history w |} in
    match answer with
    | None => (Ok tt, w')
    | Some e => (Thrown e, w')
    end.

(** The call [generateUserBatch(batchSize, emailDomain,
    defaultPassword)] made by batch [batchIndex]. *)
Definition callGenerate (host : Host) (batchIndex batchSize : Z)
           (emailDomain defaultPassword : string)
  : M (list Utils.UserData) :=
  match gen_fault host batchIndex with
  | Some e => throw e
  | None =>
      ret (Utils.generateUserBatch (gen_env host batchIndex) batchSize
             emailDomain defaultPassword)
  end.

(** A settled promise, as [Promise.allSettled] reports it. *)
Inductive Settled :=
| Fulfilled
| Rejected (reason : thrown).

Definition is_fulfilled (s : Settled) : bool :=
  match s with Fulfilled => true | Rejected _ => false end.

Definition is_rejected (s : Settled) : bool :=
  match s with Fulfilled => false | Rejected _ => true end.

(** One element of [users.map(user => this.createUser(user))],
    observed through [Promise.allSettled]: it never throws. *)
Definition settle (m : M unit) : M Settled :=
  fun w =>
    match m w with
    | (Ok _, w') => (Ok Fulfilled, w')
    | (Thrown e, w') => (Ok (Rejected e), w')
    end.

(** [await Promise.allSettled(users.map(f))]: the calls are issued in
    list order. *)
Fixpoint allSettled (f : Utils.UserData -> M unit)
         (users : list Utils.UserData) : M (list Settled) :=
  match users with
  | [] => ret []
  | u :: rest =>
      bind (settle (f u)) (fun s =>
      bind (allSettled f rest) (fun ss => ret (s :: ss)))
  end.

(** A [for] loop whose body is run once for each element of [xs]. *)
Fixpoint forEach {A} (xs : list A) (body : A -> M unit) : M unit :=
  match xs with
  | [] => ret tt
  | x :: rest => bind (body x) (fun _ => forEach rest body)
  end.

End Monad.

Arguments M rm A : clear implicits.

(** [results.filter(p).length]. *)
Definition count_if {A} (p : A -> bool) (l : list A) : Z :=
  Z.of_nat (List.length (filter p l)).

(** The batch indices [0, 1, ..., batches - 1]. *)
Definition batch_indices (batches : Z) : list Z :=
  map Z.of_nat (seq 0 (Z.to_nat batches)).

End Runtime.

(* ================================================================== *)
(** ** config.ts *)

Module Config.
Import Runtime.

Record Supabase := { url : string; serviceRoleKey : string }.

Record Seeding := {
  totalUsers : Z;
  batchSize : Z;
  concurrentBatches : Z;
  defaultPassword : string;
  emailDomain : string
}.

Record Config := { supabase : Supabase; seeding : Seeding }.

(** [process.env.NAME || fallback]. *)
Definition env_or (v : option string) (fallback : string) : string :=
  match v with
  | None => fallback
  | Some EmptyString => fallback
  | Some s => s
  end.

(** The [supabase] part of [config], read from the environment. *)
Definition supabase_of_env (getenv : string -> option string) : Supabase :=
  {| url := env_or (getenv "SUPABASE_URL") "";
     serviceRoleKey := env_or (getenv "SUPABASE_SERVICE_ROLE_KEY") "" |}.

(** [!s] for a string [s]. *)
Definition is_empty (s : string) : bool :=
  match s with EmptyString => true | _ => false end.

(** [validateConfig()]; the informational [console.log] lines are not
    modelled. *)
Definition validateConfig (config : Config) : Result unit :=
  if is_empty (url (supabase config)) then
    Thrown (ErrorObject "SUPABASE_URL is required")
  else if is_empty (serviceRoleKey (supabase config)) then
    Thrown (ErrorObject "SUPABASE_SERVICE_ROLE_KEY is required")
  else Ok tt.

End Config.

(* ================================================================== *)
(** ** batch-seeder.ts: the chunked runner *)

Module BatchSeeder.
Import Runtime.

Section Runner.
Context {rm : Remote}.
Variable host : Host.
Variable config : Config.Config.

Notation "x <- m ;; k" := (bind m (fun x => k))
  (at level 61, m at next level, right associativity).
Notation "m ;;; k" := (bind m (fun _ => k))
  (at level 61, right associativity).

(** [createUser]: the [catch] clause logs in debug mode and rethrows. *)
Definition createUser (userData : Utils.UserData) : M rm unit :=
  try_catch (callCreateUser userData) (fun error => throw error).

(** [users.slice(i, j)]. *)
Definition slice {A} (i j : nat) (l : list A) : list A :=
  firstn (j - i) (skipn i l).

Definition chunkSize : nat := 100.

(** Body of the loop over sub-chunks, for the chunk that starts at
    index [i]. *)
Definition processChunk (users : list Utils.UserData) (i : nat)
  : M rm unit :=
  let chunk := slice i (i + chunkSize) users in
  results <- allSettled createUser chunk ;;
  let successes := count_if is_fulfilled results in
  let failures := count_if is_rejected results in
  addProcessedUsers successes ;;;
  addErrors failures ;;;
  delay 50.

(** [for (let i = 0; i < users.length; i += chunkSize) ...], entered
    at index [i]; [fuel] bounds the number of iterations and
    [length users] of it is always enough. *)
Fixpoint chunkLoop (fuel : nat) (users : list Utils.UserData) (i : nat)
  : M rm unit :=
  match fuel with
  | O => ret tt
  | S fuel' =>
      if (i <? List.length users)%nat then
        processChunk users i ;;;
        chunkLoop fuel' users (i + chunkSize)
      else ret tt
  end.

(** [processBatch(batchIndex, batchSize)]. *)
Definition processBatch (batchIndex batchSize : Z) : M rm unit :=
  enterBatch batchIndex batchSize ;;;
  try_catch
    (users <- callGenerate host batchIndex batchSize
                (Config.emailDomain (Config.seeding config))
                (Config.defaultPassword (Config.seeding config)) ;;
     chunkLoop (List.length users) users 0)
    (fun error => addErrors batchSize).

(** [seedUsers()]; [finishSeeding] only prints. *)
Definition seedUsers : M rm unit :=
  let totalUsers := Config.totalUsers (Config.seeding config) in
  let batchSize := Config.batchSize (Config.seeding config) in
  let batches := Num.ceil_div totalUsers batchSize in
  forEach (batch_indices batches) (fun batchIndex =>
    let remainingUsers := totalUsers - batchIndex * batchSize in
    let currentBatchSize := Z.min batchSize remainingUsers in
    processBatch batchIndex currentBatchSize ;;;
    delay 200).

End Runner.
End BatchSeeder.

(* ================================================================== *)
(** ** conservative-seeder.ts: the conservative runner *)

Module ConservativeSeeder.
Import Runtime.

Section Runner.
Context {rm : Remote}.
Variable host : Host.
Variable config : Config.Config.

Notation "x <- m ;; k" := (bind m (fun x => k))
  (at level 61, m at next level, right associativity).
Notation "m ;;; k" := (bind m (fun _ => k))
  (at level 61, right associativity).

(** [error instanceof Error && (error.message.includes('fetch failed')
    || error.message.includes('ETIMEDOUT')
    || error.message.includes('ECONNRESET'))]. *)
Definition isNetworkError (error : thrown) : bool :=
  match error with
  | ErrorObject message =>
      JS.includes message "fetch failed"
      || JS.includes message "ETIMEDOUT"
      || JS.includes message "ECONNRESET"
  | OtherValue _ => false
  end.

(** How one iteration of the retry loop ends, when it does not throw. *)
Inductive Control := Return | Continue.

(** One iteration of the loop of [createUserWithRetry]. *)
Definition attemptOnce (userData : Utils.UserData)
           (maxRetries attempt : Z) : M rm Control :=
  try_catch
    (callCreateUser userData ;;; ret Return)
    (fun error =>
       if isNetworkError error && (attempt <? maxRetries) then
         let waitTime := attempt * 1000 in
         delay waitTime ;;; ret Continue
       else throw error).

(** [for (let attempt = ...; attempt <= maxRetries; attempt++)],
    entered at [attempt]; [fuel] counts the iterations left, and
    falling out of the loop returns normally. *)
Fixpoint retryLoop (fuel : nat) (userData : Utils.UserData)
         (maxRetries attempt : Z) : M rm unit :=
  match fuel with
  | O => ret tt
  | S fuel' =>
      if attempt <=? maxRetries then
        c <- attemptOnce userData maxRetries attempt ;;
        match c with
        | Return => ret tt
        | Continue => retryLoop fuel' userData maxRetries (attempt + 1)
        end
      else ret tt
  end.

(** [createUserWithRetry(userData, maxRetries = 3)]. *)
Definition createUserWithRetry (userData : Utils.UserData)
           (maxRetries : Z) : M rm unit :=
  retryLoop (Z.to_nat maxRetries) userData maxRetries 1.

Definition defaultMaxRetries : Z := 3.

(** Body of the loop over the records of a batch. *)
Definition processUser (userData : Utils.UserData) : M rm unit :=
  try_catch
    (createUserWithRetry userData defaultMaxRetries ;;;
     addProcessedUsers 1 ;;;
     delay 100)
    (fun error => addErrors 1).

(** [processBatchConservative(batchIndex, batchSize)]. *)
Definition processBatchConservative (batchIndex batchSize : Z)
  : M rm unit :=
  enterBatch batchIndex batchSize ;;;
  try_catch
    (users <- callGenerate host batchIndex batchSize
                (Config.emailDomain (Config.seeding config))
                (Config.defaultPassword (Config.seeding config)) ;;
     forEach users processUser)
    (fun error => addErrors batchSize).

(** [seedUsers()]. *)
Definition seedUsers : M rm unit :=
  let totalUsers := Config.totalUsers (Config.seeding config) in
  let batchSize :=
    Z.min (Config.batchSize (Config.seeding config)) 100 in
  let delayBetweenBatches := 2000 in
  let batches := Num.ceil_div totalUsers batchSize in
  forEach (batch_indices batches) (fun batchIndex =>
    let remainingUsers := totalUsers - batchIndex * batchSize in
    let currentBatchSize := Z.min batchSize remainingUsers in
    processBatchConservative batchIndex currentBatchSize ;;;
    if batchIndex <? batches - 1 then delay delayBetweenBatches
    else ret tt).

End Runner.
End ConservativeSeeder.

(* ================================================================== *)
(** ** seeder.ts: the concurrent runner

    [seedUsers] and the [processBatch] calls it starts are cooperative
    tasks on one thread.  A task runs until it reaches an [await]; the
    transitions below are these uninterrupted stretches, and [fire]
    says which of them is enabled in a state. *)

Module Seeder.
Import Runtime.

(** A non-null entry of the [semaphore] array: the promise of a batch
    that is suspended at [await Promise.allSettled(promises)], with the
    outcomes it will see there, or of a batch that has left its [try]
    statement (tallied and pausing, or caught) and whose [finally]
    callback has not run yet. *)
Inductive Slot :=
| Awaiting (batchIndex : Z) (results : list Settled)
| Finishing (batchIndex : Z).

(** Where [seedUsers] is: running its [while] loop, suspended at
    [await delay(100)], suspended at [await Promise.all(...)], or past
    [finishSeeding()]. *)
Inductive Phase := Looping | Sleeping | Draining | Finished.

Record State (rm : Remote) := {
  world : World rm;
  semaphore : list (option Slot);
  currentBatch : Z;
  phase : Phase;
  released : list Z
}.
Arguments world {rm} s.
Arguments semaphore {rm} s.
Arguments currentBatch {rm} s.
Arguments phase {rm} s.
Arguments released {rm} s.

Inductive Event :=
| EDispatch
| ESleep
| EWake
| EJoin
| ETally (slotIndex : nat)
| ERelease (slotIndex : nat)
| EFinish.

Definition is_null (slot : option Slot) : bool :=
  match slot with None => true | Some _ => false end.

Definition slot_batch (slot : Slot) : Z :=
  match slot with
  | Awaiting b _ => b
  | Finishing b => b
  end.

(** [semaphore.filter(slot => slot === null).length]. *)
Definition availableSlots (semaphore : list (option Slot)) : Z :=
  count_if is_null semaphore.

(** [semaphore.findIndex(slot => slot === null)], [None] for -1. *)
Fixpoint findIndex_null (semaphore : list (option Slot)) : option nat :=
  match semaphore with
  | [] => None
  | None :: _ => Some O
  | Some _ :: rest => option_map S (findIndex_null rest)
  end.

(** [semaphore[slotIndex] = v] for an index inside the array. *)
Fixpoint set_slot (slotIndex : nat) (v : option Slot)
         (semaphore : list (option Slot)) : list (option Slot) :=
  match semaphore, slotIndex with
  | [], _ => []
  | _ :: rest, O => v :: rest
  | x :: rest, S j => x :: set_slot j v rest
  end.

(** Batches whose promise sits in the array. *)
Definition occupied (semaphore : list (option Slot)) : nat :=
  List.length (filter (fun slot => negb (is_null slot)) semaphore).

Section Runner.
Context {rm : Remote}.
Variable host : Host.
Variable config : Config.Config.

Notation "x <- m ;; k" := (bind m (fun x => k))
  (at level 61, m at next level, right associativity).
Notation "m ;;; k" := (bind m (fun _ => k))
  (at level 61, right associativity).

Definition totalUsers : Z := Config.totalUsers (Config.seeding config).
Definition batchSize : Z := Config.batchSize (Config.seeding config).
Definition concurrentBatches : Z :=
  Config.concurrentBatches (Config.seeding config).
Definition batches : Z := Num.ceil_div totalUsers batchSize.

(** [createUser]: the [catch] clause logs in debug mode and rethrows. *)
Definition createUser (userData : Utils.UserData) : M rm unit :=
  try_catch (callCreateUser userData) (fun error => throw error).

(** [processBatch] from its entry to its first suspension: the
    generator call and the [createUser] calls are made at once.  The
    result is [Some results] when the task stops at
    [await Promise.allSettled], and [None] when the [catch] clause
    has run. *)
Definition processBatch_begin (batchIndex size : Z)
  : M rm (option (list Settled)) :=
  enterBatch batchIndex size ;;;
  try_catch
    (users <- callGenerate host batchIndex size
                (Config.emailDomain (Config.seeding config))
                (Config.defaultPassword (Config.seeding config)) ;;
     results <- allSettled createUser users ;;
     ret (Some results))
    (fun error => addErrors size ;;; ret None).

(** [processBatch] from [results] up to [await delay(100)]. *)
Definition processBatch_resume (results : list Settled) : M rm unit :=
  let successes := count_if is_fulfilled results in
  let failures := count_if is_rejected results in
  addProcessedUsers successes ;;;
  addErrors failures ;;;
  delay 100.

(** [new Array(concurrentBatches).fill(null)] and the first entry
    into the loop; a negative length raises [RangeError]. *)
Definition start (r : RState rm) : Result (State rm) :=
  if concurrentBatches <? 0 then
    Thrown (ErrorObject "Invalid array length")
  else
    Ok {| world := new_world r;
          semaphore := repeat None (Z.to_nat concurrentBatches);
          currentBatch := 0;
          phase := Looping;
          released := [] |}.

Definition with_world (s : State rm) (w : World rm) : State rm :=
  {| world := w; semaphore := semaphore s;
     currentBatch := currentBatch s; phase := phase s;
     released := released s |}.

Definition with_phase (s : State rm) (p : Phase) : State rm :=
  {| world := world s; semaphore := semaphore s;
     currentBatch := currentBatch s; phase := p;
     released := released s |}.

(** The loop body when a slot is free: start the next batch. *)
Definition dispatch (s : State rm) : option (State rm) :=
  if (currentBatch s <? batches) && (0 <? availableSlots (semaphore s))
  then
    let batchIndex := currentBatch s in
    let remainingUsers := totalUsers - batchIndex * batchSize in
    let currentBatchSize := Z.min batchSize remainingUsers in
    match findIndex_null (semaphore s) with
    | Some slotIndex =>
        let (r, w) :=
          processBatch_begin batchIndex currentBatchSize (world s) in
        let slot :=
          match r with
          | Ok (Some results) => Awaiting batchIndex results
          | _ => Finishing batchIndex
          end in
        Some {| world := w;
                semaphore := set_slot slotIndex (Some slot) (semaphore s);
                currentBatch := batchIndex + 1;
                phase := Looping;
                released := released s |}
    | None => None
    end
  else None.

(** The batch in slot [slotIndex] resumes after [Promise.allSettled]. *)
Definition tally (slotIndex : nat) (s : State rm) : option (State rm) :=
  match nth_error (semaphore s) slotIndex with
  | Some (Some (Awaiting b results)) =>
      let (_, w) := processBatch_resume results (world s) in
      Some {| world := w;
              semaphore :=
                set_slot slotIndex (Some (Finishing b)) (semaphore s);
              currentBatch := currentBatch s;
              phase := phase s;
              released := released s |}
  | _ => None
  end.

(** The [finally] callback of the batch in slot [slotIndex]:
    [semaphore[slotIndex] = null]. *)
Definition release (slotIndex : nat) (s : State rm) : option (State rm) :=
  match nth_error (semaphore s) slotIndex with
  | Some (Some (Finishing b)) =>
      Some {| world := world s;
              semaphore := set_slot slotIndex None (semaphore s);
              currentBatch := currentBatch s;
              phase := phase s;
              released := b :: released s |}
  | _ => None
  end.

Definition suspended (p : Phase) : bool :=
  match p with Sleeping | Draining => true | _ => false end.

Definition fire (e : Event) (s : State rm) : option (State rm) :=
  match e with
  | EDispatch =>
      match phase s with Looping => dispatch s | _ => None end
  | ESleep =>
      match phase s with
      | Looping =>
          if (currentBatch s <? batches)
             && negb (0 <? availableSlots (semaphore s))
          then
            let (_, w) := delay 100 (world s) in
            Some (with_phase (with_world s w) Sleeping)
          else None
      | _ => None
      end
  | EWake =>
      match phase s with
      | Sleeping => Some (with_phase s Looping)
      | _ => None
      end
  | EJoin =>
      match phase s with
      | Looping =>
          if currentBatch s <? batches then None
          else Some (with_phase s Draining)
      | _ => None
      end
  | ETally j => if suspended (phase s) then tally j s else None
  | ERelease j => if suspended (phase s) then release j s else None
  | EFinish =>
      match phase s with
      | Draining =>
          if forallb is_null (semaphore s)
          then Some (with_phase s Finished) else None
      | _ => None
      end
  end.

(** A schedule, run from [s]. *)
Fixpoint run (es : list Event) (s : State rm) : option (State rm) :=
  match es with
  | [] => Some s
  | e :: rest =>
      match fire e s with
      | Some s' => run rest s'
      | None => None
      end
  end.

(** States of [seedUsers()] on a seeder constructed over [r]. *)
Definition reachable (r : RState rm) (s : State rm) : Prop :=
  exists s0 es, start r = Ok s0 /\ run es s0 = Some s.

(** A scheduler that always picks the first enabled transition in the
    order tally, release, finish / wake, dispatch, sleep, join. *)
Fixpoint first_awaiting (semaphore : list (option Slot)) : option nat :=
  match semaphore with
  | [] => None
  | Some (Awaiting _ _) :: _ => Some O
  | _ :: rest => option_map S (first_awaiting rest)
  end.

Fixpoint first_finishing (semaphore : list (option Slot)) : option nat :=
  match semaphore with
  | [] => None
  | Some (Finishing _) :: _ => Some O
  | _ :: rest => option_map S (first_finishing rest)
  end.

Definition next_event (s : State rm) : option Event :=
  match phase s with
  | Finished => None
  | Looping =>
      if currentBatch s <? batches then
        if 0 <? availableSlots (semaphore s) then Some EDispatch
        else Some ESleep
      else Some EJoin
  | Sleeping | Draining =>
      match first_awaiting (semaphore s) with
      | Some j => Some (ETally j)
      | None =>
          match first_finishing (semaphore s) with
          | Some j => Some (ERelease j)
          | None =>
              match phase s with
              | Sleeping => Some EWake
              | _ => Some EFinish
              end
          end
      end
  end.

Fixpoint schedule (fuel : nat) (s : State rm) : list Event :=
  match fuel with
  | O => []
  | S fuel' =>
      match next_event s with
      | None => []
      | Some e =>
          match fire e s with
          | Some s' => e :: schedule fuel' s'
          | None => []
          end
      end
  end.

End Runner.
End Seeder.

(* ================================================================== *)
(** ** The three entry points: index.ts and the [main] functions of
       batch-seeder.ts and conservative-seeder.ts *)

Module Index.
Import Runtime.

(** How the process ends: its exit status and what [main]'s [catch]
    clause printed. *)
Record Exit := {
  code : Z;
  stderr : list string;
  stdout : list string
}.

(** [error instanceof Error ? error.message : String(error)]. *)
Definition describe (error : thrown) : string :=
  match error with
  | ErrorObject message => message
  | OtherValue rendering => rendering
  end.

Definition mentions_required (error : thrown) : bool :=
  match error with
  | ErrorObject message => JS.includes message "required"
  | OtherValue _ => false
  end.

(** The [catch] clause of [main] in index.ts, ending in
    [process.exit(1)]; the lines are recorded without their colour and
    emoji decoration. *)
Definition index_catch (error : thrown) : Exit :=
  {| code := 1;
     stderr := ["Seeding failed:"; describe error];
     stdout :=
       if mentions_required error then
         [""; "Make sure you have:";
          "   1. Created a .env file with your Supabase credentials";
          "   2. Set SUPABASE_URL and SUPABASE_SERVICE_ROLE_KEY";
          "   3. Copied env.example to .env and filled in your values"]
       else [] |}.

(** The [catch] clause of [main] in the two other entry points. *)
Definition seeder_catch (error : thrown) : Exit :=
  {| code := 1;
     stderr := ["Seeding failed:"; describe error];
     stdout := [] |}.

(** Normal termination of [main]. *)
Definition done : Exit :=
  {| code := 0; stderr := []; stdout := [] |}.

(** A [main] that stopped before [seedUsers] ran, or the value it runs
    [seedUsers] on. *)
Inductive Startup (A : Type) :=
| Exited (x : Exit)
| Seeding (a : A).
Arguments Exited {A} x.
Arguments Seeding {A} a.

Section Main.
Context {rm : Remote}.

(** [createClient(url, key, options)] of the service's client
    library, which is not part of this repository: it answers with a
    client, that is, a handle on the remote service, or throws. *)
Variable createClient : string -> string -> Result (RState rm).
Variable host : Host.
Variable config : Config.Config.

Definition construct : Result (RState rm) :=
  createClient (Config.url (Config.supabase config))
               (Config.serviceRoleKey (Config.supabase config)).

(** [main] of index.ts up to the first transition of [seedUsers]:
    [validateConfig()], [new AuthUserSeeder()], [seeder.seedUsers()]. *)
Definition index_main : Startup (Seeder.State rm) :=
  match Config.validateConfig config with
  | Thrown e => Exited (index_catch e)
  | Ok _ =>
      match construct with
      | Thrown e => Exited (index_catch e)
      | Ok r =>
          match Seeder.start config r with
          | Thrown e => Exited (index_catch e)
          | Ok s0 => Seeding s0
          end
      end
  end.

(** [main] of batch-seeder.ts: [new BatchSeeder()] and
    [await seeder.seedUsers()] inside [try]; the second component is
    the seeder's state when [seedUsers] was run. *)
Definition batch_main : Exit * option (World rm) :=
  match construct with
  | Thrown e => (seeder_catch e, None)
  | Ok r =>
      match BatchSeeder.seedUsers host config (new_world r) with
      | (Ok _, w) => (done, Some w)
      | (Thrown e, w) => (seeder_catch e, Some w)
      end
  end.

(** [main] of conservative-seeder.ts. *)
Definition conservative_main : Exit * option (World rm) :=
  match construct with
  | Thrown e => (seeder_catch e, None)
  | Ok r =>
      match ConservativeSeeder.seedUsers host config (new_world r) with
      | (Ok _, w) => (done, Some w)
      | (Thrown e, w) => (seeder_catch e, Some w)
      end
  end.

End Main.
End Index.

(* ================================================================== *)
(** ** Test doubles: remote services, hosts and configurations *)

Module Stubs.
Import Runtime.

(** The state of every stub is the number of calls it has answered. *)
Definition counting (answer : nat -> option thrown) : Remote :=
  {| RState := nat;
     admin_createUser := fun n _ => (S n, answer n) |}.

(** Always succeeds. *)
Definition always_ok : Remote := counting (fun _ => None).

(** Fails the records whose index is a multiple of 5; without retries
    the index of a record is the number of calls made before its own. *)
Definition fail_multiples_of_5 : Remote :=
  counting (fun n =>
    if (n mod 5 =? 0)%nat
    then Some (ErrorObject "User already registered") else None).

(** Fails the first two attempts for each record with a connection
    reset and lets the third one through; under the conservative
    runner every record is then tried three times in a row. *)
Definition reset_twice : Remote :=
  counting (fun n =>
    if (n mod 3 <? 2)%nat
    then Some (ErrorObject "read ECONNRESET") else None).

(** Rejects every call. *)
Definition rejecting : Remote :=
  counting (fun _ => Some (ErrorObject "Invalid API key")).

(** Remembers the e-mail addresses it was sent, newest first. *)
Definition recording : Remote :=
  {| RState := list string;
     admin_createUser := fun seen q => (req_email q :: seen, None) |}.

(** The number of multiples of 5 among [0, ..., n - 1]. *)
Definition multiples_of_5_below (n : nat) : nat :=
  List.length (filter (fun i => (i mod 5 =? 0)%nat) (seq 0 n)).

(** A host whose clock advances by a second from batch to batch and
    whose random draws are all zero; the generator never raises. *)
Definition calm_host : Host :=
  {| gen_env := fun b =>
       {| Utils.now := 1700000000000 + 1000 * Z.to_N b;
          Utils.first_pick := fun _ => O;
          Utils.last_pick := fun _ => O |};
     gen_fault := fun _ => None |}.

(** A host on which every batch reads the same millisecond. *)
Definition same_ms_host : Host :=
  {| gen_env := fun _ =>
       {| Utils.now := 1700000000000;
          Utils.first_pick := fun _ => O;
          Utils.last_pick := fun _ => O |};
     gen_fault := fun _ => None |}.

(** A host on which the generator raises in batch 1. *)
Definition faulty_host : Host :=
  {| gen_env := gen_env calm_host;
     gen_fault := fun b =>
       if b =? 1 then Some (ErrorObject "Invalid array length")
       else None |}.

Definition seeding (total batch concurrent : Z) : Config.Seeding :=
  {| Config.totalUsers := total;
     Config.batchSize := batch;
     Config.concurrentBatches := concurrent;
     Config.defaultPassword := "password123";
     Config.emailDomain := "example.com" |}.

(** A configuration with both credentials present. *)
Definition configured (total batch concurrent : Z) : Config.Config :=
  {| Config.supabase :=
       {| Config.url := "https://project.supabase.co";
          Config.serviceRoleKey := "service-role-key" |};
     Config.seeding := seeding total batch concurrent |}.

(** A configuration read from an environment that lacks
    [SUPABASE_URL]. *)
Definition without_url (total batch concurrent : Z) : Config.Config :=
  {| Config.supabase :=
       Config.supabase_of_env (fun name =>
         if (name =? "SUPABASE_SERVICE_ROLE_KEY")%string
         then Some "service-role-key" else None);
     Config.seeding := seeding total batch concurrent |}.

(** A client constructor that accepts any pair of arguments. *)
Definition lenient_client (rm : Remote) (r : RState rm)
  : string -> string -> Result (RState rm) :=
  fun _ _ => Ok r.

(** A client constructor that refuses a missing URL or key the way
    the service's client library does. *)
Definition strict_client (rm : Remote) (r : RState rm)
  : string -> string -> Result (RState rm) :=
  fun url key =>
    if (url =? "")%string then
      Thrown (ErrorObject "supabaseUrl is required.")
    else if (key =? "")%string then
      Thrown (ErrorObject "supabaseKey is required.")
    else Ok r.

(** The configuration read from an environment that sets the URL and
    not the service key. *)
Definition without_key (total batch concurrent : Z) : Config.Config :=
  {| Config.supabase :=
       Config.supabase_of_env (fun name =>
         if (name =? "SUPABASE_URL")%string
         then Some "https://project.supabase.co" else None);
     Config.seeding := seeding total batch concurrent |}.

End Stubs.

(* ================================================================== *)
(** ** Vocabulary of the statements *)

Module Inv.
Import Runtime.

(** The batch the runners hand to their batch procedure at index [i]:
    [Math.min(batchSize, totalUsers - i * batchSize)]. *)
Definition size_at (total batch i : Z) : Z :=
  Z.min batch (total - i * batch).

(** The calls [(index, size)] a run over [total] records in batches of
    [batch] is expected to make, in order. *)
Definition plan (total batch : Z) : list (Z * Z) :=
  map (fun i => (i, size_at total batch i))
      (batch_indices (Num.ceil_div total batch)).

Definition sum (l : list Z) : Z := fold_right Z.add 0 l.

Definition le_snapshot (a b : Snapshot) : Prop :=
  fst a <= fst b /\ snd a <= snd b.

(** A list of snapshots, newest first, in which neither counter ever
    goes down. *)
Fixpoint nondecreasing (newest_first : list Snapshot) : Prop :=
  match newest_first with
  | [] => True
  | a :: rest =>
      match rest with
      | [] => True
      | b :: _ => le_snapshot b a /\ nondecreasing rest
      end
  end.

Definition counters {rm} (w : World rm) : Snapshot :=
  (processedUsers w, errors w).

(** The counters as they were after every assignment, from the current
    ones back to the initial [(0, 0)]. *)
Definition timeline {rm} (w : World rm) : list Snapshot :=
  (counters w :: history w ++ [(0, 0)])%list.

Definition steady {rm} (w : World rm) : Prop := nondecreasing (timeline w).

(** [w'] comes after [w]: [n] more records are accounted for, the
    calls [d] (newest first) were added to the trace of batches, no
    counter went down and the timeline stayed non-decreasing. *)
Definition accounts {rm} (n : Z) (d : list (Z * Z)) (w w' : World rm)
  : Prop :=
  processedUsers w <= processedUsers w'
  /\ errors w <= errors w'
  /\ processedUsers w' + errors w' = processedUsers w + errors w + n
  /\ dispatched w' = (d ++ dispatched w)%list
  /\ (steady w -> steady w').

(** Only the remote service and the pauses differ. *)
Definition quiet {rm} (w w' : World rm) : Prop :=
  processedUsers w' = processedUsers w
  /\ errors w' = errors w
  /\ dispatched w' = dispatched w
  /\ history w' = history w.

(** [Q] holds of the result of running [m] from [w] and of the state
    it leaves. *)
Definition after {rm A} (m : M rm A) (w : World rm)
           (Q : Result A -> World rm -> Prop) : Prop :=
  Q (fst (m w)) (snd (m w)).

(** [m] returns normally from [w], leaving a state related by [R]. *)
Definition finishes {rm} (m : M rm unit) (w : World rm)
           (R : World rm -> World rm -> Prop) : Prop :=
  after m w (fun r w' => r = Ok tt /\ R w w').

(** *** Reading the text of [calculateETA] *)

Definition is_digit (c : ascii) : bool :=
  let n := nat_of_ascii c in ((48 <=? n)%nat && (n <=? 57)%nat)%bool.

(** The fields [<digits><unit>] of a text, which single spaces
    separate; [digits] holds the digits read for the current field. *)
Fixpoint fields (s : string) (digits : string)
         (done : list (string * ascii)) : option (list (string * ascii)) :=
  match s with
  | EmptyString =>
      match digits with
      | EmptyString => Some (rev done)
      | _ => None
      end
  | String c rest =>
      if is_digit c then fields rest (digits ++ String c "") done
      else if Ascii.eqb c " " then
        match digits with
        | EmptyString => fields rest "" done
        | _ => None
        end
      else fields rest "" ((digits, c) :: done)
  end.

Definition number_of (digits : string) : option Z :=
  option_map (fun u => Z.of_N (N.of_uint u))
             (NilEmpty.uint_of_string digits).

Definition clock (h m s : option Z) : option Z :=
  match h, m, s with
  | Some h, Some m, Some s => Some (h * 3600 + m * 60 + s)
  | _, _, _ => None
  end.

(** The remaining time, in seconds, that a text of one of the forms
    ["<h>h <m>m <s>s"], ["<m>m <s>s"] and ["<s>s"] reports. *)
Definition reported_seconds (text : string) : option Z :=
  match fields text "" [] with
  | Some [(h, "h"%char); (m, "m"%char); (s, "s"%char)] =>
      clock (number_of h) (number_of m) (number_of s)
  | Some [(m, "m"%char); (s, "s"%char)] =>
      clock (Some 0) (number_of m) (number_of s)
  | Some [(s, "s"%char)] => clock (Some 0) (Some 0) (number_of s)
  | _ => None
  end.

(** *** Rounding to two decimal places *)

(** [k / 100] is [current / total * 100] rounded to two decimal
    places: no multiple of 1/100 is nearer. *)
Definition two_decimals (current total k : Z) : Prop :=
  2 * Z.abs (k * total - 10000 * current) <= total.

(** The argument of [Math.round] in [calculatePercentage] for two
    whole numbers: [current / total * 100 * 100], every operation
    rounded to a double. *)
Definition scaled_ratio (current total : Z) : Q :=
  IEEE.nearest
    (IEEE.nearest
       (IEEE.nearest (inject_Z current / inject_Z total) * inject_Z 100)
     * inject_Z 100).

(** *** The concurrent runner *)

(** A quantity [f results] summed over the batches that are suspended
    at [Promise.allSettled]. *)
Definition slot_measure (f : list Settled -> Z) (slot : option Seeder.Slot)
  : Z :=
  match slot with
  | Some (Seeder.Awaiting _ results) => f results
  | _ => 0
  end.

Definition measure (f : list Settled -> Z)
           (semaphore : list (option Seeder.Slot)) : Z :=
  sum (map (slot_measure f) semaphore).

(** Records whose outcome is settled but not yet counted. *)
Definition pending : list (option Seeder.Slot) -> Z :=
  measure (fun results => Z.of_nat (List.length results)).

Definition pending_failures : list (option Seeder.Slot) -> Z :=
  measure (count_if is_rejected).

Definition pending_successes : list (option Seeder.Slot) -> Z :=
  measure (count_if is_fulfilled).

Definition slot_index (slot : option Seeder.Slot) : list Z :=
  match slot with
  | Some sl => [Seeder.slot_batch sl]
  | None => []
  end.

(** The batches in flight: their promise sits in the array. *)
Definition in_flight (semaphore : list (option Seeder.Slot)) : list Z :=
  flat_map slot_index semaphore.

(** What holds in every state of a concurrent run over [total] records
    in batches of [batch] with [limit] slots. *)
Record concurrent_invariant {rm} (total batch limit : Z)
       (s : Seeder.State rm) : Prop := {
  inv_slots :
    List.length (Seeder.semaphore s) = Z.to_nat limit;
  inv_index :
    0 <= Seeder.currentBatch s <= Num.ceil_div total batch;
  inv_dispatched :
    dispatched (Seeder.world s)
    = rev (map (fun i => (i, size_at total batch i))
               (batch_indices (Seeder.currentBatch s)));
  inv_accounted :
    processedUsers (Seeder.world s) + errors (Seeder.world s)
    + pending (Seeder.semaphore s)
    = Z.min (Seeder.currentBatch s * batch) total;
  inv_steady : steady (Seeder.world s);
  inv_in_flight :
    Permutation (batch_indices (Seeder.currentBatch s))
                (Seeder.released s ++ in_flight (Seeder.semaphore s));
  inv_drain :
    Seeder.phase s = Seeder.Draining \/ Seeder.phase s = Seeder.Finished ->
    Seeder.currentBatch s = Num.ceil_div total batch;
  inv_finished :
    Seeder.phase s = Seeder.Finished ->
    in_flight (Seeder.semaphore s) = []
    /\ pending (Seeder.semaphore s) = 0
}.

(** A failure that looks transient: an error whose message mentions a
    network timeout, a connection reset or a failed fetch. *)
Definition transient (error : thrown) : Prop :=
  exists message,
    error = ErrorObject message
    /\ (JS.includes message "ETIMEDOUT" = true
        \/ JS.includes message "ECONNRESET" = true
        \/ JS.includes message "fetch failed" = true).


(** *** Counting stubs *)

Definition fails (answer : nat -> option thrown) (i : nat) : bool :=
  match answer i with Some _ => true | None => false end.

(** How many of the calls [0, ..., n - 1] a counting stub fails. *)
Definition failures_below (answer : nat -> option thrown) (n : nat) : nat :=
  List.length (filter (fails answer) (seq 0 n)).

(** The counters agree with the outcomes of the calls made so far. *)
Definition mirrors (answer : nat -> option thrown)
           (w : World (Stubs.counting answer)) : Prop :=
  errors w = Z.of_nat (failures_below answer (remote w))
  /\ processedUsers w
     = Z.of_nat (remote w) - Z.of_nat (failures_below answer (remote w)).

(** The same, with the outcomes that are settled and not yet counted. *)
Definition mirrors_in_flight (answer : nat -> option thrown)
           (s : Seeder.State (Stubs.counting answer)) : Prop :=
  errors (Seeder.world s) + pending_failures (Seeder.semaphore s)
  = Z.of_nat (failures_below answer (remote (Seeder.world s)))
  /\ processedUsers (Seeder.world s)
     + pending_successes (Seeder.semaphore s)
     = Z.of_nat (remote (Seeder.world s))
       - Z.of_nat (failures_below answer (remote (Seeder.world s))).

End Inv.

(* ================================================================== *)
(** ** Observing a run: the requests sent and the pauses taken *)

Module Probe.
Import Runtime.

(** The remote service [rm] seen from outside: it answers as [rm]
    does, and the requests it has received are kept, newest first. *)
Definition logged (rm : Remote) : Remote :=
  {| RState := (RState rm * list CreateUserRequest)%type;
     admin_createUser := fun s q =>
       let (r', answer) := admin_createUser rm (fst s) q in
       ((r', q :: snd s), answer) |}.

(** The requests a logged service has received, newest first. *)
Definition log {rm} (w : World (logged rm)) : list CreateUserRequest :=
  snd (remote w).

(** The same, oldest first. *)
Definition received {rm} (w : World (logged rm)) : list CreateUserRequest :=
  rev (log w).

(** The trace [tr] (newest first) has grown by the entries [l] (oldest
    first) between [w] and [w']. *)
Definition appends {rm T} (tr : World rm -> list T) (l : list T)
           (w w' : World rm) : Prop :=
  tr w' = (rev l ++ tr w)%list.

(** The requests for the records that the batch procedure called with
    [(index, size)] generates, in generation order: none when the
    generator raises. *)
Definition batch_requests (host : Host) (config : Config.Config)
           (call : Z * Z) : list CreateUserRequest :=
  match gen_fault host (fst call) with
  | Some _ => []
  | None =>
      map request_of
          (Utils.generateUserBatch (gen_env host (fst call)) (snd call)
             (Config.emailDomain (Config.seeding config))
             (Config.defaultPassword (Config.seeding config)))
  end.

Definition planned_requests (host : Host) (config : Config.Config)
           (calls : list (Z * Z)) : list CreateUserRequest :=
  flat_map (batch_requests host config) calls.

(** The pauses [attempt * 1000], [(attempt + 1) * 1000], ... of [k]
    consecutive retries, oldest first. *)
Fixpoint backoffs_from (attempt : Z) (k : nat) : list Z :=
  match k with
  | O => []
  | S k' => attempt * 1000 :: backoffs_from (attempt + 1) k'
  end.

(** The list [qs] with its [i]-th entry repeated [ks]_i times in
    place. *)
Fixpoint repeated {A} (qs : list A) (ks : list nat) : list A :=
  match qs, ks with
  | q :: qs', k :: ks' => (repeat q k ++ repeated qs' ks')%list
  | _, _ => []
  end.

(** Between one and three attempts. *)
Definition tries (k : nat) : Prop := (1 <= k <= 3)%nat.

(** [Math.ceil(n / 100)], the number of sub-chunks of [n] records. *)
Definition chunks_of (n : nat) : nat := ((n + 99) / 100)%nat.

(** The pauses of the chunked runner around the batch called with
    [(index, size)], oldest first: 50 ms after each sub-chunk, unless
    the generator raised, and 200 ms after the batch. *)
Definition batch_pauses (host : Host) (call : Z * Z) : list Z :=
  (match gen_fault host (fst call) with
   | Some _ => []
   | None => repeat 50 (chunks_of (Z.to_nat (snd call)))
   end ++ [200])%list.

(** The pauses of the conservative runner around the batch called
    with [(index, size)] when every record is created at its first
    attempt, oldest first: 100 ms after each record, unless the
    generator raised, and 2000 ms after every batch but the last of
    [batches]. *)
Definition unhurried_pauses (host : Host) (batches : Z) (call : Z * Z)
  : list Z :=
  (match gen_fault host (fst call) with
   | Some _ => []
   | None => repeat 100 (Z.to_nat (snd call))
   end ++ (if fst call <? batches - 1 then [2000] else []))%list.

(** The calls made with the first [k] batch indices. *)
Definition calls_before (total batch k : Z) : list (Z * Z) :=
  map (fun i => (i, Inv.size_at total batch i)) (batch_indices k).

(** A concurrent run over [r] that has no slot and has started no
    batch: its loop is running or asleep, nothing was sent or counted,
    and every pause so far was the loop's. *)
Definition idle {rm} (r : RState rm) (s : Seeder.State rm) : Prop :=
  Seeder.semaphore s = []
  /\ Seeder.currentBatch s = 0
  /\ (Seeder.phase s = Seeder.Looping \/ Seeder.phase s = Seeder.Sleeping)
  /\ remote (Seeder.world s) = r
  /\ processedUsers (Seeder.world s) = 0
  /\ errors (Seeder.world s) = 0
  /\ dispatched (Seeder.world s) = []
  /\ exists n, sleeps (Seeder.world s) = repeat 100 n.

End Probe.

(* ================================================================== *)
(** * Properties *)

(** ** Strings *)

Section StringFacts.

Lemma append_assoc (a b c : string) : (a ++ b) ++ c = a ++ (b ++ c).
Proof. induction a as [|x a IH]; simpl; [reflexivity | now rewrite IH]. Qed.

Lemma append_length (a b : string) :
  String.length (a ++ b) = (String.length a + String.length b)%nat.
Proof. induction a as [|x a IH]; simpl; [reflexivity | now rewrite IH]. Qed.

Lemma append_inv_tail (a b t : string) : a ++ t = b ++ t -> a = b.
Proof.
  revert b; induction a as [|x a IH]; intros [|y b] H; simpl in H.
  - reflexivity.
  - apply (f_equal String.length) in H; simpl in H.
    rewrite append_length in H; lia.
  - apply (f_equal String.length) in H; simpl in H.
    rewrite append_length in H; lia.
  - injection H as -> H. f_equal. now apply IH.
Qed.

Lemma lacks_append_String (c : ascii) (a d : string) :
  ~ JS.lacks c (a ++ String c d).
Proof.
  induction a as [|x a IH]; simpl; intros [H1 H2]; [now apply H1 | now apply IH].
Qed.

(** A string is cut in one way only at the last occurrence of [c]. *)
Lemma split_at_last (c : ascii) (a1 a2 d1 d2 : string) :
  JS.lacks c d1 -> JS.lacks c d2 ->
  a1 ++ String c d1 = a2 ++ String c d2 -> a1 = a2 /\ d1 = d2.
Proof.
  intros L1 L2; revert a2.
  induction a1 as [|x a1 IH]; intros [|y a2] H; simpl in H.
  - injection H as ->. auto.
  - injection H as <- ->. now apply lacks_append_String in L1.
  - injection H as -> <-. now apply lacks_append_String in L2.
  - injection H as -> H. destruct (IH _ H) as [-> ->]. auto.
Qed.

Lemma string_of_uint_lacks (c : ascii) (d : Decimal.uint) :
  (nat_of_ascii c < 48 \/ 57 < nat_of_ascii c)%nat ->
  JS.lacks c (NilEmpty.string_of_uint d).
Proof.
  intros Hc.
  induction d; simpl; auto; split; auto; intros <-;
    change (nat_of_ascii _) with 48%nat in Hc || idtac;
    destruct Hc as [Hc|Hc]; vm_compute in Hc; lia.
Qed.

Lemma Number_toString_lacks (c : ascii) (n : N) :
  (nat_of_ascii c < 48 \/ 57 < nat_of_ascii c)%nat ->
  JS.lacks c (JS.Number_toString n).
Proof. apply string_of_uint_lacks. Qed.

Lemma Number_toString_inj (n m : N) :
  JS.Number_toString n = JS.Number_toString m -> n = m.
Proof.
  unfold JS.Number_toString; intros H.
  apply DecimalN.Unsigned.to_uint_inj.
  apply (f_equal NilEmpty.uint_of_string) in H.
  rewrite !NilEmpty.usu in H. now injection H.
Qed.

Lemma ends_differently (a b : string) (x y : ascii) :
  x <> y -> a ++ String x "" <> b ++ String y "".
Proof.
  intros Hxy; revert b.
  induction a as [|c a IH]; intros [|d b] H; simpl in H.
  - injection H as H. now apply Hxy.
  - injection H as _ H. destruct b; discriminate.
  - injection H as _ H. destruct a; discriminate.
  - injection H as _ H. now apply IH in H.
Qed.

End StringFacts.

(** ** The record generator *)

Section Generator.
Import Utils.

Lemma email_shape (g : GenEnv) (d p : string) (i : nat) :
  email (generateUser g d p i) =
  ((((JS.toLowerCase (nth (first_pick g i) firstNames "")
      ++ String "." (JS.toLowerCase (nth (last_pick g i) lastNames "")))
     ++ String "." (JS.Number_toString (now g)))
    ++ String "-" (JS.Number_toString (N.of_nat i)))
   ++ String "@" d).
Proof.
  unfold generateUser; cbn [email].
  generalize (JS.toLowerCase (nth (first_pick g i) firstNames "")).
  generalize (JS.toLowerCase (nth (last_pick g i) lastNames "")).
  intros l f. rewrite !append_assoc. cbn [String.append].
  reflexivity.
Qed.

(** The address of a record determines the clock reading and the index
    it was built from. *)
Lemma email_determines_id (g1 g2 : GenEnv) (d p1 p2 : string) (i j : nat) :
  email (generateUser g1 d p1 i) = email (generateUser g2 d p2 j) ->
  now g1 = now g2 /\ i = j.
Proof.
  rewrite !email_shape. intros H.
  apply append_inv_tail in H.
  apply split_at_last in H;
    try (apply Number_toString_lacks; vm_compute; lia).
  destruct H as [H Hi].
  apply split_at_last in H;
    try (apply Number_toString_lacks; vm_compute; lia).
  destruct H as [_ Ht].
  apply Number_toString_inj in Hi, Ht. split; [assumption | lia].
Qed.

Lemma generateUserBatch_length g n d p :
  List.length (generateUserBatch g n d p) = Z.to_nat n.
Proof. unfold generateUserBatch. now rewrite length_map, length_seq. Qed.

(** Within one generated batch no two records share an address. *)
Lemma generateUserBatch_emails_NoDup g n d p :
  NoDup (map email (generateUserBatch g n d p)).
Proof.
  unfold generateUserBatch. rewrite map_map.
  apply Injective_map_NoDup; [| apply seq_NoDup].
  intros i j H. now apply email_determines_id in H.
Qed.

(** Every generated record is marked as verified. *)
Lemma generateUserBatch_email_verified g n d p :
  Forall (fun u => email_verified (user_metadata u) = true)
         (generateUserBatch g n d p).
Proof.
  unfold generateUserBatch. apply Forall_forall. intros u Hu.
  apply in_map_iff in Hu. destruct Hu as [i [<- _]]. reflexivity.
Qed.

(** Two batches share no address when their clock readings differ. *)
Lemma generateUserBatch_disjoint g1 g2 n1 n2 d p u1 u2 :
  now g1 <> now g2 ->
  In u1 (generateUserBatch g1 n1 d p) ->
  In u2 (generateUserBatch g2 n2 d p) ->
  email u1 <> email u2.
Proof.
  unfold generateUserBatch. intros Hne H1 H2 He.
  apply in_map_iff in H1, H2.
  destruct H1 as [i [<- _]], H2 as [j [<- _]].
  apply email_determines_id in He. now destruct He.
Qed.

End Generator.

(** ** Floors and remainders over the rationals *)

Section NumFacts.
Local Open Scope Q_scope.

Lemma Qfloor_unique (x : Q) (k : Z) :
  inject_Z k <= x -> x < inject_Z (k + 1) -> Qfloor x = k.
Proof.
  intros H1 H2.
  pose proof (Qfloor_le x) as F1. pose proof (Qlt_floor x) as F2.
  assert (A : inject_Z (Qfloor x) < inject_Z (k + 1)) by lra.
  assert (B : inject_Z k < inject_Z (Qfloor x + 1)) by lra.
  rewrite <- Zlt_Qlt in A, B. lia.
Qed.

Lemma Qfloor_minus_Z (x : Q) (n : Z) :
  Qfloor (x - inject_Z n) = (Qfloor x - n)%Z.
Proof.
  apply Qfloor_unique.
  - unfold Z.sub. rewrite inject_Z_plus, inject_Z_opp.
    pose proof (Qfloor_le x). lra.
  - replace (Qfloor x - n + 1)%Z with ((Qfloor x + 1) + - n)%Z by lia.
    rewrite inject_Z_plus, inject_Z_opp.
    pose proof (Qlt_floor x). lra.
Qed.

Lemma inject_Z_pos (z : Z) : (0 < z)%Z -> 0 < inject_Z z.
Proof. intros H. change 0 with (inject_Z 0). now rewrite <- Zlt_Qlt. Qed.

Lemma Qdiv_nonneg (x m : Q) : 0 <= x -> 0 < m -> 0 <= x / m.
Proof. intros Hx Hm. apply Qle_shift_div_l; [assumption | lra]. Qed.

Lemma trunc_nonneg (x : Q) : 0 <= x -> Num.trunc x = Qfloor x.
Proof.
  intros H. unfold Num.trunc.
  apply Qle_bool_iff in H. now rewrite H.
Qed.

(** For [x >= 0], [x % m] removes the whole multiples of [m]. *)
Lemma rem_nonneg (x m : Q) :
  0 <= x -> 0 < m -> Num.rem x m = x - m * inject_Z (Qfloor (x / m)).
Proof.
  intros Hx Hm. unfold Num.rem.
  now rewrite trunc_nonneg by now apply Qdiv_nonneg.
Qed.

Lemma floor_rem (x : Q) (c d : Z) :
  0 <= x -> (0 < c)%Z -> (0 < d)%Z ->
  Qfloor (Num.rem x (inject_Z (c * d)) / inject_Z d) =
  (Qfloor (x / inject_Z d) - c * Qfloor (x / inject_Z (c * d)))%Z.
Proof.
  intros Hx Hc Hd.
  assert (Hd' : 0 < inject_Z d) by now apply inject_Z_pos.
  assert (Hcd : 0 < inject_Z (c * d)) by (apply inject_Z_pos; nia).
  rewrite rem_nonneg by assumption.
  rewrite <- Qfloor_minus_Z. apply Qfloor_comp.
  rewrite !inject_Z_mult. field. lra.
Qed.

End NumFacts.

(** ** Rounding to binary64 *)

Section Pow2Facts.
Import IEEE.
Local Open Scope Q_scope.

Lemma pow2_pos (e : Z) : 0 < pow2 e.
Proof. apply Qpower_0_lt. reflexivity. Qed.

Lemma pow2_add (a b : Z) : pow2 (a + b) == pow2 a * pow2 b.
Proof. unfold pow2. apply Qpower_plus. discriminate. Qed.

Lemma pow2_le (a b : Z) : (a <= b)%Z -> pow2 a <= pow2 b.
Proof. intros H. apply Qpower_le_compat_l; [exact H | discriminate]. Qed.

Lemma pow2_lt (a b : Z) : (a < b)%Z -> pow2 a < pow2 b.
Proof. intros H. apply Qpower_lt_compat_l; [exact H | reflexivity]. Qed.

Lemma pow2_nonneg_exp (e : Z) : (0 <= e)%Z -> pow2 e == inject_Z (2 ^ e).
Proof. intros H. unfold pow2. now rewrite Zpower_Qpower. Qed.

Lemma pow2_succ (e : Z) : pow2 (e + 1) == 2 * pow2 e.
Proof. rewrite pow2_add. change (pow2 1) with 2. ring. Qed.

Lemma pow2_pred (e : Z) : pow2 (e - 1) == pow2 e / 2.
Proof.
  assert (E : pow2 e == pow2 ((e - 1) + 1)) by (now replace (e - 1 + 1)%Z with e by lia).
  rewrite E, pow2_succ. field.
Qed.

(** [ilog2 q] is the binary exponent of [q > 0]. *)
Lemma ilog2_spec (q : Q) :
  0 < q -> pow2 (ilog2 q) <= q /\ q < pow2 (ilog2 q + 1).
Proof.
  intros Hq. destruct q as [n d]. unfold ilog2. cbn [Qnum Qden].
  assert (Hn : (0 < n)%Z).
  { unfold Qlt in Hq. cbn in Hq. lia. }
  pose proof (Z.log2_spec n Hn) as [N1 N2].
  pose proof (Z.log2_spec (Zpos d) eq_refl) as [D1 D2].
  pose proof (Z.log2_nonneg n) as Ln.
  pose proof (Z.log2_nonneg (Zpos d)) as Ld.
  set (a := Z.log2 n) in *. set (b := Z.log2 (Zpos d)) in *.
  assert (Q1 : pow2 a <= inject_Z n)
    by (rewrite pow2_nonneg_exp by lia; now rewrite <- Zle_Qle).
  assert (Q2 : inject_Z n < pow2 (a + 1))
    by (rewrite pow2_nonneg_exp by lia; rewrite <- Zlt_Qlt;
        now rewrite <- Z.add_1_r in N2).
  assert (Q3 : pow2 b <= inject_Z (Zpos d))
    by (rewrite pow2_nonneg_exp by lia; now rewrite <- Zle_Qle).
  assert (Q4 : inject_Z (Zpos d) < pow2 (b + 1))
    by (rewrite pow2_nonneg_exp by lia; rewrite <- Zlt_Qlt;
        now rewrite <- Z.add_1_r in D2).
  assert (Eq : n # d == inject_Z n / inject_Z (Zpos d)).
  { rewrite Qmake_Qdiv. reflexivity. }
  assert (Pd : 0 < inject_Z (Zpos d)) by reflexivity.
  pose proof (pow2_pos a) as Pa. pose proof (pow2_pos b) as Pb.
  pose proof (pow2_pos (a - b)) as Pab.
  assert (Eab : pow2 a == pow2 (a - b) * pow2 b).
  { rewrite <- pow2_add. now replace (a - b + b)%Z with a by lia. }
  (* upper bound: n/d < 2^(a-b+1) *)
  assert (U : n # d < pow2 (a - b + 1)).
  { rewrite Eq. apply Qlt_shift_div_r; [exact Pd |].
    rewrite pow2_succ. rewrite pow2_succ in Q2. rewrite Eab in Q2.
    nra. }
  (* lower bound: 2^(a-b-1) <= n/d *)
  assert (L : pow2 (a - b - 1) <= n # d).
  { rewrite Eq. apply Qle_shift_div_l; [exact Pd |].
    rewrite pow2_pred. rewrite pow2_succ in Q4. rewrite Eab in Q1.
    assert (H : 0 <= pow2 (a - b) * (2 * pow2 b - inject_Z (Zpos d)))
      by (apply Qmult_le_0_compat; lra).
    assert (E0 : pow2 (a - b) * (2 * pow2 b - inject_Z (Zpos d))
                 == 2 * (pow2 (a - b) * pow2 b)
                    - pow2 (a - b) * inject_Z (Zpos d)) by ring.
    rewrite E0 in H.
    assert (X : pow2 (a - b) / 2 * inject_Z (Zpos d)
                == (pow2 (a - b) * inject_Z (Zpos d)) * (1 # 2)) by field.
    rewrite X. lra. }
  destruct (Qle_bool (pow2 (a - b)) (n # d)) eqn:C.
  - apply Qle_bool_iff in C. split; [exact C | exact U].
  - assert (C' : n # d < pow2 (a - b)).
    { apply Qnot_le_lt. intros H. apply Qle_bool_iff in H. congruence. }
    split; [exact L |]. now replace (a - b - 1 + 1)%Z with (a - b)%Z by lia.
Qed.

Lemma ilog2_unique (q : Q) (e : Z) :
  pow2 e <= q -> q < pow2 (e + 1) -> ilog2 q = e.
Proof.
  intros L U.
  assert (Hq : 0 < q) by (pose proof (pow2_pos e); lra).
  destruct (ilog2_spec q Hq) as [L' U'].
  assert (A : (e < ilog2 q + 1)%Z).
  { apply (Qpower_lt_compat_l_inv 2); [| reflexivity].
    fold (pow2 e) (pow2 (ilog2 q + 1)). lra. }
  assert (B : (ilog2 q < e + 1)%Z).
  { apply (Qpower_lt_compat_l_inv 2); [| reflexivity].
    fold (pow2 (ilog2 q)) (pow2 (e + 1)). lra. }
  lia.
Qed.

Lemma ilog2_proper (q q' : Q) : 0 < q -> q == q' -> ilog2 q = ilog2 q'.
Proof.
  intros Hq E. destruct (ilog2_spec q Hq) as [L U].
  symmetry. apply ilog2_unique; rewrite <- E; assumption.
Qed.

Lemma ilog2_mono (q q' : Q) : 0 < q -> q <= q' -> (ilog2 q <= ilog2 q')%Z.
Proof.
  intros Hq H. destruct (ilog2_spec q Hq) as [L U].
  destruct (ilog2_spec q' ltac:(lra)) as [L' U'].
  assert (A : (ilog2 q < ilog2 q' + 1)%Z).
  { apply (Qpower_lt_compat_l_inv 2); [| reflexivity].
    fold (pow2 (ilog2 q)) (pow2 (ilog2 q' + 1)). lra. }
  lia.
Qed.

End Pow2Facts.

Section RneFacts.
Import IEEE.
Local Open Scope Q_scope.

Lemma rne_bounds (x : Q) :
  x - (1 # 2) <= inject_Z (rne x) /\ inject_Z (rne x) <= x + (1 # 2).
Proof.
  unfold rne. pose proof (Qfloor_le x) as F1. pose proof (Qlt_floor x) as F2.
  rewrite inject_Z_plus in F2. change (inject_Z 1) with 1 in F2.
  destruct (Qcompare_spec (x - inject_Z (Qfloor x)) (1 # 2)) as [E|L|G].
  - destruct (Z.even (Qfloor x)).
    + split; lra.
    + rewrite inject_Z_plus. change (inject_Z 1) with 1. split; lra.
  - split; lra.
  - rewrite inject_Z_plus. change (inject_Z 1) with 1. split; lra.
Qed.

Lemma rne_proper (x y : Q) : x == y -> rne x = rne y.
Proof.
  intros E. unfold rne.
  assert (F : Qfloor x = Qfloor y) by now rewrite E.
  rewrite F.
  assert (C : Qcompare (x - inject_Z (Qfloor y)) (1 # 2)
              = Qcompare (y - inject_Z (Qfloor y)) (1 # 2))
    by now rewrite E.
  now rewrite C.
Qed.

Lemma rne_Z (z : Z) : rne (inject_Z z) = z.
Proof.
  unfold rne. rewrite Qfloor_Z.
  destruct (Qcompare_spec (inject_Z z - inject_Z z) (1 # 2)) as [E|L|G].
  - exfalso. assert (X : inject_Z z - inject_Z z == 0) by ring.
    rewrite X in E. discriminate.
  - reflexivity.
  - exfalso. assert (X : inject_Z z - inject_Z z == 0) by ring.
    rewrite X in G. discriminate.
Qed.

Lemma rne_floor_range (x : Q) :
  (Qfloor x <= rne x <= Qfloor x + 1)%Z.
Proof.
  unfold rne.
  destruct (Qcompare (x - inject_Z (Qfloor x)) (1 # 2));
    [destruct (Z.even (Qfloor x)) | |]; lia.
Qed.

Lemma rne_mono (x y : Q) : x <= y -> (rne x <= rne y)%Z.
Proof.
  intros H. pose proof (Qfloor_resp_le x y H) as F.
  pose proof (rne_floor_range x) as Rx. pose proof (rne_floor_range y) as Ry.
  destruct (Z.eq_dec (Qfloor x) (Qfloor y)) as [E|N]; [| lia].
  unfold rne. rewrite E.
  destruct (Qcompare_spec (x - inject_Z (Qfloor y)) (1 # 2)) as [Ex|Lx|Gx];
    destruct (Qcompare_spec (y - inject_Z (Qfloor y)) (1 # 2))
      as [Ey|Ly|Gy];
    try (destruct (Z.even (Qfloor y))); try lia; exfalso; lra.
Qed.

End RneFacts.

Section NearestFacts.
Import IEEE.
Local Open Scope Q_scope.

Lemma nearest_zero (q : Q) : q == 0 -> nearest q = 0.
Proof.
  intros E. unfold nearest.
  destruct (Qeq_bool q 0) eqn:B; [reflexivity |].
  apply Qeq_bool_neq in B. contradiction.
Qed.

Lemma nearest_nonzero (q : Q) :
  ~ q == 0 ->
  nearest q
  = inject_Z (rne (q / pow2 (ulp_exponent q))) * pow2 (ulp_exponent q).
Proof.
  intros N. unfold nearest.
  destruct (Qeq_bool q 0) eqn:B; [| reflexivity].
  apply Qeq_bool_iff in B. contradiction.
Qed.

Lemma ulp_exponent_proper (q q' : Q) :
  0 < q -> q == q' -> ulp_exponent q = ulp_exponent q'.
Proof.
  intros Hq E. unfold ulp_exponent.
  rewrite (ilog2_proper (Qabs q) (Qabs q')); [reflexivity | |].
  - rewrite Qabs_pos; lra.
  - now rewrite E.
Qed.

Lemma nearest_proper (q q' : Q) : 0 <= q -> q == q' -> nearest q == nearest q'.
Proof.
  intros Hq E. destruct (Qeq_dec q 0) as [Z|N].
  - rewrite (nearest_zero q Z), (nearest_zero q'); [reflexivity |].
    now rewrite <- E.
  - rewrite (nearest_nonzero q N), (nearest_nonzero q')
      by (now rewrite <- E).
    assert (P : 0 < q) by lra.
    rewrite <- (ulp_exponent_proper q q' P E).
    rewrite (rne_proper (q / pow2 (ulp_exponent q))
                        (q' / pow2 (ulp_exponent q))); [reflexivity |].
    unfold Qdiv. apply Qmult_comp; [exact E | reflexivity].
Qed.

(** The rounding error is at most half a unit in the last place. *)
Lemma nearest_error (q : Q) :
  ~ q == 0 ->
  Qabs (nearest q - q) <= pow2 (ulp_exponent q) / 2.
Proof.
  intros N. rewrite (nearest_nonzero q N).
  set (u := pow2 (ulp_exponent q)).
  assert (Pu : 0 < u) by apply pow2_pos.
  destruct (rne_bounds (q / u)) as [B1 B2].
  set (m := inject_Z (rne (q / u))) in *.
  assert (E : q == q / u * u) by (field; lra).
  apply Qabs_Qle_condition. split.
  - assert (X : (q / u - (1 # 2)) * u <= m * u)
      by (apply Qmult_le_compat_r; lra).
    assert (Y : (q / u - (1 # 2)) * u == q - u / 2) by (field; lra).
    rewrite Y in X. lra.
  - assert (X : m * u <= (q / u + (1 # 2)) * u)
      by (apply Qmult_le_compat_r; lra).
    assert (Y : (q / u + (1 # 2)) * u == q + u / 2) by (field; lra).
    rewrite Y in X. lra.
Qed.

Lemma ulp_exponent_pos (q : Q) :
  0 < q -> ulp_exponent q = (Z.max (ilog2 q) (-1022) - 52)%Z.
Proof.
  intros H. unfold ulp_exponent.
  rewrite (ilog2_proper (Qabs q) q); [reflexivity | |].
  - rewrite Qabs_pos; lra.
  - apply Qabs_pos. lra.
Qed.

(** Where [nearest q] lies, for [q > 0]. *)
Lemma nearest_upper (q : Q) :
  0 < q -> nearest q <= pow2 (Z.max (ilog2 q) (-1022) + 1).
Proof.
  intros Hq. rewrite (nearest_nonzero q) by lra.
  rewrite (ulp_exponent_pos q Hq).
  set (E := Z.max (ilog2 q) (-1022)).
  destruct (ilog2_spec q Hq) as [_ U].
  assert (P : 0 < pow2 (E - 52)) by apply pow2_pos.
  assert (B : q / pow2 (E - 52) <= inject_Z (2 ^ 53)).
  { apply Qle_shift_div_r; [exact P |].
    rewrite <- pow2_nonneg_exp by lia. rewrite <- pow2_add.
    replace (53 + (E - 52))%Z with (E + 1)%Z by lia.
    pose proof (pow2_le (ilog2 q + 1) (E + 1) ltac:(lia)). lra. }
  apply rne_mono in B. rewrite rne_Z in B. rewrite Zle_Qle in B.
  assert (X : inject_Z (rne (q / pow2 (E - 52))) * pow2 (E - 52)
              <= inject_Z (2 ^ 53) * pow2 (E - 52))
    by (apply Qmult_le_compat_r; lra).
  rewrite <- pow2_nonneg_exp in X by lia. rewrite <- pow2_add in X.
  now replace (53 + (E - 52))%Z with (E + 1)%Z in X by lia.
Qed.

Lemma nearest_lower (q : Q) :
  0 < q -> (-1022 <= ilog2 q)%Z -> pow2 (ilog2 q) <= nearest q.
Proof.
  intros Hq Hn. rewrite (nearest_nonzero q) by lra.
  rewrite (ulp_exponent_pos q Hq).
  rewrite Z.max_l by lia. set (e := ilog2 q) in *.
  destruct (ilog2_spec q Hq) as [L _]. fold e in L.
  assert (P : 0 < pow2 (e - 52)) by apply pow2_pos.
  assert (B : inject_Z (2 ^ 52) <= q / pow2 (e - 52)).
  { apply Qle_shift_div_l; [exact P |].
    rewrite <- pow2_nonneg_exp by lia. rewrite <- pow2_add.
    now replace (52 + (e - 52))%Z with e by lia. }
  apply rne_mono in B. rewrite rne_Z in B. rewrite Zle_Qle in B.
  assert (X : inject_Z (2 ^ 52) * pow2 (e - 52)
              <= inject_Z (rne (q / pow2 (e - 52))) * pow2 (e - 52))
    by (apply Qmult_le_compat_r; lra).
  rewrite <- pow2_nonneg_exp in X by lia. rewrite <- pow2_add in X.
  now replace (52 + (e - 52))%Z with e in X by lia.
Qed.

Lemma nearest_nonneg (q : Q) : 0 <= q -> 0 <= nearest q.
Proof.
  intros H. destruct (Qeq_dec q 0) as [Z|N].
  - rewrite (nearest_zero q Z). lra.
  - rewrite (nearest_nonzero q N).
    apply Qmult_le_0_compat; [| apply Qlt_le_weak, pow2_pos].
    assert (B : 0 <= q / pow2 (ulp_exponent q)).
    { apply Qle_shift_div_l; [apply pow2_pos | lra]. }
    apply rne_mono in B. change 0 with (inject_Z 0) in B at 1.
    rewrite rne_Z in B. now rewrite Zle_Qle in B.
Qed.

(** Rounding is monotone. *)
Lemma nearest_mono (q q' : Q) :
  0 <= q -> q <= q' -> nearest q <= nearest q'.
Proof.
  intros H0 H. destruct (Qeq_dec q 0) as [Z|N].
  - rewrite (nearest_zero q Z). apply nearest_nonneg. lra.
  - assert (Hq : 0 < q) by lra. assert (Hq' : 0 < q') by lra.
    pose proof (ilog2_mono q q' Hq H) as M.
    destruct (Z.eq_dec (Z.max (ilog2 q) (-1022)) (Z.max (ilog2 q') (-1022)))
      as [E|D].
    + rewrite (nearest_nonzero q), (nearest_nonzero q') by lra.
      rewrite (ulp_exponent_pos q Hq), (ulp_exponent_pos q' Hq'), E.
      set (u := pow2 _). assert (Pu : 0 < u) by apply pow2_pos.
      apply Qmult_le_compat_r; [| lra].
      rewrite <- Zle_Qle. apply rne_mono.
      apply Qmult_le_compat_r; [exact H |].
      apply Qlt_le_weak, Qinv_lt_0_compat, Pu.
    + pose proof (nearest_upper q Hq) as U.
      pose proof (nearest_lower q' Hq' ltac:(lia)) as L.
      pose proof (pow2_le (Z.max (ilog2 q) (-1022) + 1) (ilog2 q')
                    ltac:(lia)). lra.
Qed.

End NearestFacts.

Section GridFacts.
Import IEEE.
Local Open Scope Q_scope.

Lemma multiple_of_finer (q : Q) (g g' : Z) :
  (g' <= g)%Z -> multiple_of q g -> multiple_of q g'.
Proof.
  intros H [m E]. exists (m * 2 ^ (g - g'))%Z.
  rewrite E, inject_Z_mult, <- pow2_nonneg_exp by lia.
  rewrite <- Qmult_assoc, <- pow2_add.
  now replace (g - g' + g')%Z with g by lia.
Qed.

Lemma multiple_of_sub (q q' : Q) (g : Z) :
  multiple_of q g -> multiple_of q' g -> multiple_of (q - q') g.
Proof.
  intros [m E] [m' E']. exists (m - m')%Z.
  rewrite E, E'. unfold Z.sub. rewrite inject_Z_plus, inject_Z_opp. ring.
Qed.

Lemma multiple_of_Z (z g : Z) : (g <= 0)%Z -> multiple_of (inject_Z z) g.
Proof.
  intros H. exists (z * 2 ^ (- g))%Z.
  rewrite inject_Z_mult, <- pow2_nonneg_exp by lia.
  rewrite <- Qmult_assoc, <- pow2_add.
  replace (- g + g)%Z with 0%Z by lia. change (pow2 0) with 1. ring.
Qed.

(** A positive multiple of [2 ^ g] is at least [2 ^ g]. *)
Lemma multiple_of_pos (q : Q) (g : Z) :
  multiple_of q g -> 0 < q -> pow2 g <= q.
Proof.
  intros [m E] H. pose proof (pow2_pos g) as P.
  assert (M : (1 <= m)%Z).
  { destruct (Z.le_gt_cases m 0) as [L|L]; [exfalso | lia].
    rewrite Zle_Qle in L. change (inject_Z 0) with 0 in L.
    assert (X : inject_Z m * pow2 g <= 0 * pow2 g)
      by (apply Qmult_le_compat_r; lra).
    lra. }
  rewrite Zle_Qle in M. change (inject_Z 1) with 1 in M.
  assert (X : 1 * pow2 g <= inject_Z m * pow2 g)
    by (apply Qmult_le_compat_r; lra).
  lra.
Qed.

Lemma nearest_fixed (q : Q) :
  multiple_of q (ulp_exponent q) -> nearest q == q.
Proof.
  intros [m E]. destruct (Qeq_dec q 0) as [Z|N].
  - rewrite (nearest_zero q Z). now symmetry.
  - rewrite (nearest_nonzero q N).
    pose proof (pow2_pos (ulp_exponent q)) as P.
    assert (X : q / pow2 (ulp_exponent q) == inject_Z m).
    { rewrite E at 1. field. lra. }
    rewrite (rne_proper _ _ X), rne_Z. now symmetry.
Qed.

Lemma ilog2_Z (z : Z) : (0 < z)%Z -> ilog2 (inject_Z z) = Z.log2 z.
Proof.
  intros H. apply ilog2_unique.
  - rewrite pow2_nonneg_exp by apply Z.log2_nonneg.
    rewrite <- Zle_Qle. apply Z.log2_spec, H.
  - pose proof (Z.log2_nonneg z).
    rewrite pow2_nonneg_exp by lia.
    rewrite <- Zlt_Qlt. rewrite Z.add_1_r. apply Z.log2_spec, H.
Qed.

(** Integers of magnitude up to [2 ^ 53] are doubles. *)
Lemma nearest_Z (z : Z) :
  (0 <= z <= 2 ^ 53)%Z -> nearest (inject_Z z) == inject_Z z.
Proof.
  intros H. destruct (Z.eq_dec z 0) as [->|N]; [reflexivity |].
  assert (Hz : (0 < z)%Z) by lia.
  apply nearest_fixed.
  rewrite ulp_exponent_pos
    by (change 0 with (inject_Z 0); now rewrite <- Zlt_Qlt).
  rewrite (ilog2_Z z Hz).
  pose proof (Z.log2_nonneg z) as L0.
  rewrite Z.max_l by lia.
  destruct (Z.eq_dec z (2 ^ 53)) as [->|D].
  - change (Z.log2 (2 ^ 53)) with 53%Z. exists (2 ^ 52)%Z. reflexivity.
  - assert (L : (Z.log2 z < 53)%Z) by (apply Z.log2_lt_pow2; lia).
    apply multiple_of_Z. lia.
Qed.

(** The relative rounding error of a number in the normal range is at
    most [2 ^ -53]. *)
Lemma nearest_relative (q : Q) :
  pow2 (-1022) <= q -> Qabs (nearest q - q) <= q * pow2 (-53).
Proof.
  intros H. pose proof (pow2_pos (-1022)) as P.
  assert (Hq : 0 < q) by lra.
  pose proof (nearest_error q ltac:(lra)) as E.
  rewrite (ulp_exponent_pos q Hq) in E.
  assert (N : (-1022 <= ilog2 q)%Z).
  { destruct (ilog2_spec q Hq) as [_ U].
    assert (A : (-1022 < ilog2 q + 1)%Z).
    { apply (Qpower_lt_compat_l_inv 2); [| reflexivity].
      fold (pow2 (-1022)) (pow2 (ilog2 q + 1)). lra. }
    lia. }
  rewrite Z.max_l in E by lia.
  destruct (ilog2_spec q Hq) as [L _].
  assert (X : pow2 (ilog2 q - 52) / 2 == pow2 (ilog2 q) * pow2 (-53)).
  { rewrite <- pow2_add. rewrite <- pow2_pred. 
    now replace (ilog2 q - 52 - 1)%Z with (ilog2 q + -53)%Z by lia. }
  rewrite X in E.
  assert (Y : pow2 (ilog2 q) * pow2 (-53) <= q * pow2 (-53))
    by (apply Qmult_le_compat_r; [exact L | apply Qlt_le_weak, pow2_pos]).
  lra.
Qed.

(** A rounded number of the normal range has a 53-bit mantissa. *)
Lemma nearest_multiple (q : Q) :
  pow2 (-1022) <= q ->
  multiple_of (nearest q) (ilog2 (nearest q) - 52).
Proof.
  intros H. pose proof (pow2_pos (-1022)) as P.
  assert (Hq : 0 < q) by lra.
  assert (N : (-1022 <= ilog2 q)%Z).
  { destruct (ilog2_spec q Hq) as [_ U].
    assert (A : (-1022 < ilog2 q + 1)%Z).
    { apply (Qpower_lt_compat_l_inv 2); [| reflexivity].
      fold (pow2 (-1022)) (pow2 (ilog2 q + 1)). lra. }
    lia. }
  pose proof (nearest_lower q Hq N) as L.
  pose proof (nearest_upper q Hq) as U. rewrite Z.max_l in U by lia.
  set (e := ilog2 q) in *.
  destruct (Qlt_le_dec (nearest q) (pow2 (e + 1))) as [Lt|Ge].
  - rewrite (ilog2_unique (nearest q) e L Lt).
    rewrite (nearest_nonzero q) by lra.
    rewrite (ulp_exponent_pos q Hq). fold e. rewrite Z.max_l by lia.
    eexists. reflexivity.
  - assert (E : nearest q == pow2 (e + 1)) by lra.
    rewrite (ilog2_unique (nearest q) (e + 1)).
    + exists (2 ^ 52)%Z. rewrite E.
      rewrite <- pow2_nonneg_exp by lia. rewrite <- pow2_add.
      now replace (52 + (e + 1 - 52))%Z with (e + 1)%Z by lia.
    + lra.
    + pose proof (pow2_lt (e + 1) (e + 1 + 1) ltac:(lia)). lra.
Qed.

(** Doubles below an integer [X <= 2 ^ 53] stay away from it by at
    least [X * 2 ^ -53]. *)
Lemma spacing_below (x : Q) (X : Z) :
  0 < x -> multiple_of x (ilog2 x - 52) ->
  (0 < X <= 2 ^ 53)%Z -> x < inject_Z X ->
  inject_Z X * pow2 (-53) <= inject_Z X - x.
Proof.
  intros Hx M HX Lt.
  assert (PX : 0 < inject_Z X)
    by (change 0 with (inject_Z 0); rewrite <- Zlt_Qlt; lia).
  pose proof (Z.log2_spec X ltac:(lia)) as [S1 S2].
  pose proof (Z.log2_nonneg X) as A0.
  set (a := Z.log2 X) in *.
  assert (A53 : (a <= 53)%Z).
  { destruct (Z.le_gt_cases a 53) as [L|G]; [exact L | exfalso].
    assert (2 ^ 54 <= 2 ^ a)%Z by (apply Z.pow_le_mono_r; lia).
    change (2 ^ 54)%Z with (2 * 2 ^ 53)%Z in *. lia. }
  assert (Q1 : pow2 a <= inject_Z X)
    by (rewrite pow2_nonneg_exp by lia; now rewrite <- Zle_Qle).
  assert (Q2 : inject_Z X < pow2 (a + 1))
    by (rewrite pow2_nonneg_exp by lia; rewrite <- Zlt_Qlt;
        now rewrite <- Z.add_1_r in S2).
  assert (Q53 : inject_Z X <= pow2 53)
    by (rewrite pow2_nonneg_exp by lia; rewrite <- Zle_Qle; lia).
  assert (Pm : pow2 (-53) * pow2 53 == 1)
    by (rewrite <- pow2_add; reflexivity).
  pose proof (pow2_pos (-53)) as P53. pose proof (pow2_pos 53) as Pp53.
  assert (Small : inject_Z X * pow2 (-53) <= 1).
  { assert (T : inject_Z X * pow2 (-53) <= pow2 53 * pow2 (-53))
      by (apply Qmult_le_compat_r; lra).
    lra. }
  destruct (ilog2_spec x Hx) as [L U].
  destruct (Qlt_le_dec x (pow2 a)) as [Below|Above].
  - (* x is in a lower binade than X *)
    destruct (Z.eq_dec X (2 ^ a)) as [EX|NX].
    + (* X is a power of two *)
      destruct (Qlt_le_dec x (pow2 (a - 1))) as [Far|Near].
      * assert (T : inject_Z X == pow2 a)
          by (rewrite EX; now rewrite pow2_nonneg_exp by lia).
        rewrite pow2_pred in Far.
        assert (T2 : pow2 a * pow2 (-53) <= pow2 a * (1 # 2)).
        { rewrite Qmult_le_l by apply pow2_pos.
          change (1 # 2) with (pow2 (-1)). apply pow2_le. lia. }
        rewrite T. clear - Far T2.
        set (A := pow2 a) in *. set (c := pow2 (-53)) in *.
        assert (F' : x < A * (1 # 2))
          by (setoid_replace (A * (1 # 2)) with (A / 2) by field;
              exact Far).
        lra.
      * assert (Ex : ilog2 x = (a - 1)%Z).
        { apply ilog2_unique; [exact Near |].
          now replace (a - 1 + 1)%Z with a by lia. }
        rewrite Ex in M.
        assert (MX : multiple_of (inject_Z X) (a - 1 - 52)).
        { exists (2 ^ 53)%Z. rewrite EX.
          rewrite <- !pow2_nonneg_exp by lia. rewrite <- pow2_add.
          now replace (53 + (a - 1 - 52))%Z with a by lia. }
        pose proof (multiple_of_pos _ _ (multiple_of_sub _ _ _ MX M)
                      ltac:(lra)) as D.
        assert (T : inject_Z X * pow2 (-53) == pow2 (a - 1 - 52)).
        { rewrite EX, <- pow2_nonneg_exp by lia. rewrite <- pow2_add.
          now replace (a + -53)%Z with (a - 1 - 52)%Z by lia. }
        rewrite T. exact D.
    + assert (G : (2 ^ a + 1 <= X)%Z) by lia.
      rewrite Zle_Qle, inject_Z_plus, <- pow2_nonneg_exp in G by lia.
      change (inject_Z 1) with 1 in G. lra.
  - (* x and X are in the same binade *)
    assert (Ex : ilog2 x = a) by (apply ilog2_unique; [exact Above | lra]).
    rewrite Ex in M.
    assert (A52 : (a <= 52)%Z).
    { destruct (Z.le_gt_cases a 52) as [Le|G]; [exact Le | exfalso].
      assert (a = 53%Z) by lia. subst a.
      assert (pow2 53 <= x) by (now rewrite <- H). lra. }
    assert (MX : multiple_of (inject_Z X) (a - 52))
      by (apply multiple_of_Z; lia).
    pose proof (multiple_of_pos _ _ (multiple_of_sub _ _ _ MX M)
                  ltac:(lra)) as D.
    assert (T : inject_Z X * pow2 (-53) <= pow2 (a + 1) * pow2 (-53))
      by (apply Qmult_le_compat_r; lra).
    rewrite <- pow2_add in T.
    replace (a + 1 + -53)%Z with (a - 52)%Z in T by lia. lra.
Qed.

End GridFacts.

Section FloorOfQuotient.
Import IEEE.
Local Open Scope Q_scope.

Lemma half_ulp_small (y : Q) (k : Z) :
  0 < y -> y < inject_Z k ->
  pow2 (ulp_exponent y) / 2 < inject_Z k * pow2 (-53).
Proof.
  intros Hy Hk. rewrite (ulp_exponent_pos y Hy).
  destruct (ilog2_spec y Hy) as [L _].
  pose proof (pow2_pos (-53)) as P.
  assert (K1 : 1 <= inject_Z k).
  { assert (0 < k)%Z.
    { rewrite Zlt_Qlt. change (inject_Z 0) with 0. lra. }
    change 1 with (inject_Z 1). rewrite <- Zle_Qle. lia. }
  assert (X : forall e, pow2 (e - 52) / 2 == pow2 e * pow2 (-53)).
  { intros e. rewrite <- pow2_add, <- pow2_pred.
    now replace (e - 52 - 1)%Z with (e + -53)%Z by lia. }
  rewrite X.
  destruct (Z.max_spec (ilog2 y) (-1022)) as [[_ ->]|[_ ->]].
  - assert (T : pow2 (-1022) * pow2 (-53) < 1 * pow2 (-53)).
    { apply Qmult_lt_compat_r; [exact P |].
      change 1 with (pow2 0). apply pow2_lt. lia. }
    assert (T2 : 1 * pow2 (-53) <= inject_Z k * pow2 (-53))
      by (apply Qmult_le_compat_r; lra).
    lra.
  - assert (T : pow2 (ilog2 y) * pow2 (-53) <= y * pow2 (-53))
      by (apply Qmult_le_compat_r; lra).
    assert (T2 : y * pow2 (-53) < inject_Z k * pow2 (-53))
      by (apply Qmult_lt_compat_r; lra).
    lra.
Qed.

(** Dividing a double by a small integer and taking [Math.floor]
    gives the floor of the exact quotient. *)
Lemma floor_nearest_div (x : Q) (c : Z) :
  0 < x -> multiple_of x (ilog2 x - 52) -> (0 < c)%Z ->
  ((Qfloor (x / inject_Z c) + 1) * c <= 2 ^ 53)%Z ->
  Qfloor (nearest (x / inject_Z c)) = Qfloor (x / inject_Z c).
Proof.
  intros Hx M Hc B.
  pose proof (inject_Z_pos c Hc) as Pc.
  set (y := x / inject_Z c) in *.
  assert (Hy : 0 < y) by (apply Qlt_shift_div_l; lra).
  pose proof (Qfloor_le y) as F1. pose proof (Qlt_floor y) as F2.
  assert (F0 : (0 <= Qfloor y)%Z).
  { change 0%Z with (Qfloor 0). apply Qfloor_resp_le. lra. }
  set (k := (Qfloor y + 1)%Z) in *.
  assert (Kb : (k <= 2 ^ 53)%Z) by nia.
  apply Qfloor_unique.
  - rewrite <- (nearest_Z (Qfloor y)) by lia.
    apply nearest_mono; [| exact F1].
    change 0 with (inject_Z 0). rewrite <- Zle_Qle. lia.
  - fold k. apply Qnot_le_lt. intros Ge.
    assert (Up : nearest y <= inject_Z k).
    { rewrite <- (nearest_Z k) by lia. apply nearest_mono; lra. }
    assert (E : nearest y == inject_Z k) by lra.
    pose proof (nearest_error y ltac:(lra)) as Err.
    rewrite E in Err.
    apply Qabs_Qle_condition in Err. destruct Err as [_ Err].
    pose proof (half_ulp_small y k Hy F2) as S.
    assert (Close : inject_Z k - y < inject_Z k * pow2 (-53)) by lra.
    assert (XltX : x < inject_Z (k * c)).
    { rewrite inject_Z_mult.
      assert (T : y * inject_Z c < inject_Z k * inject_Z c)
        by (apply Qmult_lt_compat_r; lra).
      assert (Ey : y * inject_Z c == x) by (unfold y; field; lra).
      lra. }
    pose proof (spacing_below x (k * c) Hx M ltac:(nia) XltX) as Sp.
    rewrite inject_Z_mult in Sp.
    assert (Ey : x == y * inject_Z c) by (unfold y; field; lra).
    assert (T : (inject_Z k - y) * inject_Z c
                < inject_Z k * pow2 (-53) * inject_Z c)
      by (apply Qmult_lt_compat_r; lra).
    assert (R1 : (inject_Z k - y) * inject_Z c
                 == inject_Z k * inject_Z c - x) by (rewrite Ey; ring).
    assert (R2 : inject_Z k * pow2 (-53) * inject_Z c
                 == inject_Z k * inject_Z c * pow2 (-53)) by ring.
    rewrite R1, R2 in T. lra.
Qed.

End FloorOfQuotient.

(** ** Operations on finite Numbers *)

Section NumberFacts.
Import IEEE.
Local Open Scope Q_scope.

Lemma Qltb_false (a b : Q) : b <= a -> Qltb a b = false.
Proof.
  intros H. unfold Qltb. apply Qle_bool_iff in H. now rewrite H.
Qed.

Lemma Qltb_true (a b : Q) : a < b -> Qltb a b = true.
Proof.
  intros H. unfold Qltb. destruct (Qle_bool b a) eqn:E; [| reflexivity].
  apply Qle_bool_iff in E. lra.
Qed.

Lemma Qeq_bool_false (a b : Q) : ~ a == b -> Qeq_bool a b = false.
Proof.
  intros H. destruct (Qeq_bool a b) eqn:E; [| reflexivity].
  apply Qeq_bool_iff in E. contradiction.
Qed.

Lemma Qeq_bool_true (a b : Q) : a == b -> Qeq_bool a b = true.
Proof. intros H. now apply Qeq_bool_iff. Qed.

Lemma is_number_eq (x : Number) (v w : Q) :
  is_number x v -> v == w -> is_number x w.
Proof. intros (q & -> & E) H. exists q. split; [reflexivity | lra]. Qed.

Lemma pow2_1024_big : pow2 53 * pow2 53 < pow2 1024.
Proof. rewrite <- pow2_add. apply pow2_lt. lia. Qed.

(** A non-negative exact result that does not overflow gives the
    nearest double. *)
Lemma fl_number (q : Q) :
  0 <= q -> nearest q < pow2 1024 -> is_number (fl q) (nearest q).
Proof.
  intros H0 Hb. unfold fl.
  pose proof (nearest_nonneg q H0) as Hn.
  rewrite (Qltb_false q 0 H0).
  assert (A : Qabs (nearest q) == nearest q) by now apply Qabs_pos.
  destruct (Qle_bool (pow2 1024) (Qabs (nearest q))) eqn:O.
  - apply Qle_bool_iff in O. lra.
  - destruct (Qeq_bool (nearest q) 0) eqn:Z.
    + apply Qeq_bool_iff in Z. exists 0. split; [reflexivity | lra].
    + exists (nearest q). split; reflexivity.
Qed.

Lemma of_Z_number (z : Z) :
  (0 <= z <= 2 ^ 53)%Z -> is_number (of_Z z) (inject_Z z).
Proof.
  intros H. unfold of_Z.
  pose proof (nearest_Z z H) as E.
  assert (Z0 : 0 <= inject_Z z)
    by (change 0 with (inject_Z 0); rewrite <- Zle_Qle; lia).
  apply (is_number_eq _ (nearest (inject_Z z))); [| exact E].
  apply fl_number; [exact Z0 |].
  rewrite E.
  assert (B : inject_Z z <= pow2 53)
    by (rewrite pow2_nonneg_exp by lia; rewrite <- Zle_Qle; lia).
  pose proof (pow2_lt 53 1024 ltac:(lia)). lra.
Qed.

Lemma div_number (x y : Number) (a b : Q) :
  is_number x a -> is_number y b -> 0 <= a -> 0 < b ->
  nearest (a / b) < pow2 1024 ->
  is_number (div x y) (nearest (a / b)).
Proof.
  intros (a' & -> & Ea) (b' & -> & Eb) Ha Hb Hov.
  unfold div; cbn [negative is_zero value].
  rewrite (Qeq_bool_false b' 0) by lra.
  rewrite (Qltb_false a' 0) by lra. rewrite (Qltb_false b' 0) by lra.
  cbn [xorb zero].
  assert (Q0 : 0 <= a' / b') by (apply Qle_shift_div_l; lra).
  assert (E : a' / b' == a / b) by (rewrite Ea, Eb; reflexivity).
  pose proof (nearest_proper _ _ Q0 E) as NE.
  destruct (Qeq_bool a' 0) eqn:Z.
  - apply Qeq_bool_iff in Z. exists 0. split; [reflexivity |].
    rewrite <- NE. symmetry.
    rewrite (nearest_zero (a' / b')); [reflexivity |].
    rewrite Z. unfold Qdiv. ring.
  - apply (is_number_eq _ (nearest (a' / b'))); [| exact NE].
    apply fl_number; [exact Q0 | lra].
Qed.

Lemma mul_number (x y : Number) (a b : Q) :
  is_number x a -> is_number y b -> 0 <= a -> 0 <= b ->
  nearest (a * b) < pow2 1024 ->
  is_number (mul x y) (nearest (a * b)).
Proof.
  intros (a' & -> & Ea) (b' & -> & Eb) Ha Hb Hov.
  unfold mul; cbn [negative is_zero value].
  rewrite (Qltb_false a' 0) by lra. rewrite (Qltb_false b' 0) by lra.
  cbn [xorb zero].
  assert (Q0 : 0 <= a' * b') by (apply Qmult_le_0_compat; lra).
  assert (E : a' * b' == a * b) by (rewrite Ea, Eb; reflexivity).
  pose proof (nearest_proper _ _ Q0 E) as NE.
  destruct (Qeq_bool a' 0 || Qeq_bool b' 0) eqn:Z.
  - exists 0. split; [reflexivity |]. rewrite <- NE. symmetry.
    rewrite (nearest_zero (a' * b')); [reflexivity |].
    apply orb_true_iff in Z. destruct Z as [Z|Z];
      apply Qeq_bool_iff in Z; rewrite Z; ring.
  - apply (is_number_eq _ (nearest (a' * b'))); [| exact NE].
    apply fl_number; [exact Q0 | lra].
Qed.

Lemma sub_number (x y : Number) (a b : Q) :
  is_number x a -> is_number y b -> 0 <= a - b ->
  nearest (a - b) < pow2 1024 ->
  is_number (sub x y) (nearest (a - b)).
Proof.
  intros (a' & -> & Ea) (b' & -> & Eb) H0 Hov.
  unfold sub, neg.
  destruct (Qeq_bool b' 0) eqn:Zb.
  - apply Qeq_bool_iff in Zb.
    unfold add; cbn [is_zero negative value andb].
    assert (E : a' + 0 == a - b) by (rewrite Ea, <- Eb, Zb; ring).
    assert (Q0 : 0 <= a' + 0) by lra.
    pose proof (nearest_proper _ _ Q0 E) as NE.
    destruct (Qeq_bool a' 0) eqn:Za.
    + apply Qeq_bool_iff in Za. cbn [andb].
      rewrite (Qltb_false a' 0) by lra. cbn [andb zero].
      exists 0. split; [reflexivity |]. rewrite <- NE. symmetry.
      rewrite (nearest_zero (a' + 0)); [reflexivity | lra].
    + cbn [andb]. rewrite (Qeq_bool_false (a' + 0) 0).
      * apply (is_number_eq _ (nearest (a' + 0))); [| exact NE].
        apply fl_number; [exact Q0 | lra].
      * apply Qeq_bool_neq in Za. lra.
  - unfold add; cbn [is_zero negative value].
    assert (Nb : Qeq_bool (- b') 0 = false).
    { apply Qeq_bool_false. apply Qeq_bool_neq in Zb. lra. }
    rewrite Nb, andb_false_r.
    assert (E : a' + - b' == a - b) by (rewrite Ea, Eb; ring).
    assert (Q0 : 0 <= a' + - b') by lra.
    pose proof (nearest_proper _ _ Q0 E) as NE.
    destruct (Qeq_bool (a' + - b') 0) eqn:Z.
    + apply Qeq_bool_iff in Z. exists 0. split; [reflexivity |].
      rewrite <- NE. symmetry.
      rewrite (nearest_zero (a' + - b')); [reflexivity | exact Z].
    + apply (is_number_eq _ (nearest (a' + - b'))); [| exact NE].
      apply fl_number; [exact Q0 | lra].
Qed.

Lemma floor_number (x : Number) (a : Q) :
  is_number x a -> is_number (floor x) (inject_Z (Qfloor a)).
Proof.
  intros (a' & -> & Ea). unfold floor, Num.Math_floor.
  eexists. split; [reflexivity |]. now rewrite Ea.
Qed.

Lemma round_number (x : Number) (a : Q) :
  is_number x a -> 0 <= a ->
  is_number (round x) (inject_Z (Qfloor (a + (1 # 2)))).
Proof.
  intros (a' & -> & Ea) H. unfold round, Num.Math_round.
  rewrite (Qltb_false a' 0) by lra. rewrite andb_false_r.
  eexists. split; [reflexivity |]. now rewrite Ea.
Qed.

Lemma rem_number (x y : Number) (a b : Q) :
  is_number x a -> is_number y b -> 0 <= a -> 0 < b ->
  is_number (rem x y) (a - b * inject_Z (Qfloor (a / b))).
Proof.
  intros (a' & -> & Ea) (b' & -> & Eb) Ha Hb.
  unfold rem; cbn [is_zero negative value].
  rewrite (Qeq_bool_false b' 0) by lra.
  assert (R : Num.rem a' b' == a - b * inject_Z (Qfloor (a / b))).
  { rewrite rem_nonneg by lra.
    assert (F : Qfloor (a' / b') = Qfloor (a / b))
      by (apply Qfloor_comp; rewrite Ea, Eb; reflexivity).
    rewrite F, Ea, Eb. reflexivity. }
  destruct (Qeq_bool a' 0) eqn:Za.
  - apply Qeq_bool_iff in Za. exists a'. split; [reflexivity |].
    rewrite <- R, rem_nonneg by lra.
    assert (F : Qfloor (a' / b') = 0%Z).
    { apply Qfloor_unique.
      - rewrite Za. unfold Qdiv. rewrite Qmult_0_l. discriminate.
      - rewrite Za. unfold Qdiv. rewrite Qmult_0_l. reflexivity. }
    rewrite F. ring.
  - destruct (Qeq_bool (Num.rem a' b') 0) eqn:Zr.
    + apply Qeq_bool_iff in Zr.
      rewrite (Qltb_false a' 0) by lra. cbn [zero].
      exists 0. split; [reflexivity | lra].
    + exists (Num.rem a' b'). split; [reflexivity | exact R].
Qed.

Lemma of_Z_zero : of_Z 0 = Fin 0.
Proof. reflexivity. Qed.

Lemma gt_zero_number (x : Number) (a : Q) :
  is_number x a -> gt x (of_Z 0) = Qltb 0 a.
Proof.
  intros (a' & -> & Ea). rewrite of_Z_zero. unfold gt; cbn [value].
  unfold Qltb. f_equal.
  destruct (Qle_bool a' 0) eqn:A; destruct (Qle_bool a 0) eqn:B;
    try reflexivity.
  - apply Qle_bool_iff in A.
    assert (N : ~ a <= 0)
      by (intros H; apply Qle_bool_iff in H; congruence). lra.
  - apply Qle_bool_iff in B.
    assert (N : ~ a' <= 0)
      by (intros H; apply Qle_bool_iff in H; congruence). lra.
Qed.

Lemma toString_number (digits : Q -> string) (x : Number) (z : Z) :
  is_number x (inject_Z z) -> (Z.abs z <= 2 ^ 53)%Z ->
  Number_toString digits x = JS.Int_toString z.
Proof.
  intros (a' & -> & Ea) H. unfold Number_toString.
  assert (F : Qfloor a' = z) by (rewrite Ea; apply Qfloor_Z).
  rewrite F. rewrite (Qeq_bool_true a' (inject_Z z) Ea).
  destruct (Z.leb_spec (Z.abs z) (2 ^ 53)); [reflexivity | lia].
Qed.

End NumberFacts.

(** ** Reading the rendered estimate back *)

Section ReadingFacts.
Import Inv.

Lemma is_digit_false (c : ascii) :
  is_digit c = false ->
  (nat_of_ascii c < 48 \/ 57 < nat_of_ascii c)%nat.
Proof.
  unfold is_digit. intros H. apply andb_false_iff in H.
  destruct H as [H|H]; apply Nat.leb_gt in H; lia.
Qed.

Lemma append_empty_r (d : string) : d ++ "" = d.
Proof. induction d as [|c d IH]; [reflexivity |]. cbn. now rewrite IH. Qed.

Lemma fields_digits (t : string) :
  (forall c, is_digit c = false -> JS.lacks c t) ->
  forall r d done, fields (t ++ r) d done = fields r (d ++ t) done.
Proof.
  induction t as [|a t IH]; intros H r d done.
  - cbn. now rewrite append_empty_r.
  - cbn [append fields].
    destruct (is_digit a) eqn:D.
    + rewrite IH.
      * f_equal. rewrite append_assoc. reflexivity.
      * intros c Hc. exact (proj2 (H c Hc)).
    + exfalso. exact (proj1 (H a D) eq_refl).
Qed.

Lemma fields_number (n : N) (r : string) done :
  fields (JS.Number_toString n ++ r) "" done
  = fields r (JS.Number_toString n) done.
Proof.
  rewrite fields_digits; [reflexivity |].
  intros c Hc. apply Number_toString_lacks. now apply is_digit_false.
Qed.

Lemma number_of_toString (n : N) :
  number_of (JS.Number_toString n) = Some (Z.of_N n).
Proof.
  unfold number_of, JS.Number_toString.
  rewrite NilEmpty.usu. cbn [option_map].
  now rewrite DecimalN.Unsigned.of_to.
Qed.

Lemma Int_toString_nonneg (z : Z) :
  0 <= z -> JS.Int_toString z = JS.Number_toString (Z.to_N z).
Proof. destruct z; [reflexivity | reflexivity | lia]. Qed.

Lemma reported_hms (h m s : Z) :
  0 <= h -> 0 <= m -> 0 <= s ->
  reported_seconds (JS.Int_toString h ++ "h " ++ JS.Int_toString m
                      ++ "m " ++ JS.Int_toString s ++ "s")
  = Some (h * 3600 + m * 60 + s).
Proof.
  intros Hh Hm Hs. rewrite !Int_toString_nonneg by assumption.
  unfold reported_seconds.
  rewrite fields_number. cbn [append fields is_digit].
  change (is_digit "h") with false. change (Ascii.eqb "h" " ") with false.
  change (is_digit " ") with false. change (Ascii.eqb " " " ") with true.
  cbv iota.
  rewrite fields_number. cbn [append fields].
  change (is_digit "m") with false. change (Ascii.eqb "m" " ") with false.
  change (is_digit " ") with false. change (Ascii.eqb " " " ") with true.
  cbv iota.
  rewrite fields_number. cbn [append fields].
  change (is_digit "s") with false. change (Ascii.eqb "s" " ") with false.
  cbv iota. cbn [rev app].
  rewrite !number_of_toString. cbn [clock].
  now rewrite !Z2N.id by assumption.
Qed.

Lemma reported_ms (m s : Z) :
  0 <= m -> 0 <= s ->
  reported_seconds (JS.Int_toString m ++ "m " ++ JS.Int_toString s ++ "s")
  = Some (0 * 3600 + m * 60 + s).
Proof.
  intros Hm Hs. rewrite !Int_toString_nonneg by assumption.
  unfold reported_seconds.
  rewrite fields_number. cbn [append fields].
  change (is_digit "m") with false. change (Ascii.eqb "m" " ") with false.
  change (is_digit " ") with false. change (Ascii.eqb " " " ") with true.
  cbv iota.
  rewrite fields_number. cbn [append fields].
  change (is_digit "s") with false. change (Ascii.eqb "s" " ") with false.
  cbv iota. cbn [rev app].
  rewrite !number_of_toString. cbn [clock].
  now rewrite !Z2N.id by assumption.
Qed.

Lemma reported_s (s : Z) :
  0 <= s ->
  reported_seconds (JS.Int_toString s ++ "s") = Some (0 * 3600 + 0 * 60 + s).
Proof.
  intros Hs. rewrite !Int_toString_nonneg by assumption.
  unfold reported_seconds.
  rewrite fields_number. cbn [append fields].
  change (is_digit "s") with false. change (Ascii.eqb "s" " ") with false.
  cbv iota. cbn [rev app].
  rewrite !number_of_toString. cbn [clock].
  now rewrite !Z2N.id by assumption.
Qed.

End ReadingFacts.

(** ** [calculateETA] *)

Section ClockFacts.
Import IEEE UtilsNum Inv.
Local Open Scope Q_scope.

Lemma thousand_number : is_number (of_Z 1000) (inject_Z 1000).
Proof. apply of_Z_number. lia. Qed.

Lemma msPerMinute_number : is_number msPerMinute (inject_Z 60000).
Proof.
  unfold msPerMinute.
  apply (is_number_eq _ (nearest (inject_Z 1000 * inject_Z 60))).
  - apply mul_number; try (apply of_Z_number; lia); try discriminate.
    reflexivity.
  - reflexivity.
Qed.

Lemma msPerHour_number : is_number msPerHour (inject_Z 3600000).
Proof.
  unfold msPerHour. fold msPerMinute.
  apply (is_number_eq _ (nearest (inject_Z 60000 * inject_Z 60))).
  - apply mul_number; try discriminate.
    + exact msPerMinute_number.
    + apply of_Z_number. lia.
    + reflexivity.
  - reflexivity.
Qed.

Lemma ilog2_le_52 (x : Q) : 0 < x -> x <= pow2 52 -> (ilog2 x <= 52)%Z.
Proof.
  intros H0 H. destruct (ilog2_spec x H0) as [L _].
  apply (Qpower_le_compat_l_inv 2); [| reflexivity].
  fold (pow2 (ilog2 x)) (pow2 52). lra.
Qed.

(** Digits of a mixed-radix reading: the number of [d]-units that
    remain after the whole [c * d]-units are taken out is below [c]. *)
Lemma floor_digit (x : Q) (c d : Z) :
  0 <= x -> (0 < c)%Z -> (0 < d)%Z ->
  (0 <= Qfloor (x / inject_Z d) - c * Qfloor (x / inject_Z (c * d))
   <= c - 1)%Z.
Proof.
  intros Hx Hc Hd.
  pose proof (inject_Z_pos c Hc) as Pc.
  pose proof (inject_Z_pos d Hd) as Pd.
  set (h := Qfloor (x / inject_Z (c * d))).
  pose proof (Qfloor_le (x / inject_Z (c * d))) as F1.
  pose proof (Qlt_floor (x / inject_Z (c * d))) as F2.
  fold h in F1, F2.
  assert (E : x / inject_Z d == inject_Z c * (x / inject_Z (c * d))).
  { rewrite inject_Z_mult. field. split; lra. }
  assert (L : inject_Z (c * h) <= x / inject_Z d).
  { rewrite E, (inject_Z_mult c h). apply Qmult_le_l; assumption. }
  assert (U : x / inject_Z d < inject_Z (c * (h + 1))).
  { rewrite E, (inject_Z_mult c (h + 1)). apply Qmult_lt_l; assumption. }
  pose proof (Qfloor_resp_le _ _ L) as L'. rewrite Qfloor_Z in L'.
  pose proof (Qfloor_le (x / inject_Z d)) as G.
  assert (U' : inject_Z (Qfloor (x / inject_Z d)) < inject_Z (c * (h + 1)))
    by lra.
  rewrite <- Zlt_Qlt in U'. lia.
Qed.

Lemma Qfloor_nonneg (x : Q) : 0 <= x -> (0 <= Qfloor x)%Z.
Proof.
  intros H. change 0%Z with (Qfloor 0). now apply Qfloor_resp_le.
Qed.

(** [Math.floor(v / c)] is exact for a double [v] and a small integer
    [c]. *)
Lemma floor_div_number (v cn : Number) (x : Q) (c : Z) :
  is_number v x -> is_number cn (inject_Z c) -> 0 <= x ->
  (0 < x -> multiple_of x (ilog2 x - 52)) -> (0 < c)%Z ->
  ((Qfloor (x / inject_Z c) + 1) * c <= 2 ^ 53)%Z ->
  is_number (floor (div v cn)) (inject_Z (Qfloor (x / inject_Z c))).
Proof.
  intros Hv Hc Hx M Pc B.
  pose proof (inject_Z_pos c Pc) as Qc.
  assert (Y0 : 0 <= x / inject_Z c) by (apply Qdiv_nonneg; assumption).
  pose proof (Qfloor_nonneg _ Y0) as F0.
  pose proof (Qlt_floor (x / inject_Z c)) as F2.
  assert (Up : nearest (x / inject_Z c) <= pow2 53).
  { assert (K : x / inject_Z c <= inject_Z (2 ^ 53)).
    { assert (K' : inject_Z (Qfloor (x / inject_Z c) + 1)
                   <= inject_Z (2 ^ 53)) by (rewrite <- Zle_Qle; nia).
      lra. }
    pose proof (nearest_mono _ _ Y0 K) as Mn.
    rewrite (nearest_Z (2 ^ 53)) in Mn by lia.
    assert (P53 : pow2 53 == inject_Z (2 ^ 53))
      by (apply pow2_nonneg_exp; lia).
    lra. }
  pose proof (pow2_lt 53 1024 ltac:(lia)) as Big.
  pose proof (div_number v cn x (inject_Z c) Hv Hc Hx Qc ltac:(lra)) as D.
  apply floor_number in D.
  apply (is_number_eq _ _ _ D).
  destruct (Qeq_dec x 0) as [Z|N].
  - rewrite (nearest_zero (x / inject_Z c)); [| rewrite Z; reflexivity].
    assert (E : x / inject_Z c == 0) by (rewrite Z; reflexivity).
    now rewrite E.
  - rewrite floor_nearest_div; try assumption; try lra; try reflexivity.
    apply M. lra.
Qed.

(** The remainder of a double by a small integer is a double. *)
Lemma rem_grid (x : Q) (c : Z) :
  0 <= x -> x <= pow2 52 -> (0 < x -> multiple_of x (ilog2 x - 52)) ->
  (0 < c)%Z ->
  let r := x - inject_Z c * inject_Z (Qfloor (x / inject_Z c)) in
  0 <= r /\ r < inject_Z c /\ r <= x
  /\ (0 < r -> multiple_of r (ilog2 r - 52)).
Proof.
  intros H0 H52 M Pc r.
  pose proof (inject_Z_pos c Pc) as Qc.
  pose proof (Qfloor_le (x / inject_Z c)) as F1.
  pose proof (Qlt_floor (x / inject_Z c)) as F2.
  assert (Y0 : 0 <= x / inject_Z c) by (apply Qdiv_nonneg; assumption).
  pose proof (Qfloor_nonneg _ Y0) as F0.
  rewrite Zle_Qle in F0. change (inject_Z 0) with 0 in F0.
  set (f := inject_Z (Qfloor (x / inject_Z c))) in *.
  rewrite inject_Z_plus in F2. change (inject_Z 1) with 1 in F2. fold f in F2.
  assert (E : x == x / inject_Z c * inject_Z c) by (field; lra).
  assert (A : f * inject_Z c <= x / inject_Z c * inject_Z c)
    by (apply Qmult_le_compat_r; lra).
  assert (B : x / inject_Z c * inject_Z c < (f + 1) * inject_Z c)
    by (apply Qmult_lt_compat_r; lra).
  assert (C : 0 <= inject_Z c * f) by (apply Qmult_le_0_compat; lra).
  assert (R1 : 0 <= r) by (unfold r; lra).
  assert (R2 : r < inject_Z c) by (unfold r; lra).
  assert (R3 : r <= x) by (unfold r; lra).
  split; [exact R1 |]. split; [exact R2 |]. split; [exact R3 |].
  intros Pr. assert (Px : 0 < x) by lra.
  apply (multiple_of_finer r (ilog2 x - 52)).
  - pose proof (ilog2_mono r x Pr R3). lia.
  - unfold r. apply multiple_of_sub; [exact (M Px) |].
    unfold f. rewrite <- inject_Z_mult. apply multiple_of_Z.
    pose proof (ilog2_le_52 x Px H52). lia.
Qed.

(** The hours, minutes and seconds computed for a double [x] of at
    most [2 ^ 52] milliseconds are those of the exact quotients. *)
Lemma parts_number (ms : Number) (x : Q) :
  is_number ms x -> 0 <= x -> x <= pow2 52 ->
  (0 < x -> multiple_of x (ilog2 x - 52)) ->
  let h := Qfloor (x / inject_Z 3600000) in
  let m := (Qfloor (x / inject_Z 60000) - 60 * h)%Z in
  let s := (Qfloor (x / inject_Z 1000)
            - 60 * Qfloor (x / inject_Z 60000))%Z in
  is_number (hours (eta_parts ms)) (inject_Z h)
  /\ is_number (minutes (eta_parts ms)) (inject_Z m)
  /\ is_number (seconds (eta_parts ms)) (inject_Z s)
  /\ (0 <= h <= 2 ^ 52)%Z /\ (0 <= m <= 59)%Z /\ (0 <= s <= 59)%Z
  /\ (h * 3600 + m * 60 + s = Qfloor (x / inject_Z 1000))%Z.
Proof.
  intros Hms H0 H52 M h m s.
  assert (P52 : pow2 52 == inject_Z (2 ^ 52))
    by (apply pow2_nonneg_exp; lia).
  assert (Hh : (0 <= h <= 2 ^ 52)%Z).
  { split.
    - apply Qfloor_nonneg. apply Qdiv_nonneg; [exact H0 | reflexivity].
    - assert (T : x / inject_Z 3600000 <= inject_Z (2 ^ 52)).
      { apply Qle_shift_div_r; [reflexivity |].
        assert (inject_Z (2 ^ 52) * 1 <= inject_Z (2 ^ 52) * inject_Z 3600000)
          by (apply Qmult_le_l; [reflexivity | discriminate]).
        lra. }
      apply Qfloor_resp_le in T. now rewrite Qfloor_Z in T. }
  pose proof (floor_digit x 60 60000 H0 eq_refl eq_refl) as Dm.
  pose proof (floor_digit x 60 1000 H0 eq_refl eq_refl) as Ds.
  change (60 * 60000)%Z with 3600000%Z in Dm.
  change (60 * 1000)%Z with 60000%Z in Ds.
  fold h in Dm. fold m in Dm. fold s in Ds.
  assert (X53 : inject_Z (Qfloor (x / inject_Z 3600000)) * inject_Z 3600000
                <= x).
  { pose proof (Qfloor_le (x / inject_Z 3600000)) as F.
    assert (A : inject_Z (Qfloor (x / inject_Z 3600000)) * inject_Z 3600000
                <= x / inject_Z 3600000 * inject_Z 3600000)
      by (apply Qmult_le_compat_r; [exact F | discriminate]).
    assert (E : x / inject_Z 3600000 * inject_Z 3600000 == x)
      by (field; discriminate).
    lra. }
  split; [| split; [| split; [| split; [exact Hh |
    split; [exact Dm | split; [exact Ds | unfold m, s; lia]]]]]].
  - (* hours *)
    unfold eta_parts; cbn [hours].
    apply (floor_div_number ms msPerHour x 3600000 Hms msPerHour_number
             H0 M eq_refl).
    fold h. fold h in X53.
    assert (T : inject_Z (h * 3600000) <= inject_Z (2 ^ 52))
      by (rewrite inject_Z_mult; lra).
    rewrite <- Zle_Qle in T.
    change (2 ^ 53)%Z with 9007199254740992%Z.
    change (2 ^ 52)%Z with 4503599627370496%Z in T. lia.
  - (* minutes *)
    unfold eta_parts; cbn [minutes].
    destruct (rem_grid x 3600000 H0 H52 M eq_refl) as (R1 & R2 & R3 & R4).
    pose proof (rem_number ms msPerHour x (inject_Z 3600000) Hms
                  msPerHour_number H0 eq_refl) as Hr.
    set (r := x - inject_Z 3600000
                  * inject_Z (Qfloor (x / inject_Z 3600000))) in *.
    assert (Fr : Qfloor (r / inject_Z 60000) = m).
    { pose proof (floor_rem x 60 60000 H0 eq_refl eq_refl) as FR.
      change (60 * 60000)%Z with 3600000%Z in FR.
      rewrite rem_nonneg in FR by (try assumption; reflexivity).
      exact FR. }
    rewrite <- Fr.
    apply (floor_div_number _ msPerMinute r 60000 Hr msPerMinute_number
             R1 R4 eq_refl).
    rewrite Fr. change (2 ^ 53)%Z with 9007199254740992%Z. lia.
  - (* seconds *)
    unfold eta_parts; cbn [seconds].
    destruct (rem_grid x 60000 H0 H52 M eq_refl) as (R1 & R2 & R3 & R4).
    pose proof (rem_number ms msPerMinute x (inject_Z 60000) Hms
                  msPerMinute_number H0 eq_refl) as Hr.
    set (r := x - inject_Z 60000
                  * inject_Z (Qfloor (x / inject_Z 60000))) in *.
    assert (Fr : Qfloor (r / inject_Z 1000) = s).
    { pose proof (floor_rem x 60 1000 H0 eq_refl eq_refl) as FR.
      change (60 * 1000)%Z with 60000%Z in FR.
      rewrite rem_nonneg in FR by (try assumption; reflexivity).
      exact FR. }
    rewrite <- Fr.
    apply (floor_div_number _ (of_Z 1000) r 1000 Hr thousand_number
             R1 R4 eq_refl).
    rewrite Fr. change (2 ^ 53)%Z with 9007199254740992%Z. lia.
Qed.

End ClockFacts.

Section EtaFacts.
Import IEEE UtilsNum Inv.
Local Open Scope Q_scope.

Lemma Qltb_Z (h : Z) : Qltb 0 (inject_Z h) = (0 <? h)%Z.
Proof.
  destruct (Z.ltb_spec 0 h) as [H|H].
  - apply Qltb_true. now apply inject_Z_pos.
  - apply Qltb_false. change 0 with (inject_Z 0). now rewrite <- Zle_Qle.
Qed.

(** What the rendered text is, and that it reads back as the
    estimate, for non-negative hours up to [2 ^ 52] and minutes and
    seconds from 0 to 59. *)
Lemma render_reports (digits : Q -> string) (e : Eta) (h m s : Z) :
  is_number (hours e) (inject_Z h) ->
  is_number (minutes e) (inject_Z m) ->
  is_number (seconds e) (inject_Z s) ->
  (0 <= h <= 2 ^ 52)%Z -> (0 <= m <= 59)%Z -> (0 <= s <= 59)%Z ->
  render_eta digits e
  = (if (0 <? h)%Z then
       JS.Int_toString h ++ "h " ++ JS.Int_toString m ++ "m "
         ++ JS.Int_toString s ++ "s"
     else if (0 <? m)%Z then
       JS.Int_toString m ++ "m " ++ JS.Int_toString s ++ "s"
     else JS.Int_toString s ++ "s")%string
  /\ reported_seconds (render_eta digits e)
     = Some (h * 3600 + m * 60 + s)%Z.
Proof.
  intros Hh Hm Hs Bh Bm Bs.
  assert (P52 : (2 ^ 52 <= 2 ^ 53)%Z) by (apply Z.pow_le_mono_r; lia).
  assert (E : render_eta digits e
              = (if (0 <? h)%Z then
                   JS.Int_toString h ++ "h " ++ JS.Int_toString m ++ "m "
                     ++ JS.Int_toString s ++ "s"
                 else if (0 <? m)%Z then
                   JS.Int_toString m ++ "m " ++ JS.Int_toString s ++ "s"
                 else JS.Int_toString s ++ "s")%string).
  { unfold render_eta.
    rewrite (gt_zero_number _ _ Hh), (gt_zero_number _ _ Hm), !Qltb_Z.
    rewrite (toString_number digits _ h Hh) by lia.
    rewrite (toString_number digits _ m Hm)
      by (change (2 ^ 53)%Z with 9007199254740992%Z; lia).
    rewrite (toString_number digits _ s Hs)
      by (change (2 ^ 53)%Z with 9007199254740992%Z; lia).
    reflexivity. }
  split; [exact E |]. rewrite E.
  destruct (Z.ltb_spec 0 h) as [Ph|Zh].
  - apply reported_hms; lia.
  - assert (h = 0%Z) by lia. subst h.
    destruct (Z.ltb_spec 0 m) as [Pm|Zm].
    + apply reported_ms; lia.
    + assert (m = 0%Z) by lia. subst m. apply reported_s; lia.
Qed.

(** The estimate in milliseconds that [calculateETA] computes from
    integer readings, as a rational. *)
Lemma etaMs_number (nowMs start p t : Z) :
  (0 <= start)%Z -> (start < nowMs)%Z -> (nowMs <= 2 ^ 53)%Z ->
  (0 < p)%Z -> (p <= t)%Z -> (t <= 2 ^ 53)%Z ->
  ((t - p) * (nowMs - start) <= 2 ^ 51 * p)%Z ->
  let x := nearest (inject_Z (t - p)
                    / nearest (inject_Z p / inject_Z (nowMs - start))) in
  is_number (etaMs nowMs (of_Z p) (of_Z t) (of_Z start)) x
  /\ 0 <= x /\ x <= pow2 52
  /\ (0 < x -> multiple_of x (ilog2 x - 52)).
Proof.
  intros Hs Hn Hn53 Hp Hpt Ht B x. subst x.
  remember (nowMs - start)%Z as e eqn:De.
  remember (t - p)%Z as r eqn:Dr.
  assert (He : (0 < e <= 2 ^ 53)%Z) by lia.
  assert (Hr : (0 <= r <= 2 ^ 53)%Z) by lia.
  pose proof (inject_Z_pos e ltac:(lia)) as Qe.
  pose proof (inject_Z_pos p Hp) as Qp.
  assert (Big : pow2 53 < pow2 1024) by (apply pow2_lt; lia).
  assert (Big2 : pow2 52 < pow2 1024) by (apply pow2_lt; lia).
  assert (P53 : pow2 53 == inject_Z (2 ^ 53))
    by (apply pow2_nonneg_exp; lia).
  assert (P52 : pow2 52 == inject_Z (2 ^ 52))
    by (apply pow2_nonneg_exp; lia).
  assert (Qr : 0 <= inject_Z r)
    by (change 0 with (inject_Z 0); rewrite <- Zle_Qle; lia).
  assert (Ze53 : inject_Z e <= pow2 53)
    by (rewrite P53, <- Zle_Qle; lia).
  assert (One : pow2 (-53) * pow2 53 == 1)
    by (rewrite <- pow2_add; reflexivity).
  pose proof (pow2_pos (-53)) as Pm53.
  assert (Low : pow2 (-1022) <= pow2 (-53)) by (apply pow2_le; lia).
  assert (Half : pow2 (-53) <= 1 # 2)
    by (change (1 # 2) with (pow2 (-1)); apply pow2_le; lia).
  assert (E1 : 1 <= inject_Z e)
    by (change 1 with (inject_Z 1); rewrite <- Zle_Qle; lia).
  assert (P1 : 1 <= inject_Z p)
    by (change 1 with (inject_Z 1); rewrite <- Zle_Qle; lia).
  assert (Zp53 : inject_Z p <= pow2 53)
    by (rewrite P53, <- Zle_Qle; lia).
  (* elapsed *)
  assert (S1 : is_number (sub (of_Z nowMs) (of_Z start)) (inject_Z e)).
  { assert (D : inject_Z nowMs - inject_Z start == inject_Z e).
    { rewrite De. unfold Z.sub. rewrite inject_Z_plus, inject_Z_opp. ring. }
    assert (D0 : 0 <= inject_Z nowMs - inject_Z start)
      by (rewrite D; apply Qlt_le_weak, Qe).
    assert (N : nearest (inject_Z nowMs - inject_Z start) == inject_Z e).
    { rewrite <- (nearest_Z e) by lia.
      apply nearest_proper; [exact D0 | exact D]. }
    refine (is_number_eq _ _ _
              (sub_number _ _ _ _ (of_Z_number nowMs ltac:(lia))
                 (of_Z_number start ltac:(lia)) D0 _) N).
    rewrite N. apply (Qle_lt_trans _ _ _ Ze53 Big). }
  (* remaining *)
  assert (S3 : is_number (sub (of_Z t) (of_Z p)) (inject_Z r)).
  { assert (D : inject_Z t - inject_Z p == inject_Z r).
    { rewrite Dr. unfold Z.sub. rewrite inject_Z_plus, inject_Z_opp. ring. }
    assert (D0 : 0 <= inject_Z t - inject_Z p) by (rewrite D; exact Qr).
    assert (N : nearest (inject_Z t - inject_Z p) == inject_Z r).
    { rewrite <- (nearest_Z r) by lia.
      apply nearest_proper; [exact D0 | exact D]. }
    refine (is_number_eq _ _ _
              (sub_number _ _ _ _ (of_Z_number t ltac:(lia))
                 (of_Z_number p ltac:(lia)) D0 _) N).
    rewrite N.
    assert (T : inject_Z r <= pow2 53) by (rewrite P53, <- Zle_Qle; lia).
    apply (Qle_lt_trans _ _ _ T Big). }
  (* rate *)
  remember (inject_Z p / inject_Z e) as q eqn:Dq.
  assert (Q1 : pow2 (-53) <= q).
  { rewrite Dq. apply Qle_shift_div_l; [exact Qe |].
    assert (T : pow2 (-53) * inject_Z e <= pow2 (-53) * pow2 53)
      by (apply Qmult_le_l; [exact Pm53 | exact Ze53]).
    clear - T One P1.
    set (c := pow2 (-53)) in *. set (d := pow2 53) in *.
    set (u := c * d) in *. set (v := c * inject_Z e) in *. lra. }
  assert (Q2 : q <= pow2 53).
  { rewrite Dq. apply Qle_shift_div_r; [exact Qe |].
    assert (T : pow2 53 * 1 <= pow2 53 * inject_Z e)
      by (apply Qmult_le_l; [apply pow2_pos | exact E1]).
    clear - T Zp53.
    set (d := pow2 53) in *. set (v := d * inject_Z e) in *. lra. }
  assert (Qpos : 0 < q) by (apply (Qlt_le_trans _ _ _ Pm53 Q1)).
  assert (Rup : nearest q <= pow2 53).
  { assert (Q2' : q <= inject_Z (2 ^ 53)) by (rewrite <- P53; exact Q2).
    pose proof (nearest_mono q (inject_Z (2 ^ 53))
                  (Qlt_le_weak _ _ Qpos) Q2') as Mn.
    rewrite (nearest_Z (2 ^ 53)) in Mn by lia.
    rewrite P53. exact Mn. }
  assert (Rlow : q * (1 # 2) <= nearest q).
  { pose proof (nearest_relative q (Qle_trans _ _ _ Low Q1)) as Rel.
    apply Qabs_Qle_condition in Rel. destruct Rel as [Rel _].
    assert (T : q * pow2 (-53) <= q * (1 # 2))
      by (apply Qmult_le_l; [exact Qpos | exact Half]).
    clear - Rel T. set (c := q * pow2 (-53)) in *. lra. }
  assert (Rpos : 0 < nearest q) by (clear - Qpos Rlow; lra).
  assert (S2 : is_number (div (of_Z p) (sub (of_Z nowMs) (of_Z start)))
                         (nearest q)).
  { rewrite Dq. apply div_number.
    - apply of_Z_number. lia.
    - exact S1.
    - apply Qlt_le_weak, Qp.
    - exact Qe.
    - rewrite <- Dq. apply (Qle_lt_trans _ _ _ Rup Big). }
  (* the estimate *)
  assert (Y0 : 0 <= inject_Z r / nearest q)
    by (apply Qdiv_nonneg; [exact Qr | exact Rpos]).
  assert (Y52 : inject_Z r / nearest q <= inject_Z (2 ^ 52)).
  { apply Qle_shift_div_r; [exact Rpos |].
    assert (B' : inject_Z r * inject_Z e <= inject_Z (2 ^ 51) * inject_Z p).
    { rewrite <- !inject_Z_mult, <- Zle_Qle. exact B. }
    assert (B2 : inject_Z r <= inject_Z (2 ^ 51) * q).
    { rewrite Dq.
      assert (T : inject_Z (2 ^ 51) * (inject_Z p / inject_Z e)
                  == inject_Z (2 ^ 51) * inject_Z p / inject_Z e)
        by (field; intros Z0; rewrite Z0 in Qe; discriminate).
      rewrite T. apply Qle_shift_div_l; assumption. }
    assert (T : inject_Z (2 ^ 52) * (q * (1 # 2))
                <= inject_Z (2 ^ 52) * nearest q)
      by (apply Qmult_le_l; [reflexivity | exact Rlow]).
    assert (T2 : inject_Z (2 ^ 52) * (q * (1 # 2)) == inject_Z (2 ^ 51) * q)
      by (change (inject_Z (2 ^ 52)) with (2 * inject_Z (2 ^ 51)); ring).
    rewrite T2 in T. apply (Qle_trans _ _ _ B2 T). }
  remember (nearest (inject_Z r / nearest q)) as x eqn:Dx.
  assert (X52 : x <= pow2 52).
  { pose proof (nearest_mono _ _ Y0 Y52) as Mn.
    rewrite (nearest_Z (2 ^ 52)) in Mn by lia.
    rewrite Dx, P52. exact Mn. }
  split; [| split; [| split]].
  - unfold etaMs. rewrite Dx. apply div_number; try assumption.
    rewrite <- Dx. apply (Qle_lt_trans _ _ _ X52 Big2).
  - rewrite Dx. apply nearest_nonneg. exact Y0.
  - exact X52.
  - intros Px. rewrite Dx. apply nearest_multiple.
    assert (R1 : (1 <= r)%Z).
    { destruct (Z.eq_dec r 0) as [Z0|N0]; [exfalso | lia].
      rewrite Dx, Z0 in Px.
      rewrite (nearest_zero (inject_Z 0 / nearest q)) in Px;
        [discriminate | reflexivity]. }
    rewrite Zle_Qle in R1. change (inject_Z 1) with 1 in R1.
    assert (L : pow2 (-53) <= inject_Z r / nearest q).
    { apply Qle_shift_div_l; [exact Rpos |].
      assert (T : pow2 (-53) * nearest q <= pow2 (-53) * pow2 53)
        by (apply Qmult_le_l; [exact Pm53 | exact Rup]).
      rewrite One in T. apply (Qle_trans _ _ _ T R1). }
    apply (Qle_trans _ _ _ Low L).
Qed.

(** For integer readings in the range of the safe integers and an
    exact estimate of at most [2 ^ 51] ms, the text of [calculateETA]
    reads back as the whole seconds of the double [etaMs]. *)
Lemma calculateETA_reports (digits : Q -> string)
      (nowMs start p t : Z) :
  (0 <= start)%Z -> (start < nowMs)%Z -> (nowMs <= 2 ^ 53)%Z ->
  (0 < p)%Z -> (p <= t)%Z -> (t <= 2 ^ 53)%Z ->
  ((t - p) * (nowMs - start) <= 2 ^ 51 * p)%Z ->
  let x := nearest (inject_Z (t - p)
                    / nearest (inject_Z p / inject_Z (nowMs - start))) in
  let h := Qfloor (x / inject_Z 3600000) in
  let m := (Qfloor (x / inject_Z 60000) - 60 * h)%Z in
  let s := (Qfloor (x / inject_Z 1000)
            - 60 * Qfloor (x / inject_Z 60000))%Z in
  calculateETA digits nowMs (of_Z p) (of_Z t) (of_Z start)
  = (if (0 <? h)%Z then
       JS.Int_toString h ++ "h " ++ JS.Int_toString m ++ "m "
         ++ JS.Int_toString s ++ "s"
     else if (0 <? m)%Z then
       JS.Int_toString m ++ "m " ++ JS.Int_toString s ++ "s"
     else JS.Int_toString s ++ "s")%string
  /\ reported_seconds
       (calculateETA digits nowMs (of_Z p) (of_Z t) (of_Z start))
     = Some (Qfloor (x / inject_Z 1000))
  /\ (0 <= h)%Z /\ (0 <= m <= 59)%Z /\ (0 <= s <= 59)%Z
  /\ 0 <= x.
Proof.
  intros Hs Hn Hn53 Hp Hpt Ht B x h m s.
  destruct (etaMs_number nowMs start p t Hs Hn Hn53 Hp Hpt Ht B)
    as (Hx & X0 & X52 & M).
  fold x in Hx, X0, X52, M.
  destruct (parts_number _ x Hx X0 X52 M)
    as (Ph & Pm & Ps & Bh & Bm & Bs & Sum).
  fold h in Ph, Bh, Sum, Pm, Bm. fold m in Pm, Bm, Sum. fold s in Ps, Bs, Sum.
  destruct (render_reports digits _ h m s Ph Pm Ps Bh Bm Bs) as [E R].
  assert (NZ : is_zero (of_Z p) = false).
  { destruct (of_Z_number p ltac:(lia)) as (q & -> & Eq).
    cbn [is_zero]. apply Qeq_bool_false.
    pose proof (inject_Z_pos p Hp). lra. }
  unfold calculateETA. rewrite NZ.
  split; [exact E |]. split; [rewrite R, Sum; reflexivity |].
  repeat split; try lia. exact X0.
Qed.

End EtaFacts.

(** ** [calculateETA] *)

Section Reporting.
Import IEEE UtilsNum Inv.
Local Open Scope Q_scope.

Lemma render_eta_not_calculating (digits : Q -> string) (e : Eta) :
  render_eta digits e <> "Calculating..."%string.
Proof.
  change "Calculating..."%string
    with ("Calculating.." ++ String "." "")%string.
  unfold render_eta.
  destruct (gt (hours e) (of_Z 0)); [| destruct (gt (minutes e) (of_Z 0))];
    rewrite <- ?append_assoc;
    apply ends_differently; discriminate.
Qed.

(** Two readings with the same observed rate: the later one leaves
    fewer records, and its estimate, a double, is not larger. *)
Lemma same_rate_estimates (p p' e e' r r' : Z) :
  (0 < p)%Z -> (0 < e)%Z -> (0 < p')%Z -> (0 < e')%Z ->
  (p * e' = p' * e)%Z -> (0 <= r')%Z -> (r' <= r)%Z ->
  nearest (inject_Z r' / nearest (inject_Z p' / inject_Z e'))
  <= nearest (inject_Z r / nearest (inject_Z p / inject_Z e)).
Proof.
  intros Hp He Hp' He' Rate Hr' Hr.
  pose proof (inject_Z_pos p Hp) as Qp.
  pose proof (inject_Z_pos e He) as Qe.
  pose proof (inject_Z_pos p' Hp') as Qp'.
  pose proof (inject_Z_pos e' He') as Qe'.
  assert (Eq : inject_Z p' / inject_Z e' == inject_Z p / inject_Z e).
  { assert (X : inject_Z p * inject_Z e' == inject_Z p' * inject_Z e)
      by (rewrite <- !inject_Z_mult, Rate; reflexivity).
    apply (Qmult_inj_r _ _ (inject_Z e * inject_Z e')).
    - intros Z0.
      assert (0 < inject_Z e * inject_Z e')
        by (apply Qmult_lt_0_compat; assumption).
      rewrite Z0 in H. discriminate.
    - transitivity (inject_Z p' * inject_Z e);
        [field; intros Z0; rewrite Z0 in Qe'; discriminate |].
      rewrite <- X. field. intros Z0; rewrite Z0 in Qe; discriminate. }
  assert (Q0 : 0 <= inject_Z p' / inject_Z e')
    by (apply Qdiv_nonneg; [apply Qlt_le_weak |]; assumption).
  pose proof (nearest_proper _ _ Q0 Eq) as NE.
  assert (R0 : 0 <= nearest (inject_Z p' / inject_Z e'))
    by (apply nearest_nonneg; exact Q0).
  assert (I0 : 0 <= / nearest (inject_Z p' / inject_Z e'))
    by (apply Qinv_le_0_compat; exact R0).
  assert (Qr' : 0 <= inject_Z r')
    by (change 0 with (inject_Z 0); rewrite <- Zle_Qle; exact Hr').
  assert (Y0 : 0 <= inject_Z r' / nearest (inject_Z p' / inject_Z e'))
    by (unfold Qdiv; apply Qmult_le_0_compat; assumption).
  assert (Le : inject_Z r' / nearest (inject_Z p' / inject_Z e')
               <= inject_Z r / nearest (inject_Z p / inject_Z e)).
  { rewrite <- NE. unfold Qdiv. apply Qmult_le_compat_r; [| exact I0].
    rewrite <- Zle_Qle. exact Hr. }
  apply nearest_mono; assumption.
Qed.

(** C8, amended: [calculateETA] answers 'Calculating...' exactly when
    [processed] is zero.  Of two readings with the same observed rate
    [processed / elapsed], taken from whole-number counts and clock
    values up to [2 ^ 53] with [0 < processed < processed' <= total]
    and an estimate of at most [2 ^ 51] ms, both texts report a time,
    the whole seconds of the double [etaMs], and the later one does
    not report more than the earlier one. *)
Theorem calculateETA_indicator_and_monotone (digits : Q -> string) :
  (forall (nowMs : Z) (processed total startTime : Number),
      calculateETA digits nowMs processed total startTime
      = "Calculating..."%string
      <-> is_zero processed = true)
  /\ (forall nowMs nowMs' startTime processed processed' total : Z,
        (0 <= startTime)%Z -> (startTime < nowMs)%Z ->
        (nowMs' <= 2 ^ 53)%Z ->
        (0 < processed)%Z -> (processed < processed')%Z ->
        (processed' <= total)%Z -> (total <= 2 ^ 53)%Z ->
        (processed * (nowMs' - startTime)
         = processed' * (nowMs - startTime))%Z ->
        ((total - processed) * (nowMs - startTime)
         <= 2 ^ 51 * processed)%Z ->
        exists (ms ms' : Q),
          is_number
            (etaMs nowMs (of_Z processed) (of_Z total) (of_Z startTime)) ms
          /\ is_number
               (etaMs nowMs' (of_Z processed') (of_Z total)
                  (of_Z startTime)) ms'
          /\ 0 <= ms' /\ ms' <= ms
          /\ reported_seconds
               (calculateETA digits nowMs (of_Z processed) (of_Z total)
                  (of_Z startTime))
             = Some (Qfloor (ms / inject_Z 1000))
          /\ reported_seconds
               (calculateETA digits nowMs' (of_Z processed') (of_Z total)
                  (of_Z startTime))
             = Some (Qfloor (ms' / inject_Z 1000))
          /\ (0 <= Qfloor (ms' / inject_Z 1000)
              <= Qfloor (ms / inject_Z 1000))%Z).
Proof.
  split.
  - intros nowMs processed total startTime. unfold calculateETA.
    destruct (is_zero processed).
    + tauto.
    + split; [intros H; now apply render_eta_not_calculating in H
             | discriminate].
  - intros nowMs nowMs' startTime p p' t Hs Hn Hn' Hp Hlt Hle Ht Rate B.
    set (e := (nowMs - startTime)%Z) in *.
    set (e' := (nowMs' - startTime)%Z) in *.
    assert (He : (0 < e)%Z) by (unfold e; lia).
    assert (Hp' : (0 < p')%Z) by lia.
    assert (He' : (e < e')%Z).
    { destruct (Z_lt_le_dec e e') as [L|G]; [exact L | exfalso].
      assert (p * e' <= p * e)%Z by (apply Z.mul_le_mono_nonneg_l; lia).
      assert (p * e < p' * e)%Z by (apply Z.mul_lt_mono_pos_r; lia).
      lia. }
    assert (B' : ((t - p') * e' <= 2 ^ 51 * p')%Z).
    { apply (Z.mul_le_mono_pos_l _ _ p); [exact Hp |].
      assert (E1 : (p * ((t - p') * e') = (t - p') * (p' * e))%Z)
        by (rewrite <- Rate; ring).
      assert (E2 : ((t - p') * (p' * e) <= (t - p) * (p' * e))%Z)
        by (apply Z.mul_le_mono_nonneg_r; [| lia];
            apply Z.mul_nonneg_nonneg; lia).
      assert (E3 : ((t - p) * (p' * e) = p' * ((t - p) * e))%Z) by ring.
      assert (E4 : (p' * ((t - p) * e) <= p' * (2 ^ 51 * p))%Z)
        by (apply Z.mul_le_mono_nonneg_l; [lia | exact B]).
      assert (E5 : (p' * (2 ^ 51 * p) = p * (2 ^ 51 * p'))%Z) by ring.
      lia. }
    destruct (calculateETA_reports digits nowMs startTime p t)
      as (_ & R1 & _ & _ & _ & X0); try assumption; try (unfold e'; lia);
      try lia.
    destruct (calculateETA_reports digits nowMs' startTime p' t)
      as (_ & R2 & H0 & M0 & S0 & X0'); try assumption;
      try (unfold e' in *; lia); try lia.
    destruct (etaMs_number nowMs startTime p t) as (N1 & _);
      try assumption; try (unfold e' in *; lia); try lia.
    destruct (etaMs_number nowMs' startTime p' t) as (N2 & _);
      try assumption; try (unfold e' in *; lia); try lia.
    fold e in R1, N1, X0. fold e' in R2, N2, X0', H0, M0, S0.
    pose proof (same_rate_estimates p p' e e' (t - p) (t - p')
                  Hp He Hp' ltac:(lia) Rate ltac:(lia) ltac:(lia)) as Le.
    eexists; eexists.
    split; [exact N1 |]. split; [exact N2 |].
    split; [exact X0' |]. split; [exact Le |].
    split; [exact R1 |]. split; [exact R2 |].
    split.
    + apply Qfloor_nonneg. apply Qdiv_nonneg; [exact X0' | reflexivity].
    + apply Qfloor_resp_le. unfold Qdiv.
      apply Qmult_le_compat_r; [exact Le | discriminate].
Qed.

End Reporting.

(** ** [calculatePercentage] *)

Section Percentage.
Import IEEE UtilsNum Inv.
Local Open Scope Q_scope.

(** Rounding does not pass a power of two. *)
Lemma nearest_below_pow2 (q : Q) (n : Z) :
  0 <= q -> q < pow2 n -> (-1021 <= n)%Z -> nearest q <= pow2 n.
Proof.
  intros H0 Hq Hn.
  destruct (Qeq_dec q 0) as [Z0|NZ].
  - rewrite (nearest_zero q Z0). apply Qlt_le_weak, pow2_pos.
  - assert (P : 0 < q).
    { apply Qle_lteq in H0. destruct H0 as [L|E]; [exact L |].
      exfalso. apply NZ. symmetry. exact E. }
    destruct (ilog2_spec q P) as [L _].
    assert (I : (ilog2 q < n)%Z).
    { destruct (Z_lt_le_dec (ilog2 q) n) as [A|A]; [exact A | exfalso].
      pose proof (pow2_le _ _ A) as B.
      apply (Qlt_irrefl q).
      apply (Qlt_le_trans _ _ _ Hq). apply (Qle_trans _ _ _ B L). }
    apply (Qle_trans _ _ _ (nearest_upper q P)).
    apply pow2_le. lia.
Qed.

(** The relative error of one rounding, with [2 ^ -53] written out. *)
Lemma nearest_within (q : Q) :
  (1 # 1152921504606846976) <= q ->
  q * (1 - (1 # 9007199254740992)) <= nearest q
  /\ nearest q <= q * (1 + (1 # 9007199254740992)).
Proof.
  intros H.
  assert (L : pow2 (-1022) <= q).
  { apply (Qle_trans _ (pow2 (-60))); [apply pow2_le; lia | exact H]. }
  pose proof (nearest_relative q L) as R.
  apply Qabs_Qle_condition in R.
  change (pow2 (-53)) with (1 # 9007199254740992) in R.
  destruct R as [R1 R2]. split; lra.
Qed.

Lemma hundred_number : is_number (of_Z 100) (inject_Z 100).
Proof.
  apply of_Z_number. change (2 ^ 53)%Z with 9007199254740992%Z. lia.
Qed.

(** What [calculatePercentage] computes from two whole numbers: the
    double of [k / 100], where [k] is [Math.round] of the product that
    three roundings have touched. *)
Lemma percentage_number (c t : Z) :
  (0 <= c <= 2 ^ 53)%Z -> (0 < t <= 2 ^ 53)%Z ->
  let Y := inject_Z (10000 * c) / inject_Z t in
  let k := Qfloor (scaled_ratio c t + (1 # 2)) in
  is_number (calculatePercentage (of_Z c) (of_Z t))
            (nearest (inject_Z k / inject_Z 100))
  /\ (0 <= k)%Z
  /\ Qabs (inject_Z k - Y) <= (1 # 2) + Y * pow2 (-51).
Proof.
  intros Hc Ht Y k. unfold scaled_ratio in k. subst k.
  pose proof (inject_Z_pos t ltac:(lia)) as Qt.
  assert (Qc : 0 <= inject_Z c)
    by (change 0 with (inject_Z 0); rewrite <- Zle_Qle; lia).
  assert (P53 : pow2 53 == inject_Z (2 ^ 53))
    by (apply pow2_nonneg_exp; lia).
  assert (C53 : inject_Z c <= 9007199254740992)
    by (change 9007199254740992 with (inject_Z (2 ^ 53));
        rewrite <- Zle_Qle; lia).
  assert (T53 : inject_Z t <= 9007199254740992)
    by (change 9007199254740992 with (inject_Z (2 ^ 53));
        rewrite <- Zle_Qle; lia).
  assert (T1 : 1 <= inject_Z t)
    by (change 1 with (inject_Z 1); rewrite <- Zle_Qle; lia).
  remember (inject_Z c / inject_Z t) as q0 eqn:D0.
  assert (Q0 : 0 <= q0) by (rewrite D0; apply Qdiv_nonneg; assumption).
  assert (Q0u : q0 <= 9007199254740992).
  { rewrite D0. apply Qle_shift_div_r; [exact Qt |].
    assert (M : 9007199254740992 * 1 <= 9007199254740992 * inject_Z t)
      by (apply Qmult_le_l; [reflexivity | exact T1]).
    clear - M C53. set (a := 9007199254740992 * inject_Z t) in *. lra. }
  assert (EY : Y == 10000 * q0).
  { unfold Y. rewrite D0, inject_Z_mult.
    change (inject_Z 10000) with 10000. field.
    intros Z0. rewrite Z0 in Qt. discriminate. }
  (* the three rounded operations *)
  remember (nearest q0) as y1 eqn:D1.
  remember (nearest (y1 * inject_Z 100)) as y2 eqn:D2.
  remember (nearest (y2 * inject_Z 100)) as y3 eqn:D3.
  assert (Y1 : 0 <= y1) by (rewrite D1; apply nearest_nonneg; exact Q0).
  assert (Y1u : y1 <= pow2 54).
  { rewrite D1. apply nearest_below_pow2; [exact Q0 | | lia].
    change (pow2 54) with 18014398509481984. lra. }
  change (pow2 54) with 18014398509481984 in Y1u.
  assert (Y2a : 0 <= y1 * inject_Z 100)
    by (change (inject_Z 100) with 100; lra).
  assert (Y2 : 0 <= y2) by (rewrite D2; apply nearest_nonneg; exact Y2a).
  assert (Y2u : y2 <= pow2 61).
  { rewrite D2. apply nearest_below_pow2; [exact Y2a | | lia].
    change (pow2 61) with 2305843009213693952.
    change (inject_Z 100) with 100. lra. }
  change (pow2 61) with 2305843009213693952 in Y2u.
  assert (Y3a : 0 <= y2 * inject_Z 100)
    by (change (inject_Z 100) with 100; lra).
  assert (Y3 : 0 <= y3) by (rewrite D3; apply nearest_nonneg; exact Y3a).
  assert (Y3u : y3 <= pow2 68).
  { rewrite D3. apply nearest_below_pow2; [exact Y3a | | lia].
    change (pow2 68) with 295147905179352825856.
    change (inject_Z 100) with 100. lra. }
  change (pow2 68) with 295147905179352825856 in Y3u.
  assert (Big : forall n, (n <= 1000)%Z -> pow2 n < pow2 1024)
    by (intros n Hn; apply pow2_lt; lia).
  assert (S1 : is_number (div (of_Z c) (of_Z t)) y1).
  { rewrite D1, D0. apply div_number.
    - apply of_Z_number. lia.
    - apply of_Z_number. lia.
    - exact Qc.
    - exact Qt.
    - rewrite <- D0, <- D1.
      apply (Qle_lt_trans _ (pow2 54)); [| apply Big; lia].
      change (pow2 54) with 18014398509481984. exact Y1u. }
  assert (S2 : is_number (mul (div (of_Z c) (of_Z t)) (of_Z 100)) y2).
  { rewrite D2. apply mul_number.
    - exact S1.
    - exact hundred_number.
    - exact Y1.
    - discriminate.
    - rewrite <- D2.
      apply (Qle_lt_trans _ (pow2 61)); [| apply Big; lia].
      change (pow2 61) with 2305843009213693952. exact Y2u. }
  assert (S3 : is_number
                 (mul (mul (div (of_Z c) (of_Z t)) (of_Z 100)) (of_Z 100))
                 y3).
  { rewrite D3. apply mul_number.
    - exact S2.
    - exact hundred_number.
    - exact Y2.
    - discriminate.
    - rewrite <- D3.
      apply (Qle_lt_trans _ (pow2 68)); [| apply Big; lia].
      change (pow2 68) with 295147905179352825856. exact Y3u. }
  pose proof (round_number _ _ S3 Y3) as S4.
  remember (Qfloor (y3 + (1 # 2))) as k eqn:Dk.
  assert (K0 : (0 <= k)%Z)
    by (rewrite Dk; apply Qfloor_nonneg; lra).
  assert (Kl : inject_Z k <= y3 + (1 # 2))
    by (rewrite Dk; apply Qfloor_le).
  assert (Ku : y3 + (1 # 2) < inject_Z k + 1).
  { rewrite Dk. pose proof (Qlt_floor (y3 + (1 # 2))) as F.
    rewrite inject_Z_plus in F. exact F. }
  assert (QK : 0 <= inject_Z k)
    by (change 0 with (inject_Z 0); rewrite <- Zle_Qle; exact K0).
  assert (Ra : 0 <= inject_Z k / inject_Z 100)
    by (apply Qdiv_nonneg; [exact QK | reflexivity]).
  assert (S5 : is_number (calculatePercentage (of_Z c) (of_Z t))
                         (nearest (inject_Z k / inject_Z 100))).
  { unfold calculatePercentage. apply div_number.
    - exact S4.
    - exact hundred_number.
    - exact QK.
    - reflexivity.
    - apply (Qle_lt_trans _ (pow2 69)); [| apply Big; lia].
      apply nearest_below_pow2; [exact Ra | | lia].
      change (pow2 69) with 590295810358705651712.
      change (inject_Z 100) with 100.
      apply Qlt_shift_div_r; [reflexivity |]. lra. }
  split; [exact S5 |]. split; [exact K0 |].
  change (pow2 (-51)) with (1 # 2251799813685248).
  apply Qabs_Qle_condition.
  destruct (Z.eq_dec c 0) as [C0|CN].
  - (* nothing to round *)
    assert (E0 : q0 == 0) by (rewrite D0, C0; reflexivity).
    assert (E1 : y1 == 0) by (rewrite D1, (nearest_zero q0 E0); reflexivity).
    assert (E2 : y2 == 0).
    { rewrite D2, (nearest_zero (y1 * inject_Z 100)); [reflexivity |].
      rewrite E1. reflexivity. }
    assert (E3 : y3 == 0).
    { rewrite D3, (nearest_zero (y2 * inject_Z 100)); [reflexivity |].
      rewrite E2. reflexivity. }
    rewrite EY, E0. rewrite E3 in Kl, Ku. split; lra.
  - assert (C1 : 1 <= inject_Z c)
      by (change 1 with (inject_Z 1); rewrite <- Zle_Qle; lia).
    assert (L0 : (1 # 9007199254740992) <= q0).
    { rewrite D0. apply Qle_shift_div_l; [exact Qt |]. lra. }
    destruct (nearest_within q0 ltac:(lra)) as [A1 B1].
    rewrite <- D1 in A1, B1.
    destruct (nearest_within (y1 * inject_Z 100)) as [A2 B2].
    { change (inject_Z 100) with 100. lra. }
    rewrite <- D2 in A2, B2. change (inject_Z 100) with 100 in A2, B2.
    destruct (nearest_within (y2 * inject_Z 100)) as [A3 B3].
    { change (inject_Z 100) with 100. lra. }
    rewrite <- D3 in A3, B3. change (inject_Z 100) with 100 in A3, B3.
    rewrite EY. split; lra.
Qed.

(** When the error of the three roundings is below the distance
    between two candidates, [k] is a nearest integer. *)
Lemma nearest_hundredth (c t k : Z) :
  (0 <= c <= 2 ^ 36)%Z -> (0 < t)%Z ->
  Qabs (inject_Z k - inject_Z (10000 * c) / inject_Z t)
  <= (1 # 2) + inject_Z (10000 * c) / inject_Z t * pow2 (-51) ->
  two_decimals c t k.
Proof.
  intros Hc Ht H. unfold two_decimals.
  change (pow2 (-51)) with (1 # 2251799813685248) in H.
  pose proof (inject_Z_pos t Ht) as Qt.
  assert (TN : ~ inject_Z t == 0)
    by (intros Z0; rewrite Z0 in Qt; discriminate).
  remember (inject_Z (10000 * c) / inject_Z t) as Y eqn:DY.
  assert (YT : Y * inject_Z t == 10000 * inject_Z c).
  { rewrite DY, inject_Z_mult. change (inject_Z 10000) with 10000.
    field. exact TN. }
  assert (C36 : inject_Z c <= 68719476736)
    by (change 68719476736 with (inject_Z (2 ^ 36));
        rewrite <- Zle_Qle; lia).
  assert (C0 : 0 <= inject_Z c)
    by (change 0 with (inject_Z 0); rewrite <- Zle_Qle; lia).
  apply Qabs_Qle_condition in H. destruct H as [Lo Hi].
  assert (Hi' : (inject_Z k - Y) * inject_Z t
                <= ((1 # 2) + Y * (1 # 2251799813685248)) * inject_Z t)
    by (apply Qmult_le_compat_r; [exact Hi | apply Qlt_le_weak, Qt]).
  assert (Lo' : - ((1 # 2) + Y * (1 # 2251799813685248)) * inject_Z t
                <= (inject_Z k - Y) * inject_Z t)
    by (apply Qmult_le_compat_r; [exact Lo | apply Qlt_le_weak, Qt]).
  assert (E1 : (inject_Z k - Y) * inject_Z t
               == inject_Z k * inject_Z t - 10000 * inject_Z c)
    by (rewrite <- YT; ring).
  assert (E2 : ((1 # 2) + Y * (1 # 2251799813685248)) * inject_Z t
               == (1 # 2) * inject_Z t
                  + 10000 * inject_Z c * (1 # 2251799813685248))
    by (rewrite <- YT; ring).
  assert (E3 : - ((1 # 2) + Y * (1 # 2251799813685248)) * inject_Z t
               == - ((1 # 2) * inject_Z t
                     + 10000 * inject_Z c * (1 # 2251799813685248)))
    by (rewrite <- YT; ring).
  rewrite E1, E2 in Hi'. rewrite E1, E3 in Lo'.
  assert (U : inject_Z (2 * (k * t - 10000 * c)) < inject_Z (t + 1)).
  { rewrite inject_Z_mult, inject_Z_plus. unfold Z.sub.
    rewrite inject_Z_plus, inject_Z_opp, !inject_Z_mult.
    change (inject_Z 2) with 2. change (inject_Z 10000) with 10000.
    change (inject_Z 1) with 1.
    clear - Hi' C36 C0. set (P := inject_Z k * inject_Z t) in *. lra. }
  assert (L : inject_Z (- (t + 1)) < inject_Z (2 * (k * t - 10000 * c))).
  { rewrite inject_Z_opp, inject_Z_mult, inject_Z_plus. unfold Z.sub.
    rewrite inject_Z_plus, inject_Z_opp, !inject_Z_mult.
    change (inject_Z 2) with 2. change (inject_Z 10000) with 10000.
    change (inject_Z 1) with 1.
    clear - Lo' C36 C0. set (P := inject_Z k * inject_Z t) in *. lra. }
  rewrite <- Zlt_Qlt in U, L. lia.
Qed.

(** C9, amended: for whole numbers [0 <= current] and [0 < total] up
    to [2 ^ 53] the result is the double of [k / 100] for an integer
    [k] that differs from [current / total * 100 * 100] by at most a
    half and the error of three roundings; for [current <= 2 ^ 36]
    [k / 100] is [current / total * 100] rounded to two decimal
    places, an exact tie going either way; and
    [calculatePercentage(50, 200)] is 25. *)
Theorem calculatePercentage_two_decimals (current total : Z) :
  (0 <= current <= 2 ^ 53)%Z -> (0 < total <= 2 ^ 53)%Z ->
  (exists k : Z,
      is_number (calculatePercentage (of_Z current) (of_Z total))
                (nearest (inject_Z k / inject_Z 100))
      /\ (0 <= k)%Z
      /\ Qabs (inject_Z k - inject_Z (10000 * current) / inject_Z total)
         <= (1 # 2)
            + inject_Z (10000 * current) / inject_Z total * pow2 (-51)
      /\ ((current <= 2 ^ 36)%Z -> two_decimals current total k))
  /\ is_number (calculatePercentage (of_Z 50) (of_Z 200)) (inject_Z 25).
Proof.
  intros Hc Ht. split.
  - destruct (percentage_number current total Hc Ht) as (N & K0 & B).
    exists (Qfloor (scaled_ratio current total + (1 # 2))). split; [exact N |]. split; [exact K0 |]. split; [exact B |].
    intros C36. apply nearest_hundredth; [lia | lia | exact B].
  - exists (value (calculatePercentage (of_Z 50) (of_Z 200))).
    split; vm_compute; reflexivity.
Qed.

(** The roundings can move the product across a half: an exact tie is
    rounded down at (23, 160) and up at (1, 32); and for two large
    counts the result is 43.95 although the quotient lies below
    43.945, so it is not the quotient rounded to two decimal places. *)
Lemma calculatePercentage_misrounds :
  (is_number (calculatePercentage (of_Z 23) (of_Z 160))
             (nearest (1437 # 100))
   /\ inject_Z 23 / inject_Z 160 * 100 == 14375 # 1000
   /\ ~ nearest (1437 # 100) == nearest (1438 # 100))
  /\ (is_number (calculatePercentage (of_Z 1) (of_Z 32))
                (nearest (313 # 100))
      /\ inject_Z 1 / inject_Z 32 * 100 == 3125 # 1000)
  /\ (let current := 2482066390282767%Z in
      let total := 5648120128075474%Z in
      is_number (calculatePercentage (of_Z current) (of_Z total))
                (nearest (4395 # 100))
      /\ inject_Z current / inject_Z total * 100 < 43945 # 1000
      /\ ~ (exists k : Z,
               two_decimals current total k
               /\ is_number (calculatePercentage (of_Z current)
                                                 (of_Z total))
                            (nearest (inject_Z k / inject_Z 100)))).
Proof.
  split; [| split].
  - split; [| split].
    + exists (value (calculatePercentage (of_Z 23) (of_Z 160))).
      split; vm_compute; reflexivity.
    + reflexivity.
    + vm_compute. intros H. discriminate H.
  - split.
    + exists (value (calculatePercentage (of_Z 1) (of_Z 32))).
      split; vm_compute; reflexivity.
    + reflexivity.
  - intros current total. split; [| split].
    + exists (value (calculatePercentage (of_Z current) (of_Z total))).
      split; vm_compute; reflexivity.
    + reflexivity.
    + intros (k & R & q & E & N).
      assert (K : k = 4394%Z)
        by (unfold two_decimals, current, total in R; lia).
      subst k.
      assert (V : value (calculatePercentage (of_Z current) (of_Z total))
                  == nearest (inject_Z 4394 / inject_Z 100))
        by (rewrite E; exact N).
      vm_compute in V. discriminate V.
Qed.

End Percentage.

(** ** The monad and the counters *)

Section MonadFacts.
Import Runtime Inv.
Context {rm : Remote}.

Lemma after_ret {A} (a : A) (w : World rm) Q :
  Q (Ok a) w -> after (ret a) w Q.
Proof. exact (fun H => H). Qed.

Lemma after_bind {A B} (m : M rm A) (k : A -> M rm B) w Q :
  after m w (fun r w' =>
               match r with
               | Ok a => after (k a) w' Q
               | Thrown e => Q (Thrown e) w'
               end) ->
  after (bind m k) w Q.
Proof.
  unfold after, bind. destruct (m w) as [[a|e] w']; simpl; auto.
Qed.

Lemma after_try_catch {A} (body : M rm A) (handler : thrown -> M rm A) w Q :
  after body w (fun r w' =>
                  match r with
                  | Ok a => Q (Ok a) w'
                  | Thrown e => after (handler e) w' Q
                  end) ->
  after (try_catch body handler) w Q.
Proof.
  unfold after, try_catch. destruct (body w) as [[a|e] w']; simpl; auto.
Qed.

Lemma after_mono {A} (m : M rm A) w (Q Q' : Result A -> World rm -> Prop) :
  (forall r w', Q r w' -> Q' r w') -> after m w Q -> after m w Q'.
Proof. unfold after; auto. Qed.

(** *** Non-decreasing timelines *)

Lemma le_snapshot_refl a : le_snapshot a a.
Proof. unfold le_snapshot; lia. Qed.

Lemma le_snapshot_trans a b c :
  le_snapshot a b -> le_snapshot b c -> le_snapshot a c.
Proof. unfold le_snapshot; lia. Qed.

Lemma nondecreasing_raise a a' h :
  le_snapshot a a' -> nondecreasing (a :: h) -> nondecreasing (a' :: h).
Proof.
  destruct h as [|b h]; simpl; auto.
  intros H [H1 H2]; split; [eapply le_snapshot_trans; eauto | assumption].
Qed.

Lemma nondecreasing_push a a' h :
  le_snapshot a a' -> nondecreasing (a :: h) ->
  nondecreasing (a' :: a' :: h).
Proof.
  intros H1 H2. split; [apply le_snapshot_refl |].
  eapply nondecreasing_raise; eauto.
Qed.

(** *** Composition of [accounts] *)

Lemma accounts_refl (w : World rm) : accounts 0 [] w w.
Proof.
  unfold accounts; simpl.
  split; [| split; [| split; [| split]]]; auto; lia.
Qed.

Lemma accounts_trans n m d e (w1 w2 w3 : World rm) :
  accounts n d w1 w2 -> accounts m e w2 w3 ->
  accounts (n + m) (e ++ d)%list w1 w3.
Proof.
  unfold accounts.
  intros (A1 & A2 & A3 & A4 & A5) (B1 & B2 & B3 & B4 & B5).
  split; [| split; [| split; [| split]]]; try lia; auto.
  rewrite B4, A4. now rewrite app_assoc.
Qed.

Lemma accounts_eq n n' d d' (w w' : World rm) :
  n = n' -> d = d' -> accounts n d w w' -> accounts n' d' w w'.
Proof. now intros -> ->. Qed.

Lemma quiet_accounts (w w' : World rm) : quiet w w' -> accounts 0 [] w w'.
Proof.
  unfold quiet, accounts, steady, timeline, counters.
  intros (-> & -> & -> & ->).
  split; [| split; [| split; [| split]]]; auto; lia.
Qed.

Lemma quiet_refl (w : World rm) : quiet w w.
Proof. unfold quiet; auto. Qed.

Lemma quiet_trans (w1 w2 w3 : World rm) :
  quiet w1 w2 -> quiet w2 w3 -> quiet w1 w3.
Proof.
  unfold quiet. intros (A1 & A2 & A3 & A4) (B1 & B2 & B3 & B4).
  repeat split; congruence.
Qed.

(** *** The primitive operations *)

Lemma delay_finishes ms (w : World rm) : finishes (delay ms) w quiet.
Proof. unfold finishes, after, quiet; simpl; auto. Qed.

Lemma addProcessedUsers_finishes n (w : World rm) :
  0 <= n -> finishes (addProcessedUsers n) w (accounts n []).
Proof.
  intros Hn. unfold finishes, after, accounts; simpl.
  split; [reflexivity |].
  split; [| split; [| split; [| split]]]; try lia; try reflexivity.
  unfold steady, timeline, counters; simpl. intros H.
  apply (nondecreasing_push (processedUsers w, errors w)); auto.
  unfold le_snapshot; simpl; lia.
Qed.

Lemma addErrors_finishes n (w : World rm) :
  0 <= n -> finishes (addErrors n) w (accounts n []).
Proof.
  intros Hn. unfold finishes, after, accounts; simpl.
  split; [reflexivity |].
  split; [| split; [| split; [| split]]]; try lia; try reflexivity.
  unfold steady, timeline, counters; simpl. intros H.
  apply (nondecreasing_push (processedUsers w, errors w)); auto.
  unfold le_snapshot; simpl; lia.
Qed.

Lemma enterBatch_finishes b size (w : World rm) :
  finishes (enterBatch b size) w (accounts 0 [(b, size)]).
Proof.
  unfold finishes, after, accounts, steady, timeline, counters; simpl.
  split; [reflexivity |].
  split; [| split; [| split; [| split]]]; auto; lia.
Qed.

Lemma callCreateUser_quiet u (w : World rm) :
  after (callCreateUser u) w (fun _ w' => quiet w w' /\ sleeps w' = sleeps w).
Proof.
  unfold after, callCreateUser, quiet.
  destruct (admin_createUser rm (remote w) _) as [r' [e|]]; simpl; auto.
Qed.

Lemma count_if_nonneg {A} (p : A -> bool) l : 0 <= count_if p l.
Proof. unfold count_if; lia. Qed.

Lemma count_settled (rs : list Settled) :
  count_if is_fulfilled rs + count_if is_rejected rs
  = Z.of_nat (List.length rs).
Proof.
  unfold count_if.
  induction rs as [|[|e] rs IH];
    cbn [filter is_fulfilled is_rejected List.length] in *;
    rewrite ?Nat2Z.inj_succ; lia.
Qed.

(** [Promise.allSettled] never throws, reports one outcome for each
    call and leaves the counters alone. *)
Lemma allSettled_quiet (f : Utils.UserData -> M rm unit) users :
  (forall u w, after (f u) w (fun _ w' => quiet w w' /\ sleeps w' = sleeps w)) ->
  forall w,
    after (allSettled f users) w (fun r w' =>
      exists rs, r = Ok rs /\ List.length rs = List.length users
                 /\ quiet w w' /\ sleeps w' = sleeps w).
Proof.
  intros Hf. induction users as [|u users IH]; intros w.
  - exists []. simpl. repeat split; auto.
  - cbn [allSettled]. apply after_bind.
    assert (G : forall s w1,
               quiet w w1 -> sleeps w1 = sleeps w ->
               after (bind (allSettled f users) (fun ss => ret (s :: ss)))
                     w1 (fun r w' =>
                 exists rs, r = Ok rs
                            /\ List.length rs = List.length (u :: users)
                            /\ quiet w w' /\ sleeps w' = sleeps w)).
    { intros s w1 Q1 S1. apply after_bind.
      specialize (IH w1). unfold after in *.
      destruct (allSettled f users w1) as [r2 w2]; cbn [fst snd] in *.
      destruct IH as (rs & -> & L & Q2 & S2).
      exists (s :: rs). split; [reflexivity |].
      split; [simpl; congruence |].
      split; [eapply quiet_trans; eauto |].
      unfold ret; cbn [snd]. congruence. }
    pose proof (Hf u w) as H1. unfold after at 1, settle.
    unfold after in H1.
    destruct (f u w) as [[[]|e] w1]; cbn [fst snd] in *;
      destruct H1 as [Q1 S1]; now apply G.
Qed.

(** A loop over a list whose every iteration returns normally. *)
Lemma forEach_finishes {A} (xs : list A) (body : A -> M rm unit)
      (n : A -> Z) (d : A -> Z * Z) :
  (forall x w, In x xs -> finishes (body x) w (accounts (n x) [d x])) ->
  forall w,
    finishes (forEach xs body) w
             (accounts (sum (map n xs)) (rev (map d xs))).
Proof.
  induction xs as [|x xs IH]; intros Hb w.
  - split; [reflexivity | apply accounts_refl].
  - cbn [forEach]. apply after_bind.
    pose proof (Hb x w (or_introl eq_refl)) as Hx.
    unfold finishes, after in *.
    destruct (body x w) as [r w1]; simpl in *. destruct Hx as [-> Hx].
    assert (IH' := IH (fun y w' Hy => Hb y w' (or_intror Hy)) w1).
    destruct (forEach xs body w1) as [r2 w2]; simpl in *.
    destruct IH' as [-> IH']. split; [reflexivity |].
    eapply accounts_trans; eauto.
Qed.

End MonadFacts.

(** ** Arithmetic of the batch plan *)

Section PlanFacts.
Import Runtime Inv.

Lemma ceil_div_bounds (a b : Z) :
  1 <= b -> (Num.ceil_div a b - 1) * b < a <= Num.ceil_div a b * b.
Proof.
  intros Hb. unfold Num.ceil_div.
  pose proof (Z.div_mod (- a) b ltac:(lia)).
  pose proof (Z.mod_pos_bound (- a) b ltac:(lia)).
  nia.
Qed.

(** [i] is a batch index exactly when a record is left for it. *)
Lemma lt_ceil_div (a b i : Z) :
  1 <= b -> (i < Num.ceil_div a b <-> i * b < a).
Proof.
  intros Hb. pose proof (ceil_div_bounds a b Hb). split; intros; nia.
Qed.

Lemma ceil_div_nonneg (a b : Z) : 0 <= a -> 1 <= b -> 0 <= Num.ceil_div a b.
Proof. intros Ha Hb. pose proof (ceil_div_bounds a b Hb). nia. Qed.

Lemma in_batch_indices (n i : Z) :
  In i (batch_indices n) <-> 0 <= i < n.
Proof.
  unfold batch_indices. rewrite in_map_iff. split.
  - intros (k & <- & Hk). apply in_seq in Hk. lia.
  - intros H. exists (Z.to_nat i). split; [lia |]. apply in_seq. lia.
Qed.

Lemma batch_indices_length (n : Z) :
  List.length (batch_indices n) = Z.to_nat n.
Proof. unfold batch_indices. now rewrite length_map, length_seq. Qed.

Lemma batch_indices_succ (n : Z) :
  0 <= n -> batch_indices (n + 1) = (batch_indices n ++ [n])%list.
Proof.
  intros Hn. unfold batch_indices.
  replace (Z.to_nat (n + 1)) with (S (Z.to_nat n)) by lia.
  rewrite seq_S, map_app. simpl. now rewrite Z2Nat.id.
Qed.

Lemma size_at_bounds (total batch i : Z) :
  1 <= batch -> 0 <= i < Num.ceil_div total batch ->
  1 <= size_at total batch i <= batch.
Proof.
  intros Hb [H0 Hi]. apply lt_ceil_div in Hi; [| assumption].
  unfold size_at. lia.
Qed.

Lemma sum_app (l1 l2 : list Z) : sum (l1 ++ l2) = sum l1 + sum l2.
Proof. unfold sum. induction l1; simpl in *; lia. Qed.

(** The first [k] batches hold [min (k * batch) total] records. *)
Lemma sum_sizes_prefix (total batch k : Z) :
  0 <= total -> 1 <= batch -> 0 <= k <= Num.ceil_div total batch ->
  sum (map (size_at total batch) (batch_indices k))
  = Z.min (k * batch) total.
Proof.
  intros Ht Hb [Hk0 Hk]. revert Hk.
  pattern k. apply natlike_ind; [| | assumption]; clear k Hk0.
  - intros _. simpl. lia.
  - intros k Hk0 IH Hk. unfold Z.succ in *.
    rewrite batch_indices_succ, map_app, sum_app by assumption.
    rewrite IH by lia. cbn [map sum fold_right].
    assert (k * batch < total) by (apply lt_ceil_div; lia).
    unfold size_at. lia.
Qed.

(** The batches of the plan hold every record exactly once. *)
Lemma sum_sizes (total batch : Z) :
  0 <= total -> 1 <= batch ->
  sum (map (size_at total batch)
           (batch_indices (Num.ceil_div total batch))) = total.
Proof.
  intros Ht Hb.
  rewrite sum_sizes_prefix;
    [| assumption | assumption
     | split; [now apply ceil_div_nonneg | lia]].
  pose proof (ceil_div_bounds total batch Hb). lia.
Qed.

Lemma plan_length (total batch : Z) :
  List.length (plan total batch) = Z.to_nat (Num.ceil_div total batch).
Proof. unfold plan. now rewrite length_map, batch_indices_length. Qed.

End PlanFacts.

(** ** The chunked runner *)

Section ChunkedFacts.
Import Runtime Inv BatchSeeder.
Context {rm : Remote}.
Variable host : Host.
Variable config : Config.Config.

Lemma createUser_quiet u (w : World rm) :
  after (createUser u) w (fun _ w' => quiet w w' /\ sleeps w' = sleeps w).
Proof.
  unfold createUser. apply after_try_catch.
  pose proof (callCreateUser_quiet u w) as H. unfold after in *.
  destruct (callCreateUser u w) as [[a|e] w']; simpl in *; auto.
Qed.

Lemma slice_length {A} (i : nat) (l : list A) :
  List.length (slice i (i + chunkSize) l)
  = Nat.min chunkSize (List.length l - i).
Proof.
  unfold slice. rewrite length_firstn, length_skipn.
  replace (i + chunkSize - i)%nat with chunkSize by lia. reflexivity.
Qed.

Lemma processChunk_finishes users i (w : World rm) :
  finishes (processChunk users i) w
    (accounts (Z.of_nat (Nat.min chunkSize (List.length users - i))) []).
Proof.
  unfold processChunk. apply after_bind.
  pose proof (allSettled_quiet createUser (slice i (i + chunkSize) users)
                createUser_quiet w) as H.
  unfold after in H |- *.
  destruct (allSettled createUser _ w) as [r w1]; cbn [fst snd] in *.
  destruct H as (rs & -> & L & Q & _).
  rewrite slice_length in L.
  apply after_bind.
  pose proof (addProcessedUsers_finishes (count_if is_fulfilled rs) w1
                (count_if_nonneg _ _)) as H1.
  unfold finishes, after in H1 |- *.
  destruct (addProcessedUsers _ w1) as [r1 w2]; cbn [fst snd] in *.
  destruct H1 as [-> A1].
  apply after_bind.
  pose proof (addErrors_finishes (count_if is_rejected rs) w2
                (count_if_nonneg _ _)) as H2.
  unfold finishes, after in H2 |- *.
  destruct (addErrors _ w2) as [r2 w3]; cbn [fst snd] in *.
  destruct H2 as [-> A2].
  pose proof (delay_finishes 50 w3) as H3.
  unfold finishes, after in H3.
  destruct (delay 50 w3) as [r3 w4]; cbn [fst snd] in *.
  destruct H3 as [-> Q3]. split; [reflexivity |].
  apply quiet_accounts in Q, Q3.
  pose proof (accounts_trans _ _ _ _ _ _ _
                (accounts_trans _ _ _ _ _ _ _
                   (accounts_trans _ _ _ _ _ _ _ Q A1) A2) Q3) as T.
  eapply accounts_eq; [| | exact T]; [| reflexivity].
  rewrite <- L, <- count_settled. lia.
Qed.

Lemma chunkLoop_finishes fuel users :
  forall i (w : World rm),
    (List.length users - i <= fuel)%nat ->
    finishes (chunkLoop fuel users i) w
             (accounts (Z.of_nat (List.length users - i)) []).
Proof.
  induction fuel as [|fuel IH]; intros i w Hf; cbn [chunkLoop].
  - replace (List.length users - i)%nat with O by lia.
    split; [reflexivity | apply accounts_refl].
  - destruct (Nat.ltb_spec i (List.length users)) as [Hi|Hi].
    + apply after_bind.
      pose proof (processChunk_finishes users i w) as H1.
      unfold finishes, after in H1 |- *.
      destruct (processChunk users i w) as [r1 w1]; cbn [fst snd] in *.
      destruct H1 as [-> A1].
      assert (Hf' : (List.length users - (i + chunkSize) <= fuel)%nat)
        by (unfold chunkSize; lia).
      specialize (IH (i + chunkSize)%nat w1 Hf').
      unfold finishes, after in IH.
      destruct (chunkLoop fuel users (i + chunkSize) w1) as [r2 w2];
        cbn [fst snd] in *.
      destruct IH as [-> A2]. split; [reflexivity |].
      eapply accounts_eq; [| | exact (accounts_trans _ _ _ _ _ _ _ A1 A2)];
        [| reflexivity].
      unfold chunkSize. lia.
    + replace (List.length users - i)%nat with O by lia.
      split; [reflexivity | apply accounts_refl].
Qed.

(** A batch always returns normally and accounts for exactly [size]
    records, whether its generator call raises or not. *)
Lemma processBatch_finishes b size (w : World rm) :
  0 <= size ->
  finishes (processBatch host config b size) w
           (accounts size [(b, size)]).
Proof.
  intros Hs. unfold processBatch. apply after_bind.
  pose proof (enterBatch_finishes b size w) as H0.
  unfold finishes, after in H0 |- *.
  destruct (enterBatch b size w) as [r0 w0]; cbn [fst snd] in *.
  destruct H0 as [-> A0].
  apply after_try_catch. unfold callGenerate.
  destruct (gen_fault host b) as [e|].
  - (* the generator raised: the catch clause counts the batch *)
    apply after_bind. unfold after at 1, throw; cbn [fst snd].
    pose proof (addErrors_finishes size w0 Hs) as H1.
    unfold finishes, after in H1 |- *.
    destruct (addErrors size w0) as [r1 w1]; cbn [fst snd] in *.
    destruct H1 as [-> A1]. split; [reflexivity |].
    eapply accounts_eq; [| | exact (accounts_trans _ _ _ _ _ _ _ A0 A1)];
      [lia | reflexivity].
  - apply after_bind. unfold after at 1, ret; cbn [fst snd].
    set (users := Utils.generateUserBatch _ _ _ _).
    pose proof (chunkLoop_finishes (List.length users) users 0%nat w0
                  ltac:(lia)) as H1.
    unfold finishes, after in H1 |- *.
    destruct (chunkLoop _ users 0%nat w0) as [r1 w1]; cbn [fst snd] in *.
    destruct H1 as [-> A1]. split; [reflexivity |].
    eapply accounts_eq; [| | exact (accounts_trans _ _ _ _ _ _ _ A0 A1)];
      [| reflexivity].
    subst users. rewrite generateUserBatch_length. lia.
Qed.

(** The run over a well-formed configuration returns normally, hands
    the planned batches to [processBatch] in order and accounts for
    every record. *)
Lemma chunked_seedUsers_finishes (w : World rm) :
  let total := Config.totalUsers (Config.seeding config) in
  let batch := Config.batchSize (Config.seeding config) in
  0 <= total -> 1 <= batch ->
  finishes (seedUsers host config) w
           (accounts total (rev (plan total batch))).
Proof.
  intros total batch Ht Hb. unfold seedUsers. fold total batch.
  pose proof (forEach_finishes (rm:=rm)
                (batch_indices (Num.ceil_div total batch))
                (fun batchIndex =>
                   bind (processBatch host config batchIndex
                           (Z.min batch (total - batchIndex * batch)))
                        (fun _ => delay 200))
                (size_at total batch)
                (fun i => (i, size_at total batch i))) as F.
  rewrite sum_sizes in F by assumption.
  apply F. clear F. intros i w0 Hi.
  apply in_batch_indices in Hi.
  pose proof (size_at_bounds total batch i Hb Hi) as Hs.
  apply after_bind.
  pose proof (processBatch_finishes i (size_at total batch i) w0
                ltac:(lia)) as H1.
  unfold finishes, after in H1 |- *. unfold size_at in *.
  destruct (processBatch host config i _ w0) as [r1 w1];
    cbn [fst snd] in *.
  destruct H1 as [-> A1]. split; [reflexivity |].
  pose proof (delay_finishes 200 w1) as [_ Q]. cbn [fst snd] in Q.
  apply quiet_accounts in Q.
  eapply accounts_eq; [| | exact (accounts_trans _ _ _ _ _ _ _ A1 Q)];
    [lia | reflexivity].
Qed.

End ChunkedFacts.

(** ** The conservative runner *)

Section ConservativeFacts.
Import Runtime Inv ConservativeSeeder.
Context {rm : Remote}.
Variable host : Host.
Variable config : Config.Config.

Lemma forEach_invariant {A} (P : World rm -> Prop) (xs : list A)
      (body : A -> M rm unit) :
  (forall x w, In x xs -> P w -> finishes (body x) w (fun _ w' => P w')) ->
  forall w, P w -> finishes (forEach xs body) w (fun _ w' => P w').
Proof.
  induction xs as [|x xs IH]; intros Hb w Hw.
  - split; [reflexivity | assumption].
  - cbn [forEach]. apply after_bind.
    pose proof (Hb x w (or_introl eq_refl) Hw) as Hx.
    unfold finishes, after in *.
    destruct (body x w) as [r w1]; cbn [fst snd] in *.
    destruct Hx as [-> Hx].
    exact (IH (fun y w' Hy => Hb y w' (or_intror Hy)) w1 Hx).
Qed.

Lemma forEach_finishes_each {A} (xs : list A) (body : A -> M rm unit)
      (n : A -> Z) :
  (forall x w, In x xs -> finishes (body x) w (accounts (n x) [])) ->
  forall w, finishes (forEach xs body) w (accounts (sum (map n xs)) []).
Proof.
  induction xs as [|x xs IH]; intros Hb w.
  - split; [reflexivity | apply accounts_refl].
  - cbn [forEach]. apply after_bind.
    pose proof (Hb x w (or_introl eq_refl)) as Hx.
    unfold finishes, after in *.
    destruct (body x w) as [r w1]; cbn [fst snd] in *.
    destruct Hx as [-> Hx].
    assert (IH' := IH (fun y w' Hy => Hb y w' (or_intror Hy)) w1).
    destruct (forEach xs body w1) as [r2 w2]; cbn [fst snd] in *.
    destruct IH' as [-> IH']. split; [reflexivity |].
    exact (accounts_trans _ _ _ _ _ _ _ Hx IH').
Qed.

Lemma sum_const {A} (xs : list A) :
  sum (map (fun _ => 1) xs) = Z.of_nat (List.length xs).
Proof.
  unfold sum. induction xs as [|x xs IH]; cbn [map fold_right List.length];
    rewrite ?Nat2Z.inj_succ; lia.
Qed.

(** What one attempt does, by the answer of the remote service. *)
Lemma attemptOnce_answer u maxRetries attempt (w : World rm) :
  after (attemptOnce u maxRetries attempt) w (fun r w' =>
    remote w' = fst (admin_createUser rm (remote w) (request_of u))
    /\ quiet w w'
    /\ match snd (admin_createUser rm (remote w) (request_of u)) with
       | None => r = Ok Return /\ sleeps w' = sleeps w
       | Some error =>
           if isNetworkError error && (attempt <? maxRetries)
           then r = Ok Continue /\ sleeps w' = attempt * 1000 :: sleeps w
           else r = Thrown error /\ sleeps w' = sleeps w
       end).
Proof.
  unfold after, attemptOnce, try_catch, bind, callCreateUser, quiet.
  destruct (admin_createUser rm (remote w) (request_of u)) as [r' [e|]];
    cbn [fst snd].
  - destruct (isNetworkError e && (attempt <? maxRetries));
      cbn; repeat split; reflexivity.
  - cbn; repeat split; reflexivity.
Qed.

Lemma attemptOnce_quiet u maxRetries attempt (w : World rm) :
  after (attemptOnce u maxRetries attempt) w (fun _ w' => quiet w w').
Proof.
  pose proof (attemptOnce_answer u maxRetries attempt w) as H.
  unfold after in *. tauto.
Qed.

Lemma retryLoop_quiet fuel u maxRetries :
  forall attempt (w : World rm),
    after (retryLoop fuel u maxRetries attempt) w (fun _ w' => quiet w w').
Proof.
  induction fuel as [|fuel IH]; intros attempt w; cbn [retryLoop].
  - apply quiet_refl.
  - destruct (attempt <=? maxRetries); [| apply quiet_refl].
    apply after_bind.
    pose proof (attemptOnce_quiet u maxRetries attempt w) as H.
    unfold after in H |- *.
    destruct (attemptOnce u maxRetries attempt w) as [[[]|e] w1];
      cbn [fst snd] in *; auto.
    specialize (IH (attempt + 1) w1). eapply quiet_trans; eauto.
Qed.

(** Every record ends up in exactly one of the two counters. *)
Lemma processUser_finishes u (w : World rm) :
  finishes (processUser u) w (accounts 1 []).
Proof.
  unfold processUser. apply after_try_catch. apply after_bind.
  pose proof (retryLoop_quiet (Z.to_nat defaultMaxRetries) u
                defaultMaxRetries 1 w) as H.
  unfold createUserWithRetry, after in H |- *.
  destruct (retryLoop _ u defaultMaxRetries 1 w) as [[[]|e] w1];
    cbn [fst snd] in *; apply quiet_accounts in H.
  - apply after_bind.
    pose proof (addProcessedUsers_finishes 1 w1 ltac:(lia)) as H1.
    unfold finishes, after in H1 |- *.
    destruct (addProcessedUsers 1 w1) as [r1 w2]; cbn [fst snd] in *.
    destruct H1 as [-> A1].
    pose proof (delay_finishes 100 w2) as [E Q]. cbn [fst snd] in *.
    apply quiet_accounts in Q. split; [exact E |].
    exact (accounts_trans _ _ _ _ _ _ _
             (accounts_trans _ _ _ _ _ _ _ H A1) Q).
  - pose proof (addErrors_finishes 1 w1 ltac:(lia)) as [E A1].
    cbn [fst snd] in *. split; [exact E |].
    exact (accounts_trans _ _ _ _ _ _ _ H A1).
Qed.

Lemma processBatchConservative_finishes b size (w : World rm) :
  0 <= size ->
  finishes (processBatchConservative host config b size) w
           (accounts size [(b, size)]).
Proof.
  intros Hs. unfold processBatchConservative. apply after_bind.
  pose proof (enterBatch_finishes b size w) as H0.
  unfold finishes, after in H0 |- *.
  destruct (enterBatch b size w) as [r0 w0]; cbn [fst snd] in *.
  destruct H0 as [-> A0].
  apply after_try_catch. unfold callGenerate.
  destruct (gen_fault host b) as [e|].
  - apply after_bind. unfold after at 1, throw; cbn [fst snd].
    pose proof (addErrors_finishes size w0 Hs) as [E A1].
    cbn [fst snd] in *. split; [exact E |].
    eapply accounts_eq; [| | exact (accounts_trans _ _ _ _ _ _ _ A0 A1)];
      [lia | reflexivity].
  - apply after_bind. unfold after at 1, ret; cbn [fst snd].
    set (users := Utils.generateUserBatch _ _ _ _).
    pose proof (forEach_finishes_each users processUser (fun _ => 1)
                  (fun u w' _ => processUser_finishes u w') w0) as [E A1].
    unfold after.
    destruct (forEach users processUser w0) as [r1 w1]; cbn [fst snd] in *.
    subst r1. split; [reflexivity |].
    eapply accounts_eq; [| | exact (accounts_trans _ _ _ _ _ _ _ A0 A1)];
      [| reflexivity].
    rewrite sum_const. subst users.
    rewrite generateUserBatch_length. lia.
Qed.

(** The conservative run plans its batches with the capped size
    [min batchSize 100]. *)
Lemma conservative_seedUsers_finishes (w : World rm) :
  let total := Config.totalUsers (Config.seeding config) in
  let batch := Z.min (Config.batchSize (Config.seeding config)) 100 in
  0 <= total -> 1 <= Config.batchSize (Config.seeding config) ->
  finishes (seedUsers host config) w
           (accounts total (rev (plan total batch))).
Proof.
  intros total batch Ht Hb0. assert (Hb : 1 <= batch) by (unfold batch; lia).
  unfold seedUsers. fold total batch.
  set (batches := Num.ceil_div total batch).
  pose proof (forEach_finishes (rm:=rm)
                (batch_indices batches)
                (fun batchIndex =>
                   bind (processBatchConservative host config batchIndex
                           (Z.min batch (total - batchIndex * batch)))
                        (fun _ => if batchIndex <? batches - 1
                                  then delay 2000 else ret tt))
                (size_at total batch)
                (fun i => (i, size_at total batch i))) as F.
  unfold batches in F at 3. rewrite sum_sizes in F by assumption.
  apply F. clear F. intros i w0 Hi.
  apply in_batch_indices in Hi.
  pose proof (size_at_bounds total batch i Hb Hi) as Hs.
  apply after_bind.
  pose proof (processBatchConservative_finishes i (size_at total batch i)
                w0 ltac:(lia)) as H1.
  unfold finishes, after in H1 |- *. unfold size_at in *.
  destruct (processBatchConservative host config i _ w0) as [r1 w1];
    cbn [fst snd] in *.
  destruct H1 as [-> A1].
  assert (Q : fst ((if i <? batches - 1 then delay 2000 else ret tt) w1)
              = Ok tt
              /\ quiet w1 (snd ((if i <? batches - 1 then delay 2000
                                 else ret tt) w1))).
  { destruct (i <? batches - 1);
      [apply delay_finishes | split; [reflexivity | apply quiet_refl]]. }
  destruct Q as [E Q]. split; [exact E |].
  apply quiet_accounts in Q.
  eapply accounts_eq; [| | exact (accounts_trans _ _ _ _ _ _ _ A1 Q)];
    [lia | reflexivity].
Qed.

End ConservativeFacts.

(** ** The slot array of the concurrent runner *)

Section SlotFacts.
Import Runtime Inv Seeder.

Lemma set_slot_length j v sem :
  List.length (set_slot j v sem) = List.length sem.
Proof.
  revert j; induction sem as [|x sem IH]; intros [|j]; simpl; auto.
Qed.

Lemma findIndex_null_nth sem j :
  findIndex_null sem = Some j -> nth_error sem j = Some None.
Proof.
  revert j; induction sem as [|[sl|] sem IH]; intros j H; simpl in H.
  - discriminate.
  - destruct (findIndex_null sem) as [k|]; [| discriminate].
    injection H as <-. simpl. now apply IH.
  - now injection H as <-.
Qed.

(** Writing a slot changes a summed quantity by the difference between
    the new and the old entry. *)
Lemma measure_set_slot f j v old sem :
  nth_error sem j = Some old ->
  measure f (set_slot j v sem)
  = measure f sem - slot_measure f old + slot_measure f v.
Proof.
  unfold measure, sum.
  revert j; induction sem as [|x sem IH]; intros [|j] H; simpl in H;
    try discriminate.
  - injection H as ->. simpl. lia.
  - simpl. rewrite (IH _ H). lia.
Qed.

Lemma in_flight_set_slot j v old sem :
  nth_error sem j = Some old ->
  Permutation (slot_index old ++ in_flight (set_slot j v sem))
              (slot_index v ++ in_flight sem).
Proof.
  unfold in_flight.
  revert j; induction sem as [|x sem IH]; intros [|j] H; simpl in H;
    try discriminate.
  - injection H as ->. simpl. apply Permutation_app_swap_app.
  - simpl. specialize (IH _ H).
    rewrite Permutation_app_swap_app, IH.
    apply Permutation_app_swap_app.
Qed.

Lemma in_flight_length sem :
  List.length (in_flight sem) = occupied sem.
Proof.
  unfold in_flight, occupied.
  induction sem as [|[sl|] sem IH]; simpl; auto.
Qed.

Lemma occupied_le_length sem : (occupied sem <= List.length sem)%nat.
Proof. unfold occupied. apply filter_length_le. Qed.

Lemma forallb_null_in_flight sem :
  forallb is_null sem = true -> in_flight sem = [] /\ forall f, measure f sem = 0.
Proof.
  unfold in_flight, measure, sum.
  induction sem as [|[sl|] sem IH]; simpl; intros H; try discriminate.
  - auto.
  - destruct (IH H) as [-> F]. split; [reflexivity |].
    intros f. now rewrite F.
Qed.

End SlotFacts.

(** ** The concurrent runner: what every reachable state satisfies *)

Section ConcurrentFacts.
Import Runtime Inv Seeder.
Context {rm : Remote}.
Variable host : Host.
Variable config : Config.Config.

Let total := totalUsers config.
Let batch := batchSize config.
Let limit := concurrentBatches config.

Hypothesis total_nonneg : 0 <= total.
Hypothesis batch_positive : 1 <= batch.

Lemma concurrent_createUser_quiet u (w : World rm) :
  after (createUser u) w (fun _ w' => quiet w w' /\ sleeps w' = sleeps w).
Proof. exact (createUser_quiet u w). Qed.

(** The synchronous start of a batch: either the generator raised and
    the [catch] clause counted [size] errors, or [size] outcomes wait
    to be counted. *)
Lemma processBatch_begin_spec b size (w : World rm) :
  0 <= size ->
  after (processBatch_begin host config b size) w (fun r w' =>
    match r with
    | Ok (Some rs) =>
        gen_fault host b = None
        /\ Z.of_nat (List.length rs) = size
        /\ accounts 0 [(b, size)] w w'
    | Ok None =>
        gen_fault host b <> None
        /\ processedUsers w' = processedUsers w
        /\ accounts size [(b, size)] w w'
    | Thrown _ => False
    end).
Proof.
  intros Hs. unfold processBatch_begin. apply after_bind.
  pose proof (enterBatch_finishes b size w) as H0.
  unfold finishes, after in H0 |- *.
  destruct (enterBatch b size w) as [r0 w0] eqn:E0; cbn [fst snd] in *.
  destruct H0 as [-> A0].
  assert (P0 : processedUsers w0 = processedUsers w)
    by (unfold enterBatch in E0; injection E0 as <-; reflexivity).
  apply after_try_catch. unfold callGenerate.
  destruct (gen_fault host b) as [e|] eqn:G.
  - apply after_bind. unfold after at 1, throw; cbn [fst snd].
    apply after_bind.
    pose proof (addErrors_finishes size w0 Hs) as H1.
    unfold finishes, after in H1 |- *.
    assert (P1 : processedUsers (snd (addErrors size w0))
                 = processedUsers w0) by reflexivity.
    destruct (addErrors size w0) as [r1 w1]; cbn [fst snd] in *.
    destruct H1 as [-> A1]. unfold ret; cbn [fst snd].
    split; [discriminate |]. split; [congruence |].
    eapply accounts_eq; [| | exact (accounts_trans _ _ _ _ _ _ _ A0 A1)];
      [lia | reflexivity].
  - apply after_bind. unfold after at 1, ret; cbn [fst snd].
    set (users := Utils.generateUserBatch _ _ _ _).
    apply after_bind.
    pose proof (allSettled_quiet createUser users
                  concurrent_createUser_quiet w0) as H1.
    unfold after in H1 |- *.
    destruct (allSettled createUser users w0) as [r1 w1];
      cbn [fst snd] in *.
    destruct H1 as (rs & -> & L & Q & _). cbn [fst snd].
    split; [reflexivity |]. split.
    + rewrite L. subst users. rewrite generateUserBatch_length. lia.
    + apply quiet_accounts in Q.
      exact (accounts_trans _ _ _ _ _ _ _ A0 Q).
Qed.

Lemma processBatch_resume_finishes rs (w : World rm) :
  finishes (processBatch_resume rs) w
           (accounts (Z.of_nat (List.length rs)) []).
Proof.
  unfold processBatch_resume. apply after_bind.
  pose proof (addProcessedUsers_finishes (count_if is_fulfilled rs) w
                (count_if_nonneg _ _)) as H1.
  unfold finishes, after in H1 |- *.
  destruct (addProcessedUsers _ w) as [r1 w1]; cbn [fst snd] in *.
  destruct H1 as [-> A1].
  apply after_bind.
  pose proof (addErrors_finishes (count_if is_rejected rs) w1
                (count_if_nonneg _ _)) as H2.
  unfold finishes, after in H2 |- *.
  destruct (addErrors _ w1) as [r2 w2]; cbn [fst snd] in *.
  destruct H2 as [-> A2].
  pose proof (delay_finishes 100 w2) as [E Q]. cbn [fst snd] in *.
  split; [exact E |]. apply quiet_accounts in Q.
  eapply accounts_eq;
    [| | exact (accounts_trans _ _ _ _ _ _ _
                 (accounts_trans _ _ _ _ _ _ _ A1 A2) Q)];
    [| reflexivity].
  rewrite <- count_settled. lia.
Qed.

Lemma start_invariant (r : RState rm) (s0 : State rm) :
  start config r = Ok s0 -> concurrent_invariant total batch limit s0.
Proof.
  unfold start. fold limit.
  destruct (limit <? 0); [discriminate |]. intros H; injection H as <-.
  assert (F : forall n, forallb is_null (repeat None n) = true)
    by (induction n; simpl; auto).
  destruct (forallb_null_in_flight _ (F (Z.to_nat limit))) as [I M].
  constructor;
    cbn [world semaphore currentBatch phase released new_world
         processedUsers errors dispatched history].
  - apply repeat_length.
  - split; [lia | now apply ceil_div_nonneg].
  - reflexivity.
  - unfold pending. rewrite M. lia.
  - unfold steady, timeline, counters; cbn. split; [| exact Logic.I].
    unfold le_snapshot; cbn; lia.
  - rewrite I. constructor.
  - intros [H|H]; discriminate.
  - discriminate.
Qed.

Lemma dispatch_invariant (s s' : State rm) :
  concurrent_invariant total batch limit s ->
  phase s = Looping -> dispatch host config s = Some s' ->
  concurrent_invariant total batch limit s'
  /\ accounts (Z.min batch (total - currentBatch s * batch)
               - (pending (semaphore s') - pending (semaphore s)))
              [(currentBatch s, size_at total batch (currentBatch s))]
              (world s) (world s')
  /\ phase s' = Looping.
Proof.
  intros I P. unfold dispatch. fold total batch.
  destruct (currentBatch s <? batches config) eqn:C; [| discriminate].
  apply Z.ltb_lt in C. unfold batches in C. fold total batch in C.
  destruct (0 <? availableSlots (semaphore s)); [| discriminate].
  cbn [andb].
  destruct (findIndex_null (semaphore s)) as [j|] eqn:F; [| discriminate].
  apply findIndex_null_nth in F.
  destruct I as [I1 I2 I3 I4 I5 I6 I7 I8].
  assert (Hs : 1 <= size_at total batch (currentBatch s) <= batch)
    by (apply size_at_bounds; [assumption | lia]).
  assert (Hlt : currentBatch s * batch < total)
    by (apply lt_ceil_div; assumption).
  unfold size_at in Hs.
  pose proof (processBatch_begin_spec (currentBatch s)
                (Z.min batch (total - currentBatch s * batch)) (world s)
                ltac:(lia)) as B.
  unfold after in B.
  destruct (processBatch_begin host config (currentBatch s) _ (world s))
    as [r w]; cbn [fst snd] in B.
  intros H; injection H as <-.
  cbn [world semaphore currentBatch phase released].
  set (slot := match r with
               | Ok (Some results) => Awaiting (currentBatch s) results
               | _ => Finishing (currentBatch s)
               end).
  assert (SB : slot_index (Some slot) = [currentBatch s])
    by (subst slot; destruct r as [[rs|]|e]; reflexivity).
  assert (A : accounts
                (Z.min batch (total - currentBatch s * batch)
                 - slot_measure (fun rs => Z.of_nat (List.length rs))
                                (Some slot))
                [(currentBatch s,
                  Z.min batch (total - currentBatch s * batch))]
                (world s) w).
  { subst slot. destruct r as [[rs|]|e]; cbn [slot_measure].
    - destruct B as (_ & L & A).
      eapply accounts_eq; [| reflexivity | exact A]. lia.
    - destruct B as (_ & _ & A).
      eapply accounts_eq; [| reflexivity | exact A]. lia.
    - contradiction. }
  pose proof (measure_set_slot (fun rs => Z.of_nat (List.length rs)) j
                (Some slot) None (semaphore s) F) as M.
  change (slot_measure _ None) with 0 in M.
  remember (slot_measure (fun rs => Z.of_nat (List.length rs))
                         (Some slot)) as m eqn:Em.
  clear Em. fold pending in M.
  split; [| split; [| reflexivity]].
  - constructor; cbn [world semaphore currentBatch phase released].
    + now rewrite set_slot_length.
    + lia.
    + destruct A as (_ & _ & _ & D & _). rewrite D, I3.
      rewrite batch_indices_succ, map_app, rev_app_distr by lia.
      reflexivity.
    + destruct A as (_ & _ & S & _). fold pending in I4.
      rewrite M. lia.
    + destruct A as (_ & _ & _ & _ & S). auto.
    + rewrite batch_indices_succ by lia.
      pose proof (in_flight_set_slot j (Some slot) None (semaphore s) F)
        as Pm.
      rewrite SB in Pm. cbn [slot_index app] in Pm.
      transitivity (currentBatch s :: batch_indices (currentBatch s));
        [symmetry; apply Permutation_cons_append |].
      transitivity (currentBatch s
                      :: released s ++ in_flight (semaphore s))%list;
        [now apply perm_skip |].
      rewrite Pm. apply Permutation_middle.
    + intros [H|H]; discriminate.
    + discriminate.
  - eapply accounts_eq; [| reflexivity | exact A].
    rewrite M. lia.
Qed.

Lemma tally_invariant j (s s' : State rm) :
  concurrent_invariant total batch limit s ->
  suspended (phase s) = true -> tally j s = Some s' ->
  concurrent_invariant total batch limit s'
  /\ accounts (pending (semaphore s) - pending (semaphore s')) []
              (world s) (world s')
  /\ phase s' = phase s.
Proof.
  intros I P. unfold tally.
  destruct (nth_error (semaphore s) j) as [[[b rs|b]|]|] eqn:N;
    try discriminate.
  pose proof (processBatch_resume_finishes rs (world s)) as R.
  unfold finishes, after in R.
  destruct (processBatch_resume rs (world s)) as [r w]; cbn [fst snd] in R.
  destruct R as [-> A].
  intros H; injection H as <-.
  cbn [world semaphore currentBatch phase released].
  destruct I as [I1 I2 I3 I4 I5 I6 I7 I8].
  pose proof (measure_set_slot (fun rs => Z.of_nat (List.length rs)) j
                (Some (Finishing b)) _ (semaphore s) N) as M.
  cbn [slot_measure] in M. fold pending in M.
  pose proof (in_flight_set_slot j (Some (Finishing b)) _ (semaphore s) N)
    as Pm.
  cbn [slot_index slot_batch app] in Pm. apply Permutation_cons_inv in Pm.
  split; [| split; [| reflexivity]].
  - constructor; cbn [world semaphore currentBatch phase released].
    + now rewrite set_slot_length.
    + assumption.
    + destruct A as (_ & _ & _ & D & _). now rewrite D.
    + destruct A as (_ & _ & S & _). unfold pending in *. rewrite M. lia.
    + destruct A as (_ & _ & _ & _ & S). auto.
    + now rewrite Pm.
    + assumption.
    + intros F. rewrite F in P. discriminate.
  - eapply accounts_eq; [| reflexivity | exact A]. lia.
Qed.

Lemma release_invariant j (s s' : State rm) :
  concurrent_invariant total batch limit s ->
  suspended (phase s) = true -> release j s = Some s' ->
  concurrent_invariant total batch limit s'
  /\ world s' = world s /\ phase s' = phase s.
Proof.
  intros I P. unfold release.
  destruct (nth_error (semaphore s) j) as [[[b rs|b]|]|] eqn:N;
    try discriminate.
  intros H; injection H as <-.
  cbn [world semaphore currentBatch phase released].
  destruct I as [I1 I2 I3 I4 I5 I6 I7 I8].
  pose proof (measure_set_slot (fun rs => Z.of_nat (List.length rs)) j
                None _ (semaphore s) N) as M.
  cbn [slot_measure] in M. fold pending in M.
  pose proof (in_flight_set_slot j None _ (semaphore s) N) as Pm.
  cbn [slot_index slot_batch app] in Pm.
  split; [| split; reflexivity].
  constructor; cbn [world semaphore currentBatch phase released];
    try assumption.
  - now rewrite set_slot_length.
  - unfold pending in *. rewrite M. lia.
  - rewrite I6, <- Pm. cbn [app]. symmetry. apply Permutation_middle.
  - intros F. rewrite F in P. discriminate.
Qed.

(** Every transition keeps the invariant and lowers neither counter. *)
Lemma fire_invariant e (s s' : State rm) :
  concurrent_invariant total batch limit s ->
  fire host config e s = Some s' ->
  concurrent_invariant total batch limit s'
  /\ processedUsers (world s) <= processedUsers (world s')
  /\ errors (world s) <= errors (world s').
Proof.
  intros I. destruct e; cbn [fire].
  - destruct (phase s) eqn:P; try discriminate. intros H.
    destruct (dispatch_invariant s s' I P H) as (I' & A & _).
    split; [exact I' |]. destruct A as (A1 & A2 & _). auto.
  - destruct (phase s) eqn:P; try discriminate.
    destruct (_ && _); [| discriminate].
    intros H; injection H as <-. cbn.
    split; [| split; lia].
    destruct I as [I1 I2 I3 I4 I5 I6 I7 I8].
    constructor; cbn; try assumption.
    + intros [H|H]; discriminate.
    + discriminate.
  - destruct (phase s) eqn:P; try discriminate.
    intros H; injection H as <-. cbn.
    split; [| split; lia].
    destruct I as [I1 I2 I3 I4 I5 I6 I7 I8].
    constructor; cbn; try assumption.
    + intros [H|H]; discriminate.
    + discriminate.
  - destruct (phase s) eqn:P; try discriminate.
    destruct (currentBatch s <? batches config) eqn:C; [discriminate |].
    apply Z.ltb_ge in C. unfold batches in C. fold total batch in C.
    intros H; injection H as <-. cbn.
    split; [| split; lia].
    destruct I as [I1 I2 I3 I4 I5 I6 I7 I8].
    constructor; cbn; try assumption.
    + intros _. lia.
    + discriminate.
  - destruct (suspended (phase s)) eqn:P; [| discriminate]. intros H.
    destruct (tally_invariant _ s s' I P H) as (I' & A & _).
    split; [exact I' |]. destruct A as (A1 & A2 & _). auto.
  - destruct (suspended (phase s)) eqn:P; [| discriminate]. intros H.
    destruct (release_invariant _ s s' I P H) as (I' & -> & _).
    split; [exact I' | lia].
  - destruct (phase s) eqn:P; try discriminate.
    destruct (forallb is_null (semaphore s)) eqn:F; [| discriminate].
    intros H; injection H as <-. cbn.
    split; [| split; lia].
    destruct (forallb_null_in_flight _ F) as [E M].
    destruct I as [I1 I2 I3 I4 I5 I6 I7 I8].
    constructor; cbn; try assumption.
    + intros _. apply I7. now left.
    + intros _. split; [exact E | apply M].
Qed.

Lemma run_invariant es :
  forall s s' : State rm,
    concurrent_invariant total batch limit s ->
    run host config es s = Some s' ->
    concurrent_invariant total batch limit s'
    /\ processedUsers (world s) <= processedUsers (world s')
    /\ errors (world s) <= errors (world s').
Proof.
  induction es as [|e es IH]; intros s s' I; cbn [run].
  - intros H; injection H as <-. split; [assumption | lia].
  - destruct (fire host config e s) as [s1|] eqn:F; [| discriminate].
    intros H. destruct (fire_invariant e s s1 I F) as (I1 & P1 & E1).
    destruct (IH s1 s' I1 H) as (I2 & P2 & E2).
    split; [assumption | lia].
Qed.

Lemma reachable_invariant (r : RState rm) (s : State rm) :
  reachable host config r s -> concurrent_invariant total batch limit s.
Proof.
  intros (s0 & es & S & R).
  apply (run_invariant es s0 s); [| assumption].
  now apply (start_invariant r).
Qed.

End ConcurrentFacts.

(** ** Runs against a counting stub *)

Section CountingFacts.
Import Runtime Inv.
Variable answer : nat -> option thrown.
Variable host : Host.
Variable config : Config.Config.

Local Abbreviation rm := (Stubs.counting answer).

Hypothesis no_fault : forall b, gen_fault host b = None.

Lemma failures_below_succ n :
  failures_below answer (S n)
  = (failures_below answer n + (if fails answer n then 1 else 0))%nat.
Proof.
  unfold failures_below. rewrite seq_S, filter_app, length_app.
  cbn [filter Nat.add]. now destruct (fails answer n).
Qed.

Lemma failures_below_mono n m :
  (failures_below answer n <= failures_below answer (n + m))%nat.
Proof.
  induction m as [|m IH]; [now rewrite Nat.add_0_r |].
  rewrite Nat.add_succ_r, failures_below_succ. lia.
Qed.

Lemma failures_below_le n : (failures_below answer n <= n)%nat.
Proof.
  unfold failures_below.
  pose proof (filter_length_le (fails answer) (seq 0 n)) as H.
  now rewrite length_seq in H.
Qed.

Lemma settle_counting u (w : World rm) :
  settle (BatchSeeder.createUser u) w
  = (Ok (match answer (remote w) with
         | Some e => Rejected e
         | None => Fulfilled
         end),
     Build_World rm (S (remote w)) (processedUsers w) (errors w)
                 (sleeps w) (dispatched w) (history w)).
Proof.
  unfold settle, BatchSeeder.createUser, try_catch, callCreateUser, throw.
  cbn. now destruct (answer (remote w)).
Qed.

(** The outcomes of a group of calls issued from call number
    [remote w] on. *)
Lemma allSettled_counting users :
  forall w : World rm,
    after (allSettled BatchSeeder.createUser users) w (fun r w' =>
      exists rs,
        r = Ok rs
        /\ List.length rs = List.length users
        /\ quiet w w'
        /\ remote w' = (remote w + List.length users)%nat
        /\ count_if is_rejected rs
           = Z.of_nat (failures_below answer (remote w'))
             - Z.of_nat (failures_below answer (remote w))).
Proof.
  induction users as [|u users IH]; intros w.
  - exists []. unfold after, count_if; cbn.
    rewrite Nat.add_0_r. repeat split; lia.
  - unfold after. cbn [allSettled]. unfold bind.
    rewrite settle_counting.
    set (w1 := Build_World rm (S (remote w)) (processedUsers w) (errors w)
                           (sleeps w) (dispatched w) (history w)).
    specialize (IH w1). unfold after in IH.
    destruct (allSettled BatchSeeder.createUser users w1) as [r2 w2].
    cbn [fst snd] in IH. destruct IH as (rs & -> & L & Q2 & Rm2 & C).
    unfold ret; cbn [fst snd].
    eexists. split; [reflexivity |].
    split; [cbn; now rewrite L |].
    split; [exact Q2 |].
    split; [rewrite Rm2; cbn [List.length remote w1]; lia |].
    rewrite Rm2 in *.
    cbn [remote w1] in C. rewrite failures_below_succ in C.
    unfold count_if, fails in *.
    destruct (answer (remote w));
      cbn [filter is_rejected List.length];
      change (remote w1) with (S (remote w)); lia.
Qed.

(** The counters after [addProcessedUsers], [addErrors] and [delay]. *)
Lemma tally_exact a b ms (w : World rm) :
  after (bind (addProcessedUsers a)
              (fun _ => bind (addErrors b) (fun _ => delay ms))) w
        (fun r w' =>
           r = Ok tt /\ remote w' = remote w
           /\ processedUsers w' = processedUsers w + a
           /\ errors w' = errors w + b).
Proof. unfold after; cbn. auto. Qed.

(** *** The chunked runner *)

Lemma chunked_processChunk_mirrors users i (w : World rm) :
  mirrors answer w ->
  finishes (BatchSeeder.processChunk users i) w
           (fun _ w' => mirrors answer w').
Proof.
  intros [Me Mp]. unfold BatchSeeder.processChunk. apply after_bind.
  pose proof (allSettled_counting
                (BatchSeeder.slice i (i + BatchSeeder.chunkSize) users) w)
    as H.
  unfold after in H |- *.
  destruct (allSettled _ _ w) as [r w1]; cbn [fst snd] in *.
  destruct H as (rs & -> & L & (Qp & Qe & _) & Rm & C).
  pose proof (tally_exact (count_if is_fulfilled rs)
                (count_if is_rejected rs) 50 w1) as T.
  unfold after in T.
  destruct (bind (addProcessedUsers _) _ w1) as [r2 w2];
    cbn [fst snd] in *.
  destruct T as (-> & R2 & P2 & E2). split; [reflexivity |].
  pose proof (count_settled rs) as CS.
  unfold mirrors. rewrite R2, P2, E2, Qp, Qe, Me, Mp.
  rewrite Rm in *. split; lia.
Qed.

Lemma chunked_chunkLoop_mirrors fuel users :
  forall i (w : World rm),
    mirrors answer w ->
    finishes (BatchSeeder.chunkLoop fuel users i) w
             (fun _ w' => mirrors answer w').
Proof.
  induction fuel as [|fuel IH]; intros i w M; cbn [BatchSeeder.chunkLoop].
  - split; [reflexivity | assumption].
  - destruct (i <? List.length users)%nat;
      [| split; [reflexivity | assumption]].
    apply after_bind.
    pose proof (chunked_processChunk_mirrors users i w M) as H.
    unfold finishes, after in H |- *.
    destruct (BatchSeeder.processChunk users i w) as [r1 w1];
      cbn [fst snd] in *.
    destruct H as [-> M1]. now apply IH.
Qed.

Lemma chunked_processBatch_mirrors b size (w : World rm) :
  mirrors answer w ->
  finishes (BatchSeeder.processBatch host config b size) w
           (fun _ w' => mirrors answer w').
Proof.
  intros M. unfold BatchSeeder.processBatch. apply after_bind.
  unfold after at 1, enterBatch; cbn [fst snd].
  apply after_try_catch. unfold callGenerate. rewrite no_fault.
  apply after_bind. unfold after at 1, ret; cbn [fst snd].
  set (users := Utils.generateUserBatch _ _ _ _).
  pose proof (chunked_chunkLoop_mirrors (List.length users) users 0%nat
                (Build_World rm (remote w) (processedUsers w) (errors w)
                             (sleeps w) ((b, size) :: dispatched w)
                             (history w)) M) as H.
  unfold finishes, after in H |- *.
  destruct (BatchSeeder.chunkLoop _ users 0%nat _) as [r1 w1];
    cbn [fst snd] in *.
  destruct H as [-> M1]. auto.
Qed.

Lemma chunked_seedUsers_mirrors (w : World rm) :
  mirrors answer w ->
  finishes (BatchSeeder.seedUsers host config) w
           (fun _ w' => mirrors answer w').
Proof.
  intros M. unfold BatchSeeder.seedUsers.
  apply (forEach_invariant (mirrors answer)); [| assumption].
  intros b w0 _ M0. apply after_bind.
  pose proof (chunked_processBatch_mirrors b
                (Z.min (Config.batchSize (Config.seeding config))
                   (Config.totalUsers (Config.seeding config)
                    - b * Config.batchSize (Config.seeding config)))
                w0 M0) as H.
  unfold finishes, after in H |- *.
  destruct (BatchSeeder.processBatch host config b _ w0) as [r1 w1];
    cbn [fst snd] in *.
  destruct H as [-> M1]. split; [reflexivity | exact M1].
Qed.

Lemma mirrors_new_world : mirrors answer (@new_world rm O).
Proof. unfold mirrors; cbn. split; reflexivity. Qed.

(** Against a counting stub the chunked run ends with as many errors
    as the stub failed among the calls [0 .. total - 1], and with all
    other records processed. *)
Lemma chunked_counts :
  let total := Config.totalUsers (Config.seeding config) in
  0 <= total -> 1 <= Config.batchSize (Config.seeding config) ->
  after (BatchSeeder.seedUsers host config) (@new_world rm O)
        (fun r w' =>
           r = Ok tt
           /\ errors w'
              = Z.of_nat (failures_below answer (Z.to_nat total))
           /\ processedUsers w'
              = total - Z.of_nat (failures_below answer (Z.to_nat total))).
Proof.
  intros total Ht Hb.
  pose proof (chunked_seedUsers_mirrors _ mirrors_new_world) as [E1 M].
  pose proof (chunked_seedUsers_finishes host config (@new_world rm O)
                Ht Hb) as [_ A].
  unfold after. split; [exact E1 |].
  destruct A as (_ & _ & S & _). destruct M as [Me Mp].
  cbn [new_world processedUsers errors] in S. fold total in S.
  assert (R : Z.of_nat (remote (snd (BatchSeeder.seedUsers host config
                                       (@new_world rm O)))) = total)
    by lia.
  rewrite Me, Mp.
  replace (Z.to_nat total) with
    (remote (snd (BatchSeeder.seedUsers host config (@new_world rm O))))
    by lia.
  split; lia.
Qed.

End CountingFacts.

(** ** Concurrent runs against a counting stub *)

Section ConcurrentCounting.
Import Runtime Inv Seeder.
Variable answer : nat -> option thrown.
Variable host : Host.
Variable config : Config.Config.

Local Abbreviation rm := (Stubs.counting answer).

Hypothesis no_fault : forall b, gen_fault host b = None.

Lemma in_flight_nil_measure f sem : in_flight sem = [] -> measure f sem = 0.
Proof.
  unfold in_flight, measure, sum.
  induction sem as [|[sl|] sem IH]; cbn; intros H;
    [reflexivity | discriminate | auto].
Qed.

Lemma processBatch_begin_counting b size (w : World rm) :
  after (processBatch_begin host config b size) w (fun r w' =>
    exists rs,
      r = Ok (Some rs)
      /\ processedUsers w' = processedUsers w
      /\ errors w' = errors w
      /\ Z.of_nat (remote w')
         = Z.of_nat (remote w) + Z.of_nat (List.length rs)
      /\ count_if is_rejected rs
         = Z.of_nat (failures_below answer (remote w'))
           - Z.of_nat (failures_below answer (remote w))).
Proof.
  unfold processBatch_begin. apply after_bind.
  unfold after at 1, enterBatch; cbn [fst snd].
  apply after_try_catch. unfold callGenerate. rewrite no_fault.
  apply after_bind. unfold after at 1, ret; cbn [fst snd].
  set (users := Utils.generateUserBatch _ _ _ _).
  apply after_bind.
  pose proof (allSettled_counting answer users
                (Build_World rm (remote w) (processedUsers w) (errors w)
                             (sleeps w) ((b, size) :: dispatched w)
                             (history w))) as H.
  change BatchSeeder.createUser with (@createUser rm) in H.
  unfold after in H |- *.
  destruct (allSettled createUser users _) as [r1 w1]; cbn [fst snd] in *.
  destruct H as (rs & -> & L & (Qp & Qe & _) & Rm & C).
  cbn [fst snd]. exists rs. cbn in Qp, Qe, Rm, C.
  repeat split; try assumption. lia.
Qed.

Lemma fire_mirrors e (s s' : State rm) :
  mirrors_in_flight answer s -> fire host config e s = Some s' ->
  mirrors_in_flight answer s'.
Proof.
  intros [Me Mp]. destruct e; cbn [fire].
  - destruct (phase s); try discriminate. unfold dispatch.
    destruct (_ && _); [| discriminate].
    destruct (findIndex_null (semaphore s)) as [j|] eqn:F;
      [| discriminate].
    apply findIndex_null_nth in F.
    pose proof (processBatch_begin_counting (currentBatch s)
                  (Z.min (batchSize config)
                     (totalUsers config
                      - currentBatch s * batchSize config)) (world s)) as B.
    unfold after in B.
    destruct (processBatch_begin host config _ _ (world s)) as [r w].
    cbn [fst snd] in B. destruct B as (rs & -> & P & E & R & C).
    intros H; injection H as <-.
    unfold mirrors_in_flight, pending_failures, pending_successes in *.
    cbn [world semaphore].
    rewrite !(measure_set_slot _ _ _ _ _ F). cbn [slot_measure].
    pose proof (count_settled rs). split; lia.
  - destruct (phase s); try discriminate.
    destruct (_ && _); [| discriminate].
    intros H; injection H as <-. split; assumption.
  - destruct (phase s); try discriminate.
    intros H; injection H as <-. split; assumption.
  - destruct (phase s); try discriminate.
    destruct (_ <? _); [discriminate |].
    intros H; injection H as <-. split; assumption.
  - destruct (suspended (phase s)); [| discriminate]. unfold tally.
    destruct (nth_error (semaphore s) slotIndex) as [[[b rs|b]|]|] eqn:N;
      try discriminate.
    pose proof (tally_exact answer (count_if is_fulfilled rs)
                  (count_if is_rejected rs) 100 (world s)) as T.
    unfold after in T. fold (@processBatch_resume rm rs) in T.
    destruct (processBatch_resume rs (world s)) as [r w];
      cbn [fst snd] in T.
    destruct T as (_ & R & P & E).
    intros H; injection H as <-.
    unfold mirrors_in_flight, pending_failures, pending_successes in *.
    cbn [world semaphore].
    rewrite !(measure_set_slot _ _ _ _ _ N). cbn [slot_measure].
    rewrite R, P, E. split; lia.
  - destruct (suspended (phase s)); [| discriminate]. unfold release.
    destruct (nth_error (semaphore s) slotIndex) as [[[b rs|b]|]|] eqn:N;
      try discriminate.
    intros H; injection H as <-.
    unfold mirrors_in_flight, pending_failures, pending_successes in *.
    cbn [world semaphore].
    rewrite !(measure_set_slot _ _ _ _ _ N). cbn [slot_measure].
    split; lia.
  - destruct (phase s); try discriminate.
    destruct (forallb _ _); [| discriminate].
    intros H; injection H as <-. split; assumption.
Qed.

Lemma run_mirrors es :
  forall s s' : State rm,
    mirrors_in_flight answer s -> run host config es s = Some s' ->
    mirrors_in_flight answer s'.
Proof.
  induction es as [|e es IH]; intros s s' M; cbn [run].
  - now intros H; injection H as <-.
  - destruct (fire host config e s) as [s1|] eqn:F; [| discriminate].
    apply IH. now apply (fire_mirrors e s).
Qed.

(** In a finished concurrent run against a counting stub the error
    counter is the number of failed calls among [0 .. total - 1] and
    all other records are processed, whatever the schedule was. *)
Lemma concurrent_counts (s : State rm) :
  0 <= totalUsers config -> 1 <= batchSize config ->
  reachable host config (O : RState rm) s -> phase s = Finished ->
  errors (world s)
  = Z.of_nat (failures_below answer (Z.to_nat (totalUsers config)))
  /\ processedUsers (world s)
     = totalUsers config
       - Z.of_nat (failures_below answer (Z.to_nat (totalUsers config))).
Proof.
  intros Ht Hb R F.
  pose proof (reachable_invariant host config Ht Hb _ _ R) as I.
  destruct R as (s0 & es & S & R).
  assert (M0 : mirrors_in_flight answer s0).
  { unfold start in S. destruct (_ <? 0); [discriminate |].
    injection S as <-.
    assert (Fb : forall n, forallb is_null (repeat None n) = true)
      by (induction n; simpl; auto).
    destruct (forallb_null_in_flight _
                (Fb (Z.to_nat (concurrentBatches config)))) as [N _].
    unfold mirrors_in_flight, pending_failures, pending_successes.
    cbn [world semaphore new_world errors processedUsers remote].
    rewrite !(in_flight_nil_measure _ _ N). split; reflexivity. }
  pose proof (run_mirrors es s0 s M0 R) as [Me Mp].
  destruct I as [I1 I2 I3 I4 I5 I6 I7 I8].
  destruct (I8 F) as [N P].
  unfold pending_failures, pending_successes in *.
  rewrite (in_flight_nil_measure _ _ N) in Me.
  rewrite (in_flight_nil_measure _ _ N) in Mp.
  rewrite P, (I7 (or_intror F)) in I4.
  pose proof (ceil_div_bounds (totalUsers config) (batchSize config) Hb).
  assert (Rm : Z.of_nat (remote (world s)) = totalUsers config) by lia.
  replace (Z.to_nat (totalUsers config)) with (remote (world s)) by lia.
  split; lia.
Qed.

End ConcurrentCounting.

(** ** The stubs of the scenarios *)

Section StubFacts.
Import Runtime Inv.

Lemma failures_multiples_of_5 n :
  failures_below
    (fun n => if (n mod 5 =? 0)%nat
              then Some (ErrorObject "User already registered") else None)
    n
  = Stubs.multiples_of_5_below n.
Proof.
  unfold failures_below, Stubs.multiples_of_5_below. f_equal.
  apply filter_ext. intros i. unfold fails.
  now destruct (i mod 5 =? 0)%nat.
Qed.

Lemma failures_always_ok n : failures_below (fun _ => None) n = O.
Proof.
  unfold failures_below. induction n as [|n IH]; [reflexivity |].
  rewrite seq_S, filter_app, length_app. cbn. lia.
Qed.

End StubFacts.

(** ** A concurrent run can always be completed *)

Section Liveness.
Import Runtime Inv Seeder.
Context {rm : Remote}.
Variable host : Host.
Variable config : Config.Config.

Lemma run_app es1 es2 (s s1 : State rm) :
  run host config es1 s = Some s1 ->
  run host config (es1 ++ es2) s = run host config es2 s1.
Proof.
  revert s; induction es1 as [|e es1 IH]; intros s; cbn [run app].
  - now intros H; injection H as <-.
  - destruct (fire host config e s); [apply IH | discriminate].
Qed.

Lemma occupied_zero sem : occupied sem = O -> forallb is_null sem = true.
Proof.
  unfold occupied.
  induction sem as [|[sl|] sem IH]; cbn; auto; discriminate.
Qed.

Lemma occupied_pos sem n :
  occupied sem = S n -> exists j sl, nth_error sem j = Some (Some sl).
Proof.
  unfold occupied. revert n.
  induction sem as [|[sl|] sem IH]; cbn; intros n H.
  - discriminate.
  - now exists O, sl.
  - destruct (IH n H) as (j & sl & N). now exists (S j), sl.
Qed.

Lemma occupied_set_slot j v old sem :
  nth_error sem j = Some old ->
  (occupied (set_slot j v sem) + (if is_null old then 0 else 1)
   = occupied sem + (if is_null v then 0 else 1))%nat.
Proof.
  unfold occupied.
  revert j; induction sem as [|x sem IH]; intros [|j] H; cbn in H;
    try discriminate.
  - injection H as ->. cbn. destruct old, v; cbn; lia.
  - cbn. specialize (IH _ H). destruct x; cbn; lia.
Qed.

Lemma nth_error_set_slot j v old sem :
  nth_error sem j = Some old -> nth_error (set_slot j v sem) j = Some v.
Proof.
  revert j; induction sem as [|x sem IH]; intros [|j] H; cbn in *;
    try discriminate; auto.
Qed.

Lemma set_slot_twice j v v' sem :
  set_slot j v (set_slot j v' sem) = set_slot j v sem.
Proof.
  revert j; induction sem as [|x sem IH]; intros [|j]; cbn; auto.
  now rewrite IH.
Qed.

Lemma availableSlots_set_slot j sl sem :
  nth_error sem j = Some None ->
  availableSlots (set_slot j (Some sl) sem) = availableSlots sem - 1.
Proof.
  unfold availableSlots, count_if.
  revert j; induction sem as [|x sem IH]; intros [|j] H; cbn in H;
    try discriminate.
  - injection H as ->. cbn [set_slot filter is_null List.length].
    rewrite Nat2Z.inj_succ. lia.
  - cbn [set_slot filter]. specialize (IH _ H).
    destruct x; cbn [is_null List.length]; rewrite ?Nat2Z.inj_succ; lia.
Qed.

Lemma availableSlots_pos sem :
  0 < availableSlots sem -> exists j, findIndex_null sem = Some j.
Proof.
  unfold availableSlots, count_if.
  induction sem as [|[sl|] sem IH]; cbn; intros H.
  - lia.
  - destruct (IH H) as [j ->]. now exists (S j).
  - now exists O.
Qed.

Lemma availableSlots_all_null sem :
  forallb is_null sem = true ->
  availableSlots sem = Z.of_nat (List.length sem).
Proof.
  unfold availableSlots, count_if.
  induction sem as [|[sl|] sem IH];
    cbn [forallb is_null andb filter List.length]; intros H;
    [reflexivity | discriminate |].
  rewrite !Nat2Z.inj_succ. specialize (IH H). lia.
Qed.

(** While [seedUsers] is suspended, the batches in flight can all be
    counted and released. *)
Lemma drain n :
  forall s : State rm,
    occupied (semaphore s) = n -> suspended (phase s) = true ->
    exists es s',
      run host config es s = Some s'
      /\ phase s' = phase s
      /\ currentBatch s' = currentBatch s
      /\ List.length (semaphore s') = List.length (semaphore s)
      /\ forallb is_null (semaphore s') = true.
Proof.
  induction n as [|n IH]; intros s Ho Hp.
  - exists [], s. cbn. repeat split; auto. now apply occupied_zero.
  - destruct (occupied_pos _ _ Ho) as (j & sl & N).
    assert (R : exists es1 s1,
               run host config es1 s = Some s1
               /\ phase s1 = phase s /\ currentBatch s1 = currentBatch s
               /\ semaphore s1 = set_slot j None (semaphore s)).
    { destruct sl as [b rs|b].
      - destruct (processBatch_resume rs (world s)) as [r w] eqn:E.
        eexists [ETally j; ERelease j], _. split.
        + cbn [run fire]. rewrite Hp. unfold tally. rewrite N, E.
          cbn [phase]. rewrite Hp. unfold release.
          cbn [semaphore]. rewrite (nth_error_set_slot _ _ _ _ N).
          reflexivity.
        + cbn [world semaphore currentBatch phase released].
          repeat split. apply set_slot_twice.
      - eexists [ERelease j], _. split.
        + cbn [run fire]. rewrite Hp. unfold release. rewrite N.
          reflexivity.
        + cbn. repeat split. }
    destruct R as (es1 & s1 & R1 & P1 & C1 & S1).
    pose proof (occupied_set_slot j None _ _ N) as O1.
    cbn [is_null] in O1.
    destruct (IH s1) as (es2 & s2 & R2 & P2 & C2 & L2 & F2).
    + rewrite S1. lia.
    + now rewrite P1.
    + exists (es1 ++ es2)%list, s2.
      rewrite (run_app _ _ _ _ R1).
      repeat split; try congruence.
      rewrite L2, S1. apply set_slot_length.
Qed.

(** While slots are free and batches remain, the loop starts batches. *)
Lemma fill n :
  forall s : State rm,
    Z.to_nat (availableSlots (semaphore s)) = n -> phase s = Looping ->
    exists es s',
      run host config es s = Some s'
      /\ phase s' = Looping
      /\ List.length (semaphore s') = List.length (semaphore s)
      /\ currentBatch s <= currentBatch s'
      /\ (batches config <= currentBatch s'
          \/ availableSlots (semaphore s') <= 0)
      /\ (0 < availableSlots (semaphore s) ->
          currentBatch s < batches config ->
          currentBatch s < currentBatch s').
Proof.
  induction n as [|n IH]; intros s Ha Hp.
  - exists [], s. cbn. repeat split; auto; try lia.
  - destruct (Z.ltb_spec (currentBatch s) (batches config)) as [C|C].
    + assert (A : 0 < availableSlots (semaphore s)) by lia.
      destruct (availableSlots_pos _ A) as [j F].
      destruct (processBatch_begin host config (currentBatch s)
                  (Z.min (batchSize config)
                     (totalUsers config
                      - currentBatch s * batchSize config)) (world s))
        as [r w] eqn:E.
      assert (D : exists s1, dispatch host config s = Some s1
                             /\ phase s1 = Looping
                             /\ currentBatch s1 = currentBatch s + 1
                             /\ exists sl, semaphore s1
                                = set_slot j (Some sl) (semaphore s)).
      { unfold dispatch.
        apply Z.ltb_lt in C, A. rewrite C, A. cbn [andb].
        rewrite F, E. eexists. split; [reflexivity |].
        cbn. repeat split. eexists. reflexivity. }
      destruct D as (s1 & D & P1 & C1 & sl & S1).
      apply findIndex_null_nth in F.
      destruct (IH s1) as (es2 & s2 & R2 & P2 & L2 & C2 & T2 & _).
      * rewrite S1, (availableSlots_set_slot _ _ _ F). lia.
      * assumption.
      * exists (EDispatch :: es2), s2. cbn [run fire]. rewrite Hp, D.
        repeat split; auto; try lia.
        rewrite L2, S1. apply set_slot_length.
    + exists [], s. cbn. repeat split; auto; lia.
Qed.

(** From a state of the loop with an empty array and at least one
    slot, a schedule leads to [Finished]. *)
Lemma complete k :
  forall s : State rm,
    phase s = Looping -> forallb is_null (semaphore s) = true ->
    (1 <= List.length (semaphore s))%nat ->
    (Z.to_nat (batches config - currentBatch s) <= k)%nat ->
    exists es s', run host config es s = Some s' /\ phase s' = Finished.
Proof.
  induction k as [|k IH]; intros s Hp Hn Hl Hk;
    pose proof (availableSlots_all_null _ Hn) as Av;
    destruct (fill _ s eq_refl Hp)
      as (es1 & s1 & R1 & P1 & L1 & C1 & T1 & G1).
  - (* no batch is left *)
    assert (J : fire host config EJoin s1
                = Some (with_phase s1 Draining)).
    { cbn [fire]. rewrite P1.
      destruct (Z.ltb_spec (currentBatch s1) (batches config));
        [lia | reflexivity]. }
    destruct (drain _ (with_phase s1 Draining) eq_refl eq_refl)
      as (es2 & s2 & R2 & P2 & _ & _ & F2).
    exists (es1 ++ EJoin :: es2 ++ [EFinish])%list. eexists.
    rewrite (run_app _ _ _ _ R1). cbn [run]. rewrite J.
    rewrite (run_app _ _ _ _ R2). cbn [run fire].
    rewrite P2. cbn [with_phase phase]. rewrite F2.
    split; reflexivity.
  - destruct (Z.ltb_spec (currentBatch s1) (batches config)) as [C|C].
    + (* the array is full: sleep, drain, wake up, go on *)
      assert (A1 : availableSlots (semaphore s1) <= 0) by lia.
      assert (Sl : exists s2, fire host config ESleep s1 = Some s2
                              /\ phase s2 = Sleeping
                              /\ semaphore s2 = semaphore s1
                              /\ currentBatch s2 = currentBatch s1).
      { cbn [fire]. rewrite P1.
        apply Z.ltb_lt in C. rewrite C.
        destruct (Z.ltb_spec 0 (availableSlots (semaphore s1))); [lia |].
        cbn. eexists. repeat split. }
      destruct Sl as (s2 & Sl & P2 & S2 & C2).
      destruct (drain _ s2 eq_refl ltac:(now rewrite P2))
        as (es3 & s3 & R3 & P3 & C3 & L3 & F3).
      assert (W : fire host config EWake s3 = Some (with_phase s3 Looping))
        by (cbn [fire]; now rewrite P3, P2).
      destruct (IH (with_phase s3 Looping)) as (es4 & s4 & R4 & P4).
      * reflexivity.
      * exact F3.
      * cbn [with_phase semaphore]. rewrite L3, S2, L1. exact Hl.
      * cbn [with_phase currentBatch]. rewrite C3, C2.
        assert (currentBatch s < currentBatch s1)
          by (apply G1; apply Z.ltb_lt in C; lia).
        lia.
      * exists (es1 ++ ESleep :: es3 ++ EWake :: es4)%list, s4.
        rewrite (run_app _ _ _ _ R1). cbn [run]. rewrite Sl.
        rewrite (run_app _ _ _ _ R3). cbn [run]. rewrite W.
        split; assumption.
    + assert (J : fire host config EJoin s1
                  = Some (with_phase s1 Draining)).
      { cbn [fire]. rewrite P1.
        destruct (Z.ltb_spec (currentBatch s1) (batches config));
          [lia | reflexivity]. }
      destruct (drain _ (with_phase s1 Draining) eq_refl eq_refl)
        as (es2 & s2 & R2 & P2 & _ & _ & F2).
      exists (es1 ++ EJoin :: es2 ++ [EFinish])%list. eexists.
      rewrite (run_app _ _ _ _ R1). cbn [run]. rewrite J.
      rewrite (run_app _ _ _ _ R2). cbn [run fire].
      rewrite P2. cbn [with_phase phase]. rewrite F2.
      split; reflexivity.
Qed.

(** With at least one slot, [seedUsers] can run to completion. *)
Lemma concurrent_run_completes (r : RState rm) :
  1 <= concurrentBatches config ->
  exists s : State rm, reachable host config r s /\ phase s = Finished.
Proof.
  intros Hl. unfold reachable, start.
  destruct (Z.ltb_spec (concurrentBatches config) 0); [lia |].
  set (s0 := {| world := new_world r;
                semaphore := repeat None (Z.to_nat (concurrentBatches config));
                currentBatch := 0; phase := Looping; released := [] |}).
  destruct (complete (Z.to_nat (batches config)) s0) as (es & s & R & P).
  - reflexivity.
  - cbn. induction (Z.to_nat (concurrentBatches config)); cbn; auto.
  - cbn. rewrite repeat_length. lia.
  - cbn. lia.
  - exists s. split; [| exact P]. exists s0, es. split; auto.
Qed.

End Liveness.

(** ** Retries of the conservative runner *)

Section RetryFacts.
Import Runtime Inv ConservativeSeeder.
Context {rm : Remote}.

Lemma isNetworkError_transient error :
  isNetworkError error = true <-> transient error.
Proof.
  unfold transient. destruct error as [m|v]; cbn [isNetworkError].
  - rewrite !orb_true_iff. split.
    + intros [[H|H]|H]; exists m; auto.
    + intros (m' & E & H). injection E as <-. tauto.
  - split; [discriminate | intros (m & E & _); discriminate].
Qed.

(** One iteration of the retry loop, as an equation. *)
Lemma attemptOnce_eq u maxRetries attempt (w : World rm) :
  attemptOnce u maxRetries attempt w
  = match admin_createUser rm (remote w) (request_of u) with
    | (r', None) =>
        (Ok Return,
         Build_World rm r' (processedUsers w) (errors w) (sleeps w)
                     (dispatched w) (history w))
    | (r', Some error) =>
        if isNetworkError error && (attempt <? maxRetries)
        then (Ok Continue,
              Build_World rm r' (processedUsers w) (errors w)
                          (attempt * 1000 :: sleeps w)
                          (dispatched w) (history w))
        else (Thrown error,
              Build_World rm r' (processedUsers w) (errors w) (sleeps w)
                          (dispatched w) (history w))
    end.
Proof.
  unfold attemptOnce, try_catch, bind, callCreateUser.
  destruct (admin_createUser rm (remote w) (request_of u)) as [r' [e|]];
    cbn; [| reflexivity].
  destruct (isNetworkError e && (attempt <? maxRetries)); reflexivity.
Qed.

(** Two transient failures followed by a success: three calls, two
    pauses of one and two seconds, a normal return. *)
Lemma createUserWithRetry_third_time u (w : World rm) r1 r2 r3 e1 e2 :
  admin_createUser rm (remote w) (request_of u) = (r1, Some e1) ->
  isNetworkError e1 = true ->
  admin_createUser rm r1 (request_of u) = (r2, Some e2) ->
  isNetworkError e2 = true ->
  admin_createUser rm r2 (request_of u) = (r3, None) ->
  createUserWithRetry u 3 w
  = (Ok tt,
     Build_World rm r3 (processedUsers w) (errors w)
                 (2000 :: 1000 :: sleeps w) (dispatched w) (history w)).
Proof.
  intros A1 N1 A2 N2 A3. unfold createUserWithRetry.
  change (Z.to_nat 3) with 3%nat. cbn [retryLoop].
  change (1 <=? 3) with true. cbv iota. unfold bind at 1.
  rewrite attemptOnce_eq, A1, N1. cbn [andb Z.ltb Z.compare Pos.compare
    Pos.compare_cont remote processedUsers errors sleeps dispatched
    history].
  change (1 + 1 <=? 3) with true. cbv iota. unfold bind at 1.
  rewrite attemptOnce_eq. cbn [remote]. rewrite A2, N2.
  change (1 + 1 <? 3) with true. cbn [andb].
  change (1 + 1 + 1 <=? 3) with true. cbv iota. unfold bind at 1.
  rewrite attemptOnce_eq. cbn [remote]. rewrite A3.
  reflexivity.
Qed.

Lemma processUser_third_time u (w : World rm) r1 r2 r3 e1 e2 :
  admin_createUser rm (remote w) (request_of u) = (r1, Some e1) ->
  isNetworkError e1 = true ->
  admin_createUser rm r1 (request_of u) = (r2, Some e2) ->
  isNetworkError e2 = true ->
  admin_createUser rm r2 (request_of u) = (r3, None) ->
  processUser u w
  = (Ok tt,
     Build_World rm r3 (processedUsers w + 1) (errors w)
                 (100 :: 2000 :: 1000 :: sleeps w) (dispatched w)
                 ((processedUsers w + 1, errors w) :: history w)).
Proof.
  intros A1 N1 A2 N2 A3. unfold processUser, try_catch, bind.
  unfold defaultMaxRetries.
  now rewrite (createUserWithRetry_third_time u w r1 r2 r3 e1 e2).
Qed.

(** A failure that is not retried ends the loop at once. *)
Lemma retryLoop_terminal fuel u attempt (w : World rm) r' error :
  admin_createUser rm (remote w) (request_of u) = (r', Some error) ->
  attempt <= 3 ->
  isNetworkError error && (attempt <? 3) = false ->
  retryLoop (S fuel) u 3 attempt w
  = (Thrown error,
     Build_World rm r' (processedUsers w) (errors w) (sleeps w)
                 (dispatched w) (history w)).
Proof.
  intros A Ha N. cbn [retryLoop].
  destruct (Z.leb_spec attempt 3); [| lia].
  unfold bind. now rewrite attemptOnce_eq, A, N.
Qed.

End RetryFacts.

(** ** Conservative runs against the stubs of the scenarios *)

Section ConservativeStubs.
Import Runtime Inv ConservativeSeeder.
Variable host : Host.
Variable config : Config.Config.
Hypothesis no_fault : forall b, gen_fault host b = None.

(** A property of the state that each record keeps is kept by the
    whole run. *)
Lemma conservative_run_invariant {rm} (P : World rm -> Prop) :
  (forall u w, P w -> finishes (processUser u) w (fun _ w' => P w')) ->
  (forall b size w, P w -> P (snd (enterBatch b size w))) ->
  (forall ms w, P w -> P (snd (delay ms w))) ->
  forall w, P w ->
    finishes (seedUsers host config) w (fun _ w' => P w').
Proof.
  intros Hu He Hd w Hw. unfold seedUsers.
  apply (forEach_invariant P); [| assumption].
  intros b w0 _ Hw0. apply after_bind.
  unfold processBatchConservative.
  set (size := Z.min _ _).
  assert (B : finishes (processBatchConservative host config b size) w0
                       (fun _ w' => P w')).
  { unfold processBatchConservative. apply after_bind.
    unfold after at 1. cbn [fst].
    change (fst (enterBatch b size w0)) with (@Ok unit tt). cbv iota.
    apply after_try_catch. unfold callGenerate. rewrite no_fault.
    apply after_bind. unfold after at 1, ret; cbn [fst snd].
    pose proof (forEach_invariant P
                  (Utils.generateUserBatch (gen_env host b) size
                     (Config.emailDomain (Config.seeding config))
                     (Config.defaultPassword (Config.seeding config)))
                  processUser (fun u w' _ Hw' => Hu u w' Hw')
                  (snd (enterBatch b size w0)) (He _ _ _ Hw0)) as H.
    unfold finishes, after in H |- *.
    destruct (forEach _ processUser _) as [r1 w1]; cbn [fst snd] in *.
    destruct H as [-> H]. auto. }
  unfold processBatchConservative in B.
  unfold finishes, after in B |- *.
  destruct (bind (enterBatch b size) _ w0) as [r1 w1]; cbn [fst snd] in *.
  destruct B as [-> B].
  destruct (b <? _); cbn; auto. split; [reflexivity |].
  apply (Hd 2000 w1 B).
Qed.

Lemma reset_twice_answer (n : nat) q :
  admin_createUser Stubs.reset_twice n q
  = (S n, if (n mod 3 <? 2)%nat
          then Some (ErrorObject "read ECONNRESET") else None).
Proof. reflexivity. Qed.

(** Against the stub that resets the first two attempts for each
    record, every record is a success and none an error. *)
Lemma conservative_reset_twice :
  let total := Config.totalUsers (Config.seeding config) in
  0 <= total -> 1 <= Config.batchSize (Config.seeding config) ->
  after (seedUsers host config) (@new_world Stubs.reset_twice O)
        (fun r w' =>
           r = Ok tt /\ processedUsers w' = total /\ errors w' = 0).
Proof.
  intros total Ht Hb.
  pose proof (conservative_seedUsers_finishes host config
                (@new_world Stubs.reset_twice O) Ht Hb) as [E A].
  pose proof (conservative_run_invariant
                (fun w : World Stubs.reset_twice =>
                   (remote w mod 3 = 0)%nat /\ errors w = 0)) as I.
  destruct (I) with (w := @new_world Stubs.reset_twice O) as [_ [_ Z0]].
  - intros u w [M Z]. unfold finishes, after.
    rewrite (processUser_third_time u w (S (remote w)) (S (S (remote w)))
               (S (S (S (remote w))))
               (ErrorObject "read ECONNRESET")
               (ErrorObject "read ECONNRESET")).
    + cbn [fst snd remote errors]. split; [reflexivity |].
      split; [| assumption].
      pose proof (Nat.div_mod_eq (remote w) 3).
      pose proof (Nat.div_mod_eq (S (S (S (remote w)))) 3).
      pose proof (Nat.mod_upper_bound (S (S (S (remote w)))) 3
                    ltac:(lia)).
      lia.
    + rewrite reset_twice_answer. now rewrite M.
    + reflexivity.
    + rewrite reset_twice_answer.
      replace (S (remote w) mod 3)%nat with 1%nat; [reflexivity |].
      pose proof (Nat.div_mod_eq (remote w) 3).
      pose proof (Nat.div_mod_eq (S (remote w)) 3).
      pose proof (Nat.mod_upper_bound (S (remote w)) 3 ltac:(lia)).
      lia.
    + reflexivity.
    + rewrite reset_twice_answer.
      replace (S (S (remote w)) mod 3)%nat with 2%nat; [reflexivity |].
      pose proof (Nat.div_mod_eq (remote w) 3).
      pose proof (Nat.div_mod_eq (S (S (remote w))) 3).
      pose proof (Nat.mod_upper_bound (S (S (remote w))) 3 ltac:(lia)).
      lia.
  - intros b size w H. exact H.
  - intros ms w H. exact H.
  - split; reflexivity.
  - unfold after. split; [exact E |].
    destruct A as (_ & _ & S & _).
    cbn [new_world processedUsers errors] in S. fold total in S.
    split; [lia | assumption].
Qed.

(** Against a stub that never fails, likewise. *)
Lemma conservative_always_ok :
  let total := Config.totalUsers (Config.seeding config) in
  0 <= total -> 1 <= Config.batchSize (Config.seeding config) ->
  after (seedUsers host config) (@new_world Stubs.always_ok O)
        (fun r w' =>
           r = Ok tt /\ processedUsers w' = total /\ errors w' = 0).
Proof.
  intros total Ht Hb.
  pose proof (conservative_seedUsers_finishes host config
                (@new_world Stubs.always_ok O) Ht Hb) as [E A].
  pose proof (conservative_run_invariant
                (fun w : World Stubs.always_ok => errors w = 0)) as I.
  destruct (I) with (w := @new_world Stubs.always_ok O) as [_ Z0].
  - intros u w Z. split; [reflexivity | exact Z].
  - intros b size w H. exact H.
  - intros ms w H. exact H.
  - reflexivity.
  - unfold after. split; [exact E |].
    destruct A as (_ & _ & S & _).
    cbn [new_world processedUsers errors] in S. fold total in S.
    split; [lia | assumption].
Qed.

End ConservativeStubs.

(** ** A generator that raises *)

Section FaultFacts.
Import Runtime Inv.
Context {rm : Remote}.
Variable host : Host.
Variable config : Config.Config.




End FaultFacts.

(* ================================================================== *)
(** * The claims *)

Import Runtime Inv.

(** ** C1 *)

(** C1: for a configuration with [totalUsers >= 0] and [batchSize >= 1],
    any remote service and a host whose generator never raises,
    [processedUsers + errors = totalUsers] when the run is complete, in
    the concurrent runner (whatever the schedule), the chunked runner and
    the conservative runner; against the stub that fails the records
    whose index is a multiple of 5, the concurrent and the chunked runner
    end with [errors] equal to the number of such indices below
    [totalUsers] and [processedUsers] equal to the rest.  With at least
    one slot the concurrent run can be completed. *)
Theorem every_record_is_counted
        (rm : Remote) (host : Host) (config : Config.Config)
        (r : RState rm) :
  let total := Config.totalUsers (Config.seeding config) in
  let fives := Z.of_nat (Stubs.multiples_of_5_below (Z.to_nat total)) in
  0 <= total ->
  1 <= Config.batchSize (Config.seeding config) ->
  (forall b, gen_fault host b = None) ->
  (forall s : Seeder.State rm,
      Seeder.reachable host config r s ->
      Seeder.phase s = Seeder.Finished ->
      processedUsers (Seeder.world s) + errors (Seeder.world s) = total)
  /\ after (BatchSeeder.seedUsers host config) (new_world r)
           (fun res w => res = Ok tt
                         /\ processedUsers w + errors w = total)
  /\ after (ConservativeSeeder.seedUsers host config) (new_world r)
           (fun res w => res = Ok tt
                         /\ processedUsers w + errors w = total)
  /\ (forall s : Seeder.State Stubs.fail_multiples_of_5,
         Seeder.reachable host config (O : RState Stubs.fail_multiples_of_5)
                          s ->
         Seeder.phase s = Seeder.Finished ->
         errors (Seeder.world s) = fives
         /\ processedUsers (Seeder.world s) = total - fives)
  /\ after (BatchSeeder.seedUsers host config)
           (@new_world Stubs.fail_multiples_of_5 O)
           (fun res w => res = Ok tt
                         /\ errors w = fives
                         /\ processedUsers w = total - fives)
  /\ (1 <= Config.concurrentBatches (Config.seeding config) ->
      exists s : Seeder.State rm,
        Seeder.reachable host config r s
        /\ Seeder.phase s = Seeder.Finished).
Proof.
  intros total fives Ht Hb Hf.
  split; [| split; [| split; [| split; [| split]]]].
  - intros s R F.
    destruct (reachable_invariant host config Ht Hb r s R)
      as [_ _ _ I4 _ _ I7 I8].
    destruct (I8 F) as [_ P]. rewrite P, (I7 (or_intror F)) in I4.
    pose proof (ceil_div_bounds (Seeder.totalUsers config)
                  (Seeder.batchSize config) Hb).
    unfold Seeder.totalUsers, Seeder.batchSize, total in *. lia.
  - destruct (chunked_seedUsers_finishes host config (new_world r) Ht Hb)
      as [E (_ & _ & S & _)].
    split; [exact E |]. cbn [new_world processedUsers errors] in S.
    unfold total. lia.
  - destruct (conservative_seedUsers_finishes host config (new_world r)
                Ht Hb) as [E (_ & _ & S & _)].
    split; [exact E |]. cbn [new_world processedUsers errors] in S.
    unfold total. lia.
  - intros s R F. unfold fives. rewrite <- failures_multiples_of_5.
    exact (concurrent_counts _ host config Hf s Ht Hb R F).
  - unfold fives. rewrite <- failures_multiples_of_5.
    exact (chunked_counts _ host config Hf Ht Hb).
  - intros Hl. exact (concurrent_run_completes host config r Hl).
Qed.

Lemma every_record_is_counted_witness :
  0 <= 10 /\ 1 <= 3
  /\ (forall b, gen_fault Stubs.calm_host b = None)
  /\ after (BatchSeeder.seedUsers Stubs.calm_host (Stubs.configured 10 3 2))
           (@new_world Stubs.fail_multiples_of_5 O)
           (fun res w => res = Ok tt /\ errors w = 2
                         /\ processedUsers w = 10 - 2).
Proof.
  split; [lia |]. split; [lia |]. split; [reflexivity |].
  exact (proj1 (proj2 (proj2 (proj2 (proj2
           (every_record_is_counted Stubs.fail_multiples_of_5
              Stubs.calm_host (Stubs.configured 10 3 2) O
              ltac:(cbn; lia) ltac:(cbn; lia) (fun _ => eq_refl))))))).
Defined.

(** ** Facts about the plan (C2) *)

Lemma plan_in (total b i size : Z) :
  1 <= b -> In (i, size) (plan total b) ->
  0 <= i < Num.ceil_div total b
  /\ size = Z.min b (total - i * b) /\ 1 <= size <= b.
Proof.
  intros Hb H. unfold plan in H. apply in_map_iff in H.
  destruct H as (j & E & Hj). injection E as -> <-.
  apply in_batch_indices in Hj.
  pose proof (size_at_bounds total b i Hb Hj). unfold size_at in *. lia.
Qed.

Lemma plan_last (total b : Z) :
  1 <= total -> 1 <= b ->
  nth_error (plan total b) (Z.to_nat (Num.ceil_div total b - 1))
  = Some (Num.ceil_div total b - 1,
          total - (Num.ceil_div total b - 1) * b).
Proof.
  intros Ht Hb. pose proof (ceil_div_bounds total b Hb) as B.
  assert (Hn : 1 <= Num.ceil_div total b) by nia.
  unfold plan, batch_indices.
  rewrite !nth_error_map, nth_error_seq.
  destruct (Nat.ltb_spec (Z.to_nat (Num.ceil_div total b - 1))
              (Z.to_nat (Num.ceil_div total b))); [| lia].
  cbn [option_map Nat.add]. rewrite Z2Nat.id by lia.
  unfold size_at. f_equal. f_equal. lia.
Qed.

(** ** C3 *)

(** C3: in the conservative runner an attempt that failed with [error]
    is followed by another attempt exactly when [error] is transient (an
    [Error] whose message includes 'ETIMEDOUT', 'ECONNRESET' or
    'fetch failed') and fewer than 3 attempts have been made, after a
    pause of [attempt * 1000] ms; otherwise the loop ends at once by
    throwing [error], and the record is counted as an error.  When the
    first two attempts for a record fail with transient errors and the
    third succeeds, the record is created with three calls and pauses of
    1000 and 2000 ms and counted as processed; against the stub that
    resets every record's first two attempts a whole run ends with every
    record processed and no error. *)
Theorem retry_only_transient_failures
        (rm : Remote) (u : Utils.UserData) (w : World rm)
        (attempt : Z) (error : thrown) (r' : RState rm) :
  admin_createUser rm (remote w) (request_of u) = (r', Some error) ->
  1 <= attempt <= 3 ->
  let stay s :=
    Build_World rm r' (processedUsers w) (errors w) s (dispatched w)
                (history w) in
  (ConservativeSeeder.attemptOnce u 3 attempt w
   = (Ok ConservativeSeeder.Continue, stay (attempt * 1000 :: sleeps w))
   <-> transient error /\ attempt < 3)
  /\ (~ (transient error /\ attempt < 3) ->
      ConservativeSeeder.attemptOnce u 3 attempt w
      = (Thrown error, stay (sleeps w))
      /\ (forall fuel,
             ConservativeSeeder.retryLoop (S fuel) u 3 attempt w
             = (Thrown error, stay (sleeps w)))
      /\ (attempt = 1 ->
          ConservativeSeeder.processUser u w
          = (Ok tt,
             Build_World rm r' (processedUsers w) (errors w + 1) (sleeps w)
                         (dispatched w)
                         ((processedUsers w, errors w + 1) :: history w))))
  /\ (forall (w0 : World rm) r1 r2 r3 e1 e2,
         admin_createUser rm (remote w0) (request_of u) = (r1, Some e1) ->
         transient e1 ->
         admin_createUser rm r1 (request_of u) = (r2, Some e2) ->
         transient e2 ->
         admin_createUser rm r2 (request_of u) = (r3, None) ->
         ConservativeSeeder.createUserWithRetry u 3 w0
         = (Ok tt,
            Build_World rm r3 (processedUsers w0) (errors w0)
                        (2000 :: 1000 :: sleeps w0) (dispatched w0)
                        (history w0))
         /\ ConservativeSeeder.processUser u w0
            = (Ok tt,
               Build_World rm r3 (processedUsers w0 + 1) (errors w0)
                           (100 :: 2000 :: 1000 :: sleeps w0)
                           (dispatched w0)
                           ((processedUsers w0 + 1, errors w0)
                              :: history w0)))
  /\ (forall host config,
         (forall b, gen_fault host b = None) ->
         0 <= Config.totalUsers (Config.seeding config) ->
         1 <= Config.batchSize (Config.seeding config) ->
         after (ConservativeSeeder.seedUsers host config)
               (@new_world Stubs.reset_twice O)
               (fun res w' =>
                  res = Ok tt
                  /\ processedUsers w'
                     = Config.totalUsers (Config.seeding config)
                  /\ errors w' = 0)).
Proof.
  intros A Ha stay.
  assert (D : ConservativeSeeder.isNetworkError error && (attempt <? 3)
              = true <-> transient error /\ attempt < 3).
  { rewrite andb_true_iff, isNetworkError_transient, Z.ltb_lt. tauto. }
  split; [| split; [| split]].
  - rewrite attemptOnce_eq, A.
    destruct (ConservativeSeeder.isNetworkError error && (attempt <? 3)).
    + split; [intros _; now apply D | reflexivity].
    + split; [discriminate | intros H; apply D in H; discriminate].
  - intros N.
    assert (N' : ConservativeSeeder.isNetworkError error && (attempt <? 3)
                 = false).
    { destruct (ConservativeSeeder.isNetworkError error && (attempt <? 3));
        [exfalso; apply N; now apply D | reflexivity]. }
    split; [| split].
    + now rewrite attemptOnce_eq, A, N'.
    + intros fuel. apply retryLoop_terminal; [assumption | lia | assumption].
    + intros ->.
      unfold ConservativeSeeder.processUser, try_catch, bind.
      unfold ConservativeSeeder.createUserWithRetry,
        ConservativeSeeder.defaultMaxRetries.
      change (Z.to_nat 3) with 3%nat.
      now rewrite (retryLoop_terminal 2 u 1 w r' error A ltac:(lia) N').
  - intros w0 r1 r2 r3 e1 e2 A1 T1 A2 T2 A3.
    apply isNetworkError_transient in T1, T2. split.
    + exact (createUserWithRetry_third_time u w0 r1 r2 r3 e1 e2
               A1 T1 A2 T2 A3).
    + exact (processUser_third_time u w0 r1 r2 r3 e1 e2 A1 T1 A2 T2 A3).
  - intros host config Hf Ht Hb.
    exact (conservative_reset_twice host config Hf Ht Hb).
Qed.

Lemma retry_only_transient_failures_witness :
  let u := Utils.generateUser (gen_env Stubs.calm_host 0)
                              "example.com" "password123" 0 in
  let w := @new_world Stubs.reset_twice O in
  admin_createUser Stubs.reset_twice (remote w) (request_of u)
  = (1%nat, Some (ErrorObject "read ECONNRESET"))
  /\ 1 <= 1 <= 3
  /\ ConservativeSeeder.attemptOnce u 3 1 w
     = (Ok ConservativeSeeder.Continue,
        Build_World Stubs.reset_twice 1%nat 0 0 [1000] [] [])
  /\ ConservativeSeeder.processUser u w
     = (Ok tt,
        Build_World Stubs.reset_twice 3%nat 1 0 [100; 2000; 1000] []
                    [(1, 0)]).
Proof.
  intros u w.
  pose proof (retry_only_transient_failures Stubs.reset_twice u w 1
                (ErrorObject "read ECONNRESET") 1%nat eq_refl
                ltac:(lia)) as (H1 & _ & H3 & _).
  split; [reflexivity |]. split; [lia |]. split.
  - apply H1. split; [| lia].
    exists "read ECONNRESET". split; [reflexivity |].
    right; left; reflexivity.
  - refine (proj2 (H3 w 1%nat 2%nat 3%nat
                      (ErrorObject "read ECONNRESET")
                      (ErrorObject "read ECONNRESET")
                      eq_refl _ eq_refl _ eq_refl));
      (exists "read ECONNRESET"; split; [reflexivity |];
       right; left; reflexivity).
Defined.

(** ** C4 *)

(** C4, evaluated where it fails: the generator reads the clock once for
    each batch, so two batches started within the same millisecond that
    draw the same names produce the same address.  A concurrent run of
    two one-record batches on such a host sends the remote service the
    same address twice.  (Within one batch the addresses differ and
    every record is marked verified: [generateUserBatch_emails_NoDup],
    [generateUserBatch_email_verified].) *)
Theorem emails_collide_across_batches :
  let g := gen_env Stubs.same_ms_host in
  map Utils.email (Utils.generateUserBatch (g 0) 1 "example.com" "pw")
  = map Utils.email (Utils.generateUserBatch (g 1) 1 "example.com" "pw")
  /\ exists s : Seeder.State Stubs.recording,
      Seeder.reachable Stubs.same_ms_host (Stubs.configured 2 1 2)
                       ([] : RState Stubs.recording) s
      /\ Seeder.phase s = Seeder.Finished
      /\ remote (Seeder.world s)
         = ["john.smith.1700000000000-0@example.com";
            "john.smith.1700000000000-0@example.com"]
      /\ ~ NoDup (remote (Seeder.world s)).
Proof.
  split; [reflexivity |].
  eexists. split; [| split; [| split]].
  - eexists. exists [Seeder.EDispatch; Seeder.EDispatch; Seeder.EJoin;
                     Seeder.ETally 0; Seeder.ETally 1;
                     Seeder.ERelease 0; Seeder.ERelease 1; Seeder.EFinish].
    split; [reflexivity |]. vm_compute. reflexivity.
  - reflexivity.
  - reflexivity.
  - cbn [remote Seeder.world]. intros H.
    apply NoDup_cons_iff in H. destruct H as [H _]. apply H. now left.
Qed.

(** ** C5 *)



(** ** C6 *)

(** C6: in every state of a concurrent run over [totalUsers >= 0]
    records in batches of [batchSize >= 1], the batches in flight (those
    started and not yet released) are exactly the entries of the slot
    array, so there are at most [concurrentBatches] of them; the batches
    started so far are those of index [0 .. currentBatch - 1], started
    in this order; and once the run is finished every batch of the plan
    has been started and released, and none is in flight. *)
Theorem concurrency_limit_is_respected
        (rm : Remote) (host : Host) (config : Config.Config)
        (r : RState rm) (s : Seeder.State rm) :
  let total := Config.totalUsers (Config.seeding config) in
  let batch := Config.batchSize (Config.seeding config) in
  let limit := Config.concurrentBatches (Config.seeding config) in
  0 <= total -> 1 <= batch ->
  Seeder.reachable host config r s ->
  (List.length (in_flight (Seeder.semaphore s)) <= Z.to_nat limit)%nat
  /\ List.length (Seeder.semaphore s) = Z.to_nat limit
  /\ Permutation (map fst (rev (dispatched (Seeder.world s))))
                 (Seeder.released s ++ in_flight (Seeder.semaphore s))
  /\ map fst (rev (dispatched (Seeder.world s)))
     = batch_indices (Seeder.currentBatch s)
  /\ (Seeder.phase s = Seeder.Finished ->
      Seeder.currentBatch s = Num.ceil_div total batch
      /\ rev (dispatched (Seeder.world s)) = plan total batch
      /\ in_flight (Seeder.semaphore s) = []
      /\ Permutation (batch_indices (Num.ceil_div total batch))
                     (Seeder.released s)).
Proof.
  intros total batch limit Ht Hb R.
  destruct (reachable_invariant host config Ht Hb r s R)
    as [I1 I2 I3 I4 I5 I6 I7 I8].
  assert (D : map fst (rev (dispatched (Seeder.world s)))
              = batch_indices (Seeder.currentBatch s)).
  { rewrite I3, rev_involutive, map_map. cbn [fst]. apply map_id. }
  split; [| split; [| split; [| split]]].
  - rewrite in_flight_length.
    pose proof (occupied_le_length (Seeder.semaphore s)) as O.
    rewrite I1 in O. exact O.
  - exact I1.
  - rewrite D. exact I6.
  - exact D.
  - intros F. destruct (I8 F) as [N _].
    pose proof (I7 (or_intror F)) as C.
    split; [exact C |]. split; [| split; [exact N |]].
    + rewrite I3, rev_involutive, C. reflexivity.
    + rewrite C, N, app_nil_r in I6. exact I6.
Qed.

Lemma concurrency_limit_is_respected_witness :
  let config := Stubs.configured 10 3 2 in
  exists s : Seeder.State Stubs.always_ok,
    Seeder.reachable Stubs.calm_host config (O : RState Stubs.always_ok) s
    /\ in_flight (Seeder.semaphore s) = [0; 1]
    /\ (List.length (in_flight (Seeder.semaphore s)) <= 2)%nat
    /\ map fst (rev (dispatched (Seeder.world s))) = [0; 1].
Proof.
  intros config.
  assert (R : exists s : Seeder.State Stubs.always_ok,
             Seeder.reachable Stubs.calm_host config
                              (O : RState Stubs.always_ok) s
             /\ in_flight (Seeder.semaphore s) = [0; 1]
             /\ Seeder.currentBatch s = 2).
  { eexists. split; [| split].
    - eexists. exists [Seeder.EDispatch; Seeder.EDispatch].
      split; [reflexivity |]. vm_compute. reflexivity.
    - reflexivity.
    - reflexivity. }
  destruct R as (s & R & N & C). exists s.
  destruct (concurrency_limit_is_respected Stubs.always_ok Stubs.calm_host
              config O s ltac:(cbn; lia) ltac:(cbn; lia) R)
    as (H1 & _ & _ & H4 & _).
  split; [exact R |]. split; [exact N |]. split; [exact H1 |].
  rewrite H4, C. reflexivity.
Defined.

(** ** The entry point of the concurrent runner (C7) *)

(** The entry point of the concurrent runner validates the
    configuration first: when the service URL or the service key is
    missing, [main] ends with exit status 1 before a client is
    constructed, and its report names the missing setting. *)
Lemma index_main_fails_fast
      (rm : Remote) (createClient : string -> string -> Result (RState rm))
      (config : Config.Config) :
  Config.url (Config.supabase config) = ""
  \/ Config.serviceRoleKey (Config.supabase config) = "" ->
  exists setting,
    (setting = "SUPABASE_URL" \/ setting = "SUPABASE_SERVICE_ROLE_KEY")
    /\ Index.index_main createClient config
       = Index.Exited
           (Index.index_catch (ErrorObject (setting ++ " is required")))
    /\ Index.code (Index.index_catch
                     (ErrorObject (setting ++ " is required"))) = 1.
Proof.
  intros H. unfold Index.index_main, Config.validateConfig.
  destruct (Config.url (Config.supabase config)) as [|c u] eqn:U.
  - exists "SUPABASE_URL". cbn. auto.
  - destruct H as [H|H]; [discriminate |]. rewrite H.
    exists "SUPABASE_SERVICE_ROLE_KEY". cbn. auto.
Qed.

(** ** C10 *)

(** C10: in a run over [totalUsers >= 0] records in batches of
    [batchSize >= 1], no transition of the concurrent runner lowers
    [processedUsers] or [errors], and in each runner the counters as
    they were after every assignment, from the initial [(0, 0)] to the
    final ones, form a non-decreasing sequence in both components; the
    two operations that assign them add their argument. *)
Theorem counters_never_decrease
        (rm : Remote) (host : Host) (config : Config.Config)
        (r : RState rm) :
  0 <= Config.totalUsers (Config.seeding config) ->
  1 <= Config.batchSize (Config.seeding config) ->
  (forall (s s' : Seeder.State rm) e,
      Seeder.reachable host config r s ->
      Seeder.fire host config e s = Some s' ->
      processedUsers (Seeder.world s) <= processedUsers (Seeder.world s')
      /\ errors (Seeder.world s) <= errors (Seeder.world s')
      /\ nondecreasing (timeline (Seeder.world s')))
  /\ after (BatchSeeder.seedUsers host config) (new_world r)
           (fun res w => res = Ok tt /\ nondecreasing (timeline w))
  /\ after (ConservativeSeeder.seedUsers host config) (new_world r)
           (fun res w => res = Ok tt /\ nondecreasing (timeline w))
  /\ (forall n (w : World rm),
         processedUsers (snd (addProcessedUsers n w)) = processedUsers w + n
         /\ errors (snd (addProcessedUsers n w)) = errors w
         /\ errors (snd (addErrors n w)) = errors w + n
         /\ processedUsers (snd (addErrors n w)) = processedUsers w).
Proof.
  intros Ht Hb.
  assert (S0 : steady (new_world r)).
  { unfold steady, timeline, counters. cbn. split; [| exact I].
    unfold le_snapshot; cbn; lia. }
  split; [| split; [| split]].
  - intros s s' e R F.
    pose proof (reachable_invariant host config Ht Hb r s R) as Inv.
    destruct (fire_invariant host config Hb e s s' Inv F)
      as (Inv' & P & E).
    split; [exact P |]. split; [exact E |]. exact (inv_steady _ _ _ _ Inv').
  - destruct (chunked_seedUsers_finishes host config (new_world r) Ht Hb)
      as [E (_ & _ & _ & _ & S)].
    split; [exact E | exact (S S0)].
  - destruct (conservative_seedUsers_finishes host config (new_world r)
                Ht Hb) as [E (_ & _ & _ & _ & S)].
    split; [exact E | exact (S S0)].
  - intros n w. repeat split.
Qed.

Lemma counters_never_decrease_witness :
  let config := Stubs.configured 5 2 2 in
  0 <= 5 /\ 1 <= 2
  /\ after (BatchSeeder.seedUsers Stubs.faulty_host config)
           (@new_world Stubs.fail_multiples_of_5 O)
           (fun res w =>
              res = Ok tt
              /\ nondecreasing
                   [(2, 3); (2, 3); (2, 3); (1, 3); (1, 1); (1, 0);
                    (0, 0)]).
Proof.
  intros config. split; [lia |]. split; [lia |].
  exact (proj1 (proj2
           (counters_never_decrease Stubs.fail_multiples_of_5
              Stubs.faulty_host config O ltac:(cbn; lia) ltac:(cbn; lia)))).
Defined.

(* ================================================================== *)
(** * Further properties of the code *)

(** ** utils.ts *)

Section GeneratorProperties.
Import Utils.

(** X1 (generateUserBatch): a call returns [batchSize] records (none
    for a negative size), each with the default password and a verified
    e-mail flag; the e-mail addresses of one batch are pairwise
    distinct whatever the random draws are, and two records of any two
    calls for the same domain that share an e-mail address were
    generated in the same millisecond at the same index. *)
Theorem generated_batch_is_well_formed (g : GenEnv) (n : Z) (d p : string) :
  let batch := generateUserBatch g n d p in
  List.length batch = Z.to_nat n
  /\ NoDup (map email batch)
  /\ Forall (fun u => password u = p
                      /\ email_verified (user_metadata u) = true) batch
  /\ (forall (g' : GenEnv) (n' : Z) (p' : string) (u u' : UserData),
        In u batch -> In u' (generateUserBatch g' n' d p') ->
        email u = email u' ->
        now g = now g'
        /\ exists i : nat,
             (i < Z.to_nat n)%nat /\ (i < Z.to_nat n')%nat
             /\ u = generateUser g d p i
             /\ u' = generateUser g' d p' i).
Proof.
  intros batch. subst batch.
  split; [apply generateUserBatch_length |].
  split; [apply generateUserBatch_emails_NoDup |].
  split.
  - unfold generateUserBatch. apply Forall_forall. intros u Hu.
    apply in_map_iff in Hu. destruct Hu as (i & <- & _).
    split; reflexivity.
  - intros g' n' p' u u' Hu Hu' E.
    unfold generateUserBatch in Hu, Hu'.
    apply in_map_iff in Hu. destruct Hu as (i & <- & Hi).
    apply in_map_iff in Hu'. destruct Hu' as (j & <- & Hj).
    apply in_seq in Hi. apply in_seq in Hj.
    apply email_determines_id in E. destruct E as [En ->].
    split; [exact En |].
    exists j. repeat split; lia.
Qed.

End GeneratorProperties.

(* ================================================================== *)
(** ** Traces of a run *)

Section TraceFacts.
Import Runtime Inv Probe.
Context {rm : Remote} {T : Type}.
Variable tr : World rm -> list T.

Lemma appends_nil (w : World rm) : appends tr [] w w.
Proof. reflexivity. Qed.

Lemma appends_trans l1 l2 (w1 w2 w3 : World rm) :
  appends tr l1 w1 w2 -> appends tr l2 w2 w3 ->
  appends tr (l1 ++ l2)%list w1 w3.
Proof.
  unfold appends. intros H1 H2.
  now rewrite H2, H1, rev_app_distr, app_assoc.
Qed.

Lemma forEach_appends {A} (xs : list A) (body : A -> M rm unit)
      (f : A -> list T) :
  (forall x w, In x xs -> finishes (body x) w (appends tr (f x))) ->
  forall w, finishes (forEach xs body) w (appends tr (flat_map f xs)).
Proof.
  induction xs as [|x xs IH]; intros Hb w.
  - split; [reflexivity | apply appends_nil].
  - cbn [forEach flat_map]. apply after_bind.
    pose proof (Hb x w (or_introl eq_refl)) as Hx.
    unfold finishes, after in *.
    destruct (body x w) as [r w1]; cbn [fst snd] in *.
    destruct Hx as [-> Hx].
    assert (IH' := IH (fun y w' Hy => Hb y w' (or_intror Hy)) w1).
    destruct (forEach xs body w1) as [r2 w2]; cbn [fst snd] in *.
    destruct IH' as [-> IH']. split; [reflexivity |].
    eapply appends_trans; eauto.
Qed.

(** The same when each round adds one of several possible traces. *)
Lemma forEach_appends_some {A} (xs : list A) (body : A -> M rm unit)
      (S : A -> list T -> Prop) :
  (forall x w, In x xs ->
     finishes (body x) w
              (fun w w' => exists l, S x l /\ appends tr l w w')) ->
  forall w,
    finishes (forEach xs body) w
             (fun w w' => exists ls,
                  Forall2 S xs ls /\ appends tr (List.concat ls) w w').
Proof.
  induction xs as [|x xs IH]; intros Hb w.
  - split; [reflexivity |]. exists []. split; [constructor |].
    apply appends_nil.
  - cbn [forEach]. apply after_bind.
    pose proof (Hb x w (or_introl eq_refl)) as Hx.
    unfold finishes, after in *.
    destruct (body x w) as [r w1]; cbn [fst snd] in *.
    destruct Hx as [-> (l & Sl & Hx)].
    assert (IH' := IH (fun y w' Hy => Hb y w' (or_intror Hy)) w1).
    destruct (forEach xs body w1) as [r2 w2]; cbn [fst snd] in *.
    destruct IH' as [-> (ls & Sls & IH')]. split; [reflexivity |].
    exists (l :: ls). split; [now constructor |].
    cbn [List.concat]. eapply appends_trans; eauto.
Qed.

End TraceFacts.

Section ListFacts.

Lemma flat_map_map {A B C} (f : B -> list C) (g : A -> B) (l : list A) :
  flat_map f (map g l) = flat_map (fun x => f (g x)) l.
Proof.
  induction l as [|x l IH]; [reflexivity |].
  cbn [map flat_map]. now rewrite IH.
Qed.

Lemma repeat_snoc {A} (a : A) (n : nat) :
  (repeat a n ++ [a])%list = a :: repeat a n.
Proof. induction n as [|n IH]; [reflexivity |]. cbn. now rewrite IH. Qed.

Lemma rev_repeat {A} (a : A) (n : nat) : rev (repeat a n) = repeat a n.
Proof.
  induction n as [|n IH]; [reflexivity |].
  cbn [repeat rev]. rewrite IH. apply repeat_snoc.
Qed.

Lemma chunks_of_zero : Probe.chunks_of 0 = O.
Proof. reflexivity. Qed.

Lemma chunks_of_step (n : nat) :
  (0 < n)%nat -> Probe.chunks_of n = S (Probe.chunks_of (n - 100)).
Proof.
  intros Hn. unfold Probe.chunks_of.
  destruct (Nat.le_gt_cases 100 n) as [H|H].
  - replace (n + 99)%nat with ((n - 100 + 99) + 1 * 100)%nat by lia.
    rewrite Nat.div_add by lia. lia.
  - replace (n - 100)%nat with O by lia.
    replace (n + 99)%nat with ((n - 1) + 1 * 100)%nat by lia.
    rewrite Nat.div_add by lia.
    rewrite (Nat.div_small (n - 1) 100) by lia.
    rewrite (Nat.div_small (0 + 99) 100) by lia. reflexivity.
Qed.

End ListFacts.

(* ================================================================== *)
(** ** batch-seeder.ts *)

Section ChunkedPacing.
Import Runtime Inv Probe BatchSeeder.
Context {rm : Remote}.
Variable host : Host.
Variable config : Config.Config.

Lemma processChunk_pause users i (w : World rm) :
  finishes (processChunk users i) w (appends sleeps [50]).
Proof.
  unfold processChunk. apply after_bind.
  pose proof (allSettled_quiet createUser (slice i (i + chunkSize) users)
                createUser_quiet w) as H.
  unfold after in H |- *.
  destruct (allSettled createUser _ w) as [r w1]; cbn [fst snd] in *.
  destruct H as (rs & -> & _ & _ & S).
  unfold bind, addProcessedUsers, addErrors, delay, appends.
  cbn [fst snd sleeps rev app]. split; [reflexivity |]. now rewrite S.
Qed.

Lemma chunkLoop_pauses fuel users :
  forall i (w : World rm),
    (List.length users - i <= fuel)%nat ->
    finishes (chunkLoop fuel users i) w
             (appends sleeps
                (repeat 50 (chunks_of (List.length users - i)))).
Proof.
  induction fuel as [|fuel IH]; intros i w Hf; cbn [chunkLoop].
  - replace (List.length users - i)%nat with O by lia.
    split; [reflexivity | apply appends_nil].
  - destruct (Nat.ltb_spec i (List.length users)) as [Hi|Hi].
    + apply after_bind.
      pose proof (processChunk_pause users i w) as H1.
      unfold finishes, after in H1 |- *.
      destruct (processChunk users i w) as [r1 w1]; cbn [fst snd] in *.
      destruct H1 as [-> A1].
      assert (Hf' : (List.length users - (i + chunkSize) <= fuel)%nat)
        by (unfold chunkSize; lia).
      specialize (IH (i + chunkSize)%nat w1 Hf').
      unfold finishes, after in IH.
      destruct (chunkLoop fuel users (i + chunkSize) w1) as [r2 w2];
        cbn [fst snd] in *.
      destruct IH as [-> A2]. split; [reflexivity |].
      rewrite chunks_of_step by lia.
      replace (List.length users - i - 100)%nat
        with (List.length users - (i + chunkSize))%nat
        by (unfold chunkSize; lia).
      exact (appends_trans sleeps [50] _ _ _ _ A1 A2).
    + replace (List.length users - i)%nat with O by lia.
      split; [reflexivity | apply appends_nil].
Qed.

Lemma processBatch_pauses b size (w : World rm) :
  finishes (processBatch host config b size) w
           (appends sleeps
              match gen_fault host b with
              | Some _ => []
              | None => repeat 50 (chunks_of (Z.to_nat size))
              end).
Proof.
  unfold processBatch. apply after_bind.
  unfold after at 1, enterBatch; cbn [fst snd].
  apply after_try_catch. unfold callGenerate.
  destruct (gen_fault host b) as [e|].
  - apply after_bind. unfold after at 1, throw; cbn [fst snd].
    unfold after, addErrors, appends; cbn. auto.
  - apply after_bind. unfold after at 1, ret; cbn [fst snd].
    set (users := Utils.generateUserBatch _ _ _ _).
    set (w0 := Build_World rm _ _ _ _ _ _).
    pose proof (chunkLoop_pauses (List.length users) users 0%nat w0
                  ltac:(lia)) as H1.
    unfold finishes, after in H1 |- *.
    destruct (chunkLoop _ users 0%nat w0) as [r1 w1]; cbn [fst snd] in *.
    destruct H1 as [-> A1]. split; [reflexivity |].
    rewrite Nat.sub_0_r in A1. subst users.
    rewrite generateUserBatch_length in A1. exact A1.
Qed.

Lemma chunked_seedUsers_pauses (w : World rm) :
  let total := Config.totalUsers (Config.seeding config) in
  let batch := Config.batchSize (Config.seeding config) in
  finishes (seedUsers host config) w
           (appends sleeps (flat_map (batch_pauses host) (plan total batch))).
Proof.
  intros total batch. unfold seedUsers. fold total batch.
  unfold plan. rewrite flat_map_map.
  apply (forEach_appends sleeps). intros i w0 _.
  apply after_bind.
  pose proof (processBatch_pauses i (size_at total batch i) w0) as H1.
  unfold finishes, after in H1 |- *. unfold size_at in *.
  destruct (processBatch host config i _ w0) as [r1 w1];
    cbn [fst snd] in *.
  destruct H1 as [-> A1]. split; [reflexivity |].
  unfold batch_pauses; cbn [fst snd].
  eapply appends_trans; [exact A1 |]. reflexivity.
Qed.

(** X4 (BatchSeeder.seedUsers, processBatch): the pauses of a chunked
    run do not depend on what the remote service answers.  For a batch
    size of at least 1 the run returns normally and has awaited, for
    each planned batch in order, one 50 ms pause per sub-chunk of at
    most 100 records (none when the generator raised) and then one
    200 ms pause. *)
Theorem chunked_pacing_is_fixed (r : RState rm) :
  let total := Config.totalUsers (Config.seeding config) in
  let batch := Config.batchSize (Config.seeding config) in
  1 <= batch ->
  after (seedUsers host config) (new_world r)
        (fun res w =>
           res = Ok tt
           /\ rev (sleeps w)
              = flat_map (batch_pauses host) (plan total batch)).
Proof.
  intros total batch _.
  pose proof (chunked_seedUsers_pauses (new_world r)) as H.
  cbv zeta in H. fold total batch in H.
  unfold finishes, after, appends in *.
  destruct (seedUsers host config (new_world r)) as [res w];
    cbn [fst snd] in *.
  destruct H as [-> H]. split; [reflexivity |].
  rewrite H. cbn [new_world sleeps]. rewrite app_nil_r.
  apply rev_involutive.
Qed.

End ChunkedPacing.

Lemma chunked_pacing_is_fixed_witness :
  1 <= 120
  /\ Inv.after
       (BatchSeeder.seedUsers Stubs.faulty_host (Stubs.configured 250 120 1))
       (@Runtime.new_world Stubs.rejecting O)
       (fun res w =>
          res = Runtime.Ok tt
          /\ rev (Runtime.sleeps w) = [50; 50; 200; 200; 50; 200]).
Proof.
  split; [lia |].
  pose proof (chunked_pacing_is_fixed (rm:=Stubs.rejecting)
                Stubs.faulty_host (Stubs.configured 250 120 1) O
                ltac:(cbn; lia)) as H.
  unfold Inv.after in *. destruct H as [H1 H2].
  split; [exact H1 |]. rewrite H2. reflexivity.
Defined.

Section LoggedFacts.
Import Runtime Inv Probe.
Context {rm : Remote}.

Lemma callCreateUser_logged u (w : World (logged rm)) :
  after (callCreateUser u) w
        (fun _ w' => appends log [request_of u] w w').
Proof.
  unfold after, callCreateUser, appends, log.
  cbn [admin_createUser logged].
  destruct (admin_createUser rm (fst (remote w)) (request_of u))
    as [r' [e|]]; reflexivity.
Qed.

(** [createUser] of the chunked runner; the concurrent runner's is the
    same function. *)
Lemma createUser_logged u (w : World (logged rm)) :
  after (BatchSeeder.createUser u) w
        (fun _ w' => appends log [request_of u] w w').
Proof.
  unfold BatchSeeder.createUser. apply after_try_catch.
  pose proof (callCreateUser_logged u w) as H. unfold after in *.
  destruct (callCreateUser u w) as [[a|e] w']; cbn [fst snd] in *; auto.
Qed.

Lemma allSettled_logged users :
  forall w : World (logged rm),
    after (allSettled BatchSeeder.createUser users) w (fun r w' =>
      exists rs, r = Ok rs
                 /\ appends log (map request_of users) w w').
Proof.
  induction users as [|u users IH]; intros w.
  - exists []. split; reflexivity.
  - cbn [allSettled]. apply after_bind.
    pose proof (createUser_logged u w) as H1.
    unfold after at 1, settle. unfold after in H1.
    assert (G : forall s w1,
               appends log [request_of u] w w1 ->
               after (bind (allSettled BatchSeeder.createUser users)
                           (fun ss => ret (s :: ss)))
                     w1 (fun r w' =>
                 exists rs, r = Ok rs
                            /\ appends log (map request_of (u :: users))
                                       w w')).
    { intros s w1 A1. apply after_bind.
      specialize (IH w1). unfold after in *.
      destruct (allSettled BatchSeeder.createUser users w1) as [r2 w2];
        cbn [fst snd] in *.
      destruct IH as (rs & -> & A2).
      exists (s :: rs). split; [reflexivity |].
      unfold ret; cbn [snd map].
      exact (appends_trans log [request_of u] _ _ _ _ A1 A2). }
    destruct (BatchSeeder.createUser u w) as [[[]|e] w1];
      cbn [fst snd] in *; now apply G.
Qed.

End LoggedFacts.

Section ChunkedRequests.
Import Runtime Inv Probe BatchSeeder.
Context {rm : Remote}.
Variable host : Host.
Variable config : Config.Config.

Lemma processChunk_logged users i (w : World (logged rm)) :
  finishes (processChunk users i) w
           (appends log (map request_of (slice i (i + chunkSize) users))).
Proof.
  unfold processChunk. apply after_bind.
  pose proof (allSettled_logged (slice i (i + chunkSize) users) w) as H.
  unfold after in H |- *.
  destruct (allSettled createUser _ w) as [r w1]; cbn [fst snd] in *.
  destruct H as (rs & -> & A).
  unfold bind, addProcessedUsers, addErrors, delay.
  cbn [fst snd]. split; [reflexivity | exact A].
Qed.

Lemma skipn_chunk {A} (i : nat) (l : list A) :
  skipn i l = (slice i (i + chunkSize) l ++ skipn (i + chunkSize) l)%list.
Proof.
  unfold slice. replace (i + chunkSize - i)%nat with chunkSize by lia.
  rewrite <- (firstn_skipn chunkSize (skipn i l)) at 1.
  rewrite skipn_skipn. now rewrite (Nat.add_comm chunkSize i).
Qed.

Lemma chunkLoop_logged fuel users :
  forall i (w : World (logged rm)),
    (List.length users - i <= fuel)%nat ->
    finishes (chunkLoop fuel users i) w
             (appends log (map request_of (skipn i users))).
Proof.
  induction fuel as [|fuel IH]; intros i w Hf; cbn [chunkLoop].
  - rewrite skipn_all2 by lia.
    split; [reflexivity | apply appends_nil].
  - destruct (Nat.ltb_spec i (List.length users)) as [Hi|Hi].
    + apply after_bind.
      pose proof (processChunk_logged users i w) as H1.
      unfold finishes, after in H1 |- *.
      destruct (processChunk users i w) as [r1 w1]; cbn [fst snd] in *.
      destruct H1 as [-> A1].
      assert (Hf' : (List.length users - (i + chunkSize) <= fuel)%nat)
        by (unfold chunkSize; lia).
      specialize (IH (i + chunkSize)%nat w1 Hf').
      unfold finishes, after in IH.
      destruct (chunkLoop fuel users (i + chunkSize) w1) as [r2 w2];
        cbn [fst snd] in *.
      destruct IH as [-> A2]. split; [reflexivity |].
      rewrite (skipn_chunk i users), map_app.
      exact (appends_trans log _ _ _ _ _ A1 A2).
    + rewrite skipn_all2 by lia.
      split; [reflexivity | apply appends_nil].
Qed.

Lemma processBatch_logged b size (w : World (logged rm)) :
  finishes (processBatch host config b size) w
           (appends log (batch_requests host config (b, size))).
Proof.
  unfold processBatch, batch_requests; cbn [fst snd]. apply after_bind.
  unfold after at 1, enterBatch; cbn [fst snd].
  apply after_try_catch. unfold callGenerate.
  destruct (gen_fault host b) as [e|].
  - apply after_bind. unfold after at 1, throw; cbn [fst snd].
    unfold after, addErrors, appends; cbn. auto.
  - apply after_bind. unfold after at 1, ret; cbn [fst snd].
    set (users := Utils.generateUserBatch _ _ _ _).
    set (w0 := Build_World (logged rm) _ _ _ _ _ _).
    pose proof (chunkLoop_logged (List.length users) users 0%nat w0
                  ltac:(lia)) as H1.
    unfold finishes, after in H1 |- *.
    destruct (chunkLoop _ users 0%nat w0) as [r1 w1]; cbn [fst snd] in *.
    destruct H1 as [-> A1]. split; [reflexivity | exact A1].
Qed.

Lemma chunked_seedUsers_logged (w : World (logged rm)) :
  let total := Config.totalUsers (Config.seeding config) in
  let batch := Config.batchSize (Config.seeding config) in
  finishes (seedUsers host config) w
           (appends log (planned_requests host config (plan total batch))).
Proof.
  intros total batch. unfold seedUsers. fold total batch.
  unfold planned_requests, plan. rewrite flat_map_map.
  apply (forEach_appends log). intros i w0 _.
  apply after_bind.
  pose proof (processBatch_logged i (size_at total batch i) w0) as H1.
  unfold finishes, after in H1 |- *. unfold size_at in *.
  destruct (processBatch host config i _ w0) as [r1 w1];
    cbn [fst snd] in *.
  destruct H1 as [-> A1]. split; [reflexivity | exact A1].
Qed.

Lemma planned_requests_length (calls : list (Z * Z)) :
  (forall b, gen_fault host b = None) ->
  (forall call, In call calls -> 0 <= snd call) ->
  Z.of_nat (List.length (planned_requests host config calls))
  = sum (map snd calls).
Proof.
  intros NF. induction calls as [|c calls IH]; intros Hs; [reflexivity |].
  unfold planned_requests in *. cbn [flat_map map sum fold_right].
  rewrite length_app, Nat2Z.inj_add, IH
    by (intros c' Hc'; apply Hs; now right).
  unfold batch_requests at 1. rewrite NF.
  rewrite length_map, generateUserBatch_length.
  specialize (Hs c (or_introl eq_refl)). unfold sum. lia.
Qed.

Lemma plan_sizes (total batch : Z) :
  0 <= total -> 1 <= batch ->
  (forall call, In call (plan total batch) -> 0 <= snd call)
  /\ sum (map snd (plan total batch)) = total.
Proof.
  intros Ht Hb. split.
  - intros call Hc. unfold plan in Hc. apply in_map_iff in Hc.
    destruct Hc as (i & <- & Hi). apply in_batch_indices in Hi.
    pose proof (size_at_bounds total batch i Hb Hi). cbn [snd]. lia.
  - unfold plan. rewrite map_map. cbn [snd].
    now apply sum_sizes.
Qed.

(** X5 (BatchSeeder.seedUsers, processBatch, createUser): whatever the
    remote service answers, a chunked run with a batch size of at least
    1 sends it one request for each record of each planned batch whose
    generator did not raise, in generation order, and nothing else;
    when no generator raises and [totalUsers >= 0] these are exactly
    [totalUsers] requests. *)
Theorem chunked_run_sends_each_record_once (r : RState rm) :
  let total := Config.totalUsers (Config.seeding config) in
  let batch := Config.batchSize (Config.seeding config) in
  1 <= batch ->
  after (seedUsers host config) (@new_world (logged rm) (r, []))
        (fun res w =>
           res = Ok tt
           /\ received w
              = planned_requests host config (plan total batch)
           /\ ((forall b, gen_fault host b = None) -> 0 <= total ->
               Z.of_nat (List.length (received w)) = total)).
Proof.
  intros total batch Hb.
  pose proof (chunked_seedUsers_logged (@new_world (logged rm) (r, [])))
    as H.
  cbv zeta in H. fold total batch in H.
  unfold finishes, after, appends in *.
  destruct (seedUsers host config (new_world _)) as [res w];
    cbn [fst snd] in *.
  destruct H as [-> H]. split; [reflexivity |].
  assert (E : received w
              = planned_requests host config (plan total batch)).
  { unfold received. rewrite H. unfold log; cbn [new_world remote snd].
    rewrite app_nil_r. apply rev_involutive. }
  split; [exact E |]. intros NF Ht. rewrite E.
  destruct (plan_sizes total batch Ht Hb) as [P1 P2].
  now rewrite planned_requests_length.
Qed.

End ChunkedRequests.

Lemma chunked_run_sends_each_record_once_witness :
  1 <= 2
  /\ Inv.after
       (BatchSeeder.seedUsers Stubs.calm_host (Stubs.configured 3 2 1))
       (@Runtime.new_world (Probe.logged Stubs.rejecting) (O, []))
       (fun res w =>
          res = Runtime.Ok tt
          /\ map Runtime.req_email (Probe.received w)
             = ["john.smith.1700000000000-0@example.com";
                "john.smith.1700000000000-1@example.com";
                "john.smith.1700000001000-0@example.com"]).
Proof.
  split; [lia |].
  pose proof (chunked_run_sends_each_record_once (rm:=Stubs.rejecting)
                Stubs.calm_host (Stubs.configured 3 2 1) O
                ltac:(cbn; lia)) as H.
  unfold Inv.after in *. destruct H as (H1 & H2 & _).
  split; [exact H1 |].
  refine (eq_trans (f_equal (map Runtime.req_email) H2) _).
  vm_compute. reflexivity.
Defined.

(* ================================================================== *)
(** ** conservative-seeder.ts *)

Section RetryTrace.
Import Runtime Inv Probe ConservativeSeeder.
Context {rm : Remote}.

Lemma retryLoop_trace fuel u maxRetries :
  forall attempt (w : World (logged rm)),
    after (retryLoop fuel u maxRetries attempt) w (fun r w' =>
      exists k j : nat,
        (k <= fuel)%nat
        /\ appends log (repeat (request_of u) k) w w'
        /\ appends sleeps (backoffs_from attempt j) w w'
        /\ ((j = (k - 1)%nat /\ (1 <= k)%nat /\ attempt <= maxRetries)
            \/ (j = k /\ r = Ok tt
                /\ (k = fuel \/ maxRetries < attempt + Z.of_nat k)
                /\ ((1 <= k)%nat ->
                    attempt + Z.of_nat k <= maxRetries)))).
Proof.
  induction fuel as [|fuel IH]; intros attempt w; cbn [retryLoop].
  - exists O, O. unfold after, ret; cbn [fst snd].
    split; [lia |]. split; [reflexivity |]. split; [reflexivity |].
    right. repeat split; auto; lia.
  - destruct (Z.leb_spec attempt maxRetries) as [Ha|Ha].
    + unfold after, bind. rewrite attemptOnce_eq.
      cbn [admin_createUser logged].
      destruct (admin_createUser rm (fst (remote w)) (request_of u))
        as [r' [e|]].
      * destruct (isNetworkError e && (attempt <? maxRetries)) eqn:N.
        -- apply andb_true_iff in N. destruct N as [_ N].
           apply Z.ltb_lt in N.
           set (w1 := Build_World (logged rm) _ _ _ _ _ _).
           specialize (IH (attempt + 1) w1). unfold after in IH.
           destruct (retryLoop fuel u maxRetries (attempt + 1) w1)
             as [r2 w2]; cbn [fst snd] in *.
           destruct IH as (k & j & Hk & L & P & D).
           exists (S k), (S j). split; [lia |].
           split; [| split].
           ++ exact (appends_trans log [request_of u] _ w w1 w2
                       eq_refl L).
           ++ exact (appends_trans sleeps [attempt * 1000] _ w w1 w2
                       eq_refl P).
           ++ destruct D as [(-> & K1 & K2) | (-> & -> & K1 & K2)].
              ** left. repeat split; lia.
              ** right. repeat split; try lia;
                   intros _; destruct k as [|k]; lia.
        -- exists 1%nat, O. cbn [fst snd].
           split; [lia |]. split; [reflexivity |].
           split; [reflexivity |]. left. repeat split; lia.
      * exists 1%nat, O. cbn [fst snd].
        split; [lia |]. split; [reflexivity |].
        split; [reflexivity |]. left. repeat split; lia.
    + exists O, O. unfold after, ret; cbn [fst snd].
      split; [lia |]. split; [reflexivity |]. split; [reflexivity |].
      right. repeat split; auto; lia.
Qed.

Lemma createUserWithRetry_trace u maxRetries (w : World (logged rm)) :
  after (createUserWithRetry u maxRetries) w (fun r w' =>
    exists k : nat,
      Z.of_nat k <= Z.max 0 maxRetries
      /\ appends log (repeat (request_of u) k) w w'
      /\ appends sleeps (backoffs_from 1 (k - 1)) w w'
      /\ quiet w w'
      /\ (k = O <-> maxRetries <= 0)
      /\ (maxRetries <= 0 -> r = Ok tt)).
Proof.
  unfold createUserWithRetry.
  pose proof (retryLoop_trace (Z.to_nat maxRetries) u maxRetries 1 w) as H.
  pose proof (retryLoop_quiet (Z.to_nat maxRetries) u maxRetries 1 w) as Q.
  unfold after in *.
  destruct (retryLoop (Z.to_nat maxRetries) u maxRetries 1 w) as [r w'];
    cbn [fst snd] in *.
  destruct H as (k & j & Hk & L & P & D).
  exists k. split; [lia |]. split; [exact L |].
  destruct D as [(-> & K1 & K2) | (-> & -> & K1 & K2)].
  - split; [exact P |]. split; [exact Q |]. split; [lia | lia].
  - assert (k = O) by (destruct k as [|k]; [reflexivity | lia]).
    subst k. split; [exact P |]. split; [exact Q |].
    split; [| reflexivity]. split; [lia | reflexivity].
Qed.

(** X6 (createUserWithRetry): for any remote service, any record and
    any [maxRetries], the call sends the record's request [k] times
    with [k <= max(0, maxRetries)], pauses [1000 * j] ms after the
    failed attempt [j] for [j = 1, ..., k - 1] and touches no counter;
    with [maxRetries <= 0] it returns normally without calling the
    service at all. *)
Theorem retry_attempts_and_backoff u maxRetries (w : World (logged rm)) :
  after (createUserWithRetry u maxRetries) w (fun r w' =>
    exists k : nat,
      Z.of_nat k <= Z.max 0 maxRetries
      /\ log w' = (repeat (request_of u) k ++ log w)%list
      /\ sleeps w' = (rev (backoffs_from 1 (k - 1)) ++ sleeps w)%list
      /\ quiet w w'
      /\ (k = O <-> maxRetries <= 0)
      /\ (maxRetries <= 0 -> r = Ok tt)).
Proof.
  pose proof (createUserWithRetry_trace u maxRetries w) as H.
  unfold after, appends in *.
  destruct H as (k & H1 & H2 & H3 & H4 & H5 & H6).
  exists k. rewrite rev_repeat in H2. auto 10.
Qed.

Lemma processUser_logged u (w : World (logged rm)) :
  finishes (processUser u) w
           (fun w w' => exists l,
                (exists k, tries k /\ l = repeat (request_of u) k)
                /\ appends log l w w').
Proof.
  unfold processUser, defaultMaxRetries.
  pose proof (createUserWithRetry_trace u 3 w) as H.
  unfold finishes, after, try_catch, bind in *.
  destruct (createUserWithRetry u 3 w) as [[[]|e] w1]; cbn [fst snd] in *;
    destruct H as (k & H1 & H2 & _ & _ & H5 & _);
    (split; [reflexivity |]);
    exists (repeat (request_of u) k);
    (split; [exists k; split; [unfold tries; lia | reflexivity] |]);
    exact H2.
Qed.

End RetryTrace.

Section RepeatedFacts.
Import Probe.

Lemma repeated_app {A} (q1 q2 : list A) :
  forall ks1 ks2,
    List.length ks1 = List.length q1 ->
    repeated (q1 ++ q2) (ks1 ++ ks2)
    = (repeated q1 ks1 ++ repeated q2 ks2)%list.
Proof.
  induction q1 as [|q q1 IH]; intros [|k ks1] ks2 L; cbn in L;
    try discriminate; [reflexivity |].
  cbn [app repeated]. rewrite IH by lia. now rewrite app_assoc.
Qed.

Lemma repeated_length_bounds {A} (qs : list A) :
  forall ks,
    List.length ks = List.length qs -> Forall tries ks ->
    (List.length qs <= List.length (repeated qs ks)
     <= 3 * List.length qs)%nat.
Proof.
  induction qs as [|q qs IH]; intros [|k ks] L F; cbn in L;
    try discriminate; [cbn; lia |].
  inversion F as [|? ? Hk F']; subst.
  specialize (IH ks ltac:(lia) F'). unfold tries in Hk.
  cbn [repeated List.length]. rewrite length_app, repeat_length. lia.
Qed.

Lemma concat_repeated {A B} (f : A -> B) (xs : list A) ls :
  Forall2 (fun x l => exists k, tries k /\ l = repeat (f x) k) xs ls ->
  exists ks,
    List.length ks = List.length xs /\ Forall tries ks
    /\ List.concat ls = repeated (map f xs) ks.
Proof.
  induction 1 as [|x l xs ls (k & Hk & ->) _ (ks & L & F & E)].
  - exists []. repeat split; constructor.
  - exists (k :: ks). split; [cbn; lia |].
    split; [now constructor |].
    cbn [List.concat map repeated]. now rewrite E.
Qed.

Lemma concat_repeated_blocks {A B} (g : A -> list B) (xs : list A) ls :
  Forall2 (fun x l => exists ks,
               List.length ks = List.length (g x) /\ Forall tries ks
               /\ l = repeated (g x) ks) xs ls ->
  exists ks,
    List.length ks = List.length (flat_map g xs) /\ Forall tries ks
    /\ List.concat ls = repeated (flat_map g xs) ks.
Proof.
  induction 1 as [|x l xs ls (k1 & L1 & F1 & ->) _ (ks & L & F & E)].
  - exists []. repeat split; constructor.
  - exists (k1 ++ ks)%list. split; [| split].
    + cbn [flat_map]. rewrite !length_app. lia.
    + apply Forall_app. now split.
    + cbn [List.concat flat_map]. rewrite E. now rewrite repeated_app.
Qed.

End RepeatedFacts.

Section ConservativeRequests.
Import Runtime Inv Probe ConservativeSeeder.
Context {rm : Remote}.
Variable host : Host.
Variable config : Config.Config.

Lemma processBatchConservative_logged b size (w : World (logged rm)) :
  finishes (processBatchConservative host config b size) w
    (fun w w' => exists l,
         (exists ks,
             List.length ks
             = List.length (batch_requests host config (b, size))
             /\ Forall tries ks
             /\ l = repeated (batch_requests host config (b, size)) ks)
         /\ appends log l w w').
Proof.
  unfold processBatchConservative, batch_requests; cbn [fst snd].
  apply after_bind. unfold after at 1, enterBatch; cbn [fst snd].
  apply after_try_catch. unfold callGenerate.
  destruct (gen_fault host b) as [e|].
  - apply after_bind. unfold after at 1, throw; cbn [fst snd].
    unfold after, addErrors; cbn [fst snd]. split; [reflexivity |].
    exists []. split; [| reflexivity].
    exists []. repeat split; constructor.
  - apply after_bind. unfold after at 1, ret; cbn [fst snd].
    set (users := Utils.generateUserBatch _ _ _ _).
    set (w0 := Build_World (logged rm) _ _ _ _ _ _).
    pose proof (forEach_appends_some log users processUser
                  (fun u l => exists k,
                       tries k /\ l = repeat (request_of u) k)
                  (fun u w1 _ => processUser_logged u w1) w0) as H1.
    unfold finishes, after in H1 |- *.
    destruct (forEach users processUser w0) as [r1 w1]; cbn [fst snd] in *.
    destruct H1 as [-> (ls & F2 & A1)]. split; [reflexivity |].
    destruct (concat_repeated request_of users ls F2) as (ks & L & F & E).
    exists (List.concat ls). split; [| exact A1].
    exists ks. rewrite length_map. auto.
Qed.

Lemma conservative_seedUsers_logged (w : World (logged rm)) :
  let total := Config.totalUsers (Config.seeding config) in
  let batch := Z.min (Config.batchSize (Config.seeding config)) 100 in
  let planned := planned_requests host config (plan total batch) in
  finishes (seedUsers host config) w
    (fun w w' => exists ks,
         List.length ks = List.length planned /\ Forall tries ks
         /\ appends log (repeated planned ks) w w').
Proof.
  intros total batch planned. unfold seedUsers. fold total batch.
  set (body := fun batchIndex : Z => _).
  pose proof (forEach_appends_some log
                (batch_indices (Num.ceil_div total batch)) body
                (fun i l => exists ks,
                     List.length ks
                     = List.length
                         (batch_requests host config
                            (i, size_at total batch i))
                     /\ Forall tries ks
                     /\ l = repeated
                              (batch_requests host config
                                 (i, size_at total batch i)) ks)) as H.
  assert (B : forall i w0,
             In i (batch_indices (Num.ceil_div total batch)) ->
             finishes (body i) w0
               (fun w w' => exists l,
                    (exists ks,
                        List.length ks
                        = List.length
                            (batch_requests host config
                               (i, size_at total batch i))
                        /\ Forall tries ks
                        /\ l = repeated
                                 (batch_requests host config
                                    (i, size_at total batch i)) ks)
                    /\ appends log l w w')).
  { intros i w0 _. subst body. cbv beta. apply after_bind.
    pose proof (processBatchConservative_logged i (size_at total batch i)
                  w0) as H1.
    unfold finishes, after in H1 |- *. unfold size_at in *.
    destruct (processBatchConservative host config i _ w0) as [r1 w1];
      cbn [fst snd] in *.
    destruct H1 as [-> H1].
    destruct (i <? Num.ceil_div total batch - 1);
      (split; [reflexivity | exact H1]). }
  specialize (H B w). clear B.
  unfold finishes, after in H |- *.
  destruct (forEach _ body w) as [r1 w1]; cbn [fst snd] in *.
  destruct H as [-> (ls & F2 & A)]. split; [reflexivity |].
  destruct (concat_repeated_blocks
              (fun i => batch_requests host config
                          (i, size_at total batch i)) _ ls F2)
    as (ks & L & F & E).
  exists ks. subst planned. unfold planned_requests, plan.
  rewrite flat_map_map. split; [exact L |]. split; [exact F |].
  now rewrite <- E.
Qed.

(** X7 (ConservativeSeeder.seedUsers, processBatchConservative,
    createUserWithRetry): whatever the remote service answers, a
    conservative run with a batch size of at least 1 returns normally
    and has sent the requests of the planned batches (of the capped
    size [min(batchSize, 100)]) in generation order, each one between
    one and three times in a row; when no generator raises and
    [totalUsers >= 0] it has made between [totalUsers] and
    [3 * totalUsers] calls. *)
Theorem conservative_run_tries_each_record_in_turn (r : RState rm) :
  let total := Config.totalUsers (Config.seeding config) in
  let batch := Z.min (Config.batchSize (Config.seeding config)) 100 in
  let planned := planned_requests host config (plan total batch) in
  1 <= Config.batchSize (Config.seeding config) ->
  after (seedUsers host config) (@new_world (logged rm) (r, []))
        (fun res w =>
           res = Ok tt
           /\ (exists ks,
                  List.length ks = List.length planned
                  /\ Forall tries ks
                  /\ received w = repeated planned ks)
           /\ ((forall b, gen_fault host b = None) -> 0 <= total ->
               total <= Z.of_nat (List.length (received w)) <= 3 * total)).
Proof.
  intros total batch planned Hb.
  pose proof (conservative_seedUsers_logged
                (@new_world (logged rm) (r, []))) as H.
  cbv zeta in H. fold total batch planned in H.
  unfold finishes, after, appends in *.
  destruct (seedUsers host config (new_world _)) as [res w];
    cbn [fst snd] in *.
  destruct H as [-> (ks & L & F & H)]. split; [reflexivity |].
  assert (E : received w = repeated planned ks).
  { unfold received. rewrite H. unfold log; cbn [new_world remote snd].
    rewrite app_nil_r. apply rev_involutive. }
  split; [exists ks; auto |].
  intros NF Ht. rewrite E.
  pose proof (repeated_length_bounds planned ks L F) as B.
  assert (Hb' : 1 <= batch) by (unfold batch; lia).
  destruct (plan_sizes total batch Ht Hb') as [P1 P2].
  pose proof (planned_requests_length host config (plan total batch)
                NF P1) as PL.
  fold planned in PL. rewrite P2 in PL. lia.
Qed.

End ConservativeRequests.

Lemma conservative_run_tries_each_record_in_turn_witness :
  1 <= 2
  /\ Inv.after
       (ConservativeSeeder.seedUsers Stubs.calm_host
          (Stubs.configured 3 2 1))
       (@Runtime.new_world (Probe.logged Stubs.reset_twice) (O, []))
       (fun res w =>
          res = Runtime.Ok tt
          /\ (exists ks,
                 Forall Probe.tries ks
                 /\ map Runtime.req_email (Probe.received w)
                    = Probe.repeated
                        ["john.smith.1700000000000-0@example.com";
                         "john.smith.1700000000000-1@example.com";
                         "john.smith.1700000001000-0@example.com"] ks)
          /\ List.length (Probe.received w) = 9%nat).
Proof.
  split; [lia |].
  pose proof (conservative_run_tries_each_record_in_turn
                (rm:=Stubs.reset_twice)
                Stubs.calm_host (Stubs.configured 3 2 1) O
                ltac:(cbn; lia)) as H.
  unfold Inv.after in *. destruct H as (H1 & _ & _).
  split; [exact H1 |]. split.
  - exists [3; 3; 3]%nat. split.
    + repeat constructor.
    + vm_compute. reflexivity.
  - vm_compute. reflexivity.
Defined.

Section RetryExhaustion.
Import Runtime Inv ConservativeSeeder.
Context {rm : Remote}.

Lemma createUserWithRetry_gives_up u (w : World rm) r1 r2 r3 e1 e2 e3 :
  admin_createUser rm (remote w) (request_of u) = (r1, Some e1) ->
  isNetworkError e1 = true ->
  admin_createUser rm r1 (request_of u) = (r2, Some e2) ->
  isNetworkError e2 = true ->
  admin_createUser rm r2 (request_of u) = (r3, Some e3) ->
  createUserWithRetry u 3 w
  = (Thrown e3,
     Build_World rm r3 (processedUsers w) (errors w)
                 (2000 :: 1000 :: sleeps w) (dispatched w) (history w)).
Proof.
  intros A1 N1 A2 N2 A3. unfold createUserWithRetry.
  change (Z.to_nat 3) with 3%nat. cbn [retryLoop].
  change (1 <=? 3) with true. cbv iota. unfold bind at 1.
  rewrite attemptOnce_eq, A1, N1. cbn [andb Z.ltb Z.compare Pos.compare
    Pos.compare_cont remote processedUsers errors sleeps dispatched
    history].
  change (1 + 1 <=? 3) with true. cbv iota. unfold bind at 1.
  rewrite attemptOnce_eq. cbn [remote]. rewrite A2, N2.
  change (1 + 1 <? 3) with true. cbn [andb].
  change (1 + 1 + 1 <=? 3) with true. cbv iota. unfold bind at 1.
  rewrite attemptOnce_eq. cbn [remote]. rewrite A3.
  change (1 + 1 + 1 <? 3) with false. rewrite andb_false_r.
  reflexivity.
Qed.

(** X8 (createUserWithRetry, processBatchConservative): when the
    remote service fails a record three times in a row, the first two
    failures being transient, the third error is thrown after pauses of
    1000 and 2000 ms and no further call, also when it is transient
    itself; the batch loop then counts one error for the record, leaves
    [processedUsers] alone and skips the 100 ms pause that follows a
    created record. *)
Theorem retries_run_out_after_three_calls
        u (w : World rm) r1 r2 r3 e1 e2 e3 :
  admin_createUser rm (remote w) (request_of u) = (r1, Some e1) ->
  transient e1 ->
  admin_createUser rm r1 (request_of u) = (r2, Some e2) ->
  transient e2 ->
  admin_createUser rm r2 (request_of u) = (r3, Some e3) ->
  createUserWithRetry u defaultMaxRetries w
  = (Thrown e3,
     Build_World rm r3 (processedUsers w) (errors w)
                 (2000 :: 1000 :: sleeps w) (dispatched w) (history w))
  /\ processUser u w
     = (Ok tt,
        Build_World rm r3 (processedUsers w) (errors w + 1)
                    (2000 :: 1000 :: sleeps w) (dispatched w)
                    ((processedUsers w, errors w + 1) :: history w)).
Proof.
  intros A1 N1 A2 N2 A3.
  apply isNetworkError_transient in N1, N2.
  pose proof (createUserWithRetry_gives_up u w r1 r2 r3 e1 e2 e3
                A1 N1 A2 N2 A3) as H.
  split; [exact H |].
  unfold processUser, try_catch, bind, defaultMaxRetries.
  rewrite H. reflexivity.
Qed.

End RetryExhaustion.

Lemma retries_run_out_after_three_calls_witness :
  let timeout := Runtime.ErrorObject "connect ETIMEDOUT 10.0.0.1:443" in
  let rm := Stubs.counting (fun _ => Some timeout) in
  let u := Utils.generateUser (Runtime.gen_env Stubs.calm_host 0)
                              "example.com" "password123" 0 in
  Inv.transient timeout
  /\ ConservativeSeeder.processUser u (@Runtime.new_world rm O)
     = (Runtime.Ok tt,
        Runtime.Build_World rm 3%nat 0 1 [2000; 1000] [] [(0, 1)]).
Proof.
  intros timeout rm u.
  assert (T : Inv.transient timeout).
  { exists "connect ETIMEDOUT 10.0.0.1:443". split; [reflexivity |].
    left. reflexivity. }
  split; [exact T |].
  exact (proj2 (retries_run_out_after_three_calls (rm:=rm) u
                  (@Runtime.new_world rm O) 1%nat 2%nat 3%nat
                  timeout timeout timeout
                  eq_refl T eq_refl T eq_refl)).
Defined.

(* ================================================================== *)
(** ** seeder.ts *)

Section ConcurrentProgress.
Import Runtime Inv Seeder.
Context {rm : Remote}.
Variable host : Host.
Variable config : Config.Config.

Lemma occupied_of_not_all_null sem :
  forallb is_null sem = false ->
  exists j sl, nth_error sem j = Some (Some sl).
Proof.
  intros F. destruct (occupied sem) as [|n] eqn:O.
  - apply occupied_zero in O. congruence.
  - eapply occupied_pos; eauto.
Qed.

Lemma fire_enabled (s : State rm) :
  phase s = Finished
  \/ exists e s', fire host config e s = Some s'.
Proof.
  destruct (phase s) eqn:P; [| | | now left]; right.
  - destruct (currentBatch s <? batches config) eqn:C.
    + destruct (0 <? availableSlots (semaphore s)) eqn:A.
      * exists EDispatch. cbn [fire]. rewrite P. unfold dispatch.
        rewrite C, A. cbn [andb].
        apply Z.ltb_lt in A. apply availableSlots_pos in A.
        destruct A as [j ->].
        destruct (processBatch_begin host config _ _ (world s)) as [r w].
        eexists. reflexivity.
      * exists ESleep. cbn [fire]. rewrite P, C, A. cbn [andb negb].
        eexists. reflexivity.
    + exists EJoin. cbn [fire]. rewrite P, C. eauto.
  - exists EWake. cbn [fire]. rewrite P. eauto.
  - destruct (forallb is_null (semaphore s)) eqn:F.
    + exists EFinish. cbn [fire]. rewrite P, F. eauto.
    + apply occupied_of_not_all_null in F. destruct F as (j & sl & N).
      destruct sl as [b rs | b].
      * exists (ETally j). cbn [fire]. rewrite P. cbn [suspended].
        unfold tally. rewrite N.
        destruct (processBatch_resume rs (world s)) as [r w].
        eexists. reflexivity.
      * exists (ERelease j). cbn [fire]. rewrite P. cbn [suspended].
        unfold release. rewrite N. eauto.
Qed.

(** X9 (AuthUserSeeder.seedUsers, processBatch): the concurrent run
    cannot get stuck.  In every state that is not past [finishSeeding]
    some task can take its next step: the loop can start a batch, pause
    or go on to [Promise.all], the pause can end, a batch can resume
    after [Promise.allSettled] or free its slot, or the run can
    finish. *)
Theorem concurrent_run_never_blocks (s : State rm) :
  phase s = Finished
  \/ exists (e : Event) (s' : State rm), fire host config e s = Some s'.
Proof. exact (fire_enabled s). Qed.

(** A run with an empty slot array only sleeps and wakes. *)
Lemma fire_idle (r : RState rm) e (s s' : State rm) :
  0 < batches config ->
  Probe.idle r s -> fire host config e s = Some s' -> Probe.idle r s'.
Proof.
  intros Hb (Sem & Cb & Ph & Rm & Pu & Er & Di & n & Sl) F.
  assert (C : (currentBatch s <? batches config) = true)
    by (apply Z.ltb_lt; lia).
  unfold Probe.idle.
  destruct e; cbn [fire] in F.
  - destruct (phase s); try discriminate.
    unfold dispatch in F. rewrite C, Sem in F. cbn in F. discriminate.
  - destruct (phase s); try discriminate.
    rewrite C in F.
    destruct (negb (0 <? availableSlots (semaphore s))); cbn [andb] in F;
      [| discriminate].
    injection F as <-. cbn.
    repeat (split; [assumption || auto |]).
    exists (S n). now rewrite Sl.
  - destruct (phase s); try discriminate.
    injection F as <-. cbn. eauto 12.
  - destruct (phase s); try discriminate.
    rewrite C in F. discriminate.
  - destruct (suspended (phase s)); [| discriminate].
    unfold tally in F. rewrite Sem in F.
    destruct slotIndex; discriminate.
  - destruct (suspended (phase s)); [| discriminate].
    unfold release in F. rewrite Sem in F.
    destruct slotIndex; discriminate.
  - destruct Ph as [Ph|Ph]; rewrite Ph in F; discriminate.
Qed.

Lemma run_idle (r : RState rm) es :
  forall s s' : State rm,
    0 < batches config ->
    Probe.idle r s -> run host config es s = Some s' -> Probe.idle r s'.
Proof.
  induction es as [|e es IH]; intros a b Hb Ja R.
  - cbn in R. now injection R as <-.
  - cbn [run] in R. destruct (fire host config e a) as [a'|] eqn:F;
      [| discriminate].
    eapply IH; [exact Hb | | exact R].
    eapply fire_idle; eauto.
Qed.

(** Without a slot every reachable state is idle. *)
Lemma reachable_idle (r : RState rm) (s : State rm) :
  concurrentBatches config = 0 ->
  1 <= totalUsers config -> 1 <= batchSize config ->
  reachable host config r s -> Probe.idle r s.
Proof.
  intros Hc Ht Hb (s0 & es & St & Run).
  assert (B : 0 < batches config).
  { unfold batches. apply (lt_ceil_div _ _ 0); [exact Hb |].
    fold (totalUsers config). lia. }
  assert (J0 : Probe.idle r s0).
  { unfold start in St. rewrite Hc in St. cbn in St.
    injection St as <-. unfold Probe.idle. cbn.
    repeat (split; auto). now exists O. }
  exact (run_idle r es s0 s B J0 Run).
Qed.

(** X10 (AuthUserSeeder.seedUsers): with [concurrentBatches = 0] and
    at least one record to create the run never ends and never starts
    a batch: in every reachable state the loop is running or sleeping,
    [currentBatch] is 0, nothing was sent to the remote service, both
    counters are 0, every pause taken was the loop's 100 ms pause, and
    a next step is always possible. *)
Theorem no_slot_means_no_progress (r : RState rm) (s : State rm) :
  concurrentBatches config = 0 ->
  1 <= totalUsers config -> 1 <= batchSize config ->
  reachable host config r s ->
  phase s <> Finished
  /\ (phase s = Looping \/ phase s = Sleeping)
  /\ currentBatch s = 0
  /\ remote (world s) = r
  /\ processedUsers (world s) = 0 /\ errors (world s) = 0
  /\ dispatched (world s) = []
  /\ (exists n, sleeps (world s) = repeat 100 n)
  /\ (exists e s', fire host config e s = Some s').
Proof.
  intros Hc Ht Hb (s0 & es & St & Run).
  assert (B : 0 < batches config).
  { unfold batches. apply (lt_ceil_div _ _ 0); [exact Hb |].
    fold (totalUsers config). lia. }
  assert (J0 : Probe.idle r s0).
  { unfold start in St. rewrite Hc in St. cbn in St.
    injection St as <-. unfold Probe.idle. cbn.
    repeat (split; auto). now exists O. }
  pose proof (run_idle r es s0 s B J0 Run) as J.
  destruct J as (Sem & Cb & Ph & Rm & Pu & Er & Di & Sl).
  assert (NF : phase s <> Finished)
    by (destruct Ph as [Ph|Ph]; rewrite Ph; discriminate).
  repeat (split; [assumption |]).
  destruct (fire_enabled s) as [F|F]; [contradiction | exact F].
Qed.

End ConcurrentProgress.

Lemma no_slot_means_no_progress_witness :
  let config := Stubs.configured 3 2 0 in
  exists s : Seeder.State Stubs.always_ok,
    Seeder.reachable Stubs.calm_host config (O : Runtime.RState Stubs.always_ok) s
    /\ Seeder.phase s = Seeder.Sleeping
    /\ Runtime.sleeps (Seeder.world s) = [100; 100]
    /\ Seeder.currentBatch s = 0
    /\ Runtime.remote (Seeder.world s) = O.
Proof.
  intros config.
  assert (R : exists s : Seeder.State Stubs.always_ok,
             Seeder.reachable Stubs.calm_host config
                              (O : Runtime.RState Stubs.always_ok) s
             /\ Seeder.phase s = Seeder.Sleeping
             /\ Runtime.sleeps (Seeder.world s) = [100; 100]).
  { eexists. split; [| split].
    - eexists. exists [Seeder.ESleep; Seeder.EWake; Seeder.ESleep].
      split; [reflexivity |]. vm_compute. reflexivity.
    - reflexivity.
    - reflexivity. }
  destruct R as (s & R & P & S). exists s.
  destruct (no_slot_means_no_progress (rm:=Stubs.always_ok)
              Stubs.calm_host config O s
              eq_refl ltac:(cbn; lia) ltac:(cbn; lia) R)
    as (_ & _ & H3 & H4 & _).
  split; [exact R |]. split; [exact P |]. split; [exact S |].
  split; [exact H3 | exact H4].
Defined.

Section ConcurrentRequests.
Import Runtime Inv Probe Seeder.
Context {rm : Remote}.
Variable host : Host.
Variable config : Config.Config.

Let total := totalUsers config.
Let batch := batchSize config.

Lemma processBatch_begin_logged b size (w : World (logged rm)) :
  after (processBatch_begin host config b size) w
        (fun _ w' => appends log (batch_requests host config (b, size))
                             w w').
Proof.
  unfold processBatch_begin, batch_requests; cbn [fst snd].
  apply after_bind. unfold after at 1, enterBatch; cbn [fst snd].
  apply after_try_catch. unfold callGenerate.
  destruct (gen_fault host b) as [e|].
  - apply after_bind. unfold after at 1, throw; cbn [fst snd].
    unfold after, bind, addErrors, ret; cbn [fst snd]. reflexivity.
  - apply after_bind. unfold after at 1, ret; cbn [fst snd].
    set (users := Utils.generateUserBatch _ _ _ _).
    set (w0 := Build_World (logged rm) _ _ _ _ _ _).
    apply after_bind.
    pose proof (allSettled_logged users w0) as H1.
    unfold after in H1 |- *.
    change (allSettled BatchSeeder.createUser users w0)
      with (allSettled createUser users w0) in H1.
    destruct (allSettled createUser users w0) as [r1 w1];
      cbn [fst snd] in *.
    destruct H1 as (rs & -> & A1). exact A1.
Qed.

Lemma calls_before_succ (k : Z) :
  0 <= k ->
  calls_before total batch (k + 1)
  = (calls_before total batch k ++ [(k, size_at total batch k)])%list.
Proof.
  intros Hk. unfold calls_before.
  now rewrite batch_indices_succ, map_app by assumption.
Qed.

Lemma planned_requests_snoc calls call :
  planned_requests host config (calls ++ [call])
  = (planned_requests host config calls
     ++ batch_requests host config call)%list.
Proof.
  unfold planned_requests. rewrite flat_map_app. cbn [flat_map].
  now rewrite app_nil_r.
Qed.

Lemma fire_logged e (s s' : State (logged rm)) :
  0 <= currentBatch s ->
  received (world s)
  = planned_requests host config
      (calls_before total batch (currentBatch s)) ->
  fire host config e s = Some s' ->
  0 <= currentBatch s'
  /\ received (world s')
     = planned_requests host config
         (calls_before total batch (currentBatch s')).
Proof.
  intros Hc J F. destruct e; cbn [fire] in F.
  - destruct (phase s); try discriminate.
    unfold dispatch in F.
    destruct ((currentBatch s <? batches config)
              && (0 <? availableSlots (semaphore s))); [| discriminate].
    destruct (findIndex_null (semaphore s)) as [j|]; [| discriminate].
    pose proof (processBatch_begin_logged (currentBatch s)
                  (Z.min (batchSize config)
                         (totalUsers config
                          - currentBatch s * batchSize config))
                  (world s)) as B.
    unfold after in B.
    destruct (processBatch_begin host config _ _ (world s)) as [r w];
      cbn [fst snd] in B.
    injection F as <-. cbn [currentBatch world].
    split; [lia |].
    rewrite calls_before_succ, planned_requests_snoc by assumption.
    unfold received in *. unfold appends in B. rewrite B.
    rewrite rev_app_distr, rev_involutive, J. reflexivity.
  - destruct (phase s); try discriminate.
    destruct ((currentBatch s <? batches config)
              && negb (0 <? availableSlots (semaphore s)));
      [| discriminate].
    injection F as <-. cbn. auto.
  - destruct (phase s); try discriminate.
    injection F as <-. cbn. auto.
  - destruct (phase s); try discriminate.
    destruct (currentBatch s <? batches config); [discriminate |].
    injection F as <-. cbn. auto.
  - destruct (suspended (phase s)); [| discriminate].
    unfold tally in F.
    destruct (nth_error (semaphore s) slotIndex) as [[[b rs|b]|]|];
      try discriminate.
    injection F as <-. cbn. auto.
  - destruct (suspended (phase s)); [| discriminate].
    unfold release in F.
    destruct (nth_error (semaphore s) slotIndex) as [[[b rs|b]|]|];
      try discriminate.
    injection F as <-. cbn. auto.
  - destruct (phase s); try discriminate.
    destruct (forallb is_null (semaphore s)); [| discriminate].
    injection F as <-. cbn. auto.
Qed.

Lemma run_logged es :
  forall s s' : State (logged rm),
    0 <= currentBatch s ->
    received (world s)
    = planned_requests host config
        (calls_before total batch (currentBatch s)) ->
    run host config es s = Some s' ->
    received (world s')
    = planned_requests host config
        (calls_before total batch (currentBatch s')).
Proof.
  induction es as [|e es IH]; intros a b Hc J R.
  - cbn in R. now injection R as <-.
  - cbn [run] in R. destruct (fire host config e a) as [a'|] eqn:F;
      [| discriminate].
    destruct (fire_logged e a a' Hc J F) as [Hc' J'].
    now apply (IH a' b).
Qed.

(** X11 (AuthUserSeeder.seedUsers, processBatch, createUser): in
    every state of a concurrent run, under every interleaving and
    whatever the remote service answers, the requests sent so far are
    those of the records of batches 0, ..., currentBatch - 1 in
    dispatch and generation order, faulted batches sending none; a
    finished run has sent the requests of all planned batches, which
    are [totalUsers] requests when no generator raises. *)
Theorem concurrent_run_sends_each_record_once
        (r : RState rm) (s : State (logged rm)) :
  0 <= total -> 1 <= batch ->
  reachable host config ((r, []) : RState (logged rm)) s ->
  received (world s)
  = planned_requests host config
      (calls_before total batch (currentBatch s))
  /\ (phase s = Finished ->
      received (world s)
      = planned_requests host config (plan total batch)
      /\ ((forall b, gen_fault host b = None) ->
          Z.of_nat (List.length (received (world s))) = total)).
Proof.
  intros Ht Hb R.
  pose proof (reachable_invariant host config Ht Hb _ s R) as Inv.
  destruct R as (s0 & es & St & Run).
  assert (E : received (world s)
              = planned_requests host config
                  (calls_before total batch (currentBatch s))).
  { apply (run_logged es s0 s); [| | exact Run];
      unfold start in St;
      destruct (concurrentBatches config <? 0); try discriminate;
      injection St as <-; cbn; [lia | reflexivity]. }
  split; [exact E |]. intros P.
  assert (C : currentBatch s = Num.ceil_div total batch)
    by (apply (inv_drain _ _ _ _ Inv); now right).
  rewrite C in E. change (calls_before total batch (Num.ceil_div total batch))
    with (plan total batch) in E.
  split; [exact E |]. intros NF. rewrite E.
  destruct (plan_sizes total batch Ht Hb) as [P1 P2].
  rewrite (planned_requests_length host config _ NF P1). exact P2.
Qed.

End ConcurrentRequests.

Lemma concurrent_run_sends_each_record_once_witness :
  let config := Stubs.configured 3 2 2 in
  exists s : Seeder.State (Probe.logged Stubs.rejecting),
    Seeder.reachable Stubs.calm_host config
      ((O, []) : Runtime.RState (Probe.logged Stubs.rejecting)) s
    /\ Seeder.currentBatch s = 2
    /\ map Runtime.req_email (Probe.received (Seeder.world s))
       = ["john.smith.1700000000000-0@example.com";
          "john.smith.1700000000000-1@example.com";
          "john.smith.1700000001000-0@example.com"].
Proof.
  intros config.
  assert (R : exists s : Seeder.State (Probe.logged Stubs.rejecting),
             Seeder.reachable Stubs.calm_host config
               ((O, []) : Runtime.RState (Probe.logged Stubs.rejecting)) s
             /\ Seeder.currentBatch s = 2).
  { eexists. split.
    - eexists. exists [Seeder.EDispatch; Seeder.EDispatch].
      split; [reflexivity |]. vm_compute. reflexivity.
    - reflexivity. }
  destruct R as (s & R & C). exists s.
  destruct (concurrent_run_sends_each_record_once (rm:=Stubs.rejecting)
              Stubs.calm_host config O s
              ltac:(cbn; lia) ltac:(cbn; lia) R) as (H & _).
  split; [exact R |]. split; [exact C |].
  refine (eq_trans (f_equal (map Runtime.req_email) H) _).
  rewrite C. vm_compute. reflexivity.
Defined.

(* ================================================================== *)
(** ** The entry points *)

Section EntryPoints.
Import Runtime Inv Index.
Context {rm : Remote}.
Variable createClient : string -> string -> Result (RState rm).
Variable host : Host.
Variable config : Config.Config.

Let url := Config.url (Config.supabase config).
Let key := Config.serviceRoleKey (Config.supabase config).
Let total := Config.totalUsers (Config.seeding config).
Let batch := Config.batchSize (Config.seeding config).
Let limit := Config.concurrentBatches (Config.seeding config).



(** X13 (main of batch-seeder.ts and of conservative-seeder.ts): for
    [totalUsers >= 0] and [batchSize >= 1], once the client
    constructor has returned both entry points run [seedUsers] to its
    end and exit with status 0, with every record counted as processed
    or failed, whatever the remote service answers and whether or not
    a generator raises; when the constructor throws, they exit with
    status 1, print its message and never create a seeder. *)
Theorem seeder_mains_exit_status :
  0 <= total -> 1 <= batch ->
  match construct createClient config with
  | Ok r =>
      (exists w,
          batch_main createClient host config = (done, Some w)
          /\ processedUsers w + errors w = total)
      /\ (exists w,
             conservative_main createClient host config = (done, Some w)
             /\ processedUsers w + errors w = total)
      /\ code done = 0
  | Thrown e =>
      batch_main createClient host config = (seeder_catch e, None)
      /\ conservative_main createClient host config
         = (seeder_catch e, None)
      /\ code (seeder_catch e) = 1
      /\ stderr (seeder_catch e) = ["Seeding failed:"; describe e]
  end.
Proof.
  intros Ht Hb. unfold batch_main, conservative_main.
  destruct (construct createClient config) as [r|e];
    [| repeat split; reflexivity].
  split; [| split; [| reflexivity]].
  - pose proof (chunked_seedUsers_finishes host config (new_world r)
                  Ht Hb) as H.
    unfold finishes, after in H.
    destruct (BatchSeeder.seedUsers host config (new_world r)) as [res w];
      cbn [fst snd] in H.
    destruct H as [-> (_ & _ & A & _)].
    exists w. split; [reflexivity |]. cbn in A. fold total in A. lia.
  - pose proof (conservative_seedUsers_finishes host config (new_world r)
                  Ht Hb) as H.
    unfold finishes, after in H.
    destruct (ConservativeSeeder.seedUsers host config (new_world r))
      as [res w]; cbn [fst snd] in H.
    destruct H as [-> (_ & _ & A & _)].
    exists w. split; [reflexivity |]. cbn in A. fold total in A. lia.
Qed.

End EntryPoints.

Lemma seeder_mains_exit_status_witness :
  let config := Stubs.configured 3 2 1 in
  let createClient := Stubs.lenient_client Stubs.rejecting O in
  0 <= 3 /\ 1 <= 2
  /\ Index.code (fst (Index.batch_main createClient Stubs.faulty_host config))
     = 0
  /\ (exists w,
         Index.conservative_main createClient Stubs.faulty_host config
         = (Index.done, Some w)
         /\ Runtime.processedUsers w + Runtime.errors w = 3).
Proof.
  intros config createClient.
  pose proof (seeder_mains_exit_status createClient Stubs.faulty_host config
                ltac:(cbn; lia) ltac:(cbn; lia)) as H.
  cbn [Index.construct createClient Stubs.lenient_client] in H.
  destruct H as ((w1 & B & _) & C & _).
  split; [lia |]. split; [lia |].
  split; [rewrite B; reflexivity | exact C].
Defined.

(* ================================================================== *)
(** ** Pacing of the conservative runner *)

Section ConservativePacing.
Import Runtime Inv Probe ConservativeSeeder.
Context {rm : Remote}.
Variable host : Host.
Variable config : Config.Config.

Hypothesis never_fails :
  forall (s : RState rm) (q : CreateUserRequest),
    snd (admin_createUser rm s q) = None.

Lemma processUser_first_time u (w : World rm) :
  finishes (processUser u) w (appends sleeps [100]).
Proof.
  unfold processUser, defaultMaxRetries, createUserWithRetry.
  change (Z.to_nat 3) with 3%nat. cbn [retryLoop].
  change (1 <=? 3) with true. cbv iota.
  unfold finishes, after, try_catch, bind. rewrite attemptOnce_eq.
  pose proof (never_fails (remote w) (request_of u)) as H.
  destruct (admin_createUser rm (remote w) (request_of u)) as [r' a].
  cbn [snd] in H. subst a. cbn. split; reflexivity.
Qed.

Lemma flat_map_const {A B} (b : B) (l : list A) :
  flat_map (fun _ => [b]) l = repeat b (List.length l).
Proof.
  induction l as [|x l IH]; [reflexivity |]. cbn. now rewrite IH.
Qed.

Lemma processBatchConservative_first_time b size (w : World rm) :
  finishes (processBatchConservative host config b size) w
           (appends sleeps
              match gen_fault host b with
              | Some _ => []
              | None => repeat 100 (Z.to_nat size)
              end).
Proof.
  unfold processBatchConservative. apply after_bind.
  unfold after at 1, enterBatch; cbn [fst snd].
  apply after_try_catch. unfold callGenerate.
  destruct (gen_fault host b) as [e|].
  - apply after_bind. unfold after at 1, throw; cbn [fst snd].
    unfold after, addErrors, appends; cbn. auto.
  - apply after_bind. unfold after at 1, ret; cbn [fst snd].
    set (users := Utils.generateUserBatch _ _ _ _).
    set (w0 := Build_World rm _ _ _ _ _ _).
    pose proof (forEach_appends sleeps users processUser (fun _ => [100])
                  (fun u w1 _ => processUser_first_time u w1) w0) as H1.
    rewrite flat_map_const in H1. subst users.
    rewrite generateUserBatch_length in H1.
    unfold finishes, after in H1 |- *.
    destruct (forEach _ processUser w0) as [r1 w1]; cbn [fst snd] in *.
    destruct H1 as [-> A1]. split; [reflexivity | exact A1].
Qed.

(** X14 (ConservativeSeeder.seedUsers, processBatchConservative):
    against a remote service that never fails, a conservative run with
    a batch size of at least 1 pauses 100 ms after each record and
    2000 ms after every batch except the last one, and takes no other
    pause; a batch whose generator raised contributes only the pause
    between batches. *)
Theorem conservative_pacing_without_failures (r : RState rm) :
  let total := Config.totalUsers (Config.seeding config) in
  let batch := Z.min (Config.batchSize (Config.seeding config)) 100 in
  let batches := Num.ceil_div total batch in
  1 <= Config.batchSize (Config.seeding config) ->
  after (seedUsers host config) (new_world r)
        (fun res w =>
           res = Ok tt
           /\ rev (sleeps w)
              = flat_map (unhurried_pauses host batches)
                         (plan total batch)).
Proof.
  intros total batch batches _.
  assert (H : finishes (seedUsers host config) (new_world r)
                (appends sleeps
                   (flat_map (unhurried_pauses host batches)
                             (plan total batch)))).
  { unfold seedUsers. fold total batch batches.
    unfold plan. rewrite flat_map_map. fold batches.
    apply (forEach_appends sleeps). intros i w0 _.
    apply after_bind.
    pose proof (processBatchConservative_first_time i
                  (size_at total batch i) w0) as H1.
    unfold finishes, after in H1 |- *. unfold size_at in *.
    destruct (processBatchConservative host config i _ w0) as [r1 w1];
      cbn [fst snd] in *.
    destruct H1 as [-> A1].
    unfold unhurried_pauses; cbn [fst snd].
    destruct (i <? batches - 1).
    - split; [reflexivity |].
      eapply appends_trans; [exact A1 | reflexivity].
    - split; [reflexivity |]. rewrite app_nil_r. exact A1. }
  unfold finishes, after, appends in *.
  destruct (seedUsers host config (new_world r)) as [res w];
    cbn [fst snd] in *.
  destruct H as [-> H]. split; [reflexivity |].
  rewrite H. cbn [new_world sleeps]. rewrite app_nil_r.
  apply rev_involutive.
Qed.

End ConservativePacing.

Lemma conservative_pacing_without_failures_witness :
  (forall (s : Runtime.RState Stubs.always_ok) q,
      snd (Runtime.admin_createUser Stubs.always_ok s q) = None)
  /\ 1 <= 2
  /\ Inv.after
       (ConservativeSeeder.seedUsers Stubs.faulty_host
          (Stubs.configured 5 2 1))
       (@Runtime.new_world Stubs.always_ok O)
       (fun res w =>
          res = Runtime.Ok tt
          /\ rev (Runtime.sleeps w) = [100; 100; 2000; 2000; 100]).
Proof.
  split; [reflexivity |]. split; [lia |].
  pose proof (conservative_pacing_without_failures (rm:=Stubs.always_ok)
                Stubs.faulty_host (Stubs.configured 5 2 1)
                (fun _ _ => eq_refl) O ltac:(cbn; lia)) as H.
  unfold Inv.after in *. destruct H as [H1 H2].
  split; [exact H1 |]. rewrite H2. reflexivity.
Defined.

(* ================================================================== *)
(** ** Completion of the concurrent runner *)

Section ConcurrentCompletion.
Import Runtime Inv Seeder.
Context {rm : Remote}.
Variable host : Host.
Variable config : Config.Config.

Lemma finish_from_draining (s : State rm) :
  phase s = Draining ->
  exists es s', run host config es s = Some s' /\ phase s' = Finished.
Proof.
  intros P.
  destruct (drain host config (occupied (semaphore s)) s eq_refl)
    as (es & s1 & R1 & P1 & _ & _ & N1);
    [rewrite P; reflexivity |].
  exists (es ++ [EFinish])%list, (with_phase s1 Finished).
  rewrite (run_app host config es [EFinish] s s1 R1).
  cbn [run fire]. rewrite P1, P, N1. split; reflexivity.
Qed.

Lemma finish_from_sleeping (s : State rm) :
  phase s = Sleeping -> (1 <= List.length (semaphore s))%nat ->
  exists es s', run host config es s = Some s' /\ phase s' = Finished.
Proof.
  intros P L.
  destruct (drain host config (occupied (semaphore s)) s eq_refl)
    as (es & s1 & R1 & P1 & _ & L1 & N1);
    [rewrite P; reflexivity |].
  destruct (complete host config
              (Z.to_nat (batches config - currentBatch s1))
              (with_phase s1 Looping) eq_refl N1
              ltac:(cbn; lia) ltac:(cbn; lia))
    as (es2 & s2 & R2 & P2).
  exists (es ++ EWake :: es2)%list, s2.
  rewrite (run_app host config es _ s s1 R1).
  cbn [run fire]. rewrite P1, P. split; assumption.
Qed.

Lemma finish_from_looping (s : State rm) :
  phase s = Looping -> (1 <= List.length (semaphore s))%nat ->
  exists es s', run host config es s = Some s' /\ phase s' = Finished.
Proof.
  intros P L.
  destruct (fill host config
              (Z.to_nat (availableSlots (semaphore s))) s eq_refl P)
    as (es & s1 & R1 & P1 & L1 & _ & D & _).
  destruct (Z.ltb_spec (currentBatch s1) (batches config)) as [C|C].
  - (* every slot is taken: the loop pauses *)
    assert (A : availableSlots (semaphore s1) <= 0) by lia.
    assert (F : fire host config ESleep s1
                = Some (with_phase
                          (with_world s1 (snd (delay 100 (world s1))))
                          Sleeping)).
    { cbn [fire]. rewrite P1.
      destruct (Z.ltb_spec (currentBatch s1) (batches config)); [| lia].
      destruct (Z.ltb_spec 0 (availableSlots (semaphore s1))); [lia |].
      reflexivity. }
    destruct (finish_from_sleeping
                (with_phase (with_world s1 (snd (delay 100 (world s1))))
                            Sleeping) eq_refl ltac:(cbn; lia))
      as (es2 & s2 & R2 & P2).
    exists (es ++ ESleep :: es2)%list, s2.
    rewrite (run_app host config es _ s s1 R1).
    cbn [run]. rewrite F. split; assumption.
  - assert (F : fire host config EJoin s1 = Some (with_phase s1 Draining)).
    { cbn [fire]. rewrite P1.
      destruct (Z.ltb_spec (currentBatch s1) (batches config)); [lia |].
      reflexivity. }
    destruct (finish_from_draining (with_phase s1 Draining) eq_refl)
      as (es2 & s2 & R2 & P2).
    exists (es ++ EJoin :: es2)%list, s2.
    rewrite (run_app host config es _ s s1 R1).
    cbn [run]. rewrite F. split; assumption.
Qed.

(** From a reachable state of a run with a slot some continuation
    reaches the end. *)
Lemma continue_to_the_end (r : RState rm) (s : State rm) :
  0 <= totalUsers config -> 1 <= batchSize config ->
  1 <= concurrentBatches config ->
  reachable host config r s ->
  exists (es : list Event) (s' : State rm),
    run host config es s = Some s'
    /\ phase s' = Finished
    /\ reachable host config r s'.
Proof.
  intros Ht Hb Hc R.
  pose proof (reachable_invariant host config Ht Hb r s R) as Inv.
  assert (L : (1 <= List.length (semaphore s))%nat)
    by (rewrite (inv_slots _ _ _ _ Inv); lia).
  assert (E : exists es s',
             run host config es s = Some s' /\ phase s' = Finished).
  { destruct (phase s) eqn:P.
    - now apply finish_from_looping.
    - now apply finish_from_sleeping.
    - now apply finish_from_draining.
    - exists [], s. split; [reflexivity | exact P]. }
  destruct E as (es & s' & R' & P'). exists es, s'.
  split; [exact R' |]. split; [exact P' |].
  destruct R as (s0 & es0 & St & Run0).
  exists s0, (es0 ++ es)%list. split; [exact St |].
  now rewrite (run_app host config es0 es s0 s Run0).
Qed.

(** X15 (AuthUserSeeder.seedUsers, processBatch): with at least one
    slot, no interleaving of the concurrent run leads into a dead end:
    from every reachable state some continuation reaches the end of
    [seedUsers]. *)
Theorem concurrent_run_can_always_finish (r : RState rm) (s : State rm) :
  0 <= totalUsers config -> 1 <= batchSize config ->
  1 <= concurrentBatches config ->
  reachable host config r s ->
  exists (es : list Event) (s' : State rm),
    run host config es s = Some s'
    /\ phase s' = Finished
    /\ reachable host config r s'.
Proof. exact (continue_to_the_end r s). Qed.

End ConcurrentCompletion.

Lemma concurrent_run_can_always_finish_witness :
  let config := Stubs.configured 3 2 1 in
  exists (s : Seeder.State Stubs.always_ok) es s',
    Seeder.reachable Stubs.calm_host config
                     (O : Runtime.RState Stubs.always_ok) s
    /\ Seeder.currentBatch s = 1
    /\ Seeder.phase s = Seeder.Looping
    /\ Seeder.run Stubs.calm_host config es s = Some s'
    /\ Seeder.phase s' = Seeder.Finished.
Proof.
  intros config.
  assert (R : exists s : Seeder.State Stubs.always_ok,
             Seeder.reachable Stubs.calm_host config
                              (O : Runtime.RState Stubs.always_ok) s
             /\ Seeder.currentBatch s = 1
             /\ Seeder.phase s = Seeder.Looping).
  { eexists. split; [| split].
    - eexists. exists [Seeder.EDispatch].
      split; [reflexivity |]. vm_compute. reflexivity.
    - reflexivity.
    - reflexivity. }
  destruct R as (s & R & C & P).
  destruct (concurrent_run_can_always_finish (rm:=Stubs.always_ok)
              Stubs.calm_host config O s
              ltac:(cbn; lia) ltac:(cbn; lia) ltac:(cbn; lia) R)
    as (es & s' & R' & P' & _).
  exists s, es, s'. auto.
Defined.

(* ================================================================== *)
(** * The batches of a run (C2) *)

Section PlanOfARun.
Import Runtime Inv Seeder.
Context {rm : Remote}.
Variable host : Host.
Variable config : Config.Config.

Lemma firstn_seq_le (k n start : nat) :
  (k <= n)%nat -> firstn k (seq start n) = seq start k.
Proof.
  intros H. replace n with (k + (n - k))%nat by lia.
  rewrite seq_app, firstn_app, length_seq, Nat.sub_diag.
  cbn [firstn]. rewrite app_nil_r.
  rewrite <- (length_seq k start) at 1. apply firstn_all.
Qed.

Lemma plan_prefix (total batch k : Z) :
  0 <= k <= Num.ceil_div total batch ->
  map (fun i => (i, size_at total batch i)) (batch_indices k)
  = firstn (Z.to_nat k) (plan total batch).
Proof.
  intros Hk. unfold plan, batch_indices.
  rewrite !firstn_map, firstn_seq_le by lia.
  reflexivity.
Qed.

(** In every state of a concurrent run the batches started so far are
    the first [currentBatch] entries of the plan, in order. *)
Lemma dispatched_prefix (r : RState rm) (s : State rm) :
  0 <= totalUsers config -> 1 <= batchSize config ->
  reachable host config r s ->
  rev (dispatched (world s))
  = firstn (Z.to_nat (currentBatch s))
           (plan (totalUsers config) (batchSize config)).
Proof.
  intros Ht Hb R.
  destruct (reachable_invariant host config Ht Hb r s R)
    as [_ I2 I3 _ _ _ _ _].
  rewrite I3, rev_involutive. now apply plan_prefix.
Qed.

Lemma dispatched_at_the_end (r : RState rm) (s : State rm) :
  0 <= totalUsers config -> 1 <= batchSize config ->
  reachable host config r s -> phase s = Finished ->
  rev (dispatched (world s))
  = plan (totalUsers config) (batchSize config).
Proof.
  intros Ht Hb R F.
  destruct (reachable_invariant host config Ht Hb r s R)
    as [_ _ I3 _ _ _ I7 _].
  rewrite I3, rev_involutive, (I7 (or_intror F)). reflexivity.
Qed.

End PlanOfARun.

(** C2, as the sources have it: for [totalUsers >= 1] and
    [batchSize >= 1] the concurrent and the chunked runner hand
    [processBatch] the batches of [plan totalUsers batchSize], in index
    order, and the conservative runner those of
    [plan totalUsers (min batchSize 100)]: it caps the batch size at 100.
    A plan for batches of [b] has [ceil (totalUsers / b)] entries, entry
    [i] has size [min b (totalUsers - i * b)], between 1 and [b], and the
    last one has size [totalUsers - (batches - 1) * b].  For 10 records
    in batches of 3 the sizes are 3, 3, 3, 1, and against a stub that
    never fails each runner ends with 10 processed and 0 errors.  The
    chunked and the conservative run return; the batches a concurrent
    run has started are at every moment the first [currentBatch] of the
    plan, and with at least one slot ([concurrentBatches >= 1]) its end
    is reached, from every state it can be in, with the whole plan
    dispatched.  Without a slot it starts no batch and does not end. *)
Theorem batches_follow_the_plan
        (rm : Remote) (host : Host) (config : Config.Config)
        (r : RState rm) :
  let total := Config.totalUsers (Config.seeding config) in
  let batch := Config.batchSize (Config.seeding config) in
  let slots := Config.concurrentBatches (Config.seeding config) in
  1 <= total -> 1 <= batch ->
  (forall s : Seeder.State rm,
      Seeder.reachable host config r s ->
      Seeder.phase s = Seeder.Finished ->
      rev (dispatched (Seeder.world s)) = plan total batch)
  /\ after (BatchSeeder.seedUsers host config) (new_world r)
           (fun res w => res = Ok tt
                         /\ rev (dispatched w) = plan total batch)
  /\ after (ConservativeSeeder.seedUsers host config) (new_world r)
           (fun res w => res = Ok tt
                         /\ rev (dispatched w)
                            = plan total (Z.min batch 100))
  /\ (forall b, 1 <= b ->
        List.length (plan total b) = Z.to_nat (Num.ceil_div total b)
        /\ (forall i size, In (i, size) (plan total b) ->
              size = Z.min b (total - i * b) /\ 1 <= size <= b)
        /\ nth_error (plan total b) (Z.to_nat (Num.ceil_div total b - 1))
           = Some (Num.ceil_div total b - 1,
                   total - (Num.ceil_div total b - 1) * b))
  /\ plan 10 3 = [(0, 3); (1, 3); (2, 3); (3, 1)]
  /\ (total = 10 -> batch = 3 -> (forall b, gen_fault host b = None) ->
      (forall s : Seeder.State Stubs.always_ok,
          Seeder.reachable host config (O : RState Stubs.always_ok) s ->
          Seeder.phase s = Seeder.Finished ->
          processedUsers (Seeder.world s) = 10
          /\ errors (Seeder.world s) = 0)
      /\ after (BatchSeeder.seedUsers host config)
               (@new_world Stubs.always_ok O)
               (fun res w => res = Ok tt /\ processedUsers w = 10
                             /\ errors w = 0)
      /\ after (ConservativeSeeder.seedUsers host config)
               (@new_world Stubs.always_ok O)
               (fun res w => res = Ok tt /\ processedUsers w = 10
                             /\ errors w = 0))
  /\ (forall s : Seeder.State rm,
         Seeder.reachable host config r s ->
         rev (dispatched (Seeder.world s))
         = firstn (Z.to_nat (Seeder.currentBatch s)) (plan total batch))
  /\ (1 <= slots ->
      (exists s : Seeder.State rm,
          Seeder.reachable host config r s
          /\ Seeder.phase s = Seeder.Finished
          /\ rev (dispatched (Seeder.world s)) = plan total batch)
      /\ (forall s : Seeder.State rm,
             Seeder.reachable host config r s ->
             exists (es : list Seeder.Event) (s' : Seeder.State rm),
               Seeder.run host config es s = Some s'
               /\ Seeder.phase s' = Seeder.Finished
               /\ rev (dispatched (Seeder.world s')) = plan total batch))
  /\ (1 <= slots -> total = 10 -> batch = 3 ->
      (forall b, gen_fault host b = None) ->
      exists s : Seeder.State Stubs.always_ok,
        Seeder.reachable host config (O : RState Stubs.always_ok) s
        /\ Seeder.phase s = Seeder.Finished
        /\ rev (dispatched (Seeder.world s))
           = [(0, 3); (1, 3); (2, 3); (3, 1)]
        /\ processedUsers (Seeder.world s) = 10
        /\ errors (Seeder.world s) = 0)
  /\ (slots = 0 ->
      forall s : Seeder.State rm,
        Seeder.reachable host config r s ->
        dispatched (Seeder.world s) = []
        /\ Seeder.phase s <> Seeder.Finished).
Proof.
  intros total batch slots Ht Hb.
  assert (Ht0 : 0 <= total) by lia.
  assert (Counts : (forall b, gen_fault host b = None) -> total = 10 ->
            forall s : Seeder.State Stubs.always_ok,
              Seeder.reachable host config (O : RState Stubs.always_ok) s ->
              Seeder.phase s = Seeder.Finished ->
              processedUsers (Seeder.world s) = 10
              /\ errors (Seeder.world s) = 0).
  { intros Hf E10 s R F.
    destruct (concurrent_counts (fun _ => None) host config Hf s Ht0 Hb
                R F) as [Ee Ep].
    rewrite failures_always_ok in Ee, Ep.
    unfold Seeder.totalUsers in Ep. unfold total in E10.
    split; [etransitivity; [exact Ep | lia] | exact Ee]. }
  split; [| split; [| split; [| split; [| split;
    [| split; [| split; [| split; [| split]]]]]]]].
  - intros s R F. exact (dispatched_at_the_end host config r s Ht0 Hb R F).
  - destruct (chunked_seedUsers_finishes host config (new_world r) Ht0 Hb)
      as [E (_ & _ & _ & D & _)].
    split; [exact E |]. rewrite D. cbn [new_world dispatched].
    now rewrite app_nil_r, rev_involutive.
  - destruct (conservative_seedUsers_finishes host config (new_world r)
                Ht0 Hb) as [E (_ & _ & _ & D & _)].
    split; [exact E |]. rewrite D. cbn [new_world dispatched].
    now rewrite app_nil_r, rev_involutive.
  - intros b Hb'. split; [apply plan_length |]. split.
    + intros i size H. now apply plan_in in H.
    + now apply plan_last.
  - reflexivity.
  - intros E10 E3 Hf. split; [| split].
    + exact (Counts Hf E10).
    + pose proof (chunked_counts (fun _ => None) host config Hf Ht0 Hb)
        as (E & Ee & Ep).
      rewrite failures_always_ok in Ee, Ep. unfold total in E10.
      split; [exact E |].
      split; [etransitivity; [exact Ep | lia] | exact Ee].
    + pose proof (conservative_always_ok host config Hf Ht0 Hb)
        as (E & Ep & Ee).
      split; [exact E |]. split; [rewrite Ep; exact E10 | exact Ee].
  - intros s R. exact (dispatched_prefix host config r s Ht0 Hb R).
  - intros Hs. split.
    + destruct (concurrent_run_completes host config r Hs) as (s & R & F).
      exists s. split; [exact R |]. split; [exact F |].
      exact (dispatched_at_the_end host config r s Ht0 Hb R F).
    + intros s R.
      destruct (continue_to_the_end host config r s Ht0 Hb Hs R)
        as (es & s' & Run & F & R').
      exists es, s'. split; [exact Run |]. split; [exact F |].
      exact (dispatched_at_the_end host config r s' Ht0 Hb R' F).
  - intros Hs E10 E3 Hf.
    destruct (concurrent_run_completes (rm:=Stubs.always_ok) host config
                O Hs) as (s & R & F).
    exists s. split; [exact R |]. split; [exact F |].
    split.
    + rewrite (dispatched_at_the_end host config _ s Ht0 Hb R F).
      unfold Seeder.totalUsers, Seeder.batchSize.
      unfold total in E10. unfold batch in E3. rewrite E10, E3.
      reflexivity.
    + exact (Counts Hf E10 s R F).
  - intros Hs s R.
    destruct (reachable_idle host config r s Hs Ht Hb R)
      as (_ & _ & Ph & _ & _ & _ & Di & _).
    split; [exact Di |].
    destruct Ph as [Ph|Ph]; rewrite Ph; discriminate.
Qed.

Lemma batches_follow_the_plan_witness :
  1 <= 10 /\ 1 <= 3
  /\ after (ConservativeSeeder.seedUsers Stubs.calm_host
              (Stubs.configured 10 3 2))
           (@new_world Stubs.always_ok O)
           (fun res w => res = Ok tt
                         /\ rev (dispatched w)
                            = [(0, 3); (1, 3); (2, 3); (3, 1)])
  /\ exists s : Seeder.State Stubs.always_ok,
       Seeder.reachable Stubs.calm_host (Stubs.configured 10 3 2)
                        (O : RState Stubs.always_ok) s
       /\ Seeder.phase s = Seeder.Finished
       /\ rev (dispatched (Seeder.world s))
          = [(0, 3); (1, 3); (2, 3); (3, 1)]
       /\ processedUsers (Seeder.world s) = 10
       /\ errors (Seeder.world s) = 0.
Proof.
  pose proof (batches_follow_the_plan Stubs.always_ok Stubs.calm_host
                (Stubs.configured 10 3 2) O
                ltac:(cbn; lia) ltac:(cbn; lia))
    as (_ & _ & C & _ & _ & _ & _ & _ & S & _).
  split; [lia |]. split; [lia |]. split; [exact C |].
  exact (S ltac:(cbn; lia) eq_refl eq_refl (fun _ => eq_refl)).
Defined.

(** C2 as stated fails twice.  With 200 records and a batch size of 200
    the conservative runner makes two calls of 100 records each, not the
    single call of [ceil (200 / 200) = 1] batch of size 200.  And with
    [concurrentBatches = 0] the concurrent runner never starts any of
    the four batches of 10 records in batches of 3, and never ends. *)
Lemma runs_that_leave_the_plan :
  (let w := snd (ConservativeSeeder.seedUsers Stubs.calm_host
                   (Stubs.configured 200 200 5)
                   (@new_world Stubs.always_ok O)) in
   rev (dispatched w) = [(0, 100); (1, 100)]
   /\ Z.of_nat (List.length (dispatched w)) <> Num.ceil_div 200 200
   /\ rev (dispatched w) <> plan 200 200)
  /\ (Num.ceil_div 10 3 = 4
      /\ forall s : Seeder.State Stubs.always_ok,
           Seeder.reachable Stubs.calm_host (Stubs.configured 10 3 0)
                            (O : RState Stubs.always_ok) s ->
           dispatched (Seeder.world s) = []
           /\ Seeder.phase s <> Seeder.Finished).
Proof.
  split.
  - vm_compute. split; [reflexivity |]. split; discriminate.
  - split; [reflexivity |]. intros s R.
    destruct (reachable_idle (rm:=Stubs.always_ok) Stubs.calm_host
                (Stubs.configured 10 3 0) O s eq_refl
                ltac:(cbn; lia) ltac:(cbn; lia) R)
      as (_ & _ & Ph & _ & _ & _ & Di & _).
    split; [exact Di |].
    destruct Ph as [Ph|Ph]; rewrite Ph; discriminate.
Qed.

(* ================================================================== *)
(** * Missing credentials (C7) *)

(** C7: when the service URL or the service key is missing, each of the
    three entry points ends with exit status 1 and a report that names
    the missing setting, before [seedUsers] is run.  In index.ts this
    is [validateConfig]; batch-seeder.ts and conservative-seeder.ts do
    not call it, and there it is the constructor that fails, in
    [createClient] of the service's client library, which throws
    'supabaseUrl is required.' for an empty URL and, for the URL at
    hand, 'supabaseKey is required.' for an empty key.  [Exited] and
    the missing seeder state [None] say that no seeder was constructed,
    so that no batch was generated and no request sent. *)
Theorem missing_credentials_fail_fast
        (rm : Remote) (createClient : string -> string -> Result (RState rm))
        (host : Host) (config : Config.Config) :
  let url := Config.url (Config.supabase config) in
  let key := Config.serviceRoleKey (Config.supabase config) in
  (forall k, createClient "" k
             = Thrown (ErrorObject "supabaseUrl is required.")) ->
  (url <> "" ->
   createClient url "" = Thrown (ErrorObject "supabaseKey is required.")) ->
  url = "" \/ key = "" ->
  exists setting argument : string,
    ((url = "" /\ setting = "SUPABASE_URL" /\ argument = "supabaseUrl")
     \/ (url <> "" /\ key = ""
         /\ setting = "SUPABASE_SERVICE_ROLE_KEY"
         /\ argument = "supabaseKey"))
    /\ Index.index_main createClient config
       = Index.Exited
           (Index.index_catch (ErrorObject (setting ++ " is required")))
    /\ Index.batch_main createClient host config
       = (Index.seeder_catch (ErrorObject (argument ++ " is required.")),
          None)
    /\ Index.conservative_main createClient host config
       = (Index.seeder_catch (ErrorObject (argument ++ " is required.")),
          None)
    /\ Index.code
         (Index.index_catch (ErrorObject (setting ++ " is required"))) = 1
    /\ Index.stderr
         (Index.index_catch (ErrorObject (setting ++ " is required")))
       = ["Seeding failed:"; setting ++ " is required"]
    /\ Index.code
         (Index.seeder_catch (ErrorObject (argument ++ " is required.")))
       = 1
    /\ Index.stderr
         (Index.seeder_catch (ErrorObject (argument ++ " is required.")))
       = ["Seeding failed:"; argument ++ " is required."].
Proof.
  intros url key NoUrl NoKey Missing.
  destruct (index_main_fails_fast rm createClient config Missing)
    as (setting & Which & Main & Code).
  unfold Index.batch_main, Index.conservative_main, Index.construct.
  fold url key.
  destruct (string_dec url "") as [U|U].
  - exists "SUPABASE_URL", "supabaseUrl".
    split; [left; auto |].
    split.
    + unfold Index.index_main, Config.validateConfig. fold url.
      rewrite U. reflexivity.
    + rewrite U, NoUrl. repeat split.
  - destruct Missing as [M|M]; [contradiction |].
    exists "SUPABASE_SERVICE_ROLE_KEY", "supabaseKey".
    split; [right; auto |].
    split.
    + unfold Index.index_main, Config.validateConfig. fold url key.
      destruct url as [|c u]; [contradiction |]. rewrite M. reflexivity.
    + rewrite M, (NoKey U). repeat split.
Qed.

Lemma missing_credentials_fail_fast_witness :
  let createClient := Stubs.strict_client Stubs.rejecting O in
  (let config := Stubs.without_url 3 2 1 in
   Config.url (Config.supabase config) = ""
   /\ Index.index_main createClient config
      = Index.Exited
          (Index.index_catch (ErrorObject "SUPABASE_URL is required"))
   /\ Index.batch_main createClient Stubs.calm_host config
      = (Index.seeder_catch (ErrorObject "supabaseUrl is required."), None)
   /\ Index.conservative_main createClient Stubs.calm_host config
      = (Index.seeder_catch (ErrorObject "supabaseUrl is required."), None))
  /\ (let config := Stubs.without_key 3 2 1 in
      Config.serviceRoleKey (Config.supabase config) = ""
      /\ Index.index_main createClient config
         = Index.Exited
             (Index.index_catch
                (ErrorObject "SUPABASE_SERVICE_ROLE_KEY is required"))
      /\ Index.batch_main createClient Stubs.calm_host config
         = (Index.seeder_catch (ErrorObject "supabaseKey is required."),
            None)
      /\ Index.conservative_main createClient Stubs.calm_host config
         = (Index.seeder_catch (ErrorObject "supabaseKey is required."),
            None)
      /\ Index.code
           (fst (Index.batch_main createClient Stubs.calm_host config)) = 1).
Proof.
  intros createClient. split.
  - intros config.
    destruct (missing_credentials_fail_fast Stubs.rejecting createClient
                Stubs.calm_host config
                (fun _ => eq_refl)
                (fun N => False_ind _ (N eq_refl))
                (or_introl eq_refl))
      as (setting & argument & [(_ & -> & ->)|(N & _)] & I & B & C & _).
    + split; [reflexivity |]. split; [exact I |]. split; [exact B |].
      exact C.
    + exfalso. apply N. reflexivity.
  - intros config.
    destruct (missing_credentials_fail_fast Stubs.rejecting createClient
                Stubs.calm_host config
                (fun _ => eq_refl)
                (fun _ => eq_refl)
                (or_intror eq_refl))
      as (setting & argument & [(U & _)|(_ & _ & -> & ->)] & I & B & C & _).
    + discriminate U.
    + split; [reflexivity |]. split; [exact I |]. split; [exact B |].
      split; [exact C |]. rewrite B. reflexivity.
Defined.

(* ================================================================== *)
(** * The estimate and the percentage (C8, C9) *)

Lemma calculateETA_indicator_and_monotone_witness :
  let digits := fun _ : Q => "" in
  UtilsNum.calculateETA digits 4000 (IEEE.of_Z 1) (IEEE.of_Z 5000)
                        (IEEE.of_Z 1000) = "4h 9m 57s"
  /\ UtilsNum.calculateETA digits 7000 (IEEE.of_Z 2) (IEEE.of_Z 5000)
                           (IEEE.of_Z 1000) = "4h 9m 54s"
  /\ UtilsNum.calculateETA digits 7000 (IEEE.of_Z 0) (IEEE.of_Z 5000)
                           (IEEE.of_Z 1000) = "Calculating..."
  /\ exists ms ms' : Q,
       IEEE.is_number
         (UtilsNum.etaMs 4000 (IEEE.of_Z 1) (IEEE.of_Z 5000) (IEEE.of_Z 1000))
         ms
       /\ IEEE.is_number
            (UtilsNum.etaMs 7000 (IEEE.of_Z 2) (IEEE.of_Z 5000)
                            (IEEE.of_Z 1000)) ms'
       /\ (ms' <= ms)%Q
       /\ Some 14997 = Some (Qfloor (ms / inject_Z 1000))
       /\ Some 14994 = Some (Qfloor (ms' / inject_Z 1000)).
Proof.
  intros digits.
  destruct (calculateETA_indicator_and_monotone digits) as [Ind Mono].
  destruct (Mono 4000 7000 1000 1 2 5000
              ltac:(lia) ltac:(lia) ltac:(vm_compute; discriminate)
              ltac:(lia) ltac:(lia) ltac:(lia)
              ltac:(vm_compute; discriminate)
              ltac:(reflexivity) ltac:(vm_compute; discriminate))
    as (ms & ms' & N & N' & _ & Le & R & R' & _).
  split; [reflexivity |]. split; [reflexivity |].
  split; [apply Ind; reflexivity |].
  exists ms, ms'. split; [exact N |]. split; [exact N' |].
  split; [exact Le |]. split; [exact R | exact R'].
Defined.

(** C8 as stated fails when the estimate is so long that the quotient
    [etaMs / 3600000] is rounded up to the next whole number of hours:
    at the rate of one record in 256 ms, the reading after the first of
    7730941132814064 records reports 549755813889 hours, and the
    reading after the second, which is later and has less left to do,
    59 minutes and 59 seconds more. *)
Lemma calculateETA_estimate_can_grow :
  1 * (512 - 0) = 2 * (256 - 0)
  /\ (forall digits : Q -> string,
         let total := IEEE.of_Z 7730941132814064 in
         let earlier :=
           UtilsNum.calculateETA digits 256 (IEEE.of_Z 1) total
                                 (IEEE.of_Z 0) in
         let later :=
           UtilsNum.calculateETA digits 512 (IEEE.of_Z 2) total
                                 (IEEE.of_Z 0) in
         earlier = "549755813889h 0m 0s"
         /\ later = "549755813889h 59m 59s"
         /\ reported_seconds earlier = Some 1979120930000400
         /\ reported_seconds later = Some 1979120930003999).
Proof.
  split; [reflexivity |]. intros digits. vm_compute. repeat split.
Qed.

Lemma calculatePercentage_two_decimals_witness :
  (0 <= 1 <= 2 ^ 53) /\ (0 < 3 <= 2 ^ 53)
  /\ IEEE.is_number
       (UtilsNum.calculatePercentage (IEEE.of_Z 1) (IEEE.of_Z 3))
       (IEEE.nearest (3333 # 100))
  /\ two_decimals 1 3 3333.
Proof.
  assert (H1 : 0 <= 1 <= 2 ^ 53) by (vm_compute; split; discriminate).
  assert (H3 : 0 < 3 <= 2 ^ 53) by (vm_compute; split; [reflexivity | discriminate]).
  destruct (calculatePercentage_two_decimals 1 3 H1 H3)
    as ((k & N & _ & _ & T) & _).
  specialize (T ltac:(vm_compute; discriminate)).
  assert (K : k = 3333) by (unfold two_decimals in T; lia).
  subst k.
  split; [exact H1 |]. split; [exact H3 |].
  split; [| exact T].
  apply (is_number_eq _ _ _ N). vm_compute. reflexivity.
Defined.

(* ================================================================== *)
(** * Further properties of [calculateETA] and [calculatePercentage] *)

Section ClockProperties.
Import IEEE UtilsNum.
Local Open Scope Q_scope.

(** [x - x] is [+0] for a finite [x]. *)
Lemma sub_itself (a : Q) : sub (Fin a) (Fin a) = Fin 0.
Proof.
  unfold sub, neg. destruct (Qeq_bool a 0) eqn:Z0.
  - unfold add. cbn [is_zero negative]. rewrite Z0. cbn [andb zero].
    apply Qeq_bool_iff in Z0.
    rewrite (Qltb_false a 0) by (rewrite Z0; discriminate).
    reflexivity.
  - unfold add. cbn [is_zero value]. rewrite Z0. cbn [andb].
    rewrite (Qeq_bool_true (a + - a) 0) by ring. reflexivity.
Qed.

(** The difference of two whole numbers is exact. *)
Lemma difference_number (a b : Z) :
  (0 <= b)%Z -> (b <= a)%Z -> (a <= 2 ^ 53)%Z ->
  is_number (sub (of_Z a) (of_Z b)) (inject_Z (a - b)).
Proof.
  intros Hb Hab Ha.
  assert (D : inject_Z a - inject_Z b == inject_Z (a - b)).
  { unfold Z.sub. rewrite inject_Z_plus, inject_Z_opp. ring. }
  assert (R0 : 0 <= inject_Z (a - b))
    by (change 0 with (inject_Z 0); rewrite <- Zle_Qle; lia).
  assert (D0 : 0 <= inject_Z a - inject_Z b) by (rewrite D; exact R0).
  assert (N : nearest (inject_Z a - inject_Z b) == inject_Z (a - b)).
  { rewrite <- (nearest_Z (a - b)) by lia.
    apply nearest_proper; [exact D0 | exact D]. }
  refine (is_number_eq _ _ _
            (sub_number _ _ _ _ (of_Z_number a ltac:(lia))
               (of_Z_number b ltac:(lia)) D0 _) N).
  rewrite N.
  apply (Qle_lt_trans _ (pow2 53)); [| apply pow2_lt; lia].
  rewrite (pow2_nonneg_exp 53) by lia. rewrite <- Zle_Qle. lia.
Qed.

(** When no time has elapsed the rate is infinite and the estimate
    is zero. *)
Lemma etaMs_no_time (startTime p t : Z) :
  (0 <= startTime <= 2 ^ 53)%Z -> (0 < p)%Z -> (p <= t)%Z ->
  (t <= 2 ^ 53)%Z ->
  etaMs startTime (of_Z p) (of_Z t) (of_Z startTime) = Fin 0.
Proof.
  intros Hs Hp Hpt Ht. unfold etaMs.
  destruct (difference_number t p ltac:(lia) Hpt Ht) as (r & -> & Hr).
  destruct (of_Z_number startTime Hs) as (a & -> & _).
  rewrite sub_itself.
  destruct (of_Z_number p ltac:(lia)) as (b & -> & Hb).
  pose proof (inject_Z_pos p Hp) as Qp.
  assert (Rate : div (Fin b) (Fin 0) = PInf).
  { unfold div. cbn [is_zero negative].
    rewrite (Qeq_bool_false b 0) by (rewrite Hb; lra).
    rewrite (Qltb_false b 0) by (rewrite Hb; lra). reflexivity. }
  rewrite Rate.
  assert (R0 : 0 <= r).
  { rewrite Hr. change 0 with (inject_Z 0). rewrite <- Zle_Qle. lia. }
  unfold div. cbn [negative zero].
  rewrite (Qltb_false r 0) by exact R0. reflexivity.
Qed.

(** X2 (calculateETA): for whole-number readings up to [2 ^ 53], once
    a record has been processed, at most [total] of them, with a
    clock that has not gone back and an estimate of at most [2 ^ 51]
    ms, the text is made of non-negative hours, shown when positive,
    minutes between 0 and 59, shown when they or the hours are
    positive, and seconds between 0 and 59, which together are the
    whole seconds of the double [etaMs]; it is "0s" when every record
    is processed, and also when no time has elapsed. *)
Theorem calculateETA_renders_a_clock
        (digits : Q -> string) (nowMs processed total startTime : Z) :
  (0 <= startTime)%Z -> (startTime <= nowMs)%Z -> (nowMs <= 2 ^ 53)%Z ->
  (0 < processed)%Z -> (processed <= total)%Z -> (total <= 2 ^ 53)%Z ->
  ((total - processed) * (nowMs - startTime) <= 2 ^ 51 * processed)%Z ->
  let text := calculateETA digits nowMs (of_Z processed) (of_Z total)
                           (of_Z startTime) in
  exists (ms : Q) (h m s : Z),
    is_number (etaMs nowMs (of_Z processed) (of_Z total) (of_Z startTime))
              ms
    /\ 0 <= ms
    /\ (0 <= h)%Z /\ (0 <= m <= 59)%Z /\ (0 <= s <= 59)%Z
    /\ (h * 3600 + m * 60 + s)%Z = Qfloor (ms / inject_Z 1000)
    /\ text
       = (if (0 <? h)%Z then
            JS.Int_toString h ++ "h " ++ JS.Int_toString m ++ "m "
              ++ JS.Int_toString s ++ "s"
          else if (0 <? m)%Z then
            JS.Int_toString m ++ "m " ++ JS.Int_toString s ++ "s"
          else JS.Int_toString s ++ "s")%string
    /\ reported_seconds text = Some (Qfloor (ms / inject_Z 1000))
    /\ (processed = total -> text = "0s"%string)
    /\ (nowMs = startTime -> text = "0s"%string).
Proof.
  intros Hs Hn Hn53 Hp Hpt Ht B text.
  assert (NZ : is_zero (of_Z processed) = false).
  { destruct (of_Z_number processed ltac:(lia)) as (q & -> & Eq).
    cbn [is_zero]. apply Qeq_bool_false.
    pose proof (inject_Z_pos processed Hp). lra. }
  destruct (Z.eq_dec nowMs startTime) as [E|NE].
  - (* no time has elapsed *)
    assert (T0 : text = "0s"%string).
    { unfold text, calculateETA. rewrite NZ, E.
      rewrite (etaMs_no_time startTime processed total
                 ltac:(lia) Hp Hpt Ht).
      vm_compute. reflexivity. }
    exists 0, 0%Z, 0%Z, 0%Z.
    split.
    { rewrite E, (etaMs_no_time startTime processed total
                    ltac:(lia) Hp Hpt Ht).
      exists 0. split; reflexivity. }
    split; [discriminate |]. split; [lia |]. split; [lia |].
    split; [lia |]. split; [reflexivity |].
    split; [exact T0 |]. rewrite T0.
    split; [reflexivity |]. split; intros _; reflexivity.
  - destruct (calculateETA_reports digits nowMs startTime processed total
                Hs ltac:(lia) Hn53 Hp Hpt Ht B)
      as (Tx & R & H0 & M0 & S0 & X0).
    destruct (etaMs_number nowMs startTime processed total
                Hs ltac:(lia) Hn53 Hp Hpt Ht B) as (N & _).
    fold text in Tx, R.
    set (x := nearest (inject_Z (total - processed)
                       / nearest (inject_Z processed
                                  / inject_Z (nowMs - startTime)))) in *.
    exists x, (Qfloor (x / inject_Z 3600000)),
      (Qfloor (x / inject_Z 60000)
       - 60 * Qfloor (x / inject_Z 3600000))%Z,
      (Qfloor (x / inject_Z 1000) - 60 * Qfloor (x / inject_Z 60000))%Z.
    split; [exact N |]. split; [exact X0 |]. split; [exact H0 |].
    split; [exact M0 |]. split; [exact S0 |]. split; [lia |].
    split; [exact Tx |]. split; [exact R |].
    split; [| intros E; contradiction].
    intros E. rewrite Tx.
    assert (X : x = 0).
    { unfold x. rewrite E, Z.sub_diag. apply nearest_zero. reflexivity. }
    rewrite X. reflexivity.
Qed.

End ClockProperties.

Lemma calculateETA_renders_a_clock_witness :
  let digits := fun _ : Q => "" in
  UtilsNum.calculateETA digits 61000 (IEEE.of_Z 30) (IEEE.of_Z 90)
                        (IEEE.of_Z 1000) = "2m 0s"
  /\ UtilsNum.calculateETA digits 1000 (IEEE.of_Z 17) (IEEE.of_Z 34)
                           (IEEE.of_Z 0) = "0s"
  /\ exists ms : Q,
       IEEE.is_number
         (UtilsNum.etaMs 1000 (IEEE.of_Z 17) (IEEE.of_Z 34) (IEEE.of_Z 0)) ms
       /\ Some 0 = Some (Qfloor (ms / inject_Z 1000)).
Proof.
  intros digits.
  destruct (calculateETA_renders_a_clock digits 1000 17 34 0
              ltac:(lia) ltac:(lia) ltac:(vm_compute; discriminate)
              ltac:(lia) ltac:(lia) ltac:(vm_compute; discriminate)
              ltac:(vm_compute; discriminate))
    as (ms & h & m & s & N & _ & _ & _ & _ & _ & _ & R & _).
  split; [reflexivity |]. split; [reflexivity |].
  exists ms. split; [exact N | exact R].
Defined.

Section PercentageProperties.
Import IEEE UtilsNum.
Local Open Scope Q_scope.

Lemma scaled_ratio_nonneg (c t : Z) :
  (0 <= c)%Z -> (0 < t)%Z -> 0 <= scaled_ratio c t.
Proof.
  intros Hc Ht. unfold scaled_ratio.
  pose proof (inject_Z_pos t Ht) as Qt.
  assert (Qc : 0 <= inject_Z c)
    by (change 0 with (inject_Z 0); rewrite <- Zle_Qle; exact Hc).
  assert (A : 0 <= nearest (inject_Z c / inject_Z t))
    by (apply nearest_nonneg, Qdiv_nonneg; assumption).
  assert (B : 0 <= nearest (nearest (inject_Z c / inject_Z t)
                            * inject_Z 100))
    by (apply nearest_nonneg, Qmult_le_0_compat; [exact A | discriminate]).
  apply nearest_nonneg, Qmult_le_0_compat; [exact B | discriminate].
Qed.

Lemma scaled_ratio_mono (c c' t : Z) :
  (0 <= c)%Z -> (c <= c')%Z -> (0 < t)%Z ->
  scaled_ratio c t <= scaled_ratio c' t.
Proof.
  intros Hc Hcc Ht. unfold scaled_ratio.
  pose proof (inject_Z_pos t Ht) as Qt.
  assert (Qc : 0 <= inject_Z c)
    by (change 0 with (inject_Z 0); rewrite <- Zle_Qle; exact Hc).
  assert (Q0 : 0 <= inject_Z c / inject_Z t)
    by (apply Qdiv_nonneg; assumption).
  assert (L0 : inject_Z c / inject_Z t <= inject_Z c' / inject_Z t).
  { unfold Qdiv. apply Qmult_le_compat_r.
    - rewrite <- Zle_Qle. exact Hcc.
    - apply Qinv_le_0_compat, Qlt_le_weak, Qt. }
  pose proof (nearest_nonneg _ Q0) as A0.
  pose proof (nearest_mono _ _ Q0 L0) as A1.
  assert (B0 : 0 <= nearest (inject_Z c / inject_Z t) * inject_Z 100)
    by (apply Qmult_le_0_compat; [exact A0 | discriminate]).
  assert (L1 : nearest (inject_Z c / inject_Z t) * inject_Z 100
               <= nearest (inject_Z c' / inject_Z t) * inject_Z 100)
    by (apply Qmult_le_compat_r; [exact A1 | discriminate]).
  pose proof (nearest_nonneg _ B0) as C0.
  pose proof (nearest_mono _ _ B0 L1) as C1.
  apply nearest_mono.
  - apply Qmult_le_0_compat; [exact C0 | discriminate].
  - apply Qmult_le_compat_r; [exact C1 | discriminate].
Qed.

(** The result of [calculatePercentage] on whole numbers, as a
    rational. *)
Lemma percentage_mono (c c' t : Z) :
  (0 <= c)%Z -> (c <= c')%Z -> (0 < t)%Z ->
  nearest (inject_Z (Qfloor (scaled_ratio c t + (1 # 2))) / inject_Z 100)
  <= nearest (inject_Z (Qfloor (scaled_ratio c' t + (1 # 2)))
              / inject_Z 100).
Proof.
  intros Hc Hcc Ht.
  pose proof (scaled_ratio_nonneg c t Hc Ht) as S0.
  pose proof (scaled_ratio_mono c c' t Hc Hcc Ht) as S1.
  assert (K0 : (0 <= Qfloor (scaled_ratio c t + (1 # 2)))%Z)
    by (apply Qfloor_nonneg; lra).
  assert (K1 : (Qfloor (scaled_ratio c t + (1 # 2))
                <= Qfloor (scaled_ratio c' t + (1 # 2)))%Z)
    by (apply Qfloor_resp_le; lra).
  apply nearest_mono.
  - apply Qdiv_nonneg; [| reflexivity].
    change 0 with (inject_Z 0). rewrite <- Zle_Qle. exact K0.
  - unfold Qdiv. apply Qmult_le_compat_r; [| discriminate].
    rewrite <- Zle_Qle. exact K1.
Qed.

Lemma percentage_of_nothing (t : Z) :
  (0 < t)%Z ->
  nearest (inject_Z (Qfloor (scaled_ratio 0 t + (1 # 2))) / inject_Z 100)
  == 0.
Proof.
  intros Ht. unfold scaled_ratio.
  rewrite (nearest_zero (inject_Z 0 / inject_Z t)) by reflexivity.
  rewrite (nearest_zero (0 * inject_Z 100)) by reflexivity.
  rewrite (nearest_zero (0 * inject_Z 100)) by reflexivity.
  vm_compute. reflexivity.
Qed.

Lemma percentage_of_all (t : Z) :
  (0 < t)%Z ->
  nearest (inject_Z (Qfloor (scaled_ratio t t + (1 # 2))) / inject_Z 100)
  == 100.
Proof.
  intros Ht. unfold scaled_ratio.
  pose proof (inject_Z_pos t Ht) as Qt.
  assert (E0 : inject_Z t / inject_Z t == inject_Z 1).
  { change (inject_Z 1) with 1. field.
    intros Z0. rewrite Z0 in Qt. discriminate. }
  assert (P0 : 0 <= inject_Z t / inject_Z t)
    by (rewrite E0; discriminate).
  assert (A : nearest (inject_Z t / inject_Z t) == 1).
  { rewrite (nearest_proper _ _ P0 E0). vm_compute. reflexivity. }
  assert (E1 : nearest (inject_Z t / inject_Z t) * inject_Z 100
               == inject_Z 100) by (rewrite A; reflexivity).
  assert (P1 : 0 <= nearest (inject_Z t / inject_Z t) * inject_Z 100)
    by (rewrite E1; discriminate).
  assert (B : nearest (nearest (inject_Z t / inject_Z t) * inject_Z 100)
              == 100).
  { rewrite (nearest_proper _ _ P1 E1). vm_compute. reflexivity. }
  assert (E2 : nearest (nearest (inject_Z t / inject_Z t) * inject_Z 100)
               * inject_Z 100 == inject_Z 10000)
    by (rewrite B; reflexivity).
  assert (C : nearest
                (nearest (nearest (inject_Z t / inject_Z t) * inject_Z 100)
                 * inject_Z 100) == 10000).
  { assert (P2 : 0 <= nearest (nearest (inject_Z t / inject_Z t)
                               * inject_Z 100) * inject_Z 100)
      by (rewrite E2; discriminate).
    rewrite (nearest_proper _ _ P2 E2). vm_compute. reflexivity. }
  assert (K : Qfloor
                (nearest
                   (nearest (nearest (inject_Z t / inject_Z t)
                             * inject_Z 100) * inject_Z 100) + (1 # 2))
              = 10000%Z).
  { rewrite (Qfloor_comp _ (10000 + (1 # 2))); [reflexivity |].
    rewrite C. reflexivity. }
  rewrite K. vm_compute. reflexivity.
Qed.

(** X3 (calculatePercentage): for whole numbers
    [0 <= current <= total], [0 < total <= 2 ^ 53], the result is a
    finite number between 0 and 100, it is 0 for [current = 0] and 100
    for [current = total], and it does not go down when [current]
    goes up. *)
Theorem calculatePercentage_range_and_order (current total : Z) :
  (0 <= current)%Z -> (current <= total)%Z -> (0 < total)%Z ->
  (total <= 2 ^ 53)%Z ->
  exists v : Q,
    is_number (calculatePercentage (of_Z current) (of_Z total)) v
    /\ 0 <= v /\ v <= 100
    /\ is_number (calculatePercentage (of_Z 0) (of_Z total)) 0
    /\ is_number (calculatePercentage (of_Z total) (of_Z total)) 100
    /\ (forall current' : Z,
          (current <= current')%Z -> (current' <= 2 ^ 53)%Z ->
          exists v' : Q,
            is_number (calculatePercentage (of_Z current') (of_Z total)) v'
            /\ v <= v').
Proof.
  intros Hc Hct Ht Ht53.
  destruct (percentage_number current total ltac:(lia) ltac:(lia))
    as (N & K0 & _).
  destruct (percentage_number 0 total ltac:(lia) ltac:(lia))
    as (N0 & _).
  destruct (percentage_number total total ltac:(lia) ltac:(lia))
    as (N1 & _).
  eexists. split; [exact N |].
  split.
  { apply nearest_nonneg. apply Qdiv_nonneg; [| reflexivity].
    change 0 with (inject_Z 0). rewrite <- Zle_Qle. exact K0. }
  split.
  { rewrite <- (percentage_of_all total Ht).
    apply percentage_mono; assumption. }
  split; [exact (is_number_eq _ _ _ N0 (percentage_of_nothing total Ht)) |].
  split; [exact (is_number_eq _ _ _ N1 (percentage_of_all total Ht)) |].
  intros c' Hcc Hc'.
  destruct (percentage_number c' total ltac:(lia) ltac:(lia))
    as (N' & _).
  eexists. split; [exact N' |].
  apply percentage_mono; assumption.
Qed.

End PercentageProperties.

Lemma calculatePercentage_range_and_order_witness :
  IEEE.is_number
    (UtilsNum.calculatePercentage (IEEE.of_Z 23) (IEEE.of_Z 160))
    (IEEE.nearest (1437 # 100))
  /\ IEEE.is_number
       (UtilsNum.calculatePercentage (IEEE.of_Z 24) (IEEE.of_Z 160))
       (inject_Z 15)
  /\ exists v v' : Q,
       IEEE.is_number
         (UtilsNum.calculatePercentage (IEEE.of_Z 23) (IEEE.of_Z 160)) v
       /\ IEEE.is_number
            (UtilsNum.calculatePercentage (IEEE.of_Z 24) (IEEE.of_Z 160)) v'
       /\ (0 <= v)%Q /\ (v <= v')%Q /\ (v <= 100)%Q.
Proof.
  destruct (calculatePercentage_range_and_order 23 160
              ltac:(lia) ltac:(lia) ltac:(lia)
              ltac:(vm_compute; discriminate))
    as (v & N & V0 & V100 & _ & _ & M).
  destruct (M 24%Z ltac:(lia) ltac:(vm_compute; discriminate))
    as (v' & N' & Le).
  split.
  { exists (IEEE.value
              (UtilsNum.calculatePercentage (IEEE.of_Z 23) (IEEE.of_Z 160))).
    split; vm_compute; reflexivity. }
  split.
  { exists (IEEE.value
              (UtilsNum.calculatePercentage (IEEE.of_Z 24) (IEEE.of_Z 160))).
    split; vm_compute; reflexivity. }
  exists v, v'. auto.
Defined.
